(** * Peano addition by tree edit scripts: a shallow embedding of
      [peano_addition.py] and the properties of its rewriting engine. *)

From Stdlib Require Import ZArith Lia String Ascii DecimalString DecimalPos DecimalZ QArith Qabs.
From stdpp Require Import base option list gmap strings.

Local Open Scope string_scope.
Local Open Scope list_scope.
Local Open Scope Z_scope.

(** ** Python exceptions and results *)

Inductive error :=
| IndexError        (* list or array index out of range *)
| KeyError          (* dictionary key missing *)
| ValueError        (* int() of a label that is no decimal literal *)
| OutOfRange        (* edit position outside the tree *)
| InvalidSpan       (* an insertion whose slot + span lies beyond the child
                       count: the kind InvalidSpan/InvalidDecision of the
                       specification *)
| ZeroDivisionError
| AlignmentInconsistency
| NonTerminating.

(** [Unfinished]: the fuel of a [while] loop ran out before the loop
    stopped; no Python run ends this way. *)
Inductive res (A : Type) :=
| Ok (a : A)
| Err (e : error)
| Unfinished.
Arguments Ok {A} a.
Arguments Err {A} e.
Arguments Unfinished {A}.

#[global] Instance res_ret : MRet res := fun A a => Ok a.
#[global] Instance res_bind : MBind res := fun A B f r =>
  match r with
  | Ok a => f a
  | Err e => Err e
  | Unfinished => Unfinished
  end.

Definition lookup_err {A} (l : list A) (i : nat) : res A :=
  match l !! i with
  | Some x => Ok x
  | None => Err IndexError
  end.

(** ** Labels

    Labels are Python strings, taken here as ASCII strings.  [py_str] is
    [str] on integers.  [py_int] is [int] on a string: blanks around the
    literal are dropped, a sign may lead it, and single underscores may
    separate its digits; every other string raises [ValueError].  (On
    characters outside ASCII, where [int] also reads the decimal digits and
    blanks of other scripts, the model raises [ValueError]; no label of the
    alphabet holds one.) *)

Definition alphabet : list string :=
  ["+"; "0"; "1"; "2"; "3"; "4"; "5"; "6"; "7"; "8"; "9"; "succ"; "root"].

Definition py_str (z : Z) : string := NilZero.string_of_int (Z.to_int z).

(** [str.isspace] on ASCII: tab to carriage return, the four separators
    and the blank *)
Definition py_space (a : ascii) : bool :=
  let n := nat_of_ascii a in
  ((9 <=? n) && (n <=? 13) || (28 <=? n) && (n <=? 32))%nat.

Definition py_digit (a : ascii) : bool :=
  let n := nat_of_ascii a in ((48 <=? n) && (n <=? 57))%nat.

Fixpoint lstrip (s : string) : string :=
  match s with
  | String a s' => if py_space a then lstrip s' else s
  | EmptyString => s
  end.

Fixpoint rstrip (s : string) : string :=
  match s with
  | EmptyString => EmptyString
  | String a s' =>
      match rstrip s' with
      | EmptyString => if py_space a then EmptyString else String a EmptyString
      | r => String a r
      end
  end.

(** the digits of a literal without its underscores; an underscore must
    stand between two digits, and there must be a digit *)
Fixpoint digits_of (s : string) (after_digit : bool) : option string :=
  match s with
  | EmptyString => if after_digit then Some EmptyString else None
  | String a s' =>
      if py_digit a then String a <$> digits_of s' true
      else if Ascii.eqb a "_" then
        if after_digit then digits_of s' false else None
      else None
  end.

(** the canonical form of a literal: the sign [-] if there is one, then
    the digits *)
Definition literal (s : string) : option string :=
  match rstrip (lstrip s) with
  | String a r =>
      if Ascii.eqb a "+" then digits_of r false
      else if Ascii.eqb a "-" then String a <$> digits_of r false
      else digits_of (String a r) false
  | EmptyString => None
  end.

Definition py_int (s : string) : res Z :=
  match literal s with
  | Some s' =>
      match NilZero.int_of_string s' with
      | Some d => Ok (Z.of_int d)
      | None => Err ValueError
      end
  | None => Err ValueError
  end.

(** ** Trees: a node list in preorder and an adjacency list *)

Abbreviation tree := (list string * list (list nat))%type.

(** ** Edits and scripts (edist.tree_edits) *)

Inductive edit :=
| Deletion (pos : Z)
| Insertion (pos : Z) (child_slot : nat) (label : string) (span : nat)
| Replacement (pos : Z) (label : string).

#[global] Instance edit_eq_dec : EqDecision edit.
Proof. solve_decision. Defined.

Abbreviation script := (list edit).

Definition valid_pos (p : Z) (n : nat) : option nat :=
  if (0 <=? p) && (p <? Z.of_nat n) then Some (Z.to_nat p) else None.

(** a child list in which node [p] gives way to its own children *)
Fixpoint splice (p : nat) (ch : list nat) (row : list nat) : list nat :=
  match row with
  | [] => []
  | x :: row' => (if Nat.eqb x p then ch else [x]) ++ splice p ch row'
  end.

Definition dec_above (p x : nat) : nat := if Nat.ltb p x then Nat.pred x else x.
Definition inc_from (k x : nat) : nat := if Nat.leb k x then S x else x.

(** the last node of the subtree of [j]: follow last children *)
Fixpoint rightmost (fuel : nat) (adj : list (list nat)) (j : nat) : nat :=
  match fuel with
  | O => j
  | S f =>
      match adj !! j with
      | Some row =>
          match last row with
          | Some k => rightmost f adj k
          | None => j
          end
      | None => j
      end
  end.

(** Modelled from the spec: [Replacement.apply] of edist.tree_edits, which
    is not part of this repository's sources: a label swap that fails with
    [OutOfRange] on an invalid position. *)
Definition apply_replacement (p : Z) (lab : string) (t : tree) : res tree :=
  match valid_pos p (length t.1) with
  | Some i => Ok (<[i := lab]> t.1, t.2)
  | None => Err OutOfRange
  end.

(** Modelled from the spec: [Deletion.apply] of edist.tree_edits.  The node
    is removed from the node sequence, its children take its place in the
    child list of its parent (rules 1, 2 and 4 of the module docstring keep
    the operands of a deleted operator), and every index above [pos] is
    decremented. *)
Definition apply_deletion (p : Z) (t : tree) : res tree :=
  match valid_pos p (length t.1) with
  | Some i =>
      match t.2 !! i with
      | Some ch =>
          Ok (delete i t.1,
              fmap (fun row => fmap (dec_above i) (splice i ch row)) (delete i t.2))
      | None => Err OutOfRange
      end
  | None => Err OutOfRange
  end.

(** Modelled from the spec: [Insertion.apply] of edist.tree_edits.  The new
    node becomes child number [c] of node [pos] and adopts the [span]
    children that started there; its index is the index of the former child
    [c], or one past the last descendant of [pos] when [c] is the child
    count (the same index [predict_step] shifts from).  Fails with
    [InvalidSpan] when [c + span] exceeds the child count. *)
Definition apply_insertion (p : Z) (c : nat) (lab : string) (span : nat)
    (t : tree) : res tree :=
  match valid_pos p (length t.1) with
  | Some i =>
      match t.2 !! i with
      | Some ch =>
          if Nat.ltb (length ch) (c + span) then Err InvalidSpan
          else
            let k := match ch !! c with
                     | Some j => j
                     | None => S (rightmost (length t.2) t.2 i)
                     end in
            let ch' := fmap (inc_from k) ch in
            let rows := <[i := take c ch' ++ [k] ++ drop (c + span) ch']>
                          (fmap (fmap (M := list) (inc_from k)) t.2) in
            Ok (take k t.1 ++ [lab] ++ drop k t.1,
                take k rows ++ [take span (drop c ch')] ++ drop k rows)
      | None => Err OutOfRange
      end
  | None => Err OutOfRange
  end.

Definition apply_edit (e : edit) (t : tree) : res tree :=
  match e with
  | Deletion p => apply_deletion p t
  | Insertion p c lab span => apply_insertion p c lab span t
  | Replacement p lab => apply_replacement p lab t
  end.

(** Modelled from the spec: [Script.apply], the edits applied strictly in
    script order, each to the result of the ones before it. *)
Fixpoint apply_script (s : script) (t : tree) : res tree :=
  match s with
  | [] => Ok t
  | e :: s' => t' ← apply_edit e t; apply_script s' t'
  end.

(** ** The matcher pass of [_simplify] *)

(** [sh[lo:hi] += d] on a numpy array (slice bounds are clipped) *)
Definition slice_add (lo hi : nat) (d : Z) (sh : list Z) : list Z :=
  imap (fun k x => if Nat.leb lo k && Nat.ltb k hi then x + d else x) sh.

(** [sh[lo:] += d] *)
Definition slice_add_from (lo : nat) (d : Z) (sh : list Z) : list Z :=
  slice_add lo (length sh) d sh.

Definition set_parent (n i : nat) (pi : list nat) (j : nat) : res (list nat) :=
  if Nat.ltb j n then Ok (<[j := i]> pi) else Err IndexError.

Fixpoint foldM {A B} (f : B -> A -> res B) (l : list A) (b : B) : res B :=
  match l with
  | [] => Ok b
  | a :: l' => b' ← f b a; foldM f l' b'
  end.

(** [pi = np.zeros(len(nodes)); for i: for j in adj[i]: pi[j] = i] *)
Definition parents (n : nat) (adj : list (list nat)) : res (list nat) :=
  foldM (fun pi i => row ← lookup_err adj i; foldM (set_parent n i) row pi)
        (seq 0 n) (replicate n 0%nat).

(** the body of the [for i in range(len(nodes))] loop: the edits appended
    at node [i] and the index shift after it *)
Definition visit (nodes : list string) (adj : list (list nat)) (pi : list nat)
    (i : nat) (sh : list Z) : res (script * list Z) :=
  lab ← lookup_err nodes i;
  if String.eqb lab "+" then
    row ← lookup_err adj i;
    right ← lookup_err row 1;
    rl ← lookup_err nodes right;
    if String.eqb rl "0" then
      si ← lookup_err sh i;
      let sh1 := slice_add_from (i + 1) (-1) sh in
      sr ← lookup_err sh1 right;
      let sh2 := slice_add_from (right + 1) (-1) sh1 in
      Ok ([Deletion (Z.of_nat i + si); Deletion (Z.of_nat right + sr)], sh2)
    else if String.eqb rl "succ" then
      si ← lookup_err sh i;
      let sh1 := slice_add (i + 1) (right + 1) 1 sh in
      sr ← lookup_err sh1 right;
      Ok ([Insertion (Z.of_nat i + si) 0 "succ" 1;
           Deletion (Z.of_nat right + sr)], sh1)
    else if negb (String.eqb rl "+") then
      v ← py_int rl;
      let pred := py_str (v - 1) in
      si ← lookup_err sh i;
      let sh1 := slice_add_from right 1 sh in
      sr ← lookup_err sh1 right;
      Ok ([Insertion (Z.of_nat i + si) 1 "succ" 1;
           Replacement (Z.of_nat right + sr) pred], sh1)
    else Ok ([], sh)
  else if String.eqb lab "succ" then
    p ← lookup_err pi i;
    pl ← lookup_err nodes p;
    if negb (String.eqb pl "+") || (Z.of_nat p =? Z.of_nat i - 1) then
      row ← lookup_err adj i;
      child ← lookup_err row 0;
      cl ← lookup_err nodes child;
      if negb (String.eqb cl "succ" || String.eqb cl "+") then
        si ← lookup_err sh i;
        let sh1 := slice_add_from (i + 1) (-1) sh in
        sc ← lookup_err sh1 child;
        v ← py_int cl;
        Ok ([Deletion (Z.of_nat i + si);
             Replacement (Z.of_nat child + sc) (py_str ((v + 1) mod 10))], sh1)
      else Ok ([], sh)
    else Ok ([], sh)
  else Ok ([], sh).

(** the [for] loop over a list of node indices, threading the script and
    the shift array *)
Fixpoint scan (nodes : list string) (adj : list (list nat)) (pi : list nat)
    (ixs : list nat) (st : script * list Z) : res (script * list Z) :=
  match ixs with
  | [] => Ok st
  | i :: ixs' =>
      r ← visit nodes adj pi i st.2;
      scan nodes adj pi ixs' (st.1 ++ r.1, r.2)
  end.

(** one iteration of the [while True] loop up to the emptiness test *)
Definition match_pass (t : tree) : res script :=
  let n := length t.1 in
  pi ← parents n t.2;
  st ← scan t.1 t.2 pi (seq 0 n) ([], replicate n 0);
  Ok st.1.

(** the [while True] loop *)
Fixpoint simplify_loop (fuel : nat) (t : tree) (series : list tree)
    : res (list tree) :=
  match fuel with
  | O => Unfinished
  | S f =>
      s ← match_pass t;
      match s with
      | [] => Ok series
      | _ => t' ← apply_script s t; simplify_loop f t' (series ++ [t'])
      end
  end.

Definition _simplify (fuel : nat) (t : tree) : res (list tree) :=
  simplify_loop fuel t [t].

(** ** [peano_alignment] *)

(** the body of the first loop: the dictionary [left_to_right] and the
    index shift after node [i] *)
Definition visit_align (nodes : list string) (adj : list (list nat))
    (pi : list nat) (i : nat) (st : gmap nat Z * list Z)
    : res (gmap nat Z * list Z) :=
  lab ← lookup_err nodes i;
  st1 ← (if String.eqb lab "+" then
           row ← lookup_err adj i;
           right ← lookup_err row 1;
           rl ← lookup_err nodes right;
           if String.eqb rl "0" then
             Ok (<[right := -1]> (<[i := -1]> st.1),
                 slice_add_from (right + 1) (-1) (slice_add_from i (-1) st.2))
           else if String.eqb rl "succ" then
             Ok (<[right := -1]> st.1, slice_add (i + 1) (right + 1) 1 st.2)
           else if negb (String.eqb rl "+") then
             Ok (st.1, slice_add_from right 1 st.2)
           else Ok st
         else if String.eqb lab "succ" then
           p ← lookup_err pi i;
           pl ← lookup_err nodes p;
           if negb (String.eqb pl "+") || (Z.of_nat p =? Z.of_nat i - 1) then
             row ← lookup_err adj i;
             child ← lookup_err row 0;
             cl ← lookup_err nodes child;
             if negb (String.eqb cl "succ" || String.eqb cl "+") then
               Ok (<[i := -1]> st.1, slice_add_from i (-1) st.2)
             else Ok st
           else Ok st
         else Ok st);
  match st1.1 !! i with
  | Some _ => Ok st1
  | None => si ← lookup_err st1.2 i; Ok (<[i := Z.of_nat i + si]> st1.1, st1.2)
  end.

(** the second loop with its cursor [j]: the tuples appended from node [i]
    on *)
Fixpoint merge_pass (ltr : gmap nat Z) (ixs : list nat) (j : Z) : res (list (Z * Z)) :=
  match ixs with
  | [] => Ok []
  | i :: ixs' =>
      match ltr !! i with
      | None => Err KeyError
      | Some v =>
          if v <? 0 then
            al ← merge_pass ltr ixs' j; Ok ((Z.of_nat i, -1) :: al)
          else
            (* while j < v: append (-1, j); j += 1 *)
            let j' := Z.max j v in
            al ← merge_pass ltr ixs' (j' + 1);
            Ok (fmap (fun k => (-1, k)) (seqZ j (v - j)) ++ (Z.of_nat i, j') :: al)
      end
  end.

Definition left_to_right (t : tree) : res (gmap nat Z) :=
  let n := length t.1 in
  pi ← parents n t.2;
  st ← foldM (fun st i => visit_align t.1 t.2 pi i st) (seq 0 n)
         (∅, replicate n 0);
  Ok st.1.

(** the successor tree is an argument the function never reads *)
Definition peano_alignment (t next : tree) : res (list (Z * Z)) :=
  ltr ← left_to_right t;
  merge_pass ltr (seq 0 (length t.1)) 0.

(** every index below [n] exactly once and in order, sentinels apart *)
Definition covers (n : nat) (l : list Z) : bool :=
  bool_decide (filter (fun x => x ≠ -1) l = seqZ 0 (Z.of_nat n)).

Definition alignment_ok (t next : tree) (al : list (Z * Z)) : bool :=
  covers (length t.1) al.*1 && covers (length next.1) al.*2
  && bool_decide ((-1, -1) ∉ al).

(** ** [predict_step]

    The network is an external collaborator: its four output tensors are an
    input of the model.  A deletion score is a number or NaN: the three loops
    compare it with 0.5, 0.5 and -0.5, and a NaN fails every comparison (an
    infinite score passes and fails the comparisons that a large finite one
    does).  The rows of [types] and [Cidx] are read by argmax only and the
    scores of [Cnum] by one comparison each, so that a NaN there acts as some
    number does; these rows hold rational scores. *)

Inductive score :=
| Fin (q : Q)
| NaN.

Record prediction := {
  delta : list score;
  types : list (list Q);
  Cidx : list (list Q);
  Cnum : list (list Q)
}.

Definition half : Q := 1 # 2.

(** [x > 0.5] *)
Definition gt_half (x : Q) : bool := negb (Qle_bool x half).

(** the guards of the three loops: [torch.abs(d) > 0.5], [d <= 0.5] and
    [d >= -0.5] *)
Definition abs_above_half (d : score) : bool :=
  match d with Fin q => gt_half (Qabs q) | NaN => false end.
Definition at_most_half (d : score) : bool :=
  match d with Fin q => Qle_bool q half | NaN => false end.
Definition at_least_minus_half (d : score) : bool :=
  match d with Fin q => Qle_bool (- half) q | NaN => false end.

(** [torch.argmax] of a row: the index of the first maximal score *)
Fixpoint argmax_aux (l : list Q) (i best_i : nat) (best : Q) : nat :=
  match l with
  | [] => best_i
  | x :: l' =>
      if Qle_bool x best then argmax_aux l' (S i) best_i best
      else argmax_aux l' (S i) i x
  end.

Definition argmax (l : list Q) : res nat :=
  match l with
  | [] => Err IndexError
  | x :: l' => Ok (argmax_aux l' 1 0 x)
  end.

(** [alpha[argmax(types[i, :])]] *)
Definition type_pred (alpha : list string) (p : prediction) (i : nat) : res string :=
  row ← lookup_err (types p) i;
  k ← argmax row;
  lookup_err alpha k.

(** the first loop, at node [i] *)
Definition visit_replace (alpha : list string) (p : prediction)
    (nodes : list string) (s : script) (i : nat) : res script :=
  d ← lookup_err (delta p) i;
  if abs_above_half d then Ok s
  else
    lab ← type_pred alpha p i;
    cur ← lookup_err nodes i;
    if negb (String.eqb lab cur) then Ok (s ++ [Replacement (Z.of_nat i) lab])
    else Ok s.

(** [while c + C < len(adj[i]) and Cnum[i, c + C] > 0.5: C += 1] *)
Fixpoint span_loop (fuel : nat) (scores : list Q) (deg c C : nat) : res nat :=
  match fuel with
  | O => Ok C
  | S f =>
      if Nat.ltb (c + C) deg then
        x ← lookup_err scores (c + C);
        if gt_half x then span_loop f scores deg c (S C) else Ok C
      else Ok C
  end.

(** [j = i; while adj[j]: j = adj[j][-1]] *)
Fixpoint last_descendant (fuel : nat) (adj : list (list nat)) (j : nat) : res nat :=
  match fuel with
  | O => Unfinished
  | S f =>
      row ← lookup_err adj j;
      match last row with
      | None => Ok j
      | Some k => last_descendant f adj k
      end
  end.

(** the index from which an insertion at node [i], child slot [c], shifts *)
Definition shift_start (fuel : nat) (adj : list (list nat)) (i c : nat) : res nat :=
  row ← lookup_err adj i;
  match row !! c with
  | Some j => Ok j
  | None => j ← last_descendant fuel adj i; Ok (S j)
  end.

(** the second loop, at node [i] *)
Definition visit_insert (fuel : nat) (alpha : list string) (p : prediction)
    (adj : list (list nat)) (st : script * list Z) (i : nat)
    : res (script * list Z) :=
  d ← lookup_err (delta p) i;
  if at_most_half d then Ok st
  else
    lab ← type_pred alpha p i;
    crow ← lookup_err (Cidx p) i;
    c ← argmax crow;
    row ← lookup_err adj i;
    scores ← lookup_err (Cnum p) i;
    C ← span_loop (length row) scores (length row) c 0;
    si ← lookup_err st.2 i;
    j ← shift_start fuel adj i c;
    Ok (st.1 ++ [Insertion (Z.of_nat i + si) c lab C], slice_add_from j 1 st.2).

(** the third loop, at node [i] *)
Definition visit_delete (p : prediction) (ins_shift : list Z) (s : script)
    (i : nat) : res script :=
  d ← lookup_err (delta p) i;
  if at_least_minus_half d then Ok s
  else
    si ← lookup_err ins_shift i;
    Ok (s ++ [Deletion (Z.of_nat i + si)]).

(** the script of [predict_step] *)
Definition predict_script (fuel : nat) (alpha : list string) (p : prediction)
    (t : tree) : res script :=
  let n := length t.1 in
  s1 ← foldM (visit_replace alpha p t.1) (seq 0 n) [];
  st ← foldM (visit_insert fuel alpha p t.2) (seq 0 n) (s1, replicate n 0);
  foldM (visit_delete p st.2) (rev (seq 0 n)) st.1.

Definition predict_step (fuel : nat) (alpha : list string) (p : prediction)
    (t : tree) : res (script * tree) :=
  s ← predict_script fuel alpha p t;
  t' ← apply_script s t;
  Ok (s, t').

(** ** [_generate_tree]

    The draws of [np.random.choice] are an input of the model: the list of
    the indices sampled, in order.  A draw of probability zero is no run of
    the program. *)

Definition in_support (plus : bool) (max_input : Z) (r : nat) : bool :=
  (plus && Nat.eqb r 0) || ((2 <=? Z.of_nat r) && (Z.of_nat r <=? max_input + 1)).

(** the [while stk] loop; the head of [stk] is the top of the stack *)
Fixpoint generate_loop (draws : list nat) (max_input : Z) (max_additions : Z)
    (nodes : list string) (adj : list (list nat)) (stk : list nat) : res tree :=
  match stk with
  | [] => Ok (nodes, adj)
  | p :: stk' =>
      match draws with
      | [] => Unfinished
      | r :: draws' =>
          if negb (in_support (0 <? max_additions) max_input r) then Unfinished
          else
            let i := length nodes in
            label ← lookup_err alphabet r;
            row ← lookup_err adj p;
            let adj' := <[p := row ++ [i]]> (adj ++ [[]]) in
            if String.eqb label "+" then
              generate_loop draws' max_input (max_additions - 1)
                (nodes ++ [label]) adj' (i :: i :: stk')
            else
              generate_loop draws' max_input max_additions
                (nodes ++ [label]) adj' stk'
      end
  end.

Definition _generate_tree (draws : list nat) (max_additions max_input : Z) : res tree :=
  if max_input <? 1 then Err ValueError
  else
    let max_input := if 9 <? max_input then max_input mod 10 else max_input in
    if max_input =? 0 then Err ZeroDivisionError
    else generate_loop draws max_input max_additions ["root"] [[]] [0%nat].

(** ** Expressions and their preorder encoding *)

Inductive expr :=
| Num (n : Z)
| Succ (e : expr)
| Plus (l r : expr).

(** every numeral is one of the digits of the alphabet *)
Fixpoint digits (e : expr) : bool :=
  match e with
  | Num n => (0 <=? n) && (n <=? 9)
  | Succ e' => digits e'
  | Plus l r => digits l && digits r
  end.

(** ordered forests, first child / next sibling *)
Inductive forest :=
| FNil
| FCons (lab : string) (kids : forest) (sibs : forest).

Fixpoint fsize (f : forest) : nat :=
  match f with
  | FNil => 0
  | FCons _ c s => S (fsize c + fsize s)
  end.

Fixpoint fapp (f g : forest) : forest :=
  match f with
  | FNil => g
  | FCons l c s => FCons l c (fapp s g)
  end.

Fixpoint labels (f : forest) : list string :=
  match f with
  | FNil => []
  | FCons l c s => l :: labels c ++ labels s
  end.

(** the indices of the roots of a forest whose first node has index [o] *)
Fixpoint roots (o : nat) (f : forest) : list nat :=
  match f with
  | FNil => []
  | FCons _ c s => o :: roots (S (o + fsize c)) s
  end.

Fixpoint adjs (o : nat) (f : forest) : list (list nat) :=
  match f with
  | FNil => []
  | FCons _ c s => roots (S o) c :: adjs (S o) c ++ adjs (S (o + fsize c)) s
  end.

Definition flat (f : forest) : tree := (labels f, adjs 0 f).

(** the tree of [e] followed by the sibling forest [s] *)
Fixpoint tin (e : expr) (s : forest) : forest :=
  match e with
  | Num n => FCons (py_str n) FNil s
  | Succ e' => FCons "succ" (tin e' FNil) s
  | Plus l r => FCons "+" (tin l (tin r FNil)) s
  end.

Fixpoint esize (e : expr) : nat :=
  match e with
  | Num _ => 1
  | Succ e' => S (esize e')
  | Plus l r => S (esize l + esize r)
  end.

Definition tree_of_expr (e : expr) : tree := flat (FCons "root" (tin e FNil) FNil).

(** *** Edits on forests

    Positions are preorder positions within the forest.  These are the
    counterparts on forests of the edits on (nodes, adj) pairs. *)

Fixpoint ntrees (f : forest) : nat :=
  match f with
  | FNil => 0
  | FCons _ _ s => S (ntrees s)
  end.

Fixpoint fdel (p : nat) (f : forest) {struct f} : option forest :=
  match f with
  | FNil => None
  | FCons l c s =>
      match p with
      | O => Some (fapp c s)
      | S p' =>
          if Nat.ltb p' (fsize c) then c' ← fdel p' c; Some (FCons l c' s)
          else s' ← fdel (p' - fsize c) s; Some (FCons l c s')
      end
  end.

Fixpoint frep (p : nat) (lab : string) (f : forest) {struct f} : option forest :=
  match f with
  | FNil => None
  | FCons l c s =>
      match p with
      | O => Some (FCons lab c s)
      | S p' =>
          if Nat.ltb p' (fsize c) then c' ← frep p' lab c; Some (FCons l c' s)
          else s' ← frep (p' - fsize c) lab s; Some (FCons l c s')
      end
  end.

(** the first [n] trees of a forest and the rest *)
Fixpoint fsplit (n : nat) (f : forest) {struct n} : option (forest * forest) :=
  match n with
  | O => Some (FNil, f)
  | S n' =>
      match f with
      | FNil => None
      | FCons l c s => r ← fsplit n' s; Some (FCons l c r.1, r.2)
      end
  end.

(** a new node takes the place of tree number [c] and adopts [span] trees
    from there on; the slot [c] has to exist *)
Fixpoint fwrap (c span : nat) (lab : string) (f : forest) {struct f} : option forest :=
  match f with
  | FNil => None
  | FCons l k s =>
      match c with
      | O => r ← fsplit span f; Some (FCons lab r.1 r.2)
      | S c' => s' ← fwrap c' span lab s; Some (FCons l k s')
      end
  end.

Fixpoint fins (p c : nat) (lab : string) (span : nat) (f : forest) {struct f}
    : option forest :=
  match f with
  | FNil => None
  | FCons l k s =>
      match p with
      | O => k' ← fwrap c span lab k; Some (FCons l k' s)
      | S p' =>
          if Nat.ltb p' (fsize k) then k' ← fins p' c lab span k; Some (FCons l k' s)
          else s' ← fins (p' - fsize k) c lab span s; Some (FCons l k s')
      end
  end.

Definition fop (e : edit) (f : forest) : option forest :=
  match e with
  | Deletion p => if 0 <=? p then fdel (Z.to_nat p) f else None
  | Insertion p c lab span => if 0 <=? p then fins (Z.to_nat p) c lab span f else None
  | Replacement p lab => if 0 <=? p then frep (Z.to_nat p) lab f else None
  end.

Fixpoint fapply (s : script) (f : forest) : option forest :=
  match s with
  | [] => Some f
  | e :: s' => f' ← fop e f; fapply s' f'
  end.

(** an edit moved [k] positions to the right *)
Definition shift_edit (k : nat) (e : edit) : edit :=
  match e with
  | Deletion p => Deletion (p + Z.of_nat k)
  | Insertion p c lab span => Insertion (p + Z.of_nat k) c lab span
  | Replacement p lab => Replacement (p + Z.of_nat k) lab
  end.

(** what one matcher pass and its script do to an expression *)
Fixpoint step (e : expr) : expr :=
  match e with
  | Num n => Num n
  | Succ (Num n) => Num ((n + 1) mod 10)
  | Succ e' => Succ (step e')
  | Plus l (Num n) =>
      if n =? 0 then step l else Plus (step l) (Succ (Num (n - 1)))
  | Plus l (Succ r) => Plus (Succ (step l)) (step r)
  | Plus l (Plus _ _ as r) => Plus (step l) (step r)
  end.

(** the edits one pass emits in the subtree of [e] whose root sits at
    position [q] of the tree under construction *)
Fixpoint emit (e : expr) (q : nat) : script :=
  match e with
  | Num _ => []
  | Succ (Num n) =>
      [Deletion (Z.of_nat q); Replacement (Z.of_nat q) (py_str ((n + 1) mod 10))]
  | Succ e' => emit e' (S q)
  | Plus l (Num n) =>
      if n =? 0 then
        [Deletion (Z.of_nat q); Deletion (Z.of_nat (q + esize l))] ++ emit l q
      else
        [Insertion (Z.of_nat q) 1 "succ" 1;
         Replacement (Z.of_nat (q + esize l + 2)) (py_str (n - 1))]
        ++ emit l (S q)
  | Plus l (Succ r) =>
      [Insertion (Z.of_nat q) 0 "succ" 1; Deletion (Z.of_nat (q + esize l + 2))]
      ++ emit l (q + 2) ++ emit r (q + 2 + esize (step l))
  | Plus l (Plus _ _ as r) =>
      emit l (S q) ++ emit r (S (q + esize (step l)))
  end.

Definition t_plus_2_0 : tree :=
  (["root"; "+"; "2"; "0"], [[1]; [2; 3]; []; []])%nat.
Definition t_plus_1_s0 : tree :=
  (["root"; "+"; "1"; "succ"; "0"], [[1]; [2; 3]; []; [4]; []])%nat.

(** ** Example trees *)

Definition t_2 : tree := (["root"; "2"], [[1]; []])%nat.
Definition t_plus_s1_0 : tree :=
  (["root"; "+"; "succ"; "1"; "0"], [[1]; [2; 4]; [3]; []; []])%nat.
Definition t_s1 : tree := (["root"; "succ"; "1"], [[1]; [2]; []])%nat.

(** root→+(a, z), root→+(a, succ(z)) and root→+(succ(a), z) *)
Definition t_add (a z : Z) : tree :=
  (["root"; "+"; py_str a; py_str z], [[1]; [2; 3]; []; []])%nat.
Definition t_add_succ (a z : Z) : tree :=
  (["root"; "+"; py_str a; "succ"; py_str z], [[1]; [2; 3]; []; [4]; []])%nat.
Definition t_succ_add (a z : Z) : tree :=
  (["root"; "+"; "succ"; py_str a; py_str z], [[1]; [2; 4]; [3]; []; []])%nat.

(** whether the merge_pass loop meets a mapped index below its cursor *)
Fixpoint cursor_decreases (ltr : gmap nat Z) (ixs : list nat) (j : Z) : bool :=
  match ixs with
  | [] => false
  | i :: ixs' =>
      match ltr !! i with
      | None => false
      | Some v =>
          if v <? 0 then cursor_decreases ltr ixs' j
          else (v <? j) || cursor_decreases ltr ixs' (Z.max j v + 1)
      end
  end.

(** a malformed input: node 1 is a child of the root and of the "+" *)
Definition t_shared : tree :=
  (["root"; "0"; "5"; "+"; "1"], [[1; 2; 3]; []; []; [4; 1]; []])%nat.

(** ** The shape of generated trees *)

Definition arity (lab : string) : nat :=
  if String.eqb lab "root" then 1 else if String.eqb lab "+" then 2 else 0.

Definition occurrences (p : nat) (stk : list nat) : nat :=
  length (filter (fun x => x = p) stk).

(** the loop invariant of [_generate_tree]: every node still owes as many
    children as the stack holds requests for it *)
Record gen_inv (nodes : list string) (adj : list (list nat)) (stk : list nat) : Prop := {
  gi_len : length adj = length nodes;
  gi_root : nodes !! 0%nat = Some "root";
  gi_labels : forall i lab, nodes !! S i = Some lab ->
      lab = "+" \/ lab ∈ ["1"; "2"; "3"; "4"; "5"; "6"; "7"; "8"; "9"];
  gi_order : forall p row c, adj !! p = Some row -> c ∈ row ->
      (p < c < length nodes)%nat;
  gi_arity : forall p lab row, nodes !! p = Some lab -> adj !! p = Some row ->
      (length row + occurrences p stk)%nat = arity lab;
  gi_stack : forall p, p ∈ stk -> (p < length nodes)%nat
}.

(** the properties of a returned tree *)
Record generated_shape (t : tree) : Prop := {
  gs_root : t.1 !! 0%nat = Some "root" /\ exists c, t.2 !! 0%nat = Some [c];
  gs_plus : forall i, t.1 !! i = Some "+" -> exists a b, t.2 !! i = Some [a; b];
  gs_leaf : forall i lab, t.1 !! i = Some lab -> lab <> "root" -> lab <> "+" ->
      t.2 !! i = Some [];
  gs_labels : forall i lab, t.1 !! i = Some lab -> lab <> "0" /\ lab <> "succ";
  gs_order : forall p row c, t.2 !! p = Some row -> c ∈ row -> (p < c)%nat
}.

(** ** The three phases of [predict_step] *)

Section Phases.
Variables (fuel : nat) (alpha : list string) (p : prediction) (t : tree).

Definition delta_at (i : nat) : score := default (Fin 0) (delta p !! i).

(** the most likely label of node [i] *)
Definition label_at (i : nat) : string :=
  match type_pred alpha p i with Ok lab => lab | _ => "" end.

(** the most likely child slot of node [i] *)
Definition slot_at (i : nat) : nat :=
  match row ← lookup_err (Cidx p) i; argmax row with Ok c => c | _ => 0%nat end.

Definition degree (i : nat) : nat := length (default [] (t.2 !! i)).

(** how many scores in a row exceed 0.5 *)
Fixpoint run_above_half (scores : list Q) : nat :=
  match scores with
  | x :: scores' => if gt_half x then S (run_above_half scores') else 0
  | [] => 0
  end.

(** the span: association scores from the slot on, within the child
    count, as long as they exceed 0.5 *)
Definition span_at (i : nat) : nat :=
  run_above_half
    (take (degree i - slot_at i) (drop (slot_at i) (default [] (Cnum p !! i)))).

(** the first index an insertion at node [i] moves *)
Definition start_at (i : nat) : nat :=
  match shift_start fuel t.2 i (slot_at i) with Ok j => j | _ => 0%nat end.

(** the shift of index [k] after the insertions at the nodes [done] *)
Definition shift_of (done : list nat) (k : nat) : Z :=
  Z.of_nat (length (filter (fun i => (start_at i <= k)%nat) done)).

(** the shift array [sh] is the shift table after the insertions at
    [done] *)
Definition shift_ok (done : list nat) (sh : list Z) : Prop :=
  forall k v, sh !! k = Some v -> v = shift_of done k.

(** the nodes that the first, the second and the third loop do not skip *)
Definition visited_replace (i : nat) : bool := negb (abs_above_half (delta_at i)).
Definition visited_insert (i : nat) : bool := negb (at_most_half (delta_at i)).
Definition visited_delete (i : nat) : bool := negb (at_least_minus_half (delta_at i)).

(** the three classes as the specification words them: absolute value at
    most 0.5, above 0.5, below -0.5; a NaN is in none *)
Definition keeps (i : nat) : bool :=
  match delta_at i with Fin q => Qle_bool (Qabs q) half | NaN => false end.
Definition inserts (i : nat) : bool :=
  match delta_at i with Fin q => gt_half q | NaN => false end.
Definition deletes (i : nat) : bool :=
  match delta_at i with Fin q => negb (Qle_bool (- half) q) | NaN => false end.

(** the replacements of the nodes of a class whose most likely label
    differs from their label, in ascending order *)
Definition replacements_of (cls : nat -> bool) : script :=
  omap (fun i =>
          if cls i && negb (String.eqb (label_at i) (default "" (t.1 !! i)))
          then Some (Replacement (Z.of_nat i) (label_at i)) else None)
       (seq 0 (length t.1)).

Fixpoint insertions_after (done todo : list nat) : script :=
  match todo with
  | [] => []
  | i :: todo' =>
      Insertion (Z.of_nat i + shift_of done i) (slot_at i) (label_at i) (span_at i)
      :: insertions_after (done ++ [i]) todo'
  end.

Definition nodes_of (cls : nat -> bool) : list nat :=
  filter (fun i => cls i = true) (seq 0 (length t.1)).

(** the insertions of the nodes of a class, in ascending order, each at
    its index plus the running insertion shift *)
Definition insertions_of (cls : nat -> bool) : script :=
  insertions_after [] (nodes_of cls).

(** the deletions of the nodes of the class [del], in descending order,
    each at its index plus the shift after the insertions of the class
    [ins] *)
Definition deletions_of (ins del : nat -> bool) : script :=
  fmap (fun i => Deletion (Z.of_nat i + shift_of (nodes_of ins) i))
      (filter (fun i => del i = true) (rev (seq 0 (length t.1)))).

(** the script as the specification words it *)
Definition spec_script : script :=
  replacements_of keeps ++ insertions_of inserts ++ deletions_of inserts deletes.

(** the script by the nodes the loops visit *)
Definition visited_script : script :=
  replacements_of visited_replace ++ insertions_of visited_insert
  ++ deletions_of visited_insert visited_delete.




End Phases.

(** a prediction for root→+(1, succ(0)): keep the numerals, insert at "+",
    delete the right succ *)
Definition pr1 : prediction := {|
  delta := Fin <$> [0; 1; 0; -1; 0]%Q;
  types := replicate 5 [0; 0; 0; 0; 0; 0; 0; 0; 0; 0; 0; 1; 0]%Q;
  Cidx := replicate 5 [1; 0]%Q;
  Cnum := replicate 5 [1; 1]%Q |}.


(** a prediction for the same tree whose deletion score at "+" is NaN *)
Definition pr_nan : prediction := {|
  delta := [Fin 0; NaN; Fin 0; Fin 0; Fin 0];
  types := replicate 5 [0; 0; 0; 0; 0; 0; 0; 0; 0; 0; 0; 1; 0]%Q;
  Cidx := replicate 5 [1; 0]%Q;
  Cnum := replicate 5 [1; 1]%Q |}.

(** ** An expression inside the arrays of the matcher *)

Section Placement.
Variables (nodes : list string) (adj : list (list nat)) (pi : list nat).

(** the forest [f] occupies the indices from [o] on *)
Definition at_forest (o : nat) (f : forest) : Prop :=
  (forall i x, labels f !! i = Some x -> nodes !! (o + i)%nat = Some x) /\
  (forall i r, adjs o f !! i = Some r -> adj !! (o + i)%nat = Some r).

(** every node of [f] below a node of [f] has that node as its parent *)
Fixpoint pi_forest (o : nat) (f : forest) : Prop :=
  match f with
  | FNil => True
  | FCons _ c s =>
      (forall x, x ∈ roots (S o) c -> pi !! x = Some o) /\
      pi_forest (S o) c /\ pi_forest (S (o + fsize c)) s
  end.

(** the expression [e] occupies the indices from [o] on *)
Fixpoint placed (o : nat) (e : expr) : Prop :=
  match e with
  | Num n => nodes !! o = Some (py_str n) /\ adj !! o = Some []
  | Succ e' =>
      nodes !! o = Some "succ" /\ adj !! o = Some [S o] /\
      pi !! S o = Some o /\ placed (S o) e'
  | Plus l r =>
      nodes !! o = Some "+" /\ adj !! o = Some [S o; S (o + esize l)] /\
      pi !! S o = Some o /\ pi !! S (o + esize l) = Some o /\
      placed (S o) l /\ placed (S (o + esize l)) r
  end.

(** the guard of rule 4 holds at the node [o] *)
Definition guard_ok (o : nat) : Prop :=
  exists p pl, pi !! o = Some p /\ nodes !! p = Some pl /\
    negb (String.eqb pl "+") || (Z.of_nat p =? Z.of_nat o - 1) = true.

(** the shift array is [d] on the [m] indices from [o] on *)
Definition uniform (sh : list Z) (o m : nat) (d : Z) : Prop :=
  forall i, (i < m)%nat -> sh !! (o + i)%nat = Some d.

(** from index [from] on, [sh'] is [sh] plus [d] *)
Definition tail_shift (sh sh' : list Z) (from : nat) (d : Z) : Prop :=
  length sh' = length sh /\
  forall k v, (from <= k)%nat -> sh !! k = Some v -> sh' !! k = Some (v + d).

End Placement.

(** ** Runs of [_simplify] and their measure *)

(** the trees the [while] loop of [_simplify] goes through from [t0] *)
Inductive visited (t0 : tree) : tree -> Prop :=
| visited_start : visited t0 t0
| visited_next t s t' :
    visited t0 t -> match_pass t = Ok s -> s <> [] ->
    apply_script s t = Ok t' -> visited t0 t'.

(** the number of "+" and "succ" nodes *)
Fixpoint op_count (e : expr) : nat :=
  match e with
  | Num _ => 0
  | Succ e' => S (op_count e')
  | Plus l r => S (op_count l + op_count r)
  end.

(** the largest numeral *)
Fixpoint max_num (e : expr) : nat :=
  match e with
  | Num n => Z.to_nat n
  | Succ e' => max_num e'
  | Plus l r => Nat.max (max_num l) (max_num r)
  end.

(** the length of the chain of "succ" nodes at the top *)
Fixpoint succs (e : expr) : nat :=
  match e with
  | Succ e' => S (succs e')
  | _ => 0
  end.

(** the sum of the numerals plus the number of "succ" nodes *)
Fixpoint upper (e : expr) : nat :=
  match e with
  | Num n => Z.to_nat n
  | Succ e' => S (upper e')
  | Plus l r => (upper l + upper r)%nat
  end.

(** the weight of an expression as right operand of a "+" *)
Definition right_weight (m : nat) (r : expr) : nat :=
  (m + 4 * upper r - 2 * succs r)%nat.

(** the measure that every pass decreases *)
Fixpoint mu (e : expr) : nat :=
  match e with
  | Num _ => 0
  | Succ e' => S (mu e')
  | Plus l r => S (mu l + right_weight (mu r) r)
  end.

Definition is_num (e : expr) : bool :=
  match e with
  | Num _ => true
  | _ => false
  end.

(** [k] passes *)
Fixpoint steps (k : nat) (e : expr) : expr :=
  match k with
  | O => e
  | S k' => steps k' (step e)
  end.

(** ** The alignment of an expression with its successor *)

(** the entries of [left_to_right] for the nodes of [e], in preorder, when
    the root of [step e] sits at position [q] of the successor tree *)
Fixpoint ltr_of (e : expr) (q : nat) : list Z :=
  match e with
  | Num _ => [Z.of_nat q]
  | Succ (Num _) => [-1; Z.of_nat q]
  | Succ e' => Z.of_nat q :: ltr_of e' (S q)
  | Plus l (Num n) =>
      if n =? 0 then [-1] ++ ltr_of l q ++ [-1]
      else [Z.of_nat q] ++ ltr_of l (S q) ++ [Z.of_nat (q + esize (step l) + 2)]
  | Plus l (Succ r) =>
      [Z.of_nat q] ++ ltr_of l (q + 2) ++ [-1] ++ ltr_of r (q + 2 + esize (step l))
  | Plus l (Plus _ _ as r) =>
      [Z.of_nat q] ++ ltr_of l (S q) ++ ltr_of r (S (q + esize (step l)))
  end.

(** the merge loop on the list of the entries of the nodes [i], [i+1], ... *)
Fixpoint merge_vals (i : nat) (vals : list Z) (j : Z) : list (Z * Z) :=
  match vals with
  | [] => []
  | v :: vals' =>
      if v <? 0 then (Z.of_nat i, -1) :: merge_vals (S i) vals' j
      else
        fmap (fun k => (-1, k)) (seqZ j (v - j))
        ++ (Z.of_nat i, Z.max j v) :: merge_vals (S i) vals' (Z.max j v + 1)
  end.

(** the cursor of the merge loop after these entries *)
Fixpoint cursor_after (vals : list Z) (j : Z) : Z :=
  match vals with
  | [] => j
  | v :: vals' =>
      if v <? 0 then cursor_after vals' j else cursor_after vals' (Z.max j v + 1)
  end.

(** the dictionary has the entries [vals] at the keys from [o] on *)
Definition entries_at (ltr : gmap nat Z) (o : nat) (vals : list Z) : Prop :=
  forall i v, vals !! i = Some v -> ltr !! (o + i)%nat = Some v.

(** the dictionary has no entry at the [m] keys from [o] on *)
Definition vacant (ltr : gmap nat Z) (o m : nat) : Prop :=
  forall i, (i < m)%nat -> ltr !! (o + i)%nat = None.

(** two dictionaries agree outside the [m] keys from [o] on *)
Definition same_outside (ltr ltr' : gmap nat Z) (o m : nat) : Prop :=
  forall k, (k < o \/ o + m <= k)%nat -> ltr' !! k = ltr !! k.

(** ** Auxiliary notions of the proofs *)

(** what a deletion at [q] makes of a child list *)
Definition del_row (q : nat) (ch row : list nat) : list nat :=
  dec_above q <$> splice q ch row.

(** ** What a run of [_simplify] computes *)

(** the number an expression stands for *)
Fixpoint value (e : expr) : Z :=
  match e with
  | Num n => n
  | Succ e' => value e' + 1
  | Plus l r => value l + value r
  end.

(** ** [generate_time_series]

    The [try] block prints the tree and raises the exception again: the
    result is that of [_simplify]. *)

Definition generate_time_series (fuel : nat) (draws : list nat)
    (max_additions max_input : Z) : res (list tree) :=
  t ← _generate_tree draws max_additions max_input;
  _simplify fuel t.

(** ** Generated trees as expressions *)

(** the expression has no "succ" and its numerals lie between 1 and
    [max_input] *)
Fixpoint plain (max_input : Z) (e : expr) : bool :=
  match e with
  | Num n => (1 <=? n) && (n <=? max_input)
  | Succ _ => false
  | Plus l r => plain max_input l && plain max_input r
  end.

Fixpoint plus_count (e : expr) : nat :=
  match e with
  | Num _ => 0
  | Succ e' => plus_count e'
  | Plus l r => S (plus_count l + plus_count r)
  end.

(** the tree [t] with the expression [e] appended as the next child of
    node [p] *)
Definition attach (t : tree) (p : nat) (e : expr) : tree :=
  (t.1 ++ labels (tin e FNil),
   <[p := default [] (t.2 !! p) ++ [length t.1]]> t.2
   ++ adjs (length t.1) (tin e FNil)).

(** the requests of the stack answered in turn, the top first *)
Fixpoint attach_all (t : tree) (stk : list nat) (es : list expr) : tree :=
  match stk, es with
  | p :: stk', e :: es' => attach_all (attach t p e) stk' es'
  | _, _ => t
  end.

(** [max_input] as the generator uses it *)
Definition effective_max (max_input : Z) : Z :=
  if 9 <? max_input then max_input mod 10 else max_input.

Fixpoint plus_total (es : list expr) : nat :=
  match es with
  | [] => 0%nat
  | e :: es' => (plus_count e + plus_total es')%nat
  end.

(** ** The parent array *)

(** the last node below [n] that lists [j] as a child, or 0 *)
Definition last_parent (n : nat) (adj : list (list nat)) (j : nat) : nat :=
  default 0%nat (last (filter (fun i => j ∈ default [] (adj !! i)) (seq 0 n))).

(** the adjacency list has a row for each of the [n] nodes and names no
    child beyond them *)
Definition children_in_range (n : nat) (adj : list (list nat)) : Prop :=
  forall i, (i < n)%nat ->
    exists row, adj !! i = Some row /\ forall j, j ∈ row -> (j < n)%nat.

(** ** [compute_loss]: the teaching signal

    The loss adds up torch terms that compare the scores of the network
    with four target tensors, which the function builds for each tree of
    the time series from the rules of the module.  The target tensors are
    modelled here; the floating-point loss terms are not. *)

Record targets := {
  t_delta : list Q;
  t_types : list nat;
  t_Cidx : list nat;
  t_Cnum : list nat
}.

(** [l.index(x)] *)
Fixpoint index_aux (x : string) (l : list string) (k : nat) : res nat :=
  match l with
  | [] => Err ValueError
  | y :: l' => if String.eqb y x then Ok k else index_aux x l' (S k)
  end.

Definition index_of (x : string) (l : list string) : res nat := index_aux x l 0.

(** the body of the loop that sets the targets, at node [i]; every index
    written has been read from [nodes] before, so that it lies within the
    tensors *)
Definition visit_target (nodes : list string) (adj : list (list nat))
    (pi : list nat) (tg : targets) (i : nat) : res targets :=
  lab ← lookup_err nodes i;
  if String.eqb lab "+" then
    row ← lookup_err adj i;
    right ← lookup_err row 1;
    rl ← lookup_err nodes right;
    if String.eqb rl "0" then
      Ok {| t_delta := <[right := (-1)%Q]> (<[i := (-1)%Q]> (t_delta tg));
            t_types := t_types tg; t_Cidx := t_Cidx tg; t_Cnum := t_Cnum tg |}
    else if String.eqb rl "succ" then
      k ← index_of "succ" alphabet;
      Ok {| t_delta := <[right := (-1)%Q]> (<[i := 1%Q]> (t_delta tg));
            t_types := <[i := k]> (t_types tg);
            t_Cidx := <[i := 0%nat]> (t_Cidx tg);
            t_Cnum := <[i := 1%nat]> (t_Cnum tg) |}
    else if negb (String.eqb rl "+") then
      k ← index_of "succ" alphabet;
      v ← py_int rl;
      kp ← index_of (py_str (v - 1)) alphabet;
      Ok {| t_delta := <[i := 1%Q]> (t_delta tg);
            t_types := <[right := kp]> (<[i := k]> (t_types tg));
            t_Cidx := <[i := 1%nat]> (t_Cidx tg);
            t_Cnum := <[i := 1%nat]> (t_Cnum tg) |}
    else Ok tg
  else if String.eqb lab "succ" then
    p ← lookup_err pi i;
    pl ← lookup_err nodes p;
    if negb (String.eqb pl "+") || (Z.of_nat p =? Z.of_nat i - 1) then
      row ← lookup_err adj i;
      child ← lookup_err row 0;
      cl ← lookup_err nodes child;
      if negb (String.eqb cl "succ" || String.eqb cl "+") then
        v ← py_int cl;
        ks ← index_of (py_str ((v + 1) mod 10)) alphabet;
        Ok {| t_delta := <[i := (-1)%Q]> (t_delta tg);
              t_types := <[child := ks]> (t_types tg);
              t_Cidx := t_Cidx tg; t_Cnum := t_Cnum tg |}
      else Ok tg
    else Ok tg
  else Ok tg.

Fixpoint mapM {A B} (f : A -> res B) (l : list A) : res (list B) :=
  match l with
  | [] => Ok []
  | a :: l' => b ← f a; bs ← mapM f l'; Ok (b :: bs)
  end.

(** the targets of one tree of the time series: [delta], [types], [Cidx]
    and [Cnum] as they stand when the loss terms are computed *)
Definition loss_targets (t : tree) : res targets :=
  let n := length t.1 in
  pi ← parents n t.2;
  ty ← mapM (fun lab => index_of lab alphabet) t.1;
  foldM (visit_target t.1 t.2 pi) (seq 0 n)
    {| t_delta := replicate n 0%Q; t_types := ty;
       t_Cidx := replicate n 0%nat; t_Cnum := replicate n 0%nat |}.

(** the masks of the loss terms: [delta < -0.5], [delta > 0.5] *)
Definition del_target (d : Q) : bool := negb (Qle_bool (- half) d).
Definition ins_target (d : Q) : bool := gt_half d.

(** the check that precedes the child-score terms of a node with
    [delta > 0.5]; [width] is the length of a row of the predicted child
    scores *)
Definition check_node (adj : list (list nat)) (tg : targets) (width : nat)
    (u : unit) (i : nat) : res unit :=
  d ← lookup_err (t_delta tg) i;
  if ins_target d then
    c ← lookup_err (t_Cidx tg) i;
    C ← lookup_err (t_Cnum tg) i;
    row ← lookup_err adj i;
    if Nat.leb (length row) c || Nat.ltb width (c + C) || Nat.ltb (length row) (c + C)
    then Err ValueError else Ok u
  else Ok u.

Definition loss_check (t : tree) (tg : targets) (width : nat) : res unit :=
  foldM (check_node t.2 tg width) (seq 0 (length t.1)) tt.

(** *** A prediction that attains the targets *)

Definition argmax_is (row : option (list Q)) (k : option nat) : bool :=
  match row, k with
  | Some r, Some k' =>
      match argmax r with Ok a => Nat.eqb a k' | _ => false end
  | _, _ => false
  end.

Definition score_above (scores : list Q) (j : nat) : bool :=
  match scores !! j with Some y => gt_half y | None => false end.

Definition score_not_above (scores : list Q) (j : nat) : bool :=
  match scores !! j with Some y => Qle_bool y half | None => false end.

(** the span lies within the child count; the child scores exceed 0.5 on
    the [C] slots from [c] on, and not on the next slot when the node has
    one *)
Definition span_fits (scores : option (list Q)) (row : option (list nat))
    (c C : option nat) : bool :=
  match scores, row, c, C with
  | Some sc, Some r, Some c', Some C' =>
      Nat.leb (c' + C') (length r)
      && forallb (score_above sc) (seq c' C')
      && (if Nat.ltb (c' + C') (length r) then score_not_above sc (c' + C') else true)
  | _, _, _, _ => false
  end.

(** at node [i] the scores of the prediction fall on the side of their
    thresholds that the targets ask for *)
Definition fits_node (p : prediction) (tg : targets) (adj : list (list nat))
    (i : nat) : bool :=
  match delta p !! i, t_delta tg !! i with
  | Some (Fin x), Some d =>
      if del_target d then negb (Qle_bool (- half) x)
      else if ins_target d then
        gt_half x
        && argmax_is (types p !! i) (t_types tg !! i)
        && argmax_is (Cidx p !! i) (t_Cidx tg !! i)
        && span_fits (Cnum p !! i) (adj !! i) (t_Cidx tg !! i) (t_Cnum tg !! i)
      else
        Qle_bool (Qabs x) half && argmax_is (types p !! i) (t_types tg !! i)
  | _, _ => false
  end.

Definition fits (p : prediction) (tg : targets) (t : tree) : bool :=
  forallb (fits_node p tg t.2) (seq 0 (length t.1)).

(** the targets as scores: classes and slots one-hot, child scores 1 on the
    span *)
Definition one_hot (w k : nat) : list Q :=
  fmap (fun j => if Nat.eqb j k then 1%Q else 0%Q) (seq 0 w).

Definition teacher (tg : targets) : prediction := {|
  delta := Fin <$> t_delta tg;
  types := fmap (one_hot (length alphabet)) (t_types tg);
  Cidx := fmap (one_hot 2) (t_Cidx tg);
  Cnum := imap (fun i c =>
            fmap (fun j => if Nat.leb c j && Nat.ltb j (c + default 0%nat (t_Cnum tg !! i))
                           then 1%Q else 0%Q) (seq 0 2))
          (t_Cidx tg) |}.

(** *** The decisions of the rules, node by node *)

Record decision := {
  d_delta : Q;
  d_label : string;
  d_slot : nat;
  d_span : nat
}.

Definition keep (lab : string) : decision :=
  {| d_delta := 0%Q; d_label := lab; d_slot := 0%nat; d_span := 0%nat |}.
Definition drop_node (lab : string) : decision :=
  {| d_delta := (-1)%Q; d_label := lab; d_slot := 0%nat; d_span := 0%nat |}.
Definition wrap (c : nat) : decision :=
  {| d_delta := 1%Q; d_label := "succ"; d_slot := c; d_span := 1%nat |}.

(** the decisions for the nodes of [e], in preorder *)
Fixpoint dec_of (e : expr) : list decision :=
  match e with
  | Num n => [keep (py_str n)]
  | Succ (Num n) => [drop_node "succ"; keep (py_str ((n + 1) mod 10))]
  | Succ e' => keep "succ" :: dec_of e'
  | Plus l (Num n) =>
      if n =? 0 then [drop_node "+"] ++ dec_of l ++ [drop_node "0"]
      else [wrap 1] ++ dec_of l ++ [keep (py_str (n - 1))]
  | Plus l (Succ r) => [wrap 0] ++ dec_of l ++ [drop_node "succ"] ++ dec_of r
  | Plus l (Plus _ _ as r) => [keep "+"] ++ dec_of l ++ dec_of r
  end.

(** the targets of node [i] *)
Definition row_of (tg : targets) (i : nat) : option (Q * nat * nat * nat) :=
  d ← t_delta tg !! i; k ← t_types tg !! i;
  c ← t_Cidx tg !! i; C ← t_Cnum tg !! i; Some (d, k, c, C).

(** the targets of the nodes from [o] on are the decisions [ds] *)
Definition rows_at (tg : targets) (o : nat) (ds : list decision) : Prop :=
  forall i d, ds !! i = Some d ->
    exists k, index_of (d_label d) alphabet = Ok k /\
      row_of tg (o + i)%nat = Some (d_delta d, k, d_slot d, d_span d).

(** two target records agree outside the [m] nodes from [o] on *)
Definition same_rows (tg tg' : targets) (o m : nat) : Prop :=
  forall k, (k < o \/ o + m <= k)%nat -> row_of tg' k = row_of tg k.

(** single writes into the target tensors *)
Definition set_delta (a : nat) (v : Q) (tg : targets) : targets :=
  {| t_delta := <[a := v]> (t_delta tg); t_types := t_types tg;
     t_Cidx := t_Cidx tg; t_Cnum := t_Cnum tg |}.
Definition set_type (a : nat) (k : nat) (tg : targets) : targets :=
  {| t_delta := t_delta tg; t_types := <[a := k]> (t_types tg);
     t_Cidx := t_Cidx tg; t_Cnum := t_Cnum tg |}.
Definition set_slot (a : nat) (c : nat) (tg : targets) : targets :=
  {| t_delta := t_delta tg; t_types := t_types tg;
     t_Cidx := <[a := c]> (t_Cidx tg); t_Cnum := t_Cnum tg |}.
Definition set_span (a : nat) (C : nat) (tg : targets) : targets :=
  {| t_delta := t_delta tg; t_types := t_types tg;
     t_Cidx := t_Cidx tg; t_Cnum := <[a := C]> (t_Cnum tg) |}.

(** the decisions before any rule has spoken: every node keeps its label *)
Definition init_of (e : expr) : list decision := keep <$> labels (tin e FNil).

(** *** The script of [predict_step] under the decisions of the rules *)

(** the replacements in the subtree of [e] whose root has index [o] *)
Fixpoint reps (e : expr) (o : nat) : script :=
  match e with
  | Num _ => []
  | Succ (Num n) => [Replacement (Z.of_nat (S o)) (py_str ((n + 1) mod 10))]
  | Succ e' => reps e' (S o)
  | Plus l (Num n) =>
      if n =? 0 then reps l (S o)
      else reps l (S o) ++ [Replacement (Z.of_nat (S (o + esize l))) (py_str (n - 1))]
  | Plus l (Succ r) => reps l (S o) ++ reps r (S (S (o + esize l)))
  | Plus l (Plus _ _ as r) => reps l (S o) ++ reps r (S (o + esize l))
  end.

(** the number of insertions in the subtree of [e] *)
Fixpoint nins (e : expr) : nat :=
  match e with
  | Num _ => 0%nat
  | Succ (Num _) => 0%nat
  | Succ e' => nins e'
  | Plus l (Num n) => if n =? 0 then nins l else S (nins l)
  | Plus l (Succ r) => S (nins l + nins r)
  | Plus l (Plus _ _ as r) => (nins l + nins r)%nat
  end.

(** the insertions in the subtree of [e] whose root sits at position [q]
    when the loop reaches it *)
Fixpoint inss (e : expr) (q : nat) : script :=
  match e with
  | Num _ => []
  | Succ (Num _) => []
  | Succ e' => inss e' (S q)
  | Plus l (Num n) =>
      if n =? 0 then inss l (S q)
      else Insertion (Z.of_nat q) 1 "succ" 1 :: inss l (S q)
  | Plus l (Succ r) =>
      Insertion (Z.of_nat q) 0 "succ" 1
      :: inss l (q + 2) ++ inss r (q + 3 + esize l + nins l)
  | Plus l (Plus _ _ as r) => inss l (S q) ++ inss r (S q + esize l + nins l)
  end.

(** the insertion shift of each node of [e] after the second loop, when it
    was [d] at the root of [e] *)
Fixpoint fsh_of (e : expr) (d : Z) : list Z :=
  match e with
  | Num _ => [d]
  | Succ (Num _) => [d; d]
  | Succ e' => d :: fsh_of e' d
  | Plus l (Num n) =>
      if n =? 0 then d :: fsh_of l d ++ [d + Z.of_nat (nins l)]
      else d :: fsh_of l d ++ [d + Z.of_nat (nins l) + 1]
  | Plus l (Succ r) =>
      d :: fsh_of l (d + 1) ++ [d + 1 + Z.of_nat (nins l)]
        ++ fsh_of r (d + 1 + Z.of_nat (nins l))
  | Plus l (Plus _ _ as r) => d :: fsh_of l d ++ fsh_of r (d + Z.of_nat (nins l))
  end.

(** the deletions in the subtree of [e], in descending order, when its
    root sits at position [q] after the insertions *)
Fixpoint dels (e : expr) (q : nat) : script :=
  match e with
  | Num _ => []
  | Succ (Num _) => [Deletion (Z.of_nat q)]
  | Succ e' => dels e' (S q)
  | Plus l (Num n) =>
      if n =? 0 then
        [Deletion (Z.of_nat (q + 1 + esize l + nins l))] ++ dels l (S q)
        ++ [Deletion (Z.of_nat q)]
      else dels l (S q)
  | Plus l (Succ r) =>
      dels r (q + 3 + esize l + nins l)
      ++ [Deletion (Z.of_nat (q + 2 + esize l + nins l))] ++ dels l (q + 2)
  | Plus l (Plus _ _ as r) => dels r (S q + esize l + nins l) ++ dels l (S q)
  end.

(** the expression after the replacements *)
Fixpoint rel (e : expr) : expr :=
  match e with
  | Num n => Num n
  | Succ (Num n) => Succ (Num ((n + 1) mod 10))
  | Succ e' => Succ (rel e')
  | Plus l (Num n) => if n =? 0 then Plus (rel l) (Num 0) else Plus (rel l) (Num (n - 1))
  | Plus l (Succ r) => Plus (rel l) (Succ (rel r))
  | Plus l (Plus _ _ as r) => Plus (rel l) (rel r)
  end.

(** the expression after the replacements and the insertions *)
Fixpoint mid (e : expr) : expr :=
  match e with
  | Num n => Num n
  | Succ (Num n) => Succ (Num ((n + 1) mod 10))
  | Succ e' => Succ (mid e')
  | Plus l (Num n) =>
      if n =? 0 then Plus (mid l) (Num 0) else Plus (mid l) (Succ (Num (n - 1)))
  | Plus l (Succ r) => Plus (Succ (mid l)) (Succ (mid r))
  | Plus l (Plus _ _ as r) => Plus (mid l) (mid r)
  end.

(** the shift array holds the values [vs] at the indices from [o] on *)
Definition vals_at (sh : list Z) (o : nat) (vs : list Z) : Prop :=
  forall i v, vs !! i = Some v -> sh !! (o + i)%nat = Some v.

(** the scores of node [i] fall on the sides of the thresholds of
    [predict_step] that make it take the decision [d] *)
Definition node_decided (p : prediction) (adj : list (list nat)) (i : nat)
    (d : decision) : Prop :=
  exists x, delta p !! i = Some (Fin x) /\
    if del_target (d_delta d) then
      gt_half (Qabs x) = true /\ Qle_bool x half = true /\
      Qle_bool (- half) x = false
    else if ins_target (d_delta d) then
      gt_half (Qabs x) = true /\ Qle_bool x half = false /\
      Qle_bool (- half) x = true /\
      type_pred alphabet p i = Ok (d_label d) /\
      exists crow scores row,
        Cidx p !! i = Some crow /\ argmax crow = Ok (d_slot d) /\
        adj !! i = Some row /\ Cnum p !! i = Some scores /\
        span_loop (length row) scores (length row) (d_slot d) 0 = Ok (d_span d)
    else
      gt_half (Qabs x) = false /\ Qle_bool x half = true /\
      Qle_bool (- half) x = true /\
      type_pred alphabet p i = Ok (d_label d).

Definition decided (p : prediction) (adj : list (list nat)) (o : nat)
    (ds : list decision) : Prop :=
  forall i d, ds !! i = Some d -> node_decided p adj (o + i)%nat d.

(** ** [predict_step] under scores that keep every node *)

(** the labels [cur] carry the predicted class at the nodes below [a] and
    the label of [nodes] from [a] on *)
Definition relabelled_to (p : prediction) (alpha nodes : list string) (a : nat)
    (cur : list string) : Prop :=
  length cur = length nodes /\
  (forall i lab, (i < a)%nat -> cur !! i = Some lab -> type_pred alpha p i = Ok lab) /\
  (forall i, (a <= i)%nat -> cur !! i = nodes !! i).

Definition only_replacements (s : script) : Prop :=
  Forall (fun ed => exists i lab, ed = Replacement i lab) s.

(** ** The script of [predict_step] under Script.apply *)




(** * Properties *)

(** ** Labels *)

Lemma digits_of_uint d :
  digits_of (NilEmpty.string_of_uint d) true = Some (NilEmpty.string_of_uint d).
Proof. induction d; simpl; [reflexivity|now rewrite IHd..]. Qed.

Lemma rstrip_uint d :
  rstrip (NilEmpty.string_of_uint d) = NilEmpty.string_of_uint d.
Proof.
  induction d; simpl; [reflexivity|rewrite IHd..];
    now destruct (NilEmpty.string_of_uint d).
Qed.

Lemma literal_digit a d :
  py_digit a = true ->
  literal (String a (NilEmpty.string_of_uint d))
  = Some (String a (NilEmpty.string_of_uint d)).
Proof.
  intros Ha. unfold literal.
  assert (py_space a = false /\ Ascii.eqb a "+" = false /\ Ascii.eqb a "-" = false)
    as (Hs & Hp & Hm).
  { destruct a as [[] [] [] [] [] [] [] []]; try discriminate; repeat split. }
  cbn [lstrip]. rewrite Hs. cbn [rstrip]. rewrite rstrip_uint, Hs.
  assert (match NilEmpty.string_of_uint d with
          | "" => String a ""
          | String a0 s => String a (String a0 s)
          end = String a (NilEmpty.string_of_uint d)) as ->
    by now destruct (NilEmpty.string_of_uint d).
  rewrite Hp, Hm. cbn [digits_of]. rewrite Ha, digits_of_uint. reflexivity.
Qed.

Lemma literal_uint d :
  literal (NilZero.string_of_uint d) = Some (NilZero.string_of_uint d).
Proof. destruct d; [reflexivity|apply literal_digit; reflexivity..]. Qed.

Lemma literal_minus a d :
  py_digit a = true ->
  literal (String "-" (String a (NilEmpty.string_of_uint d)))
  = Some (String "-" (String a (NilEmpty.string_of_uint d))).
Proof.
  intros Ha. unfold literal.
  assert (py_space a = false) as Hs
    by (destruct a as [[] [] [] [] [] [] [] []]; try discriminate; reflexivity).
  change (lstrip (String "-" ?r)) with (String "-" r).
  cbn [rstrip]. rewrite rstrip_uint, Hs.
  assert (match NilEmpty.string_of_uint d with
          | "" => String a ""
          | String a0 s => String a (String a0 s)
          end = String a (NilEmpty.string_of_uint d)) as ->
    by now destruct (NilEmpty.string_of_uint d).
  change (Ascii.eqb "-" "+") with false. change (Ascii.eqb "-" "-") with true.
  cbn [digits_of]. rewrite Ha, digits_of_uint. reflexivity.
Qed.

Lemma literal_int d :
  literal (NilZero.string_of_int d) = Some (NilZero.string_of_int d).
Proof.
  destruct d as [d|d]; [apply literal_uint|].
  destruct d; [reflexivity|apply literal_minus; reflexivity..].
Qed.

Lemma py_int_str z : py_int (py_str z) = Ok z.
Proof.
  unfold py_int, py_str. rewrite literal_int.
  rewrite NilZero.isi.
  - now rewrite DecimalZ.of_to.
  - destruct z; discriminate || (simpl; intros [= H]).
    now destruct (DecimalPos.Unsigned.to_uint_nonnil p).
  - destruct z; discriminate || (simpl; intros [= H]).
    now destruct (DecimalPos.Unsigned.to_uint_nonnil p).
Qed.

Lemma py_str_inv z s : py_str z = s -> py_int s = Ok z.
Proof. intros <-. apply py_int_str. Qed.

Lemma py_str_plus z : String.eqb (py_str z) "+" = false.
Proof.
  apply String.eqb_neq. intros H%py_str_inv. discriminate.
Qed.

Lemma py_str_succ z : String.eqb (py_str z) "succ" = false.
Proof.
  apply String.eqb_neq. intros H%py_str_inv. discriminate.
Qed.

Lemma py_str_root z : String.eqb (py_str z) "root" = false.
Proof.
  apply String.eqb_neq. intros H%py_str_inv. discriminate.
Qed.

Lemma py_str_zero z : String.eqb (py_str z) "0" = (z =? 0).
Proof.
  destruct (Z.eqb_spec z 0) as [->|Hz].
  - reflexivity.
  - apply String.eqb_neq. intros H%py_str_inv. vm_compute in H. congruence.
Qed.

(** ** The two scenarios of the specification *)

(** C2 as amended: on root→+(1, succ(0)) the trace has three trees,
    root→+(1, succ(0)), root→+(succ(1), 0) and root→2: the second pass
    deletes "+" and "0" and resolves the left succ(1) at once. *)
Theorem scenario_traces fuel :
  (match_pass t_plus_2_0 = Ok [Deletion 1; Deletion 2] /\
   _simplify (S (S fuel)) t_plus_2_0 = Ok [t_plus_2_0; t_2]) /\
  match_pass t_plus_s1_0
    = Ok [Deletion 1; Deletion 3; Deletion 1; Replacement 1 "2"] /\
  _simplify (S (S (S fuel))) t_plus_1_s0 = Ok [t_plus_1_s0; t_plus_s1_0; t_2].
Proof. repeat split; reflexivity. Qed.

(** C2 as stated fails: no run on root→+(1, succ(0)) returns the four
    trees of the specification, with root→succ(1) before root→2. *)
Lemma scenario_four_trees_refuted :
  ~ exists fuel,
      _simplify fuel t_plus_1_s0 = Ok [t_plus_1_s0; t_plus_s1_0; t_s1; t_2].
Proof.
  intros [fuel H].
  destruct fuel as [|[|[|fuel]]]; discriminate.
Qed.

(** ** Successor resolution in the matcher pass *)

Lemma scan_cons nodes adj pi i ixs st r :
  visit nodes adj pi i st.2 = Ok r ->
  scan nodes adj pi (i :: ixs) st = scan nodes adj pi ixs (st.1 ++ r.1, r.2).
Proof. intros H. simpl. now rewrite H. Qed.





(** ** No step cap: a run that never stops *)

Ltac run_pass :=
  unfold match_pass; cbn -[py_str py_int String.eqb Z.modulo];
  unfold visit, lookup_err; cbn -[py_str py_int String.eqb Z.modulo];
  rewrite ?py_str_plus, ?py_str_succ, ?py_str_zero;
  cbn -[py_str py_int String.eqb Z.modulo].

Lemma turn_add a z :
  z <> 0 ->
  exists s, match_pass (t_add a z) = Ok s /\ s <> [] /\
            apply_script s (t_add a z) = Ok (t_add_succ a (z - 1)).
Proof.
  intros Hz. apply Z.eqb_neq in Hz. eexists. split; [|split].
  - unfold t_add. run_pass. rewrite Hz. cbn -[py_str py_int].
    rewrite py_int_str. reflexivity.
  - discriminate.
  - reflexivity.
Qed.

Lemma turn_add_succ a z :
  exists s, match_pass (t_add_succ a z) = Ok s /\ s <> [] /\
            apply_script s (t_add_succ a z) = Ok (t_succ_add a z).
Proof.
  eexists. split; [|split].
  - unfold t_add_succ. run_pass. reflexivity.
  - discriminate.
  - reflexivity.
Qed.

Lemma turn_succ_add a z :
  z <> 0 ->
  exists s, match_pass (t_succ_add a z) = Ok s /\ s <> [] /\
            apply_script s (t_succ_add a z)
            = Ok (t_add_succ ((a + 1) mod 10) (z - 1)).
Proof.
  intros Hz. apply Z.eqb_neq in Hz. eexists. split; [|split].
  - unfold t_succ_add. run_pass. rewrite Hz. cbn -[py_str py_int Z.modulo].
    rewrite !py_int_str. reflexivity.
  - discriminate.
  - reflexivity.
Qed.

Lemma simplify_loop_turn fuel t t' s series :
  match_pass t = Ok s -> s <> [] -> apply_script s t = Ok t' ->
  simplify_loop (S fuel) t series = simplify_loop fuel t' (series ++ [t']).
Proof.
  intros Hs Hne Ha. simpl. rewrite Hs. simpl.
  destruct s; [congruence|]. now rewrite Ha.
Qed.

Lemma never_stops fuel : forall a z series,
  z < 0 ->
  simplify_loop fuel (t_add_succ a z) series = Unfinished /\
  simplify_loop fuel (t_succ_add a z) series = Unfinished.
Proof.
  induction fuel as [|fuel IH]; intros a z series Hz; [now split|].
  split.
  - destruct (turn_add_succ a z) as (s & Hs & Hne & Ha).
    rewrite (simplify_loop_turn _ _ _ _ _ Hs Hne Ha). now apply IH.
  - destruct (turn_succ_add a z) as (s & Hs & Hne & Ha); [lia|].
    rewrite (simplify_loop_turn _ _ _ _ _ Hs Hne Ha). apply IH. lia.
Qed.

(** C7 as amended: [_simplify] has no step cap and raises no
    NonTerminating error; on the malformed tree root→+(a, z) with a
    negative numeral z every pass emits edits, so that after any number of
    iterations the loop is still running: it neither returns nor raises. *)
Theorem no_step_cap fuel a z :
  z < 0 -> _simplify fuel (t_add a z) = Unfinished.
Proof.
  intros Hz. unfold _simplify. destruct fuel as [|fuel]; [reflexivity|].
  destruct (turn_add a z) as (s & Hs & Hne & Ha); [lia|].
  rewrite (simplify_loop_turn _ _ _ _ _ Hs Hne Ha).
  apply never_stops. lia.
Qed.

Lemma no_step_cap_witness : _simplify 1000 (t_add 1 (-1)) = Unfinished.
Proof. apply (no_step_cap 1000 1 (-1)). lia. Defined.

(** C7 as stated fails: on root→+(1, -1) no number of iterations makes
    [_simplify] raise NonTerminating (or stop at all). *)
Lemma step_cap_refuted :
  ~ exists fuel, _simplify fuel (t_add 1 (-1)) = Err NonTerminating.
Proof.
  intros [fuel H]. unfold _simplify in H.
  destruct fuel as [|fuel]; [discriminate|].
  destruct (turn_add 1 (-1)) as (s & Hs & Hne & Ha); [lia|].
  rewrite (simplify_loop_turn _ _ _ _ _ Hs Hne Ha) in H.
  destruct (never_stops fuel 1 (-1 - 1) ([t_add 1 (-1)] ++ [t_add_succ 1 (-1 - 1)]))
    as [E _]; [lia|].
  rewrite E in H. discriminate.
Qed.

(** ** The merge loop of [peano_alignment] has no consistency check *)

Lemma visit_align_dom nodes adj pi i st st' :
  visit_align nodes adj pi i st = Ok st' ->
  (forall k, is_Some (st.1 !! k) -> is_Some (st'.1 !! k)) /\
  is_Some (st'.1 !! i).
Proof.
  unfold visit_align. intros H.
  destruct (lookup_err nodes i) as [lab| |]; simpl in H; try discriminate.
  match type of H with (?m ≫= _) = _ => destruct m as [st1| |] eqn:E1 end;
    simpl in H; try discriminate.
  assert (forall k, is_Some (st.1 !! k) -> is_Some (st1.1 !! k)) as Hmono.
  { intros k Hk. revert E1. unfold lookup_err.
    repeat (case_match; simpl; try discriminate);
      intros [= <-]; simpl; rewrite ?lookup_insert_is_Some; auto;
      destruct (decide (n = k)); auto; destruct (decide (i = k)); auto. }
  destruct (st1.1 !! i) eqn:Ei.
  - injection H as <-. split; [exact Hmono|]. rewrite Ei. eauto.
  - destruct (lookup_err st1.2 i); simpl in H; try discriminate.
    injection H as <-. simpl. split.
    + intros k Hk. rewrite lookup_insert_is_Some.
      destruct (decide (i = k)); auto.
    + rewrite lookup_insert_eq. eauto.
Qed.

Lemma fold_align_dom nodes adj pi ixs : forall st st',
  foldM (fun st i => visit_align nodes adj pi i st) ixs st = Ok st' ->
  (forall k, is_Some (st.1 !! k) -> is_Some (st'.1 !! k)) /\
  (forall i, i ∈ ixs -> is_Some (st'.1 !! i)).
Proof.
  induction ixs as [|i ixs IH]; intros st st' H; simpl in H.
  - injection H as <-. split; [auto|]. intros i Hi. inversion Hi.
  - destruct (visit_align nodes adj pi i st) as [st1| |] eqn:E; simpl in H;
      try discriminate.
    apply visit_align_dom in E as [Hm Hi]. apply IH in H as [Hm' Hin].
    split; [auto|]. intros k Hk. apply elem_of_cons in Hk as [->|Hk]; auto.
Qed.

Lemma merge_total ltr ixs : forall j,
  (forall i, i ∈ ixs -> is_Some (ltr !! i)) ->
  exists al, merge_pass ltr ixs j = Ok al.
Proof.
  induction ixs as [|i ixs IH]; intros j Hdom; simpl; [eauto|].
  destruct (Hdom i) as [v Hv]; [left|]. rewrite Hv.
  destruct (v <? 0).
  - destruct (IH j) as [al ->]; [intros; apply Hdom; now right|]. simpl. eauto.
  - destruct (IH (Z.max j v + 1)) as [al ->]; [intros; apply Hdom; now right|].
    simpl. eauto.
Qed.

(** C8 as amended: the merge loop has no consistency check and raises no
    AlignmentInconsistency error.  Once the first loop has built
    [left_to_right] the function returns normally, whatever the mapped
    indices are; a node whose mapped index v lies below the cursor j is
    paired with the cursor itself, which then moves on by one. *)
Theorem alignment_never_inconsistent t next ltr :
  left_to_right t = Ok ltr ->
  (exists al, peano_alignment t next = Ok al) /\
  (forall i ixs v j,
     ltr !! i = Some v -> 0 <= v < j ->
     merge_pass ltr (i :: ixs) j
     = al ← merge_pass ltr ixs (j + 1); Ok ((Z.of_nat i, j) :: al)).
Proof.
  intros Hltr. split.
  - unfold peano_alignment. rewrite Hltr. simpl.
    apply merge_total. intros i Hi.
    unfold left_to_right in Hltr.
    destruct (parents (length t.1) t.2) as [pi| |]; simpl in Hltr; try discriminate.
    match type of Hltr with (?m ≫= _) = _ => destruct m as [st| |] eqn:E end;
      simpl in Hltr; try discriminate.
    injection Hltr as <-. apply fold_align_dom in E as [_ Hin]. auto.
  - intros i ixs v j Hv Hj. simpl. rewrite Hv.
    destruct (Z.ltb_spec v 0); [lia|].
    replace (Z.max j v) with j by lia.
    replace (seqZ j (v - j)) with (@nil Z); [reflexivity|].
    unfold seqZ. replace (Z.to_nat (v - j)) with 0%nat by lia. reflexivity.
Qed.

Lemma alignment_never_inconsistent_witness :
  exists al, peano_alignment t_shared t_2 = Ok al.
Proof.
  refine (proj1 (alignment_never_inconsistent t_shared t_2
            (<[4%nat := 2]> (<[3%nat := -1]> (<[2%nat := 2]>
               (<[1%nat := -1]> (<[0%nat := 0]> ∅))))) _)).
  vm_compute. reflexivity.
Defined.

(** C8 as stated fails: on a tree whose node 1 is shared, node 4 is mapped
    to 2 when the cursor is 3, and the function returns an alignment with
    the pair (4, 3) instead of failing. *)
Lemma alignment_check_refuted :
  exists ltr,
    left_to_right t_shared = Ok ltr /\
    cursor_decreases ltr (seq 0 5) 0 = true /\
    peano_alignment t_shared t_2
    = Ok [(0, 0); (1, -1); (-1, 1); (2, 2); (3, -1); (4, 3)].
Proof.
  eexists. split; [vm_compute; reflexivity|]. split; vm_compute; reflexivity.
Qed.

(** ** Generated trees *)

Lemma support_label plus max_input r :
  max_input <= 9 ->
  in_support plus max_input r = true ->
  exists lab, lookup_err alphabet r = Ok lab /\
    (lab = "+" \/ lab ∈ ["1"; "2"; "3"; "4"; "5"; "6"; "7"; "8"; "9"]).
Proof.
  intros Hmax Hs. unfold in_support in Hs.
  apply orb_true_iff in Hs as [Hs|Hs].
  - apply andb_true_iff in Hs as [_ Hr]. apply Nat.eqb_eq in Hr as ->.
    eexists. split; [reflexivity|]. now left.
  - apply andb_true_iff in Hs as [H2 Hr].
    apply Z.leb_le in H2, Hr.
    do 11 (destruct r as [|r];
           [first [lia | eexists; split; [reflexivity|right; set_solver]]|]).
    lia.
Qed.

Lemma occurrences_cons p q stk :
  occurrences p (q :: stk)
  = ((if decide (q = p) then 1 else 0) + occurrences p stk)%nat.
Proof.
  unfold occurrences. rewrite filter_cons. now destruct (decide (q = p)).
Qed.

Lemma occurrences_fresh p stk :
  (forall q, q ∈ stk -> q <> p) -> occurrences p stk = 0%nat.
Proof.
  intros H. induction stk as [|q stk IH]; [reflexivity|].
  rewrite occurrences_cons, IH.
  - destruct (decide (q = p)) as [E|]; [|reflexivity].
    exfalso. apply (H q); [left|exact E].
  - intros q' Hq'. apply H. now right.
Qed.

Lemma arity_numeral lab :
  lab ∈ ["1"; "2"; "3"; "4"; "5"; "6"; "7"; "8"; "9"] ->
  arity lab = 0%nat /\ lab <> "+" /\ lab <> "root" /\ lab <> "0" /\ lab <> "succ".
Proof.
  intros H. repeat (apply elem_of_cons in H as [->|H]; [now repeat split|]).
  inversion H.
Qed.

Lemma gen_step_inv nodes adj p stk lab row :
  gen_inv nodes adj (p :: stk) ->
  adj !! p = Some row ->
  lab = "+" \/ lab ∈ ["1"; "2"; "3"; "4"; "5"; "6"; "7"; "8"; "9"] ->
  gen_inv (nodes ++ [lab])
          (<[p := row ++ [length nodes]]> (adj ++ [[]]))
          (if String.eqb lab "+" then length nodes :: length nodes :: stk else stk).
Proof.
  intros [Hlen Hroot Hlabs Hord Har Hstk] Hrow Hlab.
  assert (p < length nodes)%nat as Hp by (apply Hstk; left).
  assert (forall q, q ∈ stk -> q <> length nodes) as Hfresh.
  { intros q Hq ->. specialize (Hstk (length nodes)).
    assert (length nodes < length nodes)%nat by (apply Hstk; now right). lia. }
  assert (forall q row', <[p := row ++ [length nodes]]> (adj ++ [[]]) !! q = Some row' ->
            (q = p /\ row' = row ++ [length nodes]) \/
            (q <> p /\ adj !! q = Some row') \/
            (q = length nodes /\ row' = [])) as Hcases.
  { intros q row' Hq. destruct (decide (q = p)) as [->|Hne].
    - rewrite list_lookup_insert_eq in Hq by (rewrite length_app; simpl; lia).
      left. split; congruence.
    - rewrite list_lookup_insert_ne in Hq by congruence.
      apply lookup_app_Some in Hq as [Hq|[Hge Hq]]; [right; left; auto|].
      right; right. apply list_lookup_singleton_Some in Hq as [Hq <-].
      split; [lia|reflexivity]. }
  split.
  - rewrite length_insert, !length_app. simpl. lia.
  - rewrite lookup_app_l; [exact Hroot|lia].
  - intros i lab' Hi. apply lookup_app_Some in Hi as [Hi|[_ Hi]]; [eauto|].
    apply list_lookup_singleton_Some in Hi as [_ <-]. exact Hlab.
  - intros q row' c Hq Hc. rewrite length_app. simpl.
    destruct (Hcases q row' Hq) as [[-> ->]|[[Hne Hq']|[-> ->]]].
    + apply elem_of_app in Hc as [Hc|Hc].
      * specialize (Hord p row c Hrow Hc). lia.
      * apply list_elem_of_singleton in Hc as ->. lia.
    + specialize (Hord q row' c Hq' Hc). lia.
    + inversion Hc.
  - intros q lab' row' Hq Hq'.
    destruct (Hcases q row' Hq') as [[-> ->]|[[Hne Hq'']|[-> ->]]].
    + rewrite lookup_app_l in Hq by lia.
      specialize (Har p lab' row Hq Hrow).
      rewrite occurrences_cons in Har. rewrite decide_True in Har by reflexivity.
      rewrite length_app. simpl.
      destruct (String.eqb lab "+").
      * rewrite !occurrences_cons, !decide_False by lia. lia.
      * lia.
    + assert (q < length nodes)%nat as Hq_lt.
      { apply lookup_lt_Some in Hq''. lia. }
      rewrite lookup_app_l in Hq by lia.
      specialize (Har q lab' row' Hq Hq'').
      rewrite occurrences_cons, decide_False in Har by congruence.
      destruct (String.eqb lab "+").
      * rewrite !occurrences_cons, !decide_False by lia. lia.
      * lia.
    + rewrite lookup_app_r in Hq by lia.
      rewrite Nat.sub_diag in Hq. injection Hq as <-.
      pose proof (occurrences_fresh (length nodes) stk Hfresh) as Hocc.
      destruct Hlab as [->|Hnum].
      * simpl. rewrite !occurrences_cons, !decide_True by reflexivity.
        rewrite Hocc. reflexivity.
      * destruct (arity_numeral lab Hnum) as (-> & Hplus & _).
        apply String.eqb_neq in Hplus. rewrite Hplus.
        simpl. now rewrite Hocc.
  - intros q Hq. rewrite length_app. simpl.
    destruct (String.eqb lab "+").
    + apply elem_of_cons in Hq as [->|Hq]; [lia|].
      apply elem_of_cons in Hq as [->|Hq]; [lia|].
      assert (q < length nodes)%nat by (apply Hstk; now right). lia.
    + assert (q < length nodes)%nat by (apply Hstk; now right). lia.
Qed.

Lemma generate_loop_cons r draws max_input max_additions nodes adj p stk :
  generate_loop (r :: draws) max_input max_additions nodes adj (p :: stk)
  = if negb (in_support (0 <? max_additions) max_input r) then Unfinished
    else
      label ← lookup_err alphabet r;
      row ← lookup_err adj p;
      if String.eqb label "+" then
        generate_loop draws max_input (max_additions - 1) (nodes ++ [label])
          (<[p := row ++ [length nodes]]> (adj ++ [[]]))
          (length nodes :: length nodes :: stk)
      else
        generate_loop draws max_input max_additions (nodes ++ [label])
          (<[p := row ++ [length nodes]]> (adj ++ [[]])) stk.
Proof. reflexivity. Qed.

Lemma generate_loop_inv draws max_input : forall max_additions nodes adj stk t,
  max_input <= 9 ->
  gen_inv nodes adj stk ->
  generate_loop draws max_input max_additions nodes adj stk = Ok t ->
  gen_inv t.1 t.2 [].
Proof.
  induction draws as [|r draws IH]; intros ma nodes adj stk t Hmax Hinv H.
  - destruct stk; [|discriminate]. injection H as <-. exact Hinv.
  - destruct stk as [|p stk]; [injection H as <-; exact Hinv|].
    rewrite generate_loop_cons in H.
    destruct (in_support (0 <? ma) max_input r) eqn:Hs; [|discriminate].
    cbn [negb] in H.
    destruct (support_label _ _ _ Hmax Hs) as (lab & El & Hlab).
    rewrite El in H. cbn [mbind res_bind] in H.
    destruct (lookup_err adj p) as [row| |] eqn:Hrow; try discriminate.
    cbn [mbind res_bind] in H. unfold lookup_err in Hrow.
    destruct (adj !! p) as [row'|] eqn:Hrow'; [|discriminate].
    injection Hrow as ->.
    pose proof (gen_step_inv nodes adj p stk lab row Hinv Hrow' Hlab) as Hinv'.
    destruct (String.eqb lab "+"); eapply IH; eauto.
Qed.

Lemma gen_inv_shape nodes adj :
  gen_inv nodes adj [] -> generated_shape (nodes, adj).
Proof.
  intros [Hlen Hroot Hlabs Hord Har Hstk].
  assert (forall p lab, nodes !! p = Some lab ->
            exists row, adj !! p = Some row /\ length row = arity lab) as Hrow.
  { intros p lab Hp.
    destruct (adj !! p) as [row|] eqn:E.
    - exists row. split; [reflexivity|].
      specialize (Har p lab row Hp E). unfold occurrences in Har. simpl in Har. lia.
    - apply lookup_ge_None in E. apply lookup_lt_Some in Hp. lia. }
  split; simpl.
  - split; [exact Hroot|].
    destruct (Hrow _ _ Hroot) as (row & E & Hl).
    destruct row as [|c [|]]; try discriminate. eauto.
  - intros i Hi. destruct (Hrow _ _ Hi) as (row & E & Hl).
    destruct row as [|a [|b [|]]]; try discriminate. eauto.
  - intros i lab Hi Hr Hp. destruct (Hrow _ _ Hi) as (row & E & Hl).
    apply String.eqb_neq in Hr, Hp. unfold arity in Hl. rewrite Hr, Hp in Hl.
    destruct row; [exact E|discriminate].
  - intros i lab Hi. destruct i as [|i].
    + rewrite Hroot in Hi. injection Hi as <-. split; discriminate.
    + destruct (Hlabs i lab Hi) as [->|Hn]; [split; discriminate|].
      apply arity_numeral in Hn. tauto.
  - intros p row c Hp Hc. specialize (Hord p row c Hp Hc). lia.
Qed.

Lemma gen_inv_init : gen_inv ["root"] [[]] [0%nat].
Proof.
  split.
  - reflexivity.
  - reflexivity.
  - intros i lab Hi. destruct i; discriminate.
  - intros p row c Hp Hc. destruct p as [|[|]]; try discriminate.
    injection Hp as <-. inversion Hc.
  - intros p lab row Hp Hq. destruct p as [|[|]]; try discriminate.
    injection Hp as <-. injection Hq as <-. reflexivity.
  - intros p Hp. apply list_elem_of_singleton in Hp as ->. simpl. lia.
Qed.

(** C10: for 1 ≤ max_input ≤ 9, every tree returned by [_generate_tree]
    has node 0 labelled "root" with exactly one child, two children under
    every "+", no child under a numeral, no label "0" or "succ", and every
    child index above the index of its parent. *)
Theorem generated_tree_shape draws max_additions max_input t :
  1 <= max_input <= 9 ->
  _generate_tree draws max_additions max_input = Ok t ->
  generated_shape t.
Proof.
  intros [Hlo Hhi] H. unfold _generate_tree in H.
  destruct (Z.ltb_spec max_input 1); [lia|].
  destruct (Z.ltb_spec 9 max_input); [lia|].
  destruct (Z.eqb_spec max_input 0); [lia|].
  apply generate_loop_inv in H; [|lia|exact gen_inv_init].
  destruct t. now apply gen_inv_shape.
Qed.

Lemma generated_tree_shape_witness :
  generated_shape
    (["root"; "+"; "1"; "+"; "2"; "3"],
     [[1]; [2; 3]; []; [4; 5]; []; []])%nat.
Proof.
  apply (generated_tree_shape [0; 2; 0; 3; 4]%nat 3 3); [lia|reflexivity].
Defined.

(** ** The decode step *)

Lemma lookup_err_Ok {A} (l : list A) i x : lookup_err l i = Ok x <-> l !! i = Some x.
Proof. unfold lookup_err. destruct (l !! i); split; congruence. Qed.

Lemma bind_Ok {A B} (m : res A) (f : A -> res B) b :
  m ≫= f = Ok b <-> exists a, m = Ok a /\ f a = Ok b.
Proof.
  destruct m; simpl; split; try (intros (? & ? & ?)); try discriminate; eauto.
  intros. simplify_eq. assumption.
Qed.

Lemma slice_add_lookup lo hi d sh k :
  slice_add lo hi d sh !! k
  = (fun x => if Nat.leb lo k && Nat.ltb k hi then x + d else x) <$> sh !! k.
Proof. unfold slice_add. now rewrite list_lookup_imap. Qed.

Lemma slice_add_length lo hi d sh : length (slice_add lo hi d sh) = length sh.
Proof. unfold slice_add. apply length_imap. Qed.

Lemma slice_add_from_lookup lo d sh k :
  slice_add_from lo d sh !! k
  = (fun x => if Nat.leb lo k then x + d else x) <$> sh !! k.
Proof.
  unfold slice_add_from. rewrite slice_add_lookup.
  destruct (sh !! k) eqn:E; [|reflexivity]. simpl.
  apply lookup_lt_Some in E. apply Nat.ltb_lt in E. rewrite E.
  now rewrite andb_true_r.
Qed.

Lemma slice_add_from_length lo d sh : length (slice_add_from lo d sh) = length sh.
Proof. apply slice_add_length. Qed.

Section Decode.
Variables (fuel : nat) (alpha : list string) (p : prediction) (t : tree).

Lemma replacements_fold l : forall s s',
  foldM (visit_replace alpha p t.1) l s = Ok s' ->
  s' = s ++ omap (fun i =>
          if visited_replace p i
             && negb (String.eqb (label_at alpha p i) (default "" (t.1 !! i)))
          then Some (Replacement (Z.of_nat i) (label_at alpha p i)) else None) l.
Proof.
  induction l as [|i l IH]; intros s s' H; simpl in H.
  - injection H as <-. now rewrite app_nil_r.
  - apply bind_Ok in H as (s1 & Hv & H). apply IH in H as ->.
    unfold visit_replace in Hv.
    apply bind_Ok in Hv as (d & Hd%lookup_err_Ok & Hv).
    simpl. unfold visited_replace, delta_at. rewrite Hd. simpl.
    destruct (abs_above_half d); simpl in *.
    + now injection Hv as <-.
    + apply bind_Ok in Hv as (lab & Hlab & Hv).
      apply bind_Ok in Hv as (cur & Hcur%lookup_err_Ok & Hv).
      unfold label_at. rewrite Hlab, Hcur. simpl.
      destruct (String.eqb lab cur); simpl in *; injection Hv as <-.
      * reflexivity.
      * now rewrite <- app_assoc.
Qed.

Lemma span_loop_run scores deg c : forall n C C',
  (deg <= n + (c + C))%nat ->
  span_loop n scores deg c C = Ok C' ->
  C' = (C + run_above_half (take (deg - (c + C)) (drop (c + C) scores)))%nat.
Proof.
  induction n as [|n IH]; intros C C' Hn H; simpl in H.
  - injection H as <-. replace (deg - (c + C))%nat with 0%nat by lia.
    simpl. lia.
  - destruct (Nat.ltb_spec (c + C) deg) as [Hlt|Hge].
    + apply bind_Ok in H as (x & Hx%lookup_err_Ok & H).
      replace (deg - (c + C))%nat with (S (deg - (c + S C))) by lia.
      rewrite (drop_S _ x) by exact Hx. simpl.
      destruct (gt_half x).
      * apply IH in H; [|lia]. rewrite H.
        replace (S (c + C)) with (c + S C)%nat by lia. lia.
      * injection H as <-. lia.
    + injection H as <-. replace (deg - (c + C))%nat with 0%nat by lia.
      simpl. lia.
Qed.

Lemma shift_of_snoc done i k :
  shift_of fuel p t (done ++ [i]) k
  = shift_of fuel p t done k
    + (if Nat.leb (start_at fuel p t i) k then 1 else 0).
Proof.
  unfold shift_of. rewrite filter_app, length_app, filter_cons, filter_nil.
  destruct (Nat.leb_spec (start_at fuel p t i) k).
  - rewrite decide_True by lia. simpl. lia.
  - rewrite decide_False by lia. simpl. lia.
Qed.

(** what the second loop does at a node it does not skip *)
Lemma visit_insert_Ok st i st' :
  visit_insert fuel alpha p t.2 st i = Ok st' ->
  visited_insert p i = true ->
  exists si row,
    st.2 !! i = Some si /\ t.2 !! i = Some row /\
    span_loop (length row) (default [] (Cnum p !! i)) (length row) (slot_at p i) 0
    = Ok (span_at p t i) /\
    shift_start fuel t.2 i (slot_at p i) = Ok (start_at fuel p t i) /\
    st' = (st.1 ++ [Insertion (Z.of_nat i + si) (slot_at p i) (label_at alpha p i)
                      (span_at p t i)],
           slice_add_from (start_at fuel p t i) 1 st.2).
Proof.
  intros Hv Hins. unfold visit_insert in Hv.
  apply bind_Ok in Hv as (d & Hd%lookup_err_Ok & Hv).
  unfold visited_insert, delta_at in Hins. rewrite Hd in Hins. cbn in Hins.
  apply negb_true_iff in Hins. rewrite Hins in Hv.
  apply bind_Ok in Hv as (lab & Hlab & Hv).
  apply bind_Ok in Hv as (crow & Hcrow & Hv).
  apply bind_Ok in Hv as (c & Hc & Hv).
  apply bind_Ok in Hv as (row & Hrow%lookup_err_Ok & Hv).
  apply bind_Ok in Hv as (scores & Hsc%lookup_err_Ok & Hv).
  apply bind_Ok in Hv as (C & HC & Hv).
  apply bind_Ok in Hv as (si & Hsi%lookup_err_Ok & Hv).
  apply bind_Ok in Hv as (j & Hj & Hv).
  injection Hv as <-.
  assert (slot_at p i = c) as Hslot.
  { unfold slot_at. rewrite Hcrow. simpl. now rewrite Hc. }
  assert (start_at fuel p t i = j) as Hstart.
  { unfold start_at. now rewrite Hslot, Hj. }
  assert (span_at p t i = C) as Hspan.
  { pose proof HC as HC'. apply span_loop_run in HC'; [|lia]. simpl in HC'.
    unfold span_at, degree. rewrite Hslot, Hrow, Hsc. simpl.
    rewrite HC'. now rewrite Nat.add_0_r. }
  exists si, row. rewrite Hslot, Hstart, Hspan, Hsc. cbn [default].
  unfold label_at. rewrite Hlab. auto.
Qed.

Lemma visit_insert_skip st i st' :
  visit_insert fuel alpha p t.2 st i = Ok st' ->
  visited_insert p i = false -> st' = st.
Proof.
  intros Hv Hins. unfold visit_insert in Hv.
  apply bind_Ok in Hv as (d & Hd%lookup_err_Ok & Hv).
  unfold visited_insert, delta_at in Hins. rewrite Hd in Hins. cbn in Hins.
  apply negb_false_iff in Hins. rewrite Hins in Hv. now injection Hv as <-.
Qed.

Lemma insertions_fold l : forall done s sh s' sh',
  shift_ok fuel p t done sh ->
  foldM (visit_insert fuel alpha p t.2) l (s, sh) = Ok (s', sh') ->
  s' = s ++ insertions_after fuel alpha p t done
              (filter (fun i => visited_insert p i = true) l) /\
  shift_ok fuel p t (done ++ filter (fun i => visited_insert p i = true) l) sh'.
Proof.
  induction l as [|i l IH]; intros done s sh s' sh' Hok H; simpl in H.
  - injection H as <- <-. simpl. now rewrite !app_nil_r.
  - apply bind_Ok in H as ([s1 sh1] & Hv & H).
    rewrite filter_cons.
    destruct (visited_insert p i) eqn:Hins.
    + rewrite decide_True by reflexivity.
      apply visit_insert_Ok in Hv as (si & row & Hsi & _ & _ & _ & Hst); [|exact Hins].
      cbn [fst snd] in Hsi, Hst. injection Hst as -> ->.
      apply IH with (done := done ++ [i]) in H.
      * destruct H as [-> Hok']. split; [|now rewrite <- app_assoc in Hok'].
        rewrite <- app_assoc. simpl. now rewrite (Hok i si Hsi).
      * intros k v Hk. rewrite slice_add_from_lookup in Hk.
        destruct (sh !! k) as [v0|] eqn:E; [|discriminate].
        simpl in Hk. injection Hk as <-.
        rewrite shift_of_snoc, (Hok k v0 E).
        destruct (Nat.leb (start_at fuel p t i) k); lia.
    + rewrite decide_False by discriminate.
      apply visit_insert_skip in Hv; [|exact Hins]. injection Hv as -> ->.
      eauto.
Qed.

Lemma deletions_fold sh l : forall s s',
  shift_ok fuel p t (nodes_of t (visited_insert p)) sh ->
  foldM (visit_delete p sh) l s = Ok s' ->
  s' = s ++ fmap (fun i => Deletion (Z.of_nat i
                     + shift_of fuel p t (nodes_of t (visited_insert p)) i))
              (filter (fun i => visited_delete p i = true) l).
Proof.
  induction l as [|i l IH]; intros s s' Hok H; simpl in H.
  - injection H as <-. now rewrite app_nil_r.
  - apply bind_Ok in H as (s1 & Hv & H). apply IH in H as ->; [|exact Hok].
    unfold visit_delete in Hv.
    apply bind_Ok in Hv as (d & Hd%lookup_err_Ok & Hv).
    assert (visited_delete p i = negb (at_least_minus_half d)) as Hdel.
    { unfold visited_delete, delta_at. now rewrite Hd. }
    rewrite filter_cons.
    destruct (at_least_minus_half d); simpl in *.
    + injection Hv as <-. now rewrite decide_False by (rewrite Hdel; discriminate).
    + apply bind_Ok in Hv as (si & Hsi%lookup_err_Ok & Hv).
      injection Hv as <-. rewrite decide_True by exact Hdel.
      rewrite <- app_assoc. simpl. now rewrite (Hok i si Hsi).
Qed.

Lemma predict_script_visited s :
  predict_script fuel alpha p t = Ok s -> s = visited_script fuel alpha p t.
Proof.
  unfold predict_script. intros H.
  apply bind_Ok in H as (s1 & H1 & H).
  apply bind_Ok in H as ([s2 sh] & H2 & H3).
  apply replacements_fold in H1. simpl in H1.
  apply insertions_fold with (done := []) in H2.
  - destruct H2 as [-> Hok]. simpl in Hok.
    apply deletions_fold in H3; [|exact Hok].
    rewrite H3, H1. unfold visited_script, replacements_of, insertions_of,
      deletions_of, nodes_of. simpl. now rewrite <- app_assoc.
  - intros k v Hk. apply lookup_replicate in Hk as [-> _]. reflexivity.
Qed.

(** a score that is a number is in the class of the specification exactly
    when the loop of that class does not skip it *)
Lemma classes_of_numbers i :
  delta p !! i <> Some NaN ->
  visited_replace p i = keeps p i /\ visited_insert p i = inserts p i /\
  visited_delete p i = deletes p i.
Proof.
  intros H. unfold visited_replace, visited_insert, visited_delete, keeps,
    inserts, deletes, delta_at.
  destruct (delta p !! i) as [[q|]|]; [| congruence |]; cbn;
    unfold gt_half; now rewrite negb_involutive.
Qed.

Lemma omap_agree {A B} (f g : A -> option B) (l : list A) :
  (forall a, a ∈ l -> f a = g a) -> omap f l = omap g l.
Proof.
  induction l as [|a l IH]; intros H; [reflexivity|].
  assert (omap f l = omap g l) as E by (apply IH; intros b Hb; apply H; now right).
  change (omap f (a :: l)) with (match f a with Some y => y :: omap f l | None => omap f l end).
  change (omap g (a :: l)) with (match g a with Some y => y :: omap g l | None => omap g l end).
  rewrite E, (H a) by left. reflexivity.
Qed.

Lemma filter_agree (f g : nat -> bool) (l : list nat) :
  (forall a, a ∈ l -> f a = g a) ->
  filter (fun i => f i = true) l = filter (fun i => g i = true) l.
Proof.
  induction l as [|a l IH]; intros H; [reflexivity|].
  rewrite !filter_cons, IH by (intros b Hb; apply H; now right).
  rewrite (H a) by left. reflexivity.
Qed.

Lemma visited_script_spec :
  (forall i, (i < length t.1)%nat -> delta p !! i <> Some NaN) ->
  visited_script fuel alpha p t = spec_script fuel alpha p t.
Proof.
  intros H.
  assert (forall i, i ∈ seq 0 (length t.1) ->
            visited_replace p i = keeps p i /\ visited_insert p i = inserts p i /\
            visited_delete p i = deletes p i) as Hc.
  { intros i Hi%elem_of_seq. apply classes_of_numbers, H. lia. }
  unfold visited_script, spec_script, replacements_of, insertions_of,
    deletions_of, nodes_of.
  rewrite (filter_agree (visited_insert p) (inserts p) (seq 0 (length t.1)))
    by (intros i Hi; apply (Hc i Hi)).
  rewrite (filter_agree (visited_delete p) (deletes p) (rev (seq 0 (length t.1)))).
  2:{ intros i Hi%list_elem_of_In%in_rev%list_elem_of_In. apply (Hc i Hi). }
  f_equal. apply omap_agree. intros i Hi.
  destruct (Hc i Hi) as (-> & _). reflexivity.
Qed.

(** C6 as amended: a script built by [predict_step] has three phases, and
    each node is in a phase when the loop of that phase does not skip it:
    first the Replacements of the nodes whose score is not above 0.5 in
    absolute value and whose most likely label differs from their label, in
    ascending order; then the Insertions of the nodes whose score is not at
    most 0.5, in ascending order, each at its index plus the running
    insertion shift, with the most likely child slot and the greedy span;
    then the Deletions of the nodes whose score is not at least -0.5, in
    descending order, each at its index plus the final insertion shift.
    When no deletion score is NaN these are the three classes of the
    specification (absolute value at most 0.5, above 0.5, below -0.5) and
    the script is the one the specification words. *)
Theorem three_phases s :
  predict_script fuel alpha p t = Ok s ->
  s = visited_script fuel alpha p t /\
  ((forall i, (i < length t.1)%nat -> delta p !! i <> Some NaN) ->
   s = spec_script fuel alpha p t).
Proof.
  intros H%predict_script_visited. split; [exact H|].
  intros Hn. rewrite H. now apply visited_script_spec.
Qed.
End Decode.

Lemma three_phases_witness :
  [Replacement 0 "succ"; Replacement 2 "succ"; Replacement 4 "succ";
   Insertion 1 0 "succ" 2; Deletion 4]
  = visited_script 10 alphabet pr1 t_plus_1_s0 /\
  [Replacement 0 "succ"; Replacement 2 "succ"; Replacement 4 "succ";
   Insertion 1 0 "succ" 2; Deletion 4]
  = spec_script 10 alphabet pr1 t_plus_1_s0.
Proof.
  destruct (three_phases 10 alphabet pr1 t_plus_1_s0 _ eq_refl) as [H1 H2].
  split; [exact H1|]. apply H2. intros i Hi.
  do 5 (destruct i as [|i]; [discriminate|]). simpl in Hi. lia.
Defined.

(** C6 as stated fails on a NaN score: a NaN is in none of the three
    classes of the specification, yet no loop skips its node.  With the
    score NaN at the "+" of root→+(1, succ(0)) the script holds a
    Replacement, an Insertion and a Deletion of that node, none of which
    is in the script that the specification words. *)
Lemma three_phases_nan_refuted :
  predict_script 10 alphabet pr_nan t_plus_1_s0
  = Ok [Replacement 0 "succ"; Replacement 1 "succ"; Replacement 2 "succ";
        Replacement 4 "succ"; Insertion 1 0 "succ" 2; Deletion 1] /\
  spec_script 10 alphabet pr_nan t_plus_1_s0
  = [Replacement 0 "succ"; Replacement 2 "succ"; Replacement 4 "succ"] /\
  forall s, predict_script 10 alphabet pr_nan t_plus_1_s0 = Ok s ->
    s <> spec_script 10 alphabet pr_nan t_plus_1_s0.
Proof.
  split; [reflexivity|]. split; [reflexivity|].
  intros s H. vm_compute in H. injection H as <-. discriminate.
Qed.

(** ** Forests and their flat encoding *)

Local Open Scope nat_scope.

Lemma labels_length f : length (labels f) = fsize f.
Proof.
  induction f as [|l c IHc s IHs]; simpl; [reflexivity|].
  rewrite length_app. lia.
Qed.

Lemma roots_length o f : length (roots o f) = ntrees f.
Proof.
  revert o. induction f as [|l c IHc s IHs]; intros o; simpl; [reflexivity|].
  now rewrite IHs.
Qed.

Lemma adjs_length o f : length (adjs o f) = fsize f.
Proof.
  revert o. induction f as [|l c IHc s IHs]; intros o; simpl; [reflexivity|].
  rewrite length_app, IHc, IHs. lia.
Qed.

Lemma fsize_fapp f g : fsize (fapp f g) = fsize f + fsize g.
Proof. induction f as [|l c IHc s IHs]; simpl; lia. Qed.

Lemma ntrees_fapp f g : ntrees (fapp f g) = ntrees f + ntrees g.
Proof. induction f as [|l c IHc s IHs]; simpl; lia. Qed.

Lemma labels_fapp f g : labels (fapp f g) = labels f ++ labels g.
Proof.
  induction f as [|l c IHc s IHs]; simpl; [reflexivity|].
  now rewrite IHs, <- app_assoc.
Qed.

Lemma roots_fapp o f g : roots o (fapp f g) = roots o f ++ roots (o + fsize f) g.
Proof.
  revert o. induction f as [|l c IHc s IHs]; intros o; simpl.
  - now rewrite Nat.add_0_r.
  - rewrite IHs. do 3 f_equal. lia.
Qed.

Lemma adjs_fapp o f g : adjs o (fapp f g) = adjs o f ++ adjs (o + fsize f) g.
Proof.
  revert o. induction f as [|l c IHc s IHs]; intros o; simpl.
  - now rewrite Nat.add_0_r.
  - rewrite IHs, <- !app_assoc. do 4 f_equal. lia.
Qed.

Lemma fapp_nil f : fapp f FNil = f.
Proof. induction f as [|l c IHc s IHs]; simpl; congruence. Qed.

Lemma roots_shift o f : roots (S o) f = S <$> roots o f.
Proof.
  revert o. induction f as [|l c IHc s IHs]; intros o; simpl; [reflexivity|].
  f_equal. apply (IHs (S (o + fsize c))).
Qed.

Lemma adjs_shift o f : adjs (S o) f = fmap (M := list) S <$> adjs o f.
Proof.
  revert o. induction f as [|l c IHc s IHs]; intros o; simpl; [reflexivity|].
  rewrite fmap_app. f_equal; [apply roots_shift|].
  f_equal; [apply IHc|apply (IHs (S (o + fsize c)))].
Qed.

Lemma roots_bounds o f x : x ∈ roots o f -> o <= x < o + fsize f.
Proof.
  revert o. induction f as [|l c IHc s IHs]; intros o H; simpl in *.
  - inversion H.
  - apply elem_of_cons in H as [->|H]; [lia|].
    apply IHs in H. lia.
Qed.

Lemma adjs_bounds o f row x :
  row ∈ adjs o f -> x ∈ row -> o < x < o + fsize f.
Proof.
  revert o. induction f as [|l c IHc s IHs]; intros o Hr Hx; simpl in *.
  - inversion Hr.
  - apply elem_of_cons in Hr as [->|Hr].
    + apply roots_bounds in Hx. lia.
    + apply elem_of_app in Hr as [Hr|Hr].
      * specialize (IHc _ Hr Hx). lia.
      * specialize (IHs _ Hr Hx). lia.
Qed.

Lemma delete_app_l {A} (l1 l2 : list A) i :
  i < length l1 -> delete i (l1 ++ l2) = delete i l1 ++ l2.
Proof.
  revert i. induction l1 as [|x l1 IH]; intros i Hi; simpl in *; [lia|].
  destruct i; [reflexivity|]. simpl. f_equal. apply IH. lia.
Qed.

Lemma delete_app_r {A} (l1 l2 : list A) i :
  length l1 <= i -> delete i (l1 ++ l2) = l1 ++ delete (i - length l1) l2.
Proof.
  revert i. induction l1 as [|x l1 IH]; intros i Hi; simpl in *.
  - now rewrite Nat.sub_0_r.
  - destruct i; [lia|]. simpl. f_equal. apply IH. lia.
Qed.

(** *** Deletion *)

Lemma del_row_cons q ch x row :
  del_row q ch (x :: row)
  = (if Nat.eqb x q then dec_above q <$> ch else [dec_above q x]) ++ del_row q ch row.
Proof.
  unfold del_row. simpl. rewrite fmap_app. now destruct (Nat.eqb x q).
Qed.

Lemma del_row_above q ch row :
  (forall x, x ∈ row -> q < x) -> del_row q ch row = Nat.pred <$> row.
Proof.
  induction row as [|x row IH]; intros H; [reflexivity|].
  rewrite del_row_cons, IH by (intros; apply H; now right).
  assert (q < x) as Hx by (apply H; left).
  destruct (Nat.eqb_spec x q); [lia|].
  unfold dec_above. destruct (Nat.ltb_spec q x); [reflexivity|lia].
Qed.

Lemma del_row_below q ch row :
  (forall x, x ∈ row -> x < q) -> del_row q ch row = row.
Proof.
  induction row as [|x row IH]; intros H; [reflexivity|].
  rewrite del_row_cons, IH by (intros; apply H; now right).
  assert (x < q) as Hx by (apply H; left).
  destruct (Nat.eqb_spec x q); [lia|].
  unfold dec_above. destruct (Nat.ltb_spec q x); [lia|reflexivity].
Qed.

Lemma roots_pred o f : Nat.pred <$> roots (S o) f = roots o f.
Proof.
  rewrite roots_shift, <- list_fmap_compose. apply list_fmap_id.
Qed.

Lemma adjs_pred o f : fmap (M := list) Nat.pred <$> adjs (S o) f = adjs o f.
Proof.
  rewrite adjs_shift, <- list_fmap_compose.
  rewrite <- (list_fmap_id (adjs o f)) at 2.
  apply list_fmap_ext. intros i row _. simpl.
  rewrite <- list_fmap_compose. apply list_fmap_id.
Qed.

Lemma del_roots_above q ch o f :
  q <= o -> del_row q ch (roots (S o) f) = roots o f.
Proof.
  intros H. rewrite del_row_above; [apply roots_pred|].
  intros x Hx%roots_bounds. lia.
Qed.

Lemma del_adjs_above q ch o f :
  q <= o -> del_row q ch <$> adjs (S o) f = adjs o f.
Proof.
  intros H. rewrite <- (adjs_pred o f).
  apply list_fmap_ext. intros i row Hrow.
  apply del_row_above. intros x Hx.
  apply list_elem_of_lookup_2 in Hrow.
  pose proof (adjs_bounds _ _ _ _ Hrow Hx). lia.
Qed.

Lemma del_roots_below q ch o f :
  o + fsize f <= q -> del_row q ch (roots o f) = roots o f.
Proof.
  intros H. apply del_row_below. intros x Hx%roots_bounds. lia.
Qed.

Lemma del_adjs_below q ch o f :
  o + fsize f <= q -> del_row q ch <$> adjs o f = adjs o f.
Proof.
  intros H. rewrite <- (list_fmap_id (adjs o f)) at 2.
  apply list_fmap_ext. intros i row Hrow. simpl.
  apply del_row_below. intros x Hx.
  apply list_elem_of_lookup_2 in Hrow.
  pose proof (adjs_bounds _ _ _ _ Hrow Hx). lia.
Qed.

Lemma fdel_size p f f' : fdel p f = Some f' -> p < fsize f /\ fsize f = S (fsize f').
Proof.
  revert p f'. induction f as [|l c IHc s IHs]; intros p f' H; simpl in H.
  - discriminate.
  - destruct p as [|p].
    + injection H as <-. rewrite fsize_fapp. simpl. lia.
    + destruct (Nat.ltb_spec p (fsize c)).
      * destruct (fdel p c) as [c'|] eqn:E; [|discriminate].
        injection H as <-. apply IHc in E. simpl. lia.
      * destruct (fdel (p - fsize c) s) as [s'|] eqn:E; [|discriminate].
        injection H as <-. apply IHs in E. simpl. lia.
Qed.

Lemma fdel_labels p f f' : fdel p f = Some f' -> delete p (labels f) = labels f'.
Proof.
  revert p f'. induction f as [|l c IHc s IHs]; intros p f' H; simpl in H.
  - discriminate.
  - destruct p as [|p].
    + injection H as <-. simpl. now rewrite labels_fapp.
    + simpl. destruct (Nat.ltb_spec p (fsize c)).
      * destruct (fdel p c) as [c'|] eqn:E; [|discriminate].
        injection H as <-. simpl. f_equal.
        rewrite delete_app_l by (rewrite labels_length; lia).
        now rewrite (IHc _ _ E).
      * destruct (fdel (p - fsize c) s) as [s'|] eqn:E; [|discriminate].
        injection H as <-. simpl. f_equal.
        rewrite delete_app_r by (rewrite labels_length; lia).
        rewrite labels_length. now rewrite (IHs _ _ E).
Qed.

Lemma fdel_adjs f : forall p f' o ch,
  fdel p f = Some f' ->
  adjs o f !! p = Some ch ->
  del_row (o + p) ch <$> delete p (adjs o f) = adjs o f' /\
  del_row (o + p) ch (roots o f) = roots o f'.
Proof.
  induction f as [|l c IHc s IHs]; intros p f' o ch H Hch; simpl in H.
  - discriminate.
  - destruct p as [|p].
    + injection H as <-. simpl in Hch. injection Hch as <-.
      rewrite Nat.add_0_r. simpl. split.
      * rewrite fmap_app, adjs_fapp.
        rewrite !del_adjs_above by lia. reflexivity.
      * rewrite del_row_cons, Nat.eqb_refl, roots_fapp.
        rewrite del_roots_above by lia. f_equal.
        rewrite <- (roots_pred o c). apply list_fmap_ext. intros i x Hx.
        apply list_elem_of_lookup_2, roots_bounds in Hx.
        unfold dec_above. destruct (Nat.ltb_spec o x); [reflexivity|lia].
    + simpl in Hch. simpl.
      assert (Nat.eqb o (o + S p) = false) as Hne by (apply Nat.eqb_neq; lia).
      assert (dec_above (o + S p) o = o) as Hdec.
      { unfold dec_above. destruct (Nat.ltb_spec (o + S p) o); [lia|reflexivity]. }
      destruct (Nat.ltb_spec p (fsize c)) as [Hlt|Hge].
      * destruct (fdel p c) as [c'|] eqn:E; [|discriminate].
        injection H as <-.
        rewrite lookup_app_l in Hch by (rewrite adjs_length; lia).
        destruct (IHc p c' (S o) ch E Hch) as [Ha Hr].
        replace (S o + p) with (o + S p) in * by lia.
        apply fdel_size in E as [_ Hsz].
        rewrite delete_app_l by (rewrite adjs_length; lia).
        simpl. rewrite fmap_app, Ha, Hr. split.
        -- do 2 f_equal.
           replace (S (o + fsize c)) with (S (S (o + fsize c'))) by lia.
           apply del_adjs_above. lia.
        -- rewrite del_row_cons, Hne, Hdec. simpl. f_equal.
           replace (S (o + fsize c)) with (S (S (o + fsize c'))) by lia.
           apply del_roots_above. lia.
      * destruct (fdel (p - fsize c) s) as [s'|] eqn:E; [|discriminate].
        injection H as <-.
        rewrite lookup_app_r in Hch by (rewrite adjs_length; lia).
        rewrite adjs_length in Hch.
        destruct (IHs (p - fsize c) s' (S (o + fsize c)) ch E Hch) as [Ha Hr].
        replace (S (o + fsize c) + (p - fsize c)) with (o + S p) in * by lia.
        rewrite delete_app_r by (rewrite adjs_length; lia).
        rewrite adjs_length. simpl. rewrite fmap_app, Ha. split.
        -- f_equal; [apply del_roots_below; lia|].
           f_equal. apply del_adjs_below. lia.
        -- rewrite del_row_cons, Hne, Hdec. simpl. now rewrite Hr.
Qed.

Lemma valid_pos_of_nat p n : p < n -> valid_pos (Z.of_nat p) n = Some p.
Proof.
  intros H. unfold valid_pos.
  destruct (Z.leb_spec 0 (Z.of_nat p)); [|lia].
  destruct (Z.ltb_spec (Z.of_nat p) (Z.of_nat n)); [|lia].
  simpl. now rewrite Nat2Z.id.
Qed.

Lemma apply_deletion_flat p f f' :
  fdel p f = Some f' -> apply_deletion (Z.of_nat p) (flat f) = Ok (flat f').
Proof.
  intros H. pose proof (fdel_size _ _ _ H) as [Hp _].
  unfold apply_deletion, flat. simpl.
  rewrite valid_pos_of_nat by (rewrite labels_length; lia).
  destruct (lookup_lt_is_Some_2 (adjs 0 f) p) as [ch Hch];
    [rewrite adjs_length; lia|].
  rewrite Hch. f_equal. f_equal.
  - now apply fdel_labels.
  - apply (fdel_adjs f p f' 0 ch H Hch).
Qed.

(** *** Replacement *)

Lemma frep_spec p lab : forall f f',
  frep p lab f = Some f' ->
  p < fsize f /\ fsize f' = fsize f /\
  labels f' = <[p := lab]> (labels f) /\
  (forall o, adjs o f' = adjs o f /\ roots o f' = roots o f).
Proof.
  intros f. revert p.
  induction f as [|l c IHc s IHs]; intros p f' H; simpl in H; [discriminate|].
  destruct p as [|p].
  - injection H as <-. simpl. split; [lia|]. split; [reflexivity|].
    split; [reflexivity|]. intros o. split; reflexivity.
  - destruct (Nat.ltb_spec p (fsize c)) as [Hlt|Hge].
    + destruct (frep p lab c) as [c'|] eqn:E; [|discriminate].
      injection H as <-. apply IHc in E as (Hp & Hsz & Hl & Ha).
      simpl. rewrite Hsz, Hl. split; [lia|]. split; [reflexivity|]. split.
      * rewrite insert_app_l by (rewrite labels_length; lia). reflexivity.
      * intros o. destruct (Ha (S o)) as [-> ->]. split; reflexivity.
    + destruct (frep (p - fsize c) lab s) as [s'|] eqn:E; [|discriminate].
      injection H as <-. apply IHs in E as (Hp & Hsz & Hl & Ha).
      simpl. rewrite Hsz, Hl. split; [lia|]. split; [reflexivity|]. split.
      * f_equal. replace p with (length (labels c) + (p - fsize c)) at 2
          by (rewrite labels_length; lia).
        now rewrite insert_app_r.
      * intros o. destruct (Ha (S (o + fsize c))) as [-> ->]. split; reflexivity.
Qed.

Lemma apply_replacement_flat p lab f f' :
  frep p lab f = Some f' ->
  apply_replacement (Z.of_nat p) lab (flat f) = Ok (flat f').
Proof.
  intros H. apply frep_spec in H as (Hp & _ & Hl & Ha).
  unfold apply_replacement, flat. simpl.
  rewrite valid_pos_of_nat by (rewrite labels_length; lia).
  rewrite Hl. now destruct (Ha 0) as [-> _].
Qed.

(** *** Insertion *)

Lemma inc_roots_above k o f : k <= o -> inc_from k <$> roots o f = roots (S o) f.
Proof.
  intros H. rewrite roots_shift. apply list_fmap_ext. intros i x Hx.
  apply list_elem_of_lookup_2, roots_bounds in Hx.
  unfold inc_from. destruct (Nat.leb_spec k x); [reflexivity|lia].
Qed.

Lemma inc_adjs_above k o f :
  k <= S o -> fmap (M := list) (inc_from k) <$> adjs o f = adjs (S o) f.
Proof.
  intros H. rewrite adjs_shift. apply list_fmap_ext. intros i row Hrow.
  apply list_fmap_ext. intros j x Hx.
  apply list_elem_of_lookup_2 in Hrow, Hx.
  pose proof (adjs_bounds _ _ _ _ Hrow Hx).
  unfold inc_from. destruct (Nat.leb_spec k x); [reflexivity|lia].
Qed.

Lemma inc_roots_below k o f :
  o + fsize f <= k -> inc_from k <$> roots o f = roots o f.
Proof.
  intros H. rewrite <- (list_fmap_id (roots o f)) at 2.
  apply list_fmap_ext. intros i x Hx.
  apply list_elem_of_lookup_2, roots_bounds in Hx.
  unfold inc_from. destruct (Nat.leb_spec k x); [lia|reflexivity].
Qed.

Lemma inc_adjs_below k o f :
  o + fsize f <= k -> fmap (M := list) (inc_from k) <$> adjs o f = adjs o f.
Proof.
  intros H. rewrite <- (list_fmap_id (adjs o f)) at 2.
  apply list_fmap_ext. intros i row Hrow. simpl.
  rewrite <- (list_fmap_id row) at 2.
  apply list_fmap_ext. intros j x Hx.
  apply list_elem_of_lookup_2 in Hrow, Hx.
  pose proof (adjs_bounds _ _ _ _ Hrow Hx).
  unfold inc_from. destruct (Nat.leb_spec k x); [lia|reflexivity].
Qed.

Lemma fsplit_spec n : forall g r,
  fsplit n g = Some r -> g = fapp r.1 r.2 /\ ntrees r.1 = n.
Proof.
  induction n as [|n IH]; intros g r H; simpl in H.
  - injection H as <-. split; reflexivity.
  - destruct g as [|l c s]; [discriminate|].
    destruct (fsplit n s) as [r'|] eqn:E; [|discriminate].
    injection H as <-. apply IH in E as [E1 E2]. simpl. split; congruence.
Qed.

Lemma fwrap_spec span lab g : forall c g' o,
  fwrap c span lab g = Some g' ->
  exists k,
    roots o g !! c = Some k /\
    roots o g' = take c (inc_from k <$> roots o g) ++ [k]
                 ++ drop (c + span) (inc_from k <$> roots o g) /\
    adjs o g' = take (k - o) (fmap (M := list) (inc_from k) <$> adjs o g)
                ++ [take span (drop c (inc_from k <$> roots o g))]
                ++ drop (k - o) (fmap (M := list) (inc_from k) <$> adjs o g) /\
    labels g' = take (k - o) (labels g) ++ [lab] ++ drop (k - o) (labels g) /\
    fsize g' = S (fsize g) /\ o <= k < o + fsize g /\ c + span <= ntrees g.
Proof.
  induction g as [|l kk _ ss IH]; intros c g' o H; [discriminate|].
  destruct c as [|c].
  - remember (FCons l kk ss) as g eqn:Eg.
    assert (fsplit span g ≫= (fun r => Some (FCons lab r.1 r.2)) = Some g') as H'
      by (subst g; exact H).
    clear H. destruct (fsplit span g) as [[mid rest]|] eqn:E; [|discriminate].
    injection H' as <-. apply fsplit_spec in E as [E1 E2]. simpl in E1, E2.
    exists o. split; [subst g; reflexivity|].
    assert (0 < fsize g) by (rewrite Eg; simpl; lia).
    clear Eg. subst g.
    rewrite inc_roots_above, inc_adjs_above by lia.
    rewrite Nat.sub_diag, roots_fapp, adjs_fapp, labels_fapp. simpl.
    rewrite drop_app_length' by (rewrite roots_length; lia).
    rewrite !drop_0.
    rewrite take_app_length' by (rewrite roots_length; lia).
    rewrite fsize_fapp, ntrees_fapp in *.
    repeat split; lia.
  - simpl in H. destruct (fwrap c span lab ss) as [ss'|] eqn:E; [|discriminate].
    injection H as <-.
    destruct (IH c ss' (S (o + fsize kk)) E) as (k & Hk & Hr & Ha & Hl & Hs & Hb & Hn).
    exists k. simpl.
    assert (inc_from k o = o) as Ho.
    { unfold inc_from. destruct (Nat.leb_spec k o); [lia|reflexivity]. }
    rewrite Ho, fmap_app, (inc_roots_below k (S o) kk), (inc_adjs_below k (S o) kk)
      by lia.
    split; [exact Hk|]. split; [now rewrite Hr|]. split; [|split; [|lia]].
    + replace (k - o) with (S (fsize kk + (k - S (o + fsize kk)))) by lia.
      simpl. rewrite Ha.
      rewrite take_app_add', drop_app_add' by (now rewrite adjs_length).
      rewrite <- app_assoc. reflexivity.
    + replace (k - o) with (S (fsize kk + (k - S (o + fsize kk)))) by lia.
      simpl. rewrite Hl.
      rewrite take_app_add', drop_app_add' by (now rewrite labels_length).
      rewrite <- app_assoc. reflexivity.
Qed.

Ltac refold_fmap :=
  repeat match goal with
         | |- context [list_fmap ?A ?B ?g ?l] =>
             change (list_fmap A B g l) with (g <$> l)
         end.

Lemma fins_spec c lab span f : forall p f' o,
  fins p c lab span f = Some f' ->
  exists ch k,
    adjs o f !! p = Some ch /\ ch !! c = Some k /\
    adjs o f'
    = take (k - o)
        (<[p := take c (inc_from k <$> ch) ++ [k]
                ++ drop (c + span) (inc_from k <$> ch)]>
           (fmap (M := list) (inc_from k) <$> adjs o f))
      ++ [take span (drop c (inc_from k <$> ch))]
      ++ drop (k - o)
           (<[p := take c (inc_from k <$> ch) ++ [k]
                   ++ drop (c + span) (inc_from k <$> ch)]>
              (fmap (M := list) (inc_from k) <$> adjs o f)) /\
    roots o f' = inc_from k <$> roots o f /\
    labels f' = take (k - o) (labels f) ++ [lab] ++ drop (k - o) (labels f) /\
    fsize f' = S (fsize f) /\ o + p < k < o + fsize f /\
    c + span <= length ch /\ p < fsize f.
Proof.
  induction f as [|l kids IHk s IHs]; intros p f' o H; [discriminate|].
  simpl in H. destruct p as [|p].
  - destruct (fwrap c span lab kids) as [kids'|] eqn:E; [|discriminate].
    injection H as <-.
    destruct (fwrap_spec _ _ _ _ _ (S o) E) as (k & Hk & Hr & Ha & Hl & Hs & Hb & Hn).
    exists (roots (S o) kids), k. simpl.
    assert (inc_from k o = o) as Ho.
    { unfold inc_from. destruct (Nat.leb_spec k o); [lia|reflexivity]. }
    rewrite Ho, fmap_app. refold_fmap.
    rewrite (inc_adjs_above k (S (o + fsize kids)) s) by lia.
    rewrite (inc_roots_above k (S (o + fsize kids)) s) by lia.
    replace (k - o) with (S (k - S o)) by lia. simpl.
    rewrite !take_app_le, !drop_app_le
      by (rewrite ?length_fmap, ?adjs_length, ?labels_length; lia).
    rewrite Hr, Ha, Hl, Hs, <- !app_assoc. simpl.
    rewrite roots_length, ?Nat.add_succ_r. repeat split; auto; lia.
  - destruct (Nat.ltb_spec p (fsize kids)) as [Hlt|Hge].
    + destruct (fins p c lab span kids) as [kids'|] eqn:E; [|discriminate].
      injection H as <-.
      destruct (IHk p kids' (S o) E)
        as (ch & k & Hch & Hk & Ha & Hr & Hl & Hs & Hb & Hn & Hp).
      exists ch, k. simpl.
      assert (inc_from k o = o) as Ho.
      { unfold inc_from. destruct (Nat.leb_spec k o); [lia|reflexivity]. }
      rewrite Ho, fmap_app. refold_fmap.
      rewrite (inc_adjs_above k (S (o + fsize kids)) s) by lia.
      rewrite (inc_roots_above k (S (o + fsize kids)) s) by lia.
      rewrite lookup_app_l by (rewrite adjs_length; lia).
      rewrite insert_app_l by (rewrite length_fmap, adjs_length; lia).
      replace (k - o) with (S (k - S o)) by lia. simpl.
      rewrite !take_app_le, !drop_app_le
        by (rewrite ?length_insert, ?length_fmap, ?adjs_length, ?labels_length; lia).
      rewrite Hr, Ha, Hl, Hs, <- !app_assoc. simpl.
      rewrite ?Nat.add_succ_r. repeat split; auto; lia.
    + destruct (fins (p - fsize kids) c lab span s) as [s'|] eqn:E; [|discriminate].
      injection H as <-.
      destruct (IHs (p - fsize kids) s' (S (o + fsize kids)) E)
        as (ch & k & Hch & Hk & Ha & Hr & Hl & Hs & Hb & Hn & Hp).
      exists ch, k. simpl.
      assert (inc_from k o = o) as Ho.
      { unfold inc_from. destruct (Nat.leb_spec k o); [lia|reflexivity]. }
      rewrite Ho, fmap_app. refold_fmap.
      rewrite (inc_adjs_below k (S o) kids) by lia.
      rewrite (inc_roots_below k (S o) kids) by lia.
      rewrite lookup_app_r by (rewrite adjs_length; lia).
      rewrite adjs_length.
      replace p with (length (adjs (S o) kids) + (p - fsize kids)) at 2 3
        by (rewrite adjs_length; lia).
      rewrite insert_app_r.
      replace (k - o) with (S (fsize kids + (k - S (o + fsize kids)))) by lia.
      simpl.
      rewrite !take_app_add', !drop_app_add'
        by (now rewrite ?adjs_length, ?labels_length).
      rewrite Hr, Ha, Hl, Hs, <- !app_assoc. simpl.
      rewrite ?Nat.add_succ_r. repeat split; auto; lia.
Qed.

Lemma apply_insertion_flat p c lab span f f' :
  fins p c lab span f = Some f' ->
  apply_insertion (Z.of_nat p) c lab span (flat f) = Ok (flat f').
Proof.
  intros H.
  destruct (fins_spec _ _ _ _ _ _ 0 H)
    as (ch & k & Hch & Hk & Ha & Hr & Hl & Hs & Hb & Hn & Hp).
  unfold apply_insertion, flat. simpl.
  rewrite valid_pos_of_nat by (rewrite labels_length; lia).
  rewrite Hch. destruct (Nat.ltb_spec (length ch) (c + span)); [lia|].
  rewrite Hk. rewrite Nat.sub_0_r in *. now rewrite Ha, Hl.
Qed.

(** an edit that succeeds on a forest does the same on its flat tree *)
Lemma apply_edit_flat e f f' :
  fop e f = Some f' -> apply_edit e (flat f) = Ok (flat f').
Proof.
  destruct e as [p|p c lab span|p lab]; simpl; intros H;
    destruct (Z.leb_spec 0 p); try discriminate;
    rewrite <- (Z2Nat.id p) by lia.
  - now apply apply_deletion_flat.
  - now apply apply_insertion_flat.
  - now apply apply_replacement_flat.
Qed.

Lemma apply_script_flat s : forall f f',
  fapply s f = Some f' -> apply_script s (flat f) = Ok (flat f').
Proof.
  induction s as [|e s IH]; intros f f' H; simpl in *.
  - now injection H as <-.
  - destruct (fop e f) as [f1|] eqn:E; [|discriminate]. simpl in H.
    rewrite (apply_edit_flat _ _ _ E). simpl. now apply IH.
Qed.

(** ** One pass on the forest of an expression *)

Local Open Scope nat_scope.

Lemma fins_size p c lab span f f' : fins p c lab span f = Some f' -> p < fsize f.
Proof.
  intros H. destruct (fins_spec _ _ _ _ _ _ 0 H) as (? & ? & ?). tauto.
Qed.

Lemma fop_under e l c c' s :
  fop e c = Some c' -> fop (shift_edit 1 e) (FCons l c s) = Some (FCons l c' s).
Proof.
  destruct e as [p|p k lab span|p lab]; simpl; intros H;
    destruct (Z.leb_spec 0 p); try discriminate;
    change (Z.of_nat 1) with 1%Z;
    (destruct (Z.leb_spec 0 (p + 1)%Z); [|lia]);
    replace (Z.to_nat (p + 1)) with (S (Z.to_nat p)) by lia; simpl.
  - pose proof (fdel_size _ _ _ H) as [Hp _].
    destruct (Nat.ltb_spec (Z.to_nat p) (fsize c)); [|lia]. now rewrite H.
  - pose proof (fins_size _ _ _ _ _ _ H) as Hp.
    destruct (Nat.ltb_spec (Z.to_nat p) (fsize c)); [|lia]. now rewrite H.
  - pose proof (frep_spec _ _ _ _ H) as [Hp _].
    destruct (Nat.ltb_spec (Z.to_nat p) (fsize c)); [|lia]. now rewrite H.
Qed.

Lemma fop_after e l c s s' :
  fop e s = Some s' ->
  fop (shift_edit (S (fsize c)) e) (FCons l c s) = Some (FCons l c s').
Proof.
  destruct e as [p|p k lab span|p lab]; simpl; intros H;
    destruct (Z.leb_spec 0 p); try discriminate;
    (destruct (Z.leb_spec 0 (p + Z.of_nat (S (fsize c)))%Z); [|lia]);
    replace (Z.to_nat (p + Z.of_nat (S (fsize c))))
      with (S (fsize c + Z.to_nat p)) by lia; simpl;
    (destruct (Nat.ltb_spec (fsize c + Z.to_nat p) (fsize c)); [lia|]);
    replace (fsize c + Z.to_nat p - fsize c) with (Z.to_nat p) by lia;
    now rewrite H.
Qed.

Lemma fapply_under s : forall l c c' sib,
  fapply s c = Some c' ->
  fapply (shift_edit 1 <$> s) (FCons l c sib) = Some (FCons l c' sib).
Proof.
  induction s as [|e s IH]; intros l c c' sib H; simpl in *.
  - now injection H as <-.
  - destruct (fop e c) as [c1|] eqn:E; [|discriminate]. simpl in H.
    rewrite (fop_under _ l _ _ sib E). simpl. now apply IH.
Qed.

Lemma fapply_after s : forall l c sib sib',
  fapply s sib = Some sib' ->
  fapply (shift_edit (S (fsize c)) <$> s) (FCons l c sib) = Some (FCons l c sib').
Proof.
  induction s as [|e s IH]; intros l c sib sib' H; simpl in *.
  - now injection H as <-.
  - destruct (fop e sib) as [s1|] eqn:E; [|discriminate]. simpl in H.
    rewrite (fop_after _ l c _ _ E). simpl. now apply IH.
Qed.

Lemma fapply_app s1 s2 f f1 :
  fapply s1 f = Some f1 -> fapply (s1 ++ s2) f = fapply s2 f1.
Proof.
  revert f. induction s1 as [|e s1 IH]; intros f H; simpl in *.
  - now injection H as <-.
  - destruct (fop e f) as [f'|]; [|discriminate]. simpl in *. now apply IH.
Qed.

Lemma shift_edit_add a b e : shift_edit a (shift_edit b e) = shift_edit (b + a) e.
Proof. destruct e; simpl; f_equal; lia. Qed.

Lemma shift_script_add a b (s : script) :
  shift_edit a <$> (shift_edit b <$> s) = shift_edit (b + a) <$> s.
Proof.
  rewrite <- list_fmap_compose. apply list_fmap_ext. intros i e _.
  apply shift_edit_add.
Qed.

(** the cases of the rule set, as an induction principle *)
Lemma expr_rule_ind (P : expr -> Prop) :
  (forall n, P (Num n)) ->
  (forall n, P (Succ (Num n))) ->
  (forall e, (forall n, e <> Num n) -> P e -> P (Succ e)) ->
  (forall l, P l -> P (Plus l (Num 0))) ->
  (forall l n, n <> 0%Z -> P l -> P (Plus l (Num n))) ->
  (forall l r, P l -> P r -> P (Plus l (Succ r))) ->
  (forall l a b, P l -> P (Plus a b) -> P (Plus l (Plus a b))) ->
  forall e, P e.
Proof.
  intros HN HSN HS HP0 HPN HPS HPP e.
  assert (forall n e, esize e <= n -> P e) as H; [|now apply (H (esize e))].
  clear e. induction n as [|n IH]; intros e He.
  - destruct e; simpl in He; lia.
  - destruct e as [m|e|l r]; simpl in He.
    + apply HN.
    + destruct e as [m|e|a b]; [apply HSN| |];
        (apply HS; [discriminate|apply IH; simpl in *; lia]).
    + destruct r as [m|r|a b].
      * destruct (Z.eq_dec m 0%Z) as [->|Hm].
        -- apply HP0, IH. lia.
        -- apply HPN; [exact Hm|]. apply IH. lia.
      * apply HPS; apply IH; simpl in *; lia.
      * apply HPP; apply IH; simpl in *; lia.
Qed.

Lemma step_succ e : (forall n, e <> Num n) -> step (Succ e) = Succ (step e).
Proof. destruct e; [intros H; now destruct (H n)|reflexivity..]. Qed.

Lemma emit_succ e q : (forall n, e <> Num n) -> emit (Succ e) q = emit e (S q).
Proof. destruct e; [intros H; now destruct (H n)|reflexivity..]. Qed.

Lemma step_plus_num l n :
  n <> 0%Z -> step (Plus l (Num n)) = Plus (step l) (Succ (Num (n - 1))).
Proof. intros H%Z.eqb_neq. simpl. now rewrite H. Qed.

Lemma emit_plus_num l n q :
  n <> 0%Z ->
  emit (Plus l (Num n)) q
  = [Insertion (Z.of_nat q) 1 "succ" 1;
     Replacement (Z.of_nat (q + esize l + 2)) (py_str (n - 1))] ++ emit l (S q).
Proof. intros H%Z.eqb_neq. simpl. now rewrite H. Qed.

Lemma emit_plus_plus l a b q :
  emit (Plus l (Plus a b)) q
  = emit l (S q) ++ emit (Plus a b) (S (q + esize (step l))).
Proof. reflexivity. Qed.

Lemma emit_plus_succ l r q :
  emit (Plus l (Succ r)) q
  = [Insertion (Z.of_nat q) 0 "succ" 1; Deletion (Z.of_nat (q + esize l + 2))]
    ++ emit l (q + 2) ++ emit r (q + 2 + esize (step l)).
Proof. reflexivity. Qed.

Lemma emit_shift e : forall q k, emit e (q + k) = shift_edit k <$> emit e q.
Proof.
  induction e as [n|n|e Hne IH|l IHl|l n Hn IHl|l r IHl IHr|l a b IHl IHr]
    using expr_rule_ind; intros q k.
  - reflexivity.
  - simpl. do 2 f_equal; f_equal; lia.
  - rewrite !emit_succ by exact Hne. apply (IH (S q) k).
  - simpl. rewrite (IHl q k). do 2 f_equal; f_equal; lia.
  - rewrite !emit_plus_num by exact Hn. simpl.
    change (S (q + k)) with (S q + k).
    rewrite (IHl (S q) k). do 2 f_equal; f_equal; lia.
  - rewrite !emit_plus_succ. rewrite !fmap_app. simpl.
    replace (q + k + 2) with (q + 2 + k) by lia.
    replace (q + 2 + k + esize (step l)) with (q + 2 + esize (step l) + k) by lia.
    rewrite (IHl (q + 2) k), (IHr (q + 2 + esize (step l)) k).
    do 2 f_equal; f_equal; lia.
  - rewrite !emit_plus_plus, fmap_app.
    change (S (q + k)) with (S q + k). rewrite (IHl (S q) k).
    replace (S (q + k + esize (step l))) with (S (q + esize (step l)) + k) by lia.
    now rewrite (IHr (S (q + esize (step l))) k).
Qed.

Lemma tin_shape e :
  exists lab kids, (forall s, tin e s = FCons lab kids s) /\ S (fsize kids) = esize e.
Proof.
  induction e as [n|e IH|l IHl r IHr].
  - exists (py_str n), FNil. split; reflexivity.
  - destruct IH as (lab & kids & H & Hs).
    exists "succ", (tin e FNil). split; [reflexivity|].
    rewrite H. simpl. lia.
  - destruct IHl as (labl & kidsl & Hl & Hsl).
    destruct IHr as (labr & kidsr & Hr & Hsr).
    exists "+", (tin l (tin r FNil)). split; [reflexivity|].
    rewrite Hl, Hr. simpl. lia.
Qed.

Lemma fsize_tin e s : fsize (tin e s) = esize e + fsize s.
Proof.
  destruct (tin_shape e) as (lab & kids & H & Hs). rewrite H. simpl. lia.
Qed.

Lemma fapp_tin e s1 s2 : fapp (tin e s1) s2 = tin e (fapp s1 s2).
Proof.
  destruct (tin_shape e) as (lab & kids & H & Hs). now rewrite !H.
Qed.

Lemma fop_deletion p f : fop (Deletion (Z.of_nat p)) f = fdel p f.
Proof.
  simpl. destruct (Z.leb_spec 0 (Z.of_nat p)); [|lia]. now rewrite Nat2Z.id.
Qed.

Lemma fop_insertion p c lab span f :
  fop (Insertion (Z.of_nat p) c lab span) f = fins p c lab span f.
Proof.
  simpl. destruct (Z.leb_spec 0 (Z.of_nat p)); [|lia]. now rewrite Nat2Z.id.
Qed.

Lemma fop_replacement p lab f : fop (Replacement (Z.of_nat p) lab) f = frep p lab f.
Proof.
  simpl. destruct (Z.leb_spec 0 (Z.of_nat p)); [|lia]. now rewrite Nat2Z.id.
Qed.

Lemma fdel_under p l c s :
  p < fsize c -> fdel (S p) (FCons l c s) = c' ← fdel p c; Some (FCons l c' s).
Proof. intros H. simpl. now destruct (Nat.ltb_spec p (fsize c)); [|lia]. Qed.

Lemma fdel_after p l c s :
  fdel (S (fsize c + p)) (FCons l c s) = s' ← fdel p s; Some (FCons l c s').
Proof.
  simpl. destruct (Nat.ltb_spec (fsize c + p) (fsize c)); [lia|].
  now replace (fsize c + p - fsize c) with p by lia.
Qed.

Lemma frep_under p lab l c s :
  p < fsize c -> frep (S p) lab (FCons l c s) = c' ← frep p lab c; Some (FCons l c' s).
Proof. intros H. simpl. now destruct (Nat.ltb_spec p (fsize c)); [|lia]. Qed.

Lemma frep_after p lab l c s :
  frep (S (fsize c + p)) lab (FCons l c s) = s' ← frep p lab s; Some (FCons l c s').
Proof.
  simpl. destruct (Nat.ltb_spec (fsize c + p) (fsize c)); [lia|].
  now replace (fsize c + p - fsize c) with p by lia.
Qed.

Lemma fdel_tin_after e p s :
  fdel (esize e + p) (tin e s) = s' ← fdel p s; Some (tin e s').
Proof.
  destruct (tin_shape e) as (lab & kids & H & <-). rewrite H.
  change (S (fsize kids) + p) with (S (fsize kids + p)).
  rewrite (fdel_after p lab kids s).
  destruct (fdel p s); simpl; [now rewrite H|reflexivity].
Qed.

Lemma frep_tin_after e p lab s :
  frep (esize e + p) lab (tin e s) = s' ← frep p lab s; Some (tin e s').
Proof.
  destruct (tin_shape e) as (lab' & kids & H & <-). rewrite H.
  change (S (fsize kids) + p) with (S (fsize kids + p)).
  rewrite (frep_after p lab lab' kids s).
  destruct (frep p lab s); simpl; [now rewrite H|reflexivity].
Qed.

Lemma fapply_tin_after e sc s s' :
  fapply sc s = Some s' ->
  fapply (shift_edit (esize e) <$> sc) (tin e s) = Some (tin e s').
Proof.
  destruct (tin_shape e) as (lab & kids & H & <-). rewrite !H.
  apply fapply_after.
Qed.

(** applied to the forest of [e], the edits of one pass give the forest of
    [step e]; the siblings to the right are left alone *)
Lemma fapply_emit e : forall sib,
  fapply (emit e 0) (tin e sib) = Some (tin (step e) sib).
Proof.
  induction e as [n|n|e Hne IH|l IHl|l n Hn IHl|l r IHl IHr|l a b IHl IHr]
    using expr_rule_ind; intros sib.
  - reflexivity.
  - reflexivity.
  - rewrite emit_succ, step_succ by exact Hne.
    rewrite (emit_shift e 0 1 : emit e 1 = _). apply fapply_under, IH.
  - change (emit (Plus l (Num 0)) 0)
      with ([Deletion (Z.of_nat 0); Deletion (Z.of_nat (0 + esize l))] ++ emit l 0).
    change (step (Plus l (Num 0))) with (step l).
    erewrite fapply_app; [apply IHl|].
    cbn [fapply]. rewrite fop_deletion. cbn [tin fdel mbind option_bind].
    rewrite fop_deletion, fapp_tin. cbn [fapp].
    replace (0 + esize l) with (esize l + 0) by lia.
    rewrite fdel_tin_after. reflexivity.
  - rewrite emit_plus_num, step_plus_num by exact Hn.
    rewrite (emit_shift l 0 1 : emit l 1 = _).
    erewrite fapply_app.
    + cbn [tin]. apply fapply_under, IHl.
    + cbn [fapply]. rewrite fop_insertion.
      destruct (tin_shape l) as (lab & kids & Hl & Hs).
      cbn [tin]. rewrite !Hl. cbn -[fop].
      rewrite fop_replacement.
      replace (esize l + 2) with (S (esize l + 1)) by lia.
      rewrite frep_under by (simpl; lia).
      rewrite <- !Hl, frep_tin_after. reflexivity.
  - rewrite emit_plus_succ.
    change (step (Plus l (Succ r))) with (Plus (Succ (step l)) (step r)).
    rewrite (emit_shift l 0 2 : emit l (0 + 2) = _).
    rewrite (emit_shift r 0 (2 + esize (step l))
             : emit r (0 + 2 + esize (step l)) = _).
    erewrite fapply_app; [erewrite fapply_app|].
    + cbn [tin].
      replace (2 + esize (step l)) with (S (esize (step l)) + 1) by lia.
      rewrite <- (shift_script_add 1 (S (esize (step l)))).
      apply fapply_under.
      replace (S (esize (step l))) with (S (fsize (tin (step l) FNil)))
        by (rewrite fsize_tin; simpl; lia).
      apply fapply_after, IHr.
    + rewrite <- (shift_script_add 1 1).
      apply fapply_under, fapply_under, IHl.
    + cbn [fapply]. rewrite fop_insertion.
      destruct (tin_shape l) as (lab & kids & Hl & Hs).
      cbn [tin]. rewrite !Hl. cbn -[fop]. rewrite fop_deletion.
      replace (esize l + 2) with (S (S (S (fsize kids + 0) + 0))) by lia.
      rewrite fdel_under by (simpl; lia).
      change (S (fsize kids + 0)) with (fsize (FCons lab kids FNil)).
      rewrite fdel_after. cbn. now rewrite fapp_nil.
  - rewrite emit_plus_plus.
    change (step (Plus l (Plus a b))) with (Plus (step l) (step (Plus a b))).
    rewrite (emit_shift l 0 1 : emit l 1 = _).
    rewrite (emit_shift (Plus a b) 0 (S (esize (step l)))
             : emit (Plus a b) (S (0 + esize (step l))) = _).
    erewrite fapply_app.
    + cbn [tin].
      replace (S (esize (step l))) with (esize (step l) + 1) by lia.
      rewrite <- (shift_script_add 1 (esize (step l))).
      apply fapply_under, fapply_tin_after, IHr.
    + cbn [tin]. apply fapply_under, IHl.
Qed.

(** ** The parent array of an encoded forest *)

Local Open Scope nat_scope.

Lemma foldM_app {A B} (f : B -> A -> res B) l1 l2 b :
  foldM f (l1 ++ l2) b = b' ← foldM f l1 b; foldM f l2 b'.
Proof.
  revert b. induction l1 as [|a l1 IH]; intros b; simpl; [reflexivity|].
  destruct (f b a); simpl; auto.
Qed.

Lemma set_parent_row n i row : forall pi,
  (forall x, x ∈ row -> x < n) ->
  exists pi', foldM (set_parent n i) row pi = Ok pi' /\
              length pi' = length pi /\
              (forall x, x < length pi -> x ∈ row -> pi' !! x = Some i) /\
              (forall x, x ∉ row -> pi' !! x = pi !! x).
Proof.
  induction row as [|j row IH]; intros pi Hb; cbn [foldM].
  - exists pi. repeat split; auto. intros x _ Hx. inversion Hx.
  - assert (j < n) as Hj by (apply Hb; left).
    assert (set_parent n i pi j = Ok (<[j := i]> pi)) as ->.
    { unfold set_parent. destruct (Nat.ltb_spec j n); [reflexivity|lia]. }
    cbn [mbind res_bind].
    destruct (IH (<[j := i]> pi)) as (pi' & E & Hlen & Hin & Hout).
    { intros x Hx. apply Hb. now right. }
    rewrite E.
    rewrite length_insert in Hlen, Hin.
    exists pi'. repeat split; auto.
    + intros x Hx Hx'. destruct (decide (x ∈ row)) as [Hr|Hr]; [auto|].
      apply elem_of_cons in Hx' as [->|Hx']; [|contradiction].
      rewrite Hout by exact Hr. now apply list_lookup_insert_eq.
    + intros x Hx. rewrite Hout by (intros ?; apply Hx; now right).
      apply list_lookup_insert_ne. intros ->. apply Hx. left.
Qed.

Lemma pi_forest_ext pi pi' f : forall o,
  (forall x, o < x < o + fsize f -> pi' !! x = pi !! x) ->
  pi_forest pi o f -> pi_forest pi' o f.
Proof.
  induction f as [|l c IHc s IHs]; intros o Hext H; simpl in *; [exact I|].
  destruct H as (Hr & Hc & Hs). split; [|split].
  - intros x Hx. rewrite Hext; [auto|]. apply roots_bounds in Hx. lia.
  - apply IHc; [|exact Hc]. intros x Hx. apply Hext. lia.
  - apply IHs; [|exact Hs]. intros x Hx. apply Hext. lia.
Qed.

Section Parents.
Variables (n : nat) (adj : list (list nat)).

Lemma parents_forest f : forall o pi,
  (forall i r, adjs o f !! i = Some r -> adj !! (o + i) = Some r) ->
  o + fsize f <= n -> length pi = n ->
  exists pi',
    foldM (fun pi i => row ← lookup_err adj i; foldM (set_parent n i) row pi)
          (seq o (fsize f)) pi = Ok pi' /\
    length pi' = n /\
    (forall x, x ∈ roots o f \/ x < o \/ o + fsize f <= x -> pi' !! x = pi !! x) /\
    pi_forest pi' o f.
Proof.
  induction f as [|l c IHc s IHs]; intros o pi Hadj Hn Hlen.
  - exists pi. simpl. auto.
  - cbn [fsize seq]. rewrite seq_app.
    cbn [foldM]. rewrite (proj2 (lookup_err_Ok adj o (roots (S o) c))).
    2:{ specialize (Hadj 0 (roots (S o) c) eq_refl). now rewrite Nat.add_0_r in Hadj. }
    cbn [mbind res_bind].
    destruct (set_parent_row n o (roots (S o) c) pi) as (pi1 & -> & Hl1 & Hin1 & Hout1).
    { intros x Hx%roots_bounds. simpl in Hn. lia. }
    cbn [mbind res_bind]. rewrite foldM_app.
    destruct (IHc (S o) pi1) as (pi2 & -> & Hl2 & Hf2 & Hp2).
    { intros i r Hi. specialize (Hadj (S i) r). simpl in Hadj.
      rewrite lookup_app_l in Hadj by (apply lookup_lt_Some in Hi; exact Hi).
      replace (S o + i) with (o + S i) by lia. auto. }
    { simpl in Hn. lia. }
    { lia. }
    cbn [mbind res_bind].
    destruct (IHs (S o + fsize c) pi2) as (pi3 & -> & Hl3 & Hf3 & Hp3).
    { intros i r Hi. specialize (Hadj (S (fsize c + i)) r). simpl in Hadj.
      rewrite lookup_app_r in Hadj by (rewrite adjs_length; lia).
      rewrite adjs_length in Hadj.
      replace (fsize c + i - fsize c) with i in Hadj by lia.
      replace (S o + fsize c + i) with (o + S (fsize c + i)) by lia. auto. }
    { simpl in Hn. lia. }
    { lia. }
    exists pi3. split; [reflexivity|]. split; [exact Hl3|]. split.
    + intros x Hx. rewrite Hf3, Hf2, Hout1; [reflexivity| | |].
      * intros Hr%roots_bounds. simpl in Hx.
        destruct Hx as [Hx|[Hx|Hx]]; [|lia|lia].
        apply elem_of_cons in Hx as [->|Hx%roots_bounds]; lia.
      * simpl in Hx. destruct Hx as [Hx|[Hx|Hx]]; [|lia|lia].
        apply elem_of_cons in Hx as [->|Hx%roots_bounds]; lia.
      * simpl in Hx. destruct Hx as [Hx|[Hx|Hx]]; [|lia|lia].
        apply elem_of_cons in Hx as [->|Hx]; [lia|]. now left.
    + simpl. split; [|split].
      * intros x Hx. pose proof (roots_bounds _ _ _ Hx) as Hb.
        rewrite Hf3 by (right; left; lia). rewrite Hf2 by now left.
        apply Hin1; [|exact Hx]. simpl in Hn. lia.
      * eapply pi_forest_ext; [|exact Hp2]. intros x Hx. apply Hf3. lia.
      * exact Hp3.
Qed.
End Parents.

(** ** An encoded expression in the arrays *)

Lemma roots_tin o e s : roots o (tin e s) = o :: roots (o + esize e) s.
Proof.
  destruct (tin_shape e) as (lab & kids & H & <-). rewrite H. simpl.
  do 2 f_equal. lia.
Qed.

Section Placed.
Variables (nodes : list string) (adj : list (list nat)) (pi : list nat).

Lemma at_forest_cons o l c s :
  at_forest nodes adj o (FCons l c s) ->
  nodes !! o = Some l /\ adj !! o = Some (roots (S o) c) /\
  at_forest nodes adj (S o) c /\ at_forest nodes adj (S (o + fsize c)) s.
Proof.
  intros [Hn Ha]. split; [|split; [|split; split]].
  - specialize (Hn 0 l eq_refl). now rewrite Nat.add_0_r in Hn.
  - specialize (Ha 0 _ eq_refl). now rewrite Nat.add_0_r in Ha.
  - intros i x Hi. replace (S o + i) with (o + S i) by lia.
    apply Hn. simpl. rewrite lookup_app_l; [exact Hi|].
    now apply lookup_lt_Some in Hi.
  - intros i r Hi. replace (S o + i) with (o + S i) by lia.
    apply Ha. simpl. rewrite lookup_app_l; [exact Hi|].
    now apply lookup_lt_Some in Hi.
  - intros i x Hi. replace (S (o + fsize c) + i) with (o + S (fsize c + i)) by lia.
    apply Hn. simpl. rewrite lookup_app_r by (rewrite labels_length; lia).
    rewrite labels_length. now replace (fsize c + i - fsize c) with i by lia.
  - intros i r Hi. replace (S (o + fsize c) + i) with (o + S (fsize c + i)) by lia.
    apply Ha. simpl. rewrite lookup_app_r by (rewrite adjs_length; lia).
    rewrite adjs_length. now replace (fsize c + i - fsize c) with i by lia.
Qed.

Lemma placed_tin e : forall o sib,
  at_forest nodes adj o (tin e sib) -> pi_forest pi o (tin e sib) ->
  placed nodes adj pi o e /\
  at_forest nodes adj (o + esize e) sib /\ pi_forest pi (o + esize e) sib.
Proof.
  induction e as [n|e IH|l IHl r IHr]; intros o sib Hat Hpi.
  - apply at_forest_cons in Hat as (Hn & Ha & _ & Hs).
    destruct Hpi as (_ & _ & Hps). simpl in *.
    rewrite Nat.add_0_r in Hs, Hps. rewrite Nat.add_1_r. auto.
  - cbn [tin] in Hat, Hpi.
    apply at_forest_cons in Hat as (Hn & Ha & Hc & Hs).
    destruct Hpi as (Hr & Hpc & Hps).
    rewrite roots_tin in Ha, Hr. simpl in Ha.
    destruct (IH (S o) FNil Hc Hpc) as (Hpl & _).
    rewrite fsize_tin in Hs, Hps. simpl in Hs, Hps. rewrite Nat.add_0_r in Hs, Hps.
    cbn [placed esize]. rewrite Nat.add_succ_r.
    split; [|split; assumption].
    split; [exact Hn|]. split; [exact Ha|]. split; [apply Hr; left|exact Hpl].
  - cbn [tin] in Hat, Hpi.
    apply at_forest_cons in Hat as (Hn & Ha & Hc & Hs).
    destruct Hpi as (Hr & Hpc & Hps).
    rewrite !roots_tin in Ha, Hr. simpl in Ha.
    destruct (IHl (S o) _ Hc Hpc) as (Hpl & Hc' & Hpc').
    destruct (IHr _ FNil Hc' Hpc') as (Hpr & _).
    rewrite !fsize_tin in Hs, Hps. simpl in Hs, Hps.
    cbn [placed esize].
    replace (o + S (esize l + esize r)) with (S (o + (esize l + (esize r + 0)))) by lia.
    split; [|split; assumption].
    split; [exact Hn|]. split; [exact Ha|].
    split; [apply Hr; left|]. split; [apply Hr; right; left|]. split; assumption.
Qed.
End Placed.

(** ** The matcher pass on an encoded expression *)

Lemma slice_add_from_at lo d sh k v :
  sh !! k = Some v ->
  slice_add_from lo d sh !! k = Some (if Nat.leb lo k then (v + d)%Z else v).
Proof. intros H. now rewrite slice_add_from_lookup, H. Qed.

Lemma slice_add_at lo hi d sh k v :
  sh !! k = Some v ->
  slice_add lo hi d sh !! k
  = Some (if Nat.leb lo k && Nat.ltb k hi then (v + d)%Z else v).
Proof. intros H. now rewrite slice_add_lookup, H. Qed.

Lemma tail_shift_refl sh from : tail_shift sh sh from 0.
Proof. split; [reflexivity|]. intros k v _ H. now rewrite Z.add_0_r. Qed.

Lemma tail_shift_trans sh sh1 sh2 a b d1 d2 :
  a <= b -> tail_shift sh sh1 a d1 -> tail_shift sh1 sh2 b d2 ->
  tail_shift sh sh2 b (d1 + d2).
Proof.
  intros Hab [Hl1 H1] [Hl2 H2]. split; [congruence|].
  intros k v Hk Hv. rewrite Z.add_assoc. apply H2; [exact Hk|].
  apply H1; [lia|exact Hv].
Qed.

Lemma tail_shift_slice_from lo d sh from :
  lo <= from -> tail_shift sh (slice_add_from lo d sh) from d.
Proof.
  intros H. split; [apply slice_add_from_length|].
  intros k v Hk Hv. rewrite (slice_add_from_at _ _ _ _ _ Hv).
  destruct (Nat.leb_spec lo k); [reflexivity|lia].
Qed.

Lemma tail_shift_slice lo hi d sh from :
  hi <= from -> tail_shift sh (slice_add lo hi d sh) from 0.
Proof.
  intros H. split; [apply slice_add_length|].
  intros k v Hk Hv. rewrite (slice_add_at _ _ _ _ _ _ Hv).
  destruct (Nat.ltb_spec k hi); [lia|]. rewrite andb_false_r. now rewrite Z.add_0_r.
Qed.

Lemma tail_shift_weaken sh sh' a b d d' :
  a <= b -> d = d' -> tail_shift sh sh' a d -> tail_shift sh sh' b d'.
Proof.
  intros Hab <- [Hl H]. split; [exact Hl|]. intros k v Hk. apply H. lia.
Qed.

Lemma uniform_tail sh sh' o m d from delta :
  uniform sh o m d -> tail_shift sh sh' from delta -> from <= o ->
  uniform sh' o m (d + delta).
Proof.
  intros Hu [_ Ht] Hle i Hi. apply Ht; [lia|]. now apply Hu.
Qed.

Lemma uniform_sub sh o m d o' m' :
  uniform sh o m d -> o <= o' -> o' + m' <= o + m -> uniform sh o' m' d.
Proof.
  intros Hu H1 H2 i Hi. replace (o' + i) with (o + (o' - o + i)) by lia.
  apply Hu. lia.
Qed.

Section Scan.
Variables (nodes : list string) (adj : list (list nat)) (pi : list nat).

Lemma scan_step i ixs s sh ed sh1 :
  visit nodes adj pi i sh = Ok (ed, sh1) ->
  scan nodes adj pi (i :: ixs) (s, sh) = scan nodes adj pi ixs (s ++ ed, sh1).
Proof. intros H. simpl. now rewrite H. Qed.

Lemma scan_app l1 l2 st :
  scan nodes adj pi (l1 ++ l2) st
  = st' ← scan nodes adj pi l1 st; scan nodes adj pi l2 st'.
Proof.
  revert st. induction l1 as [|i l1 IH]; intros st; simpl; [reflexivity|].
  destruct (visit nodes adj pi i st.2); simpl; auto.
Qed.

Lemma visit_leaf o n sh :
  nodes !! o = Some (py_str n) -> visit nodes adj pi o sh = Ok ([], sh).
Proof.
  intros H. unfold visit, lookup_err. rewrite H. simpl.
  now rewrite py_str_plus, py_str_succ.
Qed.

Lemma visit_succ_fire o n sh d d' :
  nodes !! o = Some "succ" -> guard_ok nodes pi o ->
  adj !! o = Some [S o] -> nodes !! S o = Some (py_str n) ->
  sh !! o = Some d -> sh !! S o = Some d' ->
  visit nodes adj pi o sh
  = Ok ([Deletion (Z.of_nat o + d);
         Replacement (Z.of_nat (S o) + (d' - 1)) (py_str ((n + 1) mod 10))],
        slice_add_from (o + 1) (-1) sh).
Proof.
  intros Hn (p & pl & Hp & Hpl & Hg) Ha Hc Hd Hd'.
  unfold visit, lookup_err. rewrite Hn. simpl. rewrite Hp. simpl.
  rewrite Hpl. simpl. rewrite Hg, Ha. simpl. rewrite Hc. simpl.
  rewrite py_str_succ, py_str_plus. simpl. rewrite Hd. simpl.
  rewrite (slice_add_from_at _ _ _ _ _ Hd').
  destruct (Nat.leb_spec (o + 1) (S o)); [|lia]. simpl.
  rewrite py_int_str. reflexivity.
Qed.

Lemma visit_succ_skip o c cl sh :
  nodes !! o = Some "succ" -> guard_ok nodes pi o ->
  adj !! o = Some [c] -> nodes !! c = Some cl -> cl = "succ" \/ cl = "+" ->
  visit nodes adj pi o sh = Ok ([], sh).
Proof.
  intros Hn (p & pl & Hp & Hpl & Hg) Ha Hc Hcl.
  unfold visit, lookup_err. rewrite Hn. simpl. rewrite Hp. simpl.
  rewrite Hpl. simpl. rewrite Hg, Ha. simpl. rewrite Hc. simpl.
  destruct Hcl as [-> | ->]; reflexivity.
Qed.

Lemma visit_succ_blocked o p sh :
  nodes !! o = Some "succ" -> pi !! o = Some p -> nodes !! p = Some "+" ->
  S p < o -> visit nodes adj pi o sh = Ok ([], sh).
Proof.
  intros Hn Hp Hpl Hlt.
  unfold visit, lookup_err. rewrite Hn. simpl. rewrite Hp. simpl.
  rewrite Hpl. simpl.
  destruct (Z.eqb_spec (Z.of_nat p) (Z.of_nat o - 1)); [lia|reflexivity].
Qed.

Lemma visit_plus_zero o l r sh d dr :
  nodes !! o = Some "+" -> adj !! o = Some [l; r] -> nodes !! r = Some "0" ->
  o < r -> sh !! o = Some d -> sh !! r = Some dr ->
  visit nodes adj pi o sh
  = Ok ([Deletion (Z.of_nat o + d); Deletion (Z.of_nat r + (dr - 1))],
        slice_add_from (r + 1) (-1) (slice_add_from (o + 1) (-1) sh)).
Proof.
  intros Hn Ha Hr Hlt Hd Hdr.
  unfold visit, lookup_err. rewrite Hn. simpl. rewrite Ha. simpl.
  rewrite Hr. simpl. rewrite Hd. simpl.
  rewrite (slice_add_from_at _ _ _ _ _ Hdr).
  destruct (Nat.leb_spec (o + 1) r); [|lia]. reflexivity.
Qed.

Lemma visit_plus_succ o l r sh d dr :
  nodes !! o = Some "+" -> adj !! o = Some [l; r] -> nodes !! r = Some "succ" ->
  o < r -> sh !! o = Some d -> sh !! r = Some dr ->
  visit nodes adj pi o sh
  = Ok ([Insertion (Z.of_nat o + d) 0 "succ" 1; Deletion (Z.of_nat r + (dr + 1))],
        slice_add (o + 1) (r + 1) 1 sh).
Proof.
  intros Hn Ha Hr Hlt Hd Hdr.
  unfold visit, lookup_err. rewrite Hn. simpl. rewrite Ha. simpl.
  rewrite Hr. simpl. rewrite Hd. simpl.
  rewrite (slice_add_at _ _ _ _ _ _ Hdr).
  destruct (Nat.leb_spec (o + 1) r); [|lia].
  destruct (Nat.ltb_spec r (r + 1)); [|lia]. reflexivity.
Qed.

Lemma visit_plus_num o l r n sh d dr :
  nodes !! o = Some "+" -> adj !! o = Some [l; r] ->
  nodes !! r = Some (py_str n) -> n <> 0%Z ->
  sh !! o = Some d -> sh !! r = Some dr ->
  visit nodes adj pi o sh
  = Ok ([Insertion (Z.of_nat o + d) 1 "succ" 1;
         Replacement (Z.of_nat r + (dr + 1)) (py_str (n - 1))],
        slice_add_from r 1 sh).
Proof.
  intros Hn Ha Hr Hne Hd Hdr.
  unfold visit, lookup_err. rewrite Hn. simpl. rewrite Ha. simpl.
  rewrite Hr. simpl. rewrite py_str_zero, py_str_succ, py_str_plus.
  apply Z.eqb_neq in Hne. rewrite Hne. simpl.
  rewrite py_int_str. simpl. rewrite Hd. simpl.
  rewrite (slice_add_from_at _ _ _ _ _ Hdr).
  destruct (Nat.leb_spec r r); [|lia]. reflexivity.
Qed.

Lemma visit_plus_plus o l r sh :
  nodes !! o = Some "+" -> adj !! o = Some [l; r] -> nodes !! r = Some "+" ->
  visit nodes adj pi o sh = Ok ([], sh).
Proof.
  intros Hn Ha Hr.
  unfold visit, lookup_err. rewrite Hn. simpl. rewrite Ha. simpl.
  rewrite Hr. reflexivity.
Qed.

Lemma placed_head o e :
  placed nodes adj pi o e ->
  match e with
  | Num n => nodes !! o = Some (py_str n)
  | Succ _ => nodes !! o = Some "succ"
  | Plus _ _ => nodes !! o = Some "+"
  end.
Proof. destruct e; simpl; tauto. Qed.

Lemma guard_under_succ o :
  nodes !! o = Some "succ" -> pi !! S o = Some o -> guard_ok nodes pi (S o).
Proof. intros Hn Hp. exists o, "succ". auto. Qed.

Lemma guard_under_plus o :
  nodes !! o = Some "+" -> pi !! S o = Some o -> guard_ok nodes pi (S o).
Proof.
  intros Hn Hp. exists o, "+". repeat split; auto. simpl.
  destruct (Z.eqb_spec (Z.of_nat o) (Z.of_nat (S o) - 1)); [reflexivity|lia].
Qed.
End Scan.

Lemma tail_shift_compose sh sh1 sh2 a b c d1 d2 d :
  tail_shift sh sh1 a d1 -> tail_shift sh1 sh2 b d2 ->
  a <= c -> b <= c -> d = (d1 + d2)%Z ->
  tail_shift sh sh2 c d.
Proof.
  intros [Hl1 H1] [Hl2 H2] Ha Hb ->. split; [congruence|].
  intros k v Hk Hv. rewrite Z.add_assoc. apply H2; [lia|].
  apply H1; [lia|exact Hv].
Qed.

Lemma uniform_slice_from_in sh o m d lo delta :
  uniform sh o m d -> lo <= o ->
  uniform (slice_add_from lo delta sh) o m (d + delta).
Proof.
  intros Hu Hlo i Hi. rewrite (slice_add_from_at _ _ _ _ _ (Hu i Hi)).
  destruct (Nat.leb_spec lo (o + i)); [reflexivity|lia].
Qed.

Lemma uniform_slice_from_out sh o m d lo delta :
  uniform sh o m d -> o + m <= lo ->
  uniform (slice_add_from lo delta sh) o m d.
Proof.
  intros Hu Hlo i Hi. rewrite (slice_add_from_at _ _ _ _ _ (Hu i Hi)).
  destruct (Nat.leb_spec lo (o + i)); [lia|reflexivity].
Qed.

Lemma uniform_slice_in sh o m d lo hi delta :
  uniform sh o m d -> lo <= o -> o + m <= hi ->
  uniform (slice_add lo hi delta sh) o m (d + delta).
Proof.
  intros Hu Hlo Hhi i Hi. rewrite (slice_add_at _ _ _ _ _ _ (Hu i Hi)).
  destruct (Nat.leb_spec lo (o + i)); [|lia].
  destruct (Nat.ltb_spec (o + i) hi); [reflexivity|lia].
Qed.

Lemma uniform_slice_out sh o m d lo hi delta :
  uniform sh o m d -> hi <= o ->
  uniform (slice_add lo hi delta sh) o m d.
Proof.
  intros Hu Hhi i Hi. rewrite (slice_add_at _ _ _ _ _ _ (Hu i Hi)).
  destruct (Nat.ltb_spec (o + i) hi); [lia|]. now rewrite andb_false_r.
Qed.

Lemma uniform_at sh o m d i : uniform sh o m d -> i < m -> sh !! (o + i) = Some d.
Proof. intros Hu Hi. now apply Hu. Qed.

Lemma esize_pos e : 0 < esize e.
Proof. destruct e; simpl; lia. Qed.

Lemma seq_esize_plus o l r :
  seq o (esize (Plus l r)) = o :: seq (S o) (esize l) ++ seq (S o + esize l) (esize r).
Proof. cbn [esize seq]. now rewrite seq_app. Qed.

Section ScanSubtree.
Variables (nodes : list string) (adj : list (list nat)) (pi : list nat).

(** the pass over the indices of a placed expression appends its edits and
    shifts the indices behind it by the change of its size *)
Lemma scan_subtree e : forall o q d sh s,
  placed nodes adj pi o e ->
  (forall e', e = Succ e' -> guard_ok nodes pi o) ->
  uniform sh o (esize e) d ->
  Z.of_nat q = (Z.of_nat o + d)%Z ->
  exists sh',
    scan nodes adj pi (seq o (esize e)) (s, sh) = Ok (s ++ emit e q, sh') /\
    tail_shift sh sh' (o + esize e)
      (Z.of_nat (esize (step e)) - Z.of_nat (esize e)).
Proof.
  induction e as [n|n|e Hne IH|l IHl|l n Hn IHl|l r0 IHl IHr|l a b IHl IHr]
    using expr_rule_ind; intros o q d sh s Hpl Hg Hu Hq.
  - (* a numeral *)
    exists sh. split; [|apply tail_shift_refl].
    simpl in *. rewrite (visit_leaf _ _ _ o n) by tauto. simpl.
    now rewrite app_nil_r.
  - (* succ(n) *)
    destruct Hpl as (Hn & Ha & Hp & Hc & _).
    assert (sh !! o = Some d) as Hd.
    { rewrite <- (Nat.add_0_r o). apply Hu. simpl. lia. }
    assert (sh !! S o = Some d) as Hd'.
    { rewrite <- (Nat.add_1_r o). apply Hu. simpl. lia. }
    assert ([Deletion (Z.of_nat o + d);
             Replacement (Z.of_nat (S o) + (d - 1)) (py_str ((n + 1) mod 10))]
            = emit (Succ (Num n)) q) as E.
    { cbn [emit]. repeat f_equal; lia. }
    exists (slice_add_from (o + 1) (-1) sh). split.
    + cbn [esize seq].
      rewrite (scan_step _ _ _ _ _ _ _ _ _
                 (visit_succ_fire _ _ _ o n sh d d Hn (Hg _ eq_refl) Ha Hc Hd Hd')).
      rewrite (scan_step _ _ _ _ _ _ _ _ _ (visit_leaf _ _ _ (S o) n _ Hc)).
      rewrite app_nil_r, E. reflexivity.
    + apply (tail_shift_weaken _ _ (o + 1) _ (-1));
        [simpl; lia|simpl; lia|apply tail_shift_slice_from; lia].
  - (* succ over an operator *)
    destruct Hpl as (Hn & Ha & Hp & Hpe).
    destruct (IH (S o) (S q) d sh s Hpe) as (sh' & Hs & Ht).
    { intros e' _. now apply guard_under_succ. }
    { eapply uniform_sub; [exact Hu| |]; simpl; lia. }
    { lia. }
    exists sh'. split.
    + cbn [esize seq].
      rewrite (scan_step _ _ _ _ _ _ _ [] sh).
      * rewrite app_nil_r, emit_succ by exact Hne. exact Hs.
      * pose proof (placed_head _ _ _ _ _ Hpe) as Hh.
        destruct e as [m| |]; [now destruct (Hne m)| |];
          eapply visit_succ_skip; eauto.
    + rewrite step_succ by exact Hne. cbn [esize].
      eapply tail_shift_weaken; [| |exact Ht]; lia.
  - (* rule 1 *)
    destruct Hpl as (Hn & Ha & Hp1 & Hp2 & Hpl & Hr & _).
    change (py_str 0) with "0" in Hr.
    set (r := S (o + esize l)) in *.
    set (sh2 := slice_add_from (r + 1) (-1) (slice_add_from (o + 1) (-1) sh)).
    assert (sh !! o = Some d) as Hd.
    { rewrite <- (Nat.add_0_r o). apply Hu. simpl. lia. }
    assert (sh !! r = Some d) as Hdr.
    { replace r with (o + S (esize l)) by (unfold r; lia). apply Hu. simpl. lia. }
    destruct (IHl (S o) q (d - 1)%Z sh2
                (s ++ [Deletion (Z.of_nat o + d); Deletion (Z.of_nat r + (d - 1))]) Hpl)
      as (sh3 & Hs & Ht).
    { intros e' _. now apply guard_under_plus. }
    { apply uniform_slice_from_out; [|unfold r; lia].
      apply uniform_slice_from_in; [|lia].
      eapply uniform_sub; [exact Hu| |]; simpl; lia. }
    { lia. }
    assert ([Deletion (Z.of_nat o + d); Deletion (Z.of_nat r + (d - 1))] ++ emit l q
            = emit (Plus l (Num 0)) q) as E.
    { cbn [emit Z.eqb]. unfold r. repeat f_equal; lia. }
    exists sh3. split.
    + cbn [esize seq]. rewrite seq_app. cbn [seq].
      rewrite (scan_step _ _ _ _ _ _ _ _ _
                 (visit_plus_zero _ _ _ o _ r sh d d Hn Ha Hr ltac:(unfold r; lia) Hd Hdr)).
      fold sh2. rewrite scan_app, Hs. cbn [mbind res_bind].
      rewrite (scan_step _ _ _ _ _ _ _ [] sh3).
      * rewrite app_nil_r, <- app_assoc, E. reflexivity.
      * apply (visit_leaf _ _ _ _ 0). exact Hr.
    + apply (tail_shift_compose sh sh2 sh3 (r + 1) (S o + esize l) _ (-2)
               (Z.of_nat (esize (step l)) - Z.of_nat (esize l)));
        [|exact Ht|unfold r; simpl; lia..].
      apply (tail_shift_compose sh (slice_add_from (o + 1) (-1) sh) sh2
               (r + 1) (r + 1) _ (-1) (-1));
        [apply tail_shift_slice_from; unfold r; lia
        |apply tail_shift_slice_from; lia|lia..].
  - (* rule 3 *)
    destruct Hpl as (Hnd & Ha & Hp1 & Hp2 & Hpl & Hr & _).
    set (r := S (o + esize l)) in *.
    set (sh1 := slice_add_from r 1 sh).
    assert (sh !! o = Some d) as Hd.
    { rewrite <- (Nat.add_0_r o). apply Hu. simpl. lia. }
    assert (sh !! r = Some d) as Hdr.
    { replace r with (o + S (esize l)) by (unfold r; lia). apply Hu. simpl. lia. }
    destruct (IHl (S o) (S q) d sh1
                (s ++ [Insertion (Z.of_nat o + d) 1 "succ" 1;
                       Replacement (Z.of_nat r + (d + 1)) (py_str (n - 1))]) Hpl)
      as (sh3 & Hs & Ht).
    { intros e' _. now apply guard_under_plus. }
    { apply uniform_slice_from_out; [|unfold r; lia].
      eapply uniform_sub; [exact Hu| |]; simpl; lia. }
    { lia. }
    assert ([Insertion (Z.of_nat o + d) 1 "succ" 1;
             Replacement (Z.of_nat r + (d + 1)) (py_str (n - 1))] ++ emit l (S q)
            = emit (Plus l (Num n)) q) as E.
    { rewrite emit_plus_num by exact Hn. unfold r. repeat f_equal; lia. }
    exists sh3. split.
    + cbn [esize seq]. rewrite seq_app. cbn [seq].
      rewrite (scan_step _ _ _ _ _ _ _ _ _
                 (visit_plus_num _ _ _ o _ r n sh d d Hnd Ha Hr Hn Hd Hdr)).
      fold sh1. rewrite scan_app, Hs. cbn [mbind res_bind].
      rewrite (scan_step _ _ _ _ _ _ _ [] sh3).
      * rewrite app_nil_r, <- app_assoc, E. reflexivity.
      * apply (visit_leaf _ _ _ _ n). exact Hr.
    + rewrite step_plus_num by exact Hn.
      apply (tail_shift_compose sh sh1 sh3 (r + 1) (S o + esize l) _ 1
               (Z.of_nat (esize (step l)) - Z.of_nat (esize l)));
        [apply tail_shift_slice_from; lia|exact Ht|unfold r; simpl; lia..].
  - (* rule 2 *)
    destruct Hpl as (Hnd & Ha & Hp1 & Hp2 & Hpl & Hr & Har & Hpr & Hplr).
    set (r := S (o + esize l)) in *.
    set (sh1 := slice_add (o + 1) (r + 1) 1 sh).
    assert (sh !! o = Some d) as Hd.
    { rewrite <- (Nat.add_0_r o). apply Hu. simpl. lia. }
    assert (sh !! r = Some d) as Hdr.
    { replace r with (o + S (esize l)) by (unfold r; lia). apply Hu. simpl. lia. }
    destruct (IHl (S o) (q + 2) (d + 1)%Z sh1
                (s ++ [Insertion (Z.of_nat o + d) 0 "succ" 1;
                       Deletion (Z.of_nat r + (d + 1))]) Hpl)
      as (sh2 & Hs2 & Ht2).
    { intros e' _. now apply guard_under_plus. }
    { apply uniform_slice_in; [|lia|unfold r; lia].
      eapply uniform_sub; [exact Hu| |]; simpl; lia. }
    { lia. }
    destruct (IHr (S r) (q + 2 + esize (step l))
                (d + (Z.of_nat (esize (step l)) - Z.of_nat (esize l)))%Z sh2
                ((s ++ [Insertion (Z.of_nat o + d) 0 "succ" 1;
                        Deletion (Z.of_nat r + (d + 1))]) ++ emit l (q + 2)) Hplr)
      as (sh3 & Hs3 & Ht3).
    { intros e' _. now apply guard_under_succ. }
    { eapply uniform_tail; [|exact Ht2|unfold r; lia].
      apply uniform_slice_out; [|lia].
      eapply uniform_sub; [exact Hu| |]; unfold r; simpl; lia. }
    { unfold r. lia. }
    assert ([Insertion (Z.of_nat o + d) 0 "succ" 1; Deletion (Z.of_nat r + (d + 1))]
            ++ emit l (q + 2) ++ emit r0 (q + 2 + esize (step l))
            = emit (Plus l (Succ r0)) q) as E.
    { rewrite emit_plus_succ. unfold r. repeat f_equal; lia. }
    exists sh3. split.
    + cbn [esize seq]. rewrite seq_app. cbn [seq].
      rewrite (scan_step _ _ _ _ _ _ _ _ _
                 (visit_plus_succ _ _ _ o _ r sh d d Hnd Ha Hr ltac:(unfold r; lia) Hd Hdr)).
      fold sh1. rewrite scan_app, Hs2. cbn [mbind res_bind].
      replace (S o + esize l) with r by (unfold r; lia).
      rewrite (scan_step _ _ _ _ _ _ _ [] sh2).
      * rewrite app_nil_r, Hs3, <- !app_assoc, E. reflexivity.
      * apply (visit_succ_blocked _ _ _ r o); auto. unfold r.
        pose proof (esize_pos l). lia.
    + change (step (Plus l (Succ r0))) with (Plus (Succ (step l)) (step r0)).
      apply (tail_shift_compose sh sh2 sh3 (S r) (S r + esize r0) _
               (Z.of_nat (esize (step l)) - Z.of_nat (esize l))
               (Z.of_nat (esize (step r0)) - Z.of_nat (esize r0)));
        [|exact Ht3|unfold r; cbn [esize]; lia..].
      apply (tail_shift_compose sh sh1 sh2 (S r) (S o + esize l) _ 0
               (Z.of_nat (esize (step l)) - Z.of_nat (esize l)));
        [apply tail_shift_slice; lia|exact Ht2|unfold r; lia..].
  - (* an operator to the right *)
    destruct Hpl as (Hnd & Ha & Hp1 & Hp2 & Hpl & Hplr).
    set (r := S (o + esize l)) in *.
    pose proof (placed_head _ _ _ _ _ Hplr) as Hr. simpl in Hr.
    destruct (IHl (S o) (S q) d sh s Hpl) as (sh2 & Hs2 & Ht2).
    { intros e' _. now apply guard_under_plus. }
    { eapply uniform_sub; [exact Hu| |]; simpl; lia. }
    { lia. }
    destruct (IHr r (S (q + esize (step l)))
                (d + (Z.of_nat (esize (step l)) - Z.of_nat (esize l)))%Z sh2
                (s ++ emit l (S q)) Hplr)
      as (sh3 & Hs3 & Ht3).
    { intros e' He. discriminate. }
    { eapply uniform_tail; [|exact Ht2|unfold r; lia].
      eapply uniform_sub; [exact Hu| |]; unfold r; simpl; lia. }
    { unfold r. lia. }
    exists sh3. split.
    + rewrite seq_esize_plus.
      rewrite (scan_step _ _ _ _ _ _ _ [] sh
                 (visit_plus_plus _ _ _ o _ r sh Hnd Ha Hr)).
      rewrite app_nil_r, scan_app, Hs2. cbn [mbind res_bind].
      replace (S o + esize l) with r by (unfold r; lia).
      rewrite Hs3, emit_plus_plus, <- app_assoc. reflexivity.
    + change (step (Plus l (Plus a b))) with (Plus (step l) (step (Plus a b))).
      apply (tail_shift_compose sh sh2 sh3 (S o + esize l) (r + esize (Plus a b)) _
               (Z.of_nat (esize (step l)) - Z.of_nat (esize l))
               (Z.of_nat (esize (step (Plus a b))) - Z.of_nat (esize (Plus a b))));
        [exact Ht2|exact Ht3|unfold r; cbn [esize]; lia..].
Qed.
End ScanSubtree.

(** ** One pass of [_simplify] on an encoded expression *)

Local Open Scope nat_scope.

Lemma visit_root nodes adj pi sh :
  nodes !! 0 = Some "root" -> visit nodes adj pi 0 sh = Ok ([], sh).
Proof. intros H. unfold visit, lookup_err. now rewrite H. Qed.

Lemma match_pass_encoded e : match_pass (tree_of_expr e) = Ok (emit e 1).
Proof.
  unfold match_pass, tree_of_expr, flat.
  set (F := FCons "root" (tin e FNil) FNil).
  cbn [fst snd]. rewrite labels_length.
  assert (fsize F = S (esize e)) as Hsz.
  { unfold F. simpl. rewrite fsize_tin. simpl. lia. }
  destruct (parents_forest (fsize F) (adjs 0 F) F 0 (replicate (fsize F) 0))
    as (pi & Hpi & Hlen & Hframe & Hpf).
  { intros i r Hi. exact Hi. }
  { lia. }
  { apply length_replicate. }
  unfold parents. rewrite Hpi. cbn [mbind res_bind].
  assert (at_forest (labels F) (adjs 0 F) 0 F) as Hat.
  { split; intros i x Hi; exact Hi. }
  unfold F in Hat, Hpf.
  apply at_forest_cons in Hat as (Hn0 & Ha0 & Hat & _).
  destruct Hpf as (Hroot & Hpf & _).
  destruct (placed_tin _ _ _ e 1 FNil Hat Hpf) as (Hpl & _).
  fold F in Hn0, Ha0, Hpl.
  destruct (scan_subtree (labels F) (adjs 0 F) pi e 1 1 0%Z
              (replicate (fsize F) 0%Z) [] Hpl) as (sh' & Hs & _).
  { intros e' _. exists 0, "root". repeat split; auto.
    apply Hroot. rewrite roots_tin. left. }
  { intros i Hi. apply lookup_replicate. split; [reflexivity|lia]. }
  { reflexivity. }
  rewrite Hsz. cbn [seq].
  rewrite (scan_step _ _ _ _ _ _ _ [] _ (visit_root _ _ _ _ Hn0)).
  rewrite <- Hsz. cbn [app]. rewrite Hs. reflexivity.
Qed.

Lemma apply_script_encoded e :
  apply_script (emit e 1) (tree_of_expr e) = Ok (tree_of_expr (step e)).
Proof.
  unfold tree_of_expr. apply apply_script_flat.
  rewrite (emit_shift e 0 1 : emit e 1 = _).
  apply fapply_under, fapply_emit.
Qed.

Lemma emit_nil e q : emit e q = [] -> exists n, e = Num n.
Proof.
  revert q.
  induction e as [n|n|e Hne IH|l IHl|l n Hn IHl|l r IHl IHr|l a b IHl IHr]
    using expr_rule_ind; intros q H.
  - eauto.
  - discriminate.
  - rewrite emit_succ in H by exact Hne. apply IH in H as [n ->]. now destruct (Hne n).
  - discriminate.
  - rewrite emit_plus_num in H by exact Hn. discriminate.
  - discriminate.
  - rewrite emit_plus_plus in H. apply app_eq_nil in H as [_ H].
    apply IHr in H as [n H]. discriminate.
Qed.

Lemma simplify_loop_num fuel n series :
  simplify_loop (S fuel) (tree_of_expr (Num n)) series = Ok series.
Proof. cbn [simplify_loop]. now rewrite match_pass_encoded. Qed.

Lemma simplify_loop_pass fuel e series :
  is_num e = false ->
  simplify_loop (S fuel) (tree_of_expr e) series
  = simplify_loop fuel (tree_of_expr (step e)) (series ++ [tree_of_expr (step e)]).
Proof.
  intros He. cbn [simplify_loop]. rewrite match_pass_encoded. cbn [mbind res_bind].
  destruct (emit e 1) as [|ed s] eqn:E.
  - apply emit_nil in E as [n ->]. discriminate.
  - rewrite <- E, apply_script_encoded. reflexivity.
Qed.

(** ** Termination of [_simplify] on well-formed trees *)

Local Open Scope nat_scope.

Lemma digits_num n : digits (Num n) = true <-> (0 <= n <= 9)%Z.
Proof. simpl. rewrite andb_true_iff, !Z.leb_le. tauto. Qed.

Lemma digits_plus l r : digits (Plus l r) = true <-> digits l = true /\ digits r = true.
Proof. simpl. apply andb_true_iff. Qed.

Lemma digits_step e : digits e = true -> digits (step e) = true.
Proof.
  induction e as [n|n|e Hne IH|l IHl|l n Hn IHl|l r IHl IHr|l a b IHl IHr]
    using expr_rule_ind; intros H.
  - exact H.
  - apply digits_num. cbn [step].
    assert (0 <= (n + 1) mod 10 < 10)%Z by (apply Z.mod_pos_bound; lia). lia.
  - rewrite step_succ by exact Hne. simpl in *. auto.
  - apply digits_plus in H as [Hl _]. simpl. auto.
  - apply digits_plus in H as [Hl Hr%digits_num].
    rewrite step_plus_num by exact Hn. apply digits_plus. split; [auto|].
    apply digits_num. lia.
  - apply digits_plus in H as [Hl Hr].
    change (step (Plus l (Succ r))) with (Plus (Succ (step l)) (step r)).
    apply digits_plus. simpl in Hr. split; [apply IHl, Hl|apply IHr, Hr].
  - apply digits_plus in H as [Hl Hr].
    change (step (Plus l (Plus a b))) with (Plus (step l) (step (Plus a b))).
    apply digits_plus. auto.
Qed.

Lemma succs_upper e : succs e <= upper e.
Proof. induction e; simpl; lia. Qed.

Lemma succs_step e : succs e <= S (succs (step e)).
Proof.
  induction e as [n|n|e Hne IH|l IHl|l n Hn IHl|l r IHl IHr|l a b IHl IHr]
    using expr_rule_ind; try (simpl; lia).
  rewrite step_succ by exact Hne. simpl. lia.
Qed.

Lemma upper_step e : digits e = true -> upper (step e) <= upper e.
Proof.
  induction e as [n|n|e Hne IH|l IHl|l n Hn IHl|l r IHl IHr|l a b IHl IHr]
    using expr_rule_ind; intros H.
  - simpl. lia.
  - apply digits_num in H. cbn [step upper].
    assert (0 <= (n + 1) mod 10 <= n + 1)%Z; [|lia].
    split; [apply Z.mod_pos_bound; lia|apply Z.mod_le; lia].
  - rewrite step_succ by exact Hne. simpl in *. specialize (IH H). lia.
  - apply digits_plus in H as [Hl _]. simpl. specialize (IHl Hl). lia.
  - apply digits_plus in H as [Hl Hr%digits_num].
    rewrite step_plus_num by exact Hn. simpl. specialize (IHl Hl). lia.
  - apply digits_plus in H as [Hl Hr].
    change (step (Plus l (Succ r))) with (Plus (Succ (step l)) (step r)).
    simpl in *. specialize (IHl Hl). specialize (IHr Hr). lia.
  - apply digits_plus in H as [Hl Hr].
    change (step (Plus l (Plus a b))) with (Plus (step l) (step (Plus a b))).
    specialize (IHl Hl). specialize (IHr Hr). cbn [upper] in *. lia.
Qed.

Lemma step_num e : is_num e = true -> step e = e.
Proof. destruct e; [reflexivity|discriminate..]. Qed.

Lemma right_weight_step r :
  digits r = true ->
  mu (step r) <= mu r ->
  (is_num r = false -> mu (step r) < mu r) ->
  right_weight (mu (step r)) (step r) <= S (right_weight (mu r) r) /\
  (succs r = 0 -> is_num r = false ->
   right_weight (mu (step r)) (step r) < right_weight (mu r) r).
Proof.
  intros Hd Hle Hlt. unfold right_weight.
  pose proof (upper_step r Hd). pose proof (succs_step r).
  pose proof (succs_upper r). pose proof (succs_upper (step r)).
  destruct (is_num r) eqn:E.
  - rewrite (step_num r E). split; [lia|discriminate].
  - specialize (Hlt eq_refl). split; [lia|]. intros. lia.
Qed.

Lemma mu_step e :
  digits e = true ->
  mu (step e) <= mu e /\ (is_num e = false -> mu (step e) < mu e).
Proof.
  induction e as [n|n|e Hne IH|l IHl|l n Hn IHl|l r IHl IHr|l a b IHl IHr]
    using expr_rule_ind; intros H.
  - simpl. split; [lia|discriminate].
  - simpl. split; [lia|]. intros _. lia.
  - rewrite step_succ by exact Hne. simpl in *.
    destruct (IH H) as [Hle Hlt].
    assert (is_num e = false) as He by (destruct e; [now destruct (Hne n)|reflexivity..]).
    specialize (Hlt He). split; [lia|]. intros _. lia.
  - apply digits_plus in H as [Hl _]. destruct (IHl Hl) as [Hle _].
    simpl. split; [lia|]. intros _. lia.
  - apply digits_plus in H as [Hl Hr%digits_num]. destruct (IHl Hl) as [Hle _].
    rewrite step_plus_num by exact Hn. simpl. unfold right_weight. simpl.
    split; [lia|]. intros _. lia.
  - apply digits_plus in H as [Hl Hr]. simpl in Hr.
    destruct (IHl Hl) as [Hle _]. destruct (IHr Hr) as [Hler Hltr].
    destruct (right_weight_step r Hr Hler Hltr) as [Hw _].
    change (step (Plus l (Succ r))) with (Plus (Succ (step l)) (step r)).
    pose proof (succs_upper r).
    cbn [mu]. unfold right_weight in *. cbn [upper succs].
    split; [lia|]. intros _. lia.
  - apply digits_plus in H as [Hl Hr].
    destruct (IHl Hl) as [Hle _]. destruct (IHr Hr) as [Hler Hltr].
    destruct (right_weight_step (Plus a b) Hr Hler Hltr) as [_ Hw].
    specialize (Hw eq_refl eq_refl).
    change (step (Plus l (Plus a b))) with (Plus (step l) (step (Plus a b))).
    change (mu (Plus (step l) (step (Plus a b))))
      with (S (mu (step l) + right_weight (mu (step (Plus a b))) (step (Plus a b)))).
    change (mu (Plus l (Plus a b)))
      with (S (mu l + right_weight (mu (Plus a b)) (Plus a b))).
    split; [lia|]. intros _. lia.
Qed.

Lemma mu_zero e : mu e = 0 -> is_num e = true.
Proof. destruct e; simpl; [reflexivity|lia..]. Qed.

(** a run on an encoded expression: the number of passes and the result *)
Lemma simplify_loop_run e : forall series,
  digits e = true ->
  exists k v,
    k <= mu e /\ (0 <= v <= 9)%Z /\ steps k e = Num v /\
    forall fuel, k < fuel ->
      exists rest,
        simplify_loop fuel (tree_of_expr e) series = Ok (series ++ rest) /\
        length rest = k /\
        last (series ++ rest) = (if Nat.eqb k 0 then last series
                                 else Some (tree_of_expr (Num v))).
Proof.
  remember (mu e) as m eqn:Hm. revert e Hm.
  induction m as [m IH] using lt_wf_ind. intros e Hm series Hd.
  destruct (is_num e) eqn:He.
  - destruct e as [n| |]; try discriminate.
    exists 0, n. split; [lia|]. split; [now apply digits_num|].
    split; [reflexivity|]. intros fuel Hf. exists [].
    destruct fuel as [|fuel]; [lia|].
    rewrite simplify_loop_num, app_nil_r. auto.
  - destruct (mu_step e Hd) as [_ Hlt]. specialize (Hlt He).
    destruct (IH (mu (step e)) ltac:(lia) (step e) eq_refl
                (series ++ [tree_of_expr (step e)]) (digits_step e Hd))
      as (k & v & Hk & Hv & Hsteps & Hrun).
    exists (S k), v. split; [lia|]. split; [exact Hv|]. split; [exact Hsteps|].
    intros fuel Hf. destruct fuel as [|fuel]; [lia|].
    destruct (Hrun fuel ltac:(lia)) as (rest & Hr & Hlen & Hlast).
    exists (tree_of_expr (step e) :: rest).
    rewrite simplify_loop_pass by exact He.
    rewrite Hr, <- app_assoc. split; [reflexivity|]. split; [simpl; lia|].
    change (series ++ tree_of_expr (step e) :: rest)
      with (series ++ [tree_of_expr (step e)] ++ rest).
    rewrite app_assoc, Hlast. simpl.
    destruct (Nat.eqb_spec k 0) as [->|_]; [|reflexivity].
    rewrite last_snoc. simpl in Hsteps. now rewrite Hsteps.
Qed.

Lemma mu_bound e : mu e <= op_count e * (1 + 4 * upper e).
Proof.
  induction e as [n|e IH|l IHl r IHr]; simpl.
  - lia.
  - nia.
  - unfold right_weight. nia.
Qed.

Lemma visited_encoded e t :
  visited (tree_of_expr e) t -> exists e', t = tree_of_expr e'.
Proof.
  induction 1 as [|t s t' _ [e' ->] Hs Hne Ha]; [eauto|].
  rewrite match_pass_encoded in Hs. injection Hs as <-.
  rewrite apply_script_encoded in Ha. injection Ha as <-. eauto.
Qed.

Lemma series_visited t0 fuel : forall t series out,
  simplify_loop fuel t series = Ok out ->
  visited t0 t -> (forall x, x ∈ series -> visited t0 x) ->
  forall x, x ∈ out -> visited t0 x.
Proof.
  induction fuel as [|fuel IH]; intros t series out H Ht Hs; [discriminate|].
  cbn [simplify_loop] in H.
  destruct (match_pass t) as [s| |] eqn:Em; try discriminate.
  cbn [mbind res_bind] in H. destruct s as [|ed s].
  - now injection H as <-.
  - destruct (apply_script (ed :: s) t) as [t'| |] eqn:Ea; try discriminate.
    cbn [mbind res_bind] in H.
    assert (visited t0 t') as Ht'.
    { eapply visited_next; eauto. }
    eapply IH; [exact H|exact Ht'|].
    intros x Hx. apply elem_of_app in Hx as [Hx|Hx]; [auto|].
    apply list_elem_of_singleton in Hx as ->. exact Ht'.
Qed.

(** C1 as amended: on the tree of an expression over the digits,
    [_simplify] terminates: some number k of passes, at most the measure
    [mu] of the expression (itself at most the operator count times
    1 + 4 * (sum of the numerals + number of succ nodes)), is such that
    every run with more fuel than k returns a trace of k + 1 trees whose
    last tree is the root with a single numeral child. *)
Theorem simplify_terminates e :
  digits e = true ->
  exists k v,
    k <= mu e /\ mu e <= op_count e * (1 + 4 * upper e) /\ (0 <= v <= 9)%Z /\
    forall fuel, k < fuel ->
      exists series,
        _simplify fuel (tree_of_expr e) = Ok series /\
        length series = S k /\
        last series = Some (["root"; py_str v], [[1]; []]).
Proof.
  intros Hd.
  destruct (simplify_loop_run e [tree_of_expr e] Hd) as (k & v & Hk & Hv & Hst & Hrun).
  exists k, v. split; [exact Hk|]. split; [apply mu_bound|]. split; [exact Hv|].
  intros fuel Hf. destruct (Hrun fuel Hf) as (rest & Hr & Hlen & Hlast).
  exists ([tree_of_expr e] ++ rest). split; [exact Hr|]. split; [simpl; lia|].
  rewrite Hlast. destruct (Nat.eqb_spec k 0) as [->|_]; [|reflexivity].
  simpl in Hst. simpl. now rewrite Hst.
Qed.

Lemma simplify_terminates_witness :
  exists k v,
    k <= mu (Plus (Num 1) (Num 1)) /\
    mu (Plus (Num 1) (Num 1))
    <= op_count (Plus (Num 1) (Num 1)) * (1 + 4 * upper (Plus (Num 1) (Num 1))) /\
    (0 <= v <= 9)%Z /\
    forall fuel, k < fuel ->
      exists series,
        _simplify fuel (tree_of_expr (Plus (Num 1) (Num 1))) = Ok series /\
        length series = S k /\
        last series = Some (["root"; py_str v], [[1]; []]).
Proof. apply (simplify_terminates (Plus (Num 1) (Num 1))). reflexivity. Defined.

(** C1 as stated fails: root→+(1, 1) has one operator and largest numeral
    1, and its trace has three trees after the initial one. *)
Lemma step_bound_refuted :
  exists series,
    _simplify 10 (tree_of_expr (Plus (Num 1) (Num 1))) = Ok series /\
    op_count (Plus (Num 1) (Num 1)) + max_num (Plus (Num 1) (Num 1))
    < length series - 1.
Proof. eexists. split; [vm_compute; reflexivity|]. simpl. lia. Qed.

(** C4: every tree the loop of [_simplify] goes through from the tree of an
    expression is matched without error, and the script of the pass applies
    to it without error: no edit of it is out of range or has an invalid
    span on the tree it is applied to. *)
Theorem scripts_apply e t :
  visited (tree_of_expr e) t ->
  exists s t', match_pass t = Ok s /\ apply_script s t = Ok t'.
Proof.
  intros [e' ->]%visited_encoded.
  exists (emit e' 1), (tree_of_expr (step e')).
  split; [apply match_pass_encoded|apply apply_script_encoded].
Qed.

Lemma scripts_apply_witness :
  exists s t',
    match_pass (tree_of_expr (Plus (Num 1) (Succ (Num 0)))) = Ok s /\
    apply_script s (tree_of_expr (Plus (Num 1) (Succ (Num 0)))) = Ok t'.
Proof.
  apply (scripts_apply (Plus (Num 1) (Succ (Num 0)))). apply visited_start.
Defined.

(** ** The merge loop of [peano_alignment] *)

Local Open Scope Z_scope.

Lemma merge_pass_vals ltr vals : forall i j,
  entries_at ltr i vals ->
  merge_pass ltr (seq i (length vals)) j = Ok (merge_vals i vals j).
Proof.
  induction vals as [|v vals IH]; intros i j H; [reflexivity|].
  cbn [length seq merge_pass merge_vals].
  rewrite <- (Nat.add_0_r i) at 1. rewrite (H 0%nat v eq_refl).
  assert (entries_at ltr (S i) vals) as H'.
  { intros k x Hk. replace (S i + k)%nat with (i + S k)%nat by lia. now apply H. }
  destruct (v <? 0).
  - rewrite (IH (S i) j H'). reflexivity.
  - rewrite (IH (S i) (Z.max j v + 1) H'). reflexivity.
Qed.

Lemma filter_fill (l : list Z) :
  filter (fun x => x <> -1) (fmap (fun k => (-1, k)) l).*1 = [].
Proof.
  induction l as [|k l IH]; [reflexivity|].
  simpl. rewrite filter_cons_False by (intros H; now apply H). exact IH.
Qed.

Lemma merge_vals_firsts vals : forall i j,
  filter (fun x => x <> -1) (merge_vals i vals j).*1
  = seqZ (Z.of_nat i) (Z.of_nat (length vals)).
Proof.
  induction vals as [|v vals IH]; intros i j; [reflexivity|].
  cbn [merge_vals length].
  rewrite Nat2Z.inj_succ, (seqZ_cons (Z.of_nat i)) by lia.
  rewrite Z.pred_succ.
  replace (Z.succ (Z.of_nat i)) with (Z.of_nat (S i)) by lia.
  destruct (v <? 0).
  - rewrite fmap_cons. cbn [fst]. rewrite filter_cons_True by lia.
    f_equal. apply IH.
  - rewrite fmap_app, filter_app, filter_fill, fmap_cons. cbn [app fst].
    rewrite filter_cons_True by lia. f_equal. apply IH.
Qed.

Lemma filter_fill_seconds (l : list Z) :
  Forall (fun k => 0 <= k) l ->
  filter (fun x => x <> -1) (fmap (fun k => (-1, k)) l).*2 = l.
Proof.
  induction 1 as [|k l Hk _ IH]; [reflexivity|].
  rewrite !fmap_cons. cbn [snd]. rewrite filter_cons_True by lia.
  f_equal. exact IH.
Qed.

Lemma seqZ_lower j n : Forall (fun k => j <= k) (seqZ j n).
Proof.
  apply Forall_forall. intros k Hk.
  apply elem_of_seqZ in Hk. lia.
Qed.

Lemma merge_vals_seconds vals : forall i j,
  0 <= j ->
  filter (fun x => x <> -1) (merge_vals i vals j).*2
  = seqZ j (cursor_after vals j - j).
Proof.
  induction vals as [|v vals IH]; intros i j Hj.
  - cbn [merge_vals cursor_after]. now rewrite Z.sub_diag.
  - cbn [merge_vals cursor_after].
    destruct (v <? 0) eqn:Hv.
    + rewrite fmap_cons. cbn [snd].
      rewrite filter_cons_False by (intros H; now apply H).
      now apply IH.
    + apply Z.ltb_ge in Hv.
      rewrite fmap_app, filter_app, fmap_cons. cbn [snd].
      rewrite filter_fill_seconds
        by (eapply Forall_impl; [apply seqZ_lower|]; simpl; intros; lia).
      rewrite filter_cons_True by lia.
      rewrite IH by lia.
      assert (Z.max j v + 1 <= cursor_after vals (Z.max j v + 1)) as Hc.
      { clear. generalize (Z.max j v + 1). induction vals as [|x vals IH]; intros c.
        - simpl. lia.
        - simpl. destruct (x <? 0); [apply IH|].
          specialize (IH (Z.max c x + 1)). lia. }
      destruct (Z.le_gt_cases j v) as [Hle|Hgt].
      * rewrite Z.max_r in * by lia.
        replace (cursor_after vals (v + 1) - j)
          with ((v - j) + (1 + (cursor_after vals (v + 1) - (v + 1)))) by lia.
        rewrite seqZ_app by lia. f_equal.
        rewrite (seqZ_cons (j + (v - j))) by lia.
        f_equal; [lia|]. f_equal; lia.
      * rewrite Z.max_l in * by lia.
        rewrite (seqZ_nil j (v - j)) by lia. cbn [app].
        rewrite (seqZ_cons j (cursor_after vals (j + 1) - j)) by lia.
        f_equal. f_equal; lia.
Qed.

Lemma merge_vals_no_sentinel vals : forall i j,
  0 <= j -> (-1, -1) ∉ merge_vals i vals j.
Proof.
  induction vals as [|v vals IH]; intros i j Hj; cbn [merge_vals].
  - apply not_elem_of_nil.
  - destruct (v <? 0).
    + apply not_elem_of_cons. split; [|now apply IH].
      intros H. inversion H. lia.
    + apply not_elem_of_app. split.
      * intros H. apply list_elem_of_fmap in H as (k & Hk & Hin).
        apply elem_of_seqZ in Hin. inversion Hk. lia.
      * apply not_elem_of_cons. split; [|apply IH; lia].
        intros H. inversion H. lia.
Qed.

Lemma cursor_after_app a b j :
  cursor_after (a ++ b) j = cursor_after b (cursor_after a j).
Proof.
  revert j. induction a as [|v a IH]; intros j; [reflexivity|].
  cbn [app cursor_after]. destruct (v <? 0); apply IH.
Qed.

Lemma cursor_after_place q j :
  j <= Z.of_nat q -> cursor_after [Z.of_nat q] j = Z.of_nat (S q).
Proof.
  intros H. cbn [cursor_after].
  destruct (Z.of_nat q <? 0) eqn:E; [apply Z.ltb_lt in E; lia|]. lia.
Qed.

Lemma ltr_of_succ e q :
  (forall n, e <> Num n) -> ltr_of (Succ e) q = Z.of_nat q :: ltr_of e (S q).
Proof. destruct e; [intros H; now destruct (H n)|reflexivity..]. Qed.

Lemma ltr_of_plus_num l n q :
  n <> 0 ->
  ltr_of (Plus l (Num n)) q
  = [Z.of_nat q] ++ ltr_of l (S q) ++ [Z.of_nat (q + esize (step l) + 2)].
Proof. intros H%Z.eqb_neq. cbn [ltr_of]. now rewrite H. Qed.

Lemma ltr_of_plus_plus l a b q :
  ltr_of (Plus l (Plus a b)) q
  = [Z.of_nat q] ++ ltr_of l (S q) ++ ltr_of (Plus a b) (S (q + esize (step l))).
Proof. reflexivity. Qed.

Lemma step_plus_plus l a b :
  step (Plus l (Plus a b)) = Plus (step l) (step (Plus a b)).
Proof. reflexivity. Qed.

Lemma cursor_after_gone j : cursor_after [-1] j = j.
Proof. reflexivity. Qed.

(** The cursor of the merge loop ends behind the image of the subtree. *)
Lemma cursor_ltr_of e : forall q j,
  j <= Z.of_nat q ->
  cursor_after (ltr_of e q) j = Z.of_nat (q + esize (step e)).
Proof.
  induction e as [n|n|e Hne IH|l IHl|l n Hn IHl|l r IHl IHr|l a b IHl IHr]
    using expr_rule_ind; intros q j Hj.
  - cbn [ltr_of]. rewrite (cursor_after_place q j Hj). cbn [step esize]. lia.
  - change (ltr_of (Succ (Num n)) q) with ([-1] ++ [Z.of_nat q]).
    rewrite cursor_after_app, cursor_after_gone, (cursor_after_place q j Hj).
    cbn [step esize]. lia.
  - rewrite ltr_of_succ, step_succ by exact Hne.
    change (Z.of_nat q :: ltr_of e (S q)) with ([Z.of_nat q] ++ ltr_of e (S q)).
    rewrite cursor_after_app, (cursor_after_place q j Hj), IH by lia.
    cbn [esize]. lia.
  - change (ltr_of (Plus l (Num 0)) q) with ([-1] ++ ltr_of l q ++ [-1]).
    rewrite !cursor_after_app, !cursor_after_gone, IHl by lia.
    reflexivity.
  - rewrite ltr_of_plus_num, step_plus_num by exact Hn.
    rewrite !cursor_after_app, (cursor_after_place q j Hj), IHl by lia.
    rewrite cursor_after_place by lia. cbn [esize]. lia.
  - change (ltr_of (Plus l (Succ r)) q)
      with ([Z.of_nat q] ++ ltr_of l (q + 2) ++ [-1]
            ++ ltr_of r (q + 2 + esize (step l))).
    rewrite !cursor_after_app, (cursor_after_place q j Hj), IHl by lia.
    rewrite cursor_after_gone, IHr by lia.
    cbn [step esize]. lia.
  - rewrite ltr_of_plus_plus, step_plus_plus.
    rewrite !cursor_after_app, (cursor_after_place q j Hj), IHl by lia.
    rewrite IHr by lia. cbn [esize]. lia.
Qed.

Lemma ltr_of_length e : forall q, length (ltr_of e q) = esize e.
Proof.
  induction e as [n|n|e Hne IH|l IHl|l n Hn IHl|l r IHl IHr|l a b IHl IHr]
    using expr_rule_ind; intros q.
  - reflexivity.
  - reflexivity.
  - rewrite ltr_of_succ by exact Hne. cbn [length esize]. now rewrite IH.
  - change (ltr_of (Plus l (Num 0)) q) with ([-1] ++ ltr_of l q ++ [-1]).
    rewrite !length_app, IHl. cbn [length esize]. lia.
  - rewrite ltr_of_plus_num by exact Hn.
    rewrite !length_app, IHl. cbn [length esize]. lia.
  - change (ltr_of (Plus l (Succ r)) q)
      with ([Z.of_nat q] ++ ltr_of l (q + 2) ++ [-1]
            ++ ltr_of r (q + 2 + esize (step l))).
    rewrite !length_app, IHl, IHr. cbn [length esize]. lia.
  - rewrite ltr_of_plus_plus. rewrite !length_app, IHl, IHr. cbn [length esize]. lia.
Qed.

(** ** The dictionary [left_to_right] *)

Local Open Scope nat_scope.

Lemma entries_at_cons ltr o v vals :
  entries_at ltr o (v :: vals) <-> ltr !! o = Some v /\ entries_at ltr (S o) vals.
Proof.
  split.
  - intros H. split.
    + rewrite <- (Nat.add_0_r o). now apply H.
    + intros i x Hi. replace (S o + i) with (o + S i) by lia. now apply H.
  - intros [H0 H] [|i] x Hi.
    + rewrite Nat.add_0_r. simpl in Hi. congruence.
    + replace (o + S i) with (S o + i) by lia. now apply H.
Qed.

Lemma entries_at_nil ltr o : entries_at ltr o [].
Proof. intros i v H. discriminate. Qed.

Lemma entries_at_app ltr o a b :
  entries_at ltr o (a ++ b)
  <-> entries_at ltr o a /\ entries_at ltr (o + length a) b.
Proof.
  revert o. induction a as [|v a IH]; intros o.
  - cbn [app length]. rewrite Nat.add_0_r. split; [|tauto].
    intros H. split; [apply entries_at_nil|exact H].
  - cbn [app length]. rewrite !entries_at_cons, (IH (S o)).
    replace (S o + length a) with (o + S (length a)) by lia. tauto.
Qed.

Lemma entries_at_frame ltr ltr' o vals o' m :
  entries_at ltr o vals -> same_outside ltr ltr' o' m ->
  o + length vals <= o' \/ o' + m <= o ->
  entries_at ltr' o vals.
Proof.
  intros H Hs Hd i v Hi. rewrite Hs; [now apply H|].
  apply lookup_lt_Some in Hi. lia.
Qed.

Lemma vacant_frame ltr ltr' o m o' m' :
  vacant ltr o m -> same_outside ltr ltr' o' m' ->
  o + m <= o' \/ o' + m' <= o ->
  vacant ltr' o m.
Proof. intros H Hs Hd i Hi. rewrite Hs; [now apply H|lia]. Qed.

Lemma vacant_sub ltr o m o' m' :
  vacant ltr o m -> o <= o' -> o' + m' <= o + m -> vacant ltr o' m'.
Proof.
  intros H H1 H2 i Hi. replace (o' + i) with (o + (o' - o + i)) by lia.
  apply H. lia.
Qed.

Lemma vacant_at ltr o m k : vacant ltr o m -> o <= k < o + m -> ltr !! k = None.
Proof. intros H Hk. replace k with (o + (k - o)) by lia. apply H. lia. Qed.

Lemma same_outside_insert (ltr : gmap nat Z) k v o m :
  o <= k < o + m -> same_outside ltr (<[k := v]> ltr) o m.
Proof. intros Hk i Hi. apply lookup_insert_ne. lia. Qed.

Lemma same_outside_refl ltr o m : same_outside ltr ltr o m.
Proof. intros k _. reflexivity. Qed.

Lemma same_outside_trans ltr ltr1 ltr2 o1 m1 o2 m2 o m :
  same_outside ltr ltr1 o1 m1 -> same_outside ltr1 ltr2 o2 m2 ->
  o <= o1 -> o1 + m1 <= o + m -> o <= o2 -> o2 + m2 <= o + m ->
  same_outside ltr ltr2 o m.
Proof.
  intros H1 H2 Ha Hb Hc Hd k Hk. rewrite H2 by lia. apply H1. lia.
Qed.

Section VisitAlign.
Variables (nodes : list string) (adj : list (list nat)) (pi : list nat).

Lemma visit_align_leaf o n ltr sh d :
  nodes !! o = Some (py_str n) -> ltr !! o = None -> sh !! o = Some d ->
  visit_align nodes adj pi o (ltr, sh)
  = Ok (<[o := (Z.of_nat o + d)%Z]> ltr, sh).
Proof.
  intros H Hl Hd. unfold visit_align, lookup_err. rewrite H. simpl.
  rewrite py_str_plus, py_str_succ. simpl. rewrite Hl, Hd. reflexivity.
Qed.

Lemma visit_align_leaf_set o n ltr sh v :
  nodes !! o = Some (py_str n) -> ltr !! o = Some v ->
  visit_align nodes adj pi o (ltr, sh) = Ok (ltr, sh).
Proof.
  intros H Hl. unfold visit_align, lookup_err. rewrite H. simpl.
  rewrite py_str_plus, py_str_succ. simpl. rewrite Hl. reflexivity.
Qed.

Lemma visit_align_succ_fire o n ltr sh :
  nodes !! o = Some "succ" -> guard_ok nodes pi o ->
  adj !! o = Some [S o] -> nodes !! S o = Some (py_str n) ->
  visit_align nodes adj pi o (ltr, sh)
  = Ok (<[o := (-1)%Z]> ltr, slice_add_from o (-1) sh).
Proof.
  intros Hn (p & pl & Hp & Hpl & Hg) Ha Hc.
  unfold visit_align, lookup_err. rewrite Hn. simpl. rewrite Hp. simpl.
  rewrite Hpl. simpl. rewrite Hg, Ha. simpl. rewrite Hc. simpl.
  rewrite py_str_succ, py_str_plus. simpl.
  rewrite lookup_insert_eq. reflexivity.
Qed.

Lemma visit_align_succ_skip o c cl ltr sh d :
  nodes !! o = Some "succ" -> guard_ok nodes pi o ->
  adj !! o = Some [c] -> nodes !! c = Some cl -> cl = "succ" \/ cl = "+" ->
  ltr !! o = None -> sh !! o = Some d ->
  visit_align nodes adj pi o (ltr, sh)
  = Ok (<[o := (Z.of_nat o + d)%Z]> ltr, sh).
Proof.
  intros Hn (p & pl & Hp & Hpl & Hg) Ha Hc Hcl Hl Hd.
  unfold visit_align, lookup_err. rewrite Hn. simpl. rewrite Hp. simpl.
  rewrite Hpl. simpl. rewrite Hg, Ha. simpl. rewrite Hc. simpl.
  destruct Hcl as [-> | ->]; simpl; rewrite Hl, Hd; reflexivity.
Qed.

Lemma visit_align_succ_blocked o p ltr sh v :
  nodes !! o = Some "succ" -> pi !! o = Some p -> nodes !! p = Some "+" ->
  S p < o -> ltr !! o = Some v ->
  visit_align nodes adj pi o (ltr, sh) = Ok (ltr, sh).
Proof.
  intros Hn Hp Hpl Hlt Hl.
  unfold visit_align, lookup_err. rewrite Hn. simpl. rewrite Hp. simpl.
  rewrite Hpl. simpl.
  destruct (Z.eqb_spec (Z.of_nat p) (Z.of_nat o - 1)); [lia|].
  simpl. rewrite Hl. reflexivity.
Qed.

Lemma visit_align_plus_zero o l r ltr sh :
  nodes !! o = Some "+" -> adj !! o = Some [l; r] -> nodes !! r = Some "0" ->
  o < r ->
  visit_align nodes adj pi o (ltr, sh)
  = Ok (<[r := (-1)%Z]> (<[o := (-1)%Z]> ltr),
        slice_add_from (r + 1) (-1) (slice_add_from o (-1) sh)).
Proof.
  intros Hn Ha Hr Hlt.
  unfold visit_align, lookup_err. rewrite Hn. simpl. rewrite Ha. simpl.
  rewrite Hr. simpl.
  rewrite lookup_insert_ne by lia. rewrite lookup_insert_eq. reflexivity.
Qed.

Lemma visit_align_plus_succ o l r ltr sh d :
  nodes !! o = Some "+" -> adj !! o = Some [l; r] -> nodes !! r = Some "succ" ->
  o < r -> ltr !! o = None -> sh !! o = Some d ->
  visit_align nodes adj pi o (ltr, sh)
  = Ok (<[o := (Z.of_nat o + d)%Z]> (<[r := (-1)%Z]> ltr),
        slice_add (o + 1) (r + 1) 1 sh).
Proof.
  intros Hn Ha Hr Hlt Hl Hd.
  unfold visit_align, lookup_err. rewrite Hn. simpl. rewrite Ha. simpl.
  rewrite Hr. simpl.
  rewrite lookup_insert_ne by lia. rewrite Hl.
  rewrite (slice_add_at _ _ _ _ _ _ Hd).
  destruct (Nat.leb_spec (o + 1) o); [lia|]. reflexivity.
Qed.

Lemma visit_align_plus_num o l r n ltr sh d :
  nodes !! o = Some "+" -> adj !! o = Some [l; r] ->
  nodes !! r = Some (py_str n) -> n <> 0%Z ->
  o < r -> ltr !! o = None -> sh !! o = Some d ->
  visit_align nodes adj pi o (ltr, sh)
  = Ok (<[o := (Z.of_nat o + d)%Z]> ltr, slice_add_from r 1 sh).
Proof.
  intros Hn Ha Hr Hne Hlt Hl Hd.
  unfold visit_align, lookup_err. rewrite Hn. simpl. rewrite Ha. simpl.
  rewrite Hr. simpl. rewrite py_str_zero, py_str_succ, py_str_plus.
  apply Z.eqb_neq in Hne. rewrite Hne. simpl. rewrite Hl.
  rewrite (slice_add_from_at _ _ _ _ _ Hd).
  destruct (Nat.leb_spec r o); [lia|]. reflexivity.
Qed.

Lemma visit_align_plus_plus o l r ltr sh d :
  nodes !! o = Some "+" -> adj !! o = Some [l; r] -> nodes !! r = Some "+" ->
  ltr !! o = None -> sh !! o = Some d ->
  visit_align nodes adj pi o (ltr, sh)
  = Ok (<[o := (Z.of_nat o + d)%Z]> ltr, sh).
Proof.
  intros Hn Ha Hr Hl Hd.
  unfold visit_align, lookup_err. rewrite Hn. simpl. rewrite Ha. simpl.
  rewrite Hr. simpl. rewrite Hl, Hd. reflexivity.
Qed.

End VisitAlign.

Section AlignSubtree.
Variables (nodes : list string) (adj : list (list nat)) (pi : list nat).

Local Abbreviation walk := (foldM (fun st i => visit_align nodes adj pi i st)).

Lemma walk_step i ixs st st1 :
  visit_align nodes adj pi i st = Ok st1 -> walk (i :: ixs) st = walk ixs st1.
Proof. intros H. simpl. now rewrite H. Qed.

Lemma walk_app l1 l2 st : walk (l1 ++ l2) st = st' ← walk l1 st; walk l2 st'.
Proof. apply foldM_app. Qed.

Lemma walk_one i st : walk [i] st = visit_align nodes adj pi i st.
Proof. simpl. destruct (visit_align nodes adj pi i st); reflexivity. Qed.

(** the first loop over the indices of a placed expression enters the
    positions its nodes have in the successor, and shifts the indices behind
    it by the change of its size *)
Lemma align_subtree e : forall o q d ltr sh,
  placed nodes adj pi o e ->
  (forall e', e = Succ e' -> guard_ok nodes pi o) ->
  uniform sh o (esize e) d ->
  Z.of_nat q = (Z.of_nat o + d)%Z ->
  vacant ltr o (esize e) ->
  exists ltr' sh',
    walk (seq o (esize e)) (ltr, sh) = Ok (ltr', sh') /\
    entries_at ltr' o (ltr_of e q) /\
    same_outside ltr ltr' o (esize e) /\
    tail_shift sh sh' (o + esize e)
      (Z.of_nat (esize (step e)) - Z.of_nat (esize e)).
Proof.
  induction e as [n|n|e Hne IH|l IHl|l n Hn IHl|l r0 IHl IHr|l a b IHl IHr]
    using expr_rule_ind; intros o q d ltr sh Hpl Hg Hu Hq Hv.
  all: assert (sh !! o = Some d) as Hd
    by (rewrite <- (Nat.add_0_r o); apply Hu, esize_pos).
  all: assert (ltr !! o = None) as Hvo
    by (rewrite <- (Nat.add_0_r o); apply Hv, esize_pos).
  - (* a numeral *)
    destruct Hpl as (Hn & _).
    exists (<[o := (Z.of_nat o + d)%Z]> ltr), sh. repeat split.
    + cbn [esize seq]. rewrite walk_one. now apply (visit_align_leaf _ _ _ o n).
    + cbn [ltr_of]. apply entries_at_cons. split; [|apply entries_at_nil].
      rewrite lookup_insert_eq. now rewrite Hq.
    + apply same_outside_insert. simpl. lia.
    + intros k v Hk Hkv. cbn [step esize].
      rewrite Z.sub_diag, Z.add_0_r. exact Hkv.
  - (* succ(n) *)
    destruct Hpl as (Hn & Ha & Hp & Hc & _).
    assert (sh !! S o = Some d) as Hd'.
    { rewrite <- (Nat.add_1_r o). apply Hu. simpl. lia. }
    assert (ltr !! S o = None) as Hv'.
    { apply (vacant_at _ o 2); [exact Hv|lia]. }
    exists (<[S o := (Z.of_nat (S o) + (d - 1))%Z]> (<[o := (-1)%Z]> ltr)),
      (slice_add_from o (-1) sh).
    split; [|split; [|split]].
    + cbn [esize seq].
      rewrite (walk_step _ _ _ _
                 (visit_align_succ_fire _ _ _ o n ltr sh Hn (Hg _ eq_refl) Ha Hc)).
      rewrite walk_one. apply (visit_align_leaf _ _ _ (S o) n); [exact Hc| |].
      * rewrite lookup_insert_ne by lia. exact Hv'.
      * rewrite (slice_add_from_at _ _ _ _ _ Hd').
        destruct (Nat.leb_spec o (S o)); [reflexivity|lia].
    + change (ltr_of (Succ (Num n)) q) with [(-1)%Z; Z.of_nat q].
      apply entries_at_cons. split.
      * rewrite lookup_insert_ne by lia. apply lookup_insert_eq.
      * apply entries_at_cons. split; [|apply entries_at_nil].
        rewrite lookup_insert_eq. f_equal. lia.
    + intros k Hk. cbn [esize] in Hk. rewrite !lookup_insert_ne by lia. reflexivity.
    + apply (tail_shift_weaken _ _ o _ (-1));
        [simpl; lia|simpl; lia|apply tail_shift_slice_from; lia].
  - (* succ over an operator *)
    destruct Hpl as (Hn & Ha & Hp & Hpe).
    set (ltr1 := <[o := (Z.of_nat o + d)%Z]> ltr).
    destruct (IH (S o) (S q) d ltr1 sh Hpe) as (ltr' & sh' & Hs & He & Hf & Ht).
    { intros e' _. now apply guard_under_succ. }
    { eapply uniform_sub; [exact Hu| |]; simpl; lia. }
    { lia. }
    { intros i Hi. unfold ltr1. rewrite lookup_insert_ne by lia.
      apply (vacant_at _ o (esize (Succ e))); [exact Hv|simpl; lia]. }
    exists ltr', sh'. split; [|split; [|split]].
    + cbn [esize seq]. rewrite (walk_step _ _ _ (ltr1, sh)); [exact Hs|].
      pose proof (placed_head _ _ _ _ _ Hpe) as Hh.
      destruct e as [m| |]; [now destruct (Hne m)| |];
        eapply visit_align_succ_skip; eauto.
    + rewrite ltr_of_succ by exact Hne. apply entries_at_cons. split; [|exact He].
      rewrite Hf by lia. unfold ltr1. rewrite lookup_insert_eq. now rewrite Hq.
    + apply (same_outside_trans ltr ltr1 ltr' o 1 (S o) (esize e));
        [apply same_outside_insert; lia|exact Hf|simpl; lia..].
    + rewrite step_succ by exact Hne. cbn [esize].
      eapply tail_shift_weaken; [| |exact Ht]; lia.
  - (* rule 1 *)
    destruct Hpl as (Hn & Ha & Hp1 & Hp2 & Hpl & Hr & _).
    change (py_str 0) with "0" in Hr.
    set (r := S (o + esize l)) in *.
    set (ltr1 := <[r := (-1)%Z]> (<[o := (-1)%Z]> ltr)).
    set (sh1 := slice_add_from (r + 1) (-1) (slice_add_from o (-1) sh)).
    assert (same_outside ltr ltr1 o (esize (Plus l (Num 0)))) as Hf1.
    { intros k Hk. cbn [esize] in Hk. unfold ltr1, r.
      rewrite !lookup_insert_ne by lia. reflexivity. }
    destruct (IHl (S o) q (d - 1)%Z ltr1 sh1 Hpl)
      as (ltr2 & sh2 & Hs & He & Hf & Ht).
    { intros e' _. now apply guard_under_plus. }
    { apply uniform_slice_from_out; [|unfold r; lia].
      apply uniform_slice_from_in; [|lia].
      eapply uniform_sub; [exact Hu| |]; simpl; lia. }
    { lia. }
    { intros i Hi. unfold ltr1, r. rewrite !lookup_insert_ne by lia.
      apply (vacant_at _ o (esize (Plus l (Num 0)))); [exact Hv|simpl; lia]. }
    assert (ltr2 !! r = Some (-1)%Z) as Hr2.
    { rewrite Hf by (unfold r; lia). unfold ltr1. apply lookup_insert_eq. }
    exists ltr2, sh2. split; [|split; [|split]].
    + cbn [esize seq]. rewrite seq_app. cbn [seq].
      rewrite (walk_step _ _ _ _
                 (visit_align_plus_zero _ _ _ o _ r ltr sh Hn Ha Hr
                    ltac:(unfold r; lia))).
      fold ltr1 sh1. rewrite walk_app, Hs. cbn [mbind res_bind].
      rewrite walk_one. now apply (visit_align_leaf_set _ _ _ _ 0 _ _ (-1)%Z).
    + change (ltr_of (Plus l (Num 0)) q) with ([(-1)%Z] ++ ltr_of l q ++ [(-1)%Z]).
      apply entries_at_cons. split.
      * rewrite Hf by lia. unfold ltr1.
        rewrite lookup_insert_ne by (unfold r; lia). apply lookup_insert_eq.
      * apply entries_at_app. split; [exact He|].
        rewrite ltr_of_length. apply entries_at_cons.
        split; [exact Hr2|apply entries_at_nil].
    + apply (same_outside_trans ltr ltr1 ltr2 o (esize (Plus l (Num 0)))
               (S o) (esize l)); [exact Hf1|exact Hf|simpl; lia..].
    + cbn [step Z.eqb].
      apply (tail_shift_compose sh sh1 sh2 (r + 1) (S o + esize l) _ (-2)
               (Z.of_nat (esize (step l)) - Z.of_nat (esize l)));
        [|exact Ht|unfold r; simpl; lia..].
      apply (tail_shift_compose sh (slice_add_from o (-1) sh) sh1
               (r + 1) (r + 1) _ (-1) (-1));
        [apply tail_shift_slice_from; unfold r; lia
        |apply tail_shift_slice_from; lia|lia..].
  - (* rule 3 *)
    destruct Hpl as (Hnd & Ha & Hp1 & Hp2 & Hpl & Hr & _).
    set (r := S (o + esize l)) in *.
    set (ltr1 := <[o := (Z.of_nat o + d)%Z]> ltr).
    set (sh1 := slice_add_from r 1 sh).
    set (dl := (Z.of_nat (esize (step l)) - Z.of_nat (esize l))%Z).
    assert (sh !! r = Some d) as Hdr.
    { replace r with (o + S (esize l)) by (unfold r; lia). apply Hu. simpl. lia. }
    destruct (IHl (S o) (S q) d ltr1 sh1 Hpl)
      as (ltr2 & sh2 & Hs & He & Hf & Ht).
    { intros e' _. now apply guard_under_plus. }
    { apply uniform_slice_from_out; [|unfold r; lia].
      eapply uniform_sub; [exact Hu| |]; simpl; lia. }
    { lia. }
    { intros i Hi. unfold ltr1. rewrite lookup_insert_ne by lia.
      apply (vacant_at _ o (esize (Plus l (Num n)))); [exact Hv|simpl; lia]. }
    assert (ltr2 !! r = None) as Hr2.
    { rewrite Hf by (unfold r; lia). unfold ltr1.
      rewrite lookup_insert_ne by (unfold r; lia).
      apply (vacant_at _ o (esize (Plus l (Num n)))); [exact Hv|unfold r; simpl; lia]. }
    assert (sh2 !! r = Some (d + 1 + dl)%Z) as Hd2.
    { destruct Ht as [_ Ht]. apply Ht; [unfold r; lia|].
      unfold sh1. rewrite (slice_add_from_at _ _ _ _ _ Hdr).
      destruct (Nat.leb_spec r r); [reflexivity|lia]. }
    exists (<[r := (Z.of_nat r + (d + 1 + dl))%Z]> ltr2), sh2.
    split; [|split; [|split]].
    + cbn [esize seq]. rewrite seq_app. cbn [seq].
      rewrite (walk_step _ _ _ _
                 (visit_align_plus_num _ _ _ o _ r n ltr sh d Hnd Ha Hr Hn
                    ltac:(unfold r; lia) Hvo Hd)).
      fold ltr1 sh1. rewrite walk_app, Hs. cbn [mbind res_bind].
      rewrite walk_one. now apply (visit_align_leaf _ _ _ _ n).
    + rewrite ltr_of_plus_num by exact Hn.
      apply entries_at_cons. split.
      * rewrite lookup_insert_ne by (unfold r; lia).
        rewrite Hf by lia. unfold ltr1. rewrite lookup_insert_eq. now rewrite Hq.
      * apply entries_at_app. split.
        -- eapply (entries_at_frame ltr2 _ _ _ r 1); [exact He| |].
           ++ apply same_outside_insert. lia.
           ++ rewrite ltr_of_length. unfold r. lia.
        -- rewrite ltr_of_length. apply entries_at_cons.
           split; [|apply entries_at_nil].
           fold r. rewrite lookup_insert_eq. f_equal. unfold r, dl. lia.
    + apply (same_outside_trans ltr ltr2 _ o (S (esize l)) r 1);
        [|apply same_outside_insert; lia|unfold r; simpl; lia..].
      apply (same_outside_trans ltr ltr1 ltr2 o 1 (S o) (esize l));
        [apply same_outside_insert; lia|exact Hf|simpl; lia..].
    + rewrite step_plus_num by exact Hn.
      apply (tail_shift_compose sh sh1 sh2 (r + 1) (S o + esize l) _ 1 dl);
        [apply tail_shift_slice_from; lia|exact Ht|unfold r, dl; simpl; lia..].
  - (* rule 2 *)
    destruct Hpl as (Hnd & Ha & Hp1 & Hp2 & Hpl & Hr & Har & Hpr & Hplr).
    set (r := S (o + esize l)) in *.
    set (ltr1 := <[o := (Z.of_nat o + d)%Z]> (<[r := (-1)%Z]> ltr)).
    set (sh1 := slice_add (o + 1) (r + 1) 1 sh).
    set (dl := (Z.of_nat (esize (step l)) - Z.of_nat (esize l))%Z).
    assert (same_outside ltr ltr1 o (S (S (esize l)))) as Hf1.
    { intros k Hk. unfold ltr1, r. rewrite !lookup_insert_ne by lia. reflexivity. }
    destruct (IHl (S o) (q + 2) (d + 1)%Z ltr1 sh1 Hpl)
      as (ltr2 & sh2 & Hs2 & He2 & Hf2 & Ht2).
    { intros e' _. now apply guard_under_plus. }
    { apply uniform_slice_in; [|lia|unfold r; lia].
      eapply uniform_sub; [exact Hu| |]; simpl; lia. }
    { lia. }
    { intros i Hi. unfold ltr1, r. rewrite !lookup_insert_ne by lia.
      apply (vacant_at _ o (esize (Plus l (Succ r0)))); [exact Hv|simpl; lia]. }
    assert (ltr2 !! r = Some (-1)%Z) as Hr2.
    { rewrite Hf2 by (unfold r; lia). unfold ltr1.
      rewrite lookup_insert_ne by (unfold r; lia). apply lookup_insert_eq. }
    destruct (IHr (S r) (q + 2 + esize (step l)) (d + dl)%Z ltr2 sh2 Hplr)
      as (ltr3 & sh3 & Hs3 & He3 & Hf3 & Ht3).
    { intros e' _. now apply guard_under_succ. }
    { eapply uniform_tail; [|exact Ht2|unfold r; lia].
      apply uniform_slice_out; [|lia].
      eapply uniform_sub; [exact Hu| |]; unfold r; simpl; lia. }
    { unfold r, dl. lia. }
    { eapply (vacant_frame ltr1 ltr2 _ _ (S o) (esize l));
        [|exact Hf2|unfold r; lia].
      eapply (vacant_frame ltr ltr1 _ _ o (S (S (esize l))));
        [|exact Hf1|unfold r; lia].
      eapply vacant_sub; [exact Hv| |]; unfold r; simpl; lia. }
    exists ltr3, sh3. split; [|split; [|split]].
    + cbn [esize seq]. rewrite seq_app. cbn [seq].
      rewrite (walk_step _ _ _ _
                 (visit_align_plus_succ _ _ _ o _ r ltr sh d Hnd Ha Hr
                    ltac:(unfold r; lia) Hvo Hd)).
      fold ltr1 sh1. rewrite walk_app, Hs2. cbn [mbind res_bind].
      replace (S o + esize l) with r by (unfold r; lia).
      rewrite (walk_step _ _ _ (ltr2, sh2)); [exact Hs3|].
      apply (visit_align_succ_blocked _ _ _ r o _ _ (-1)%Z); auto. unfold r.
      pose proof (esize_pos l). lia.
    + change (ltr_of (Plus l (Succ r0)) q)
        with ([Z.of_nat q] ++ ltr_of l (q + 2) ++ [(-1)%Z]
              ++ ltr_of r0 (q + 2 + esize (step l))).
      apply entries_at_cons. split.
      * rewrite Hf3, Hf2 by (unfold r; lia). unfold ltr1.
        rewrite lookup_insert_eq. now rewrite Hq.
      * apply entries_at_app. split.
        -- eapply (entries_at_frame ltr2 _ _ _ (S r) (esize r0));
             [exact He2|exact Hf3|].
           rewrite ltr_of_length. unfold r. lia.
        -- rewrite ltr_of_length. apply entries_at_cons. fold r. split.
           ++ rewrite Hf3 by lia. exact Hr2.
           ++ exact He3.
    + apply (same_outside_trans ltr ltr2 ltr3 o (S (S (esize l))) (S r) (esize r0));
        [|exact Hf3|unfold r; simpl; lia..].
      apply (same_outside_trans ltr ltr1 ltr2 o (S (S (esize l))) (S o) (esize l));
        [exact Hf1|exact Hf2|lia..].
    + change (step (Plus l (Succ r0))) with (Plus (Succ (step l)) (step r0)).
      apply (tail_shift_compose sh sh2 sh3 (S r) (S r + esize r0) _ dl
               (Z.of_nat (esize (step r0)) - Z.of_nat (esize r0)));
        [|exact Ht3|unfold r, dl; cbn [esize]; lia..].
      apply (tail_shift_compose sh sh1 sh2 (S r) (S o + esize l) _ 0 dl);
        [apply tail_shift_slice; lia|exact Ht2|unfold r; lia..].
  - (* an operator to the right *)
    destruct Hpl as (Hnd & Ha & Hp1 & Hp2 & Hpl & Hplr).
    set (r := S (o + esize l)) in *.
    set (ltr1 := <[o := (Z.of_nat o + d)%Z]> ltr).
    set (dl := (Z.of_nat (esize (step l)) - Z.of_nat (esize l))%Z).
    pose proof (placed_head _ _ _ _ _ Hplr) as Hr. simpl in Hr.
    destruct (IHl (S o) (S q) d ltr1 sh Hpl)
      as (ltr2 & sh2 & Hs2 & He2 & Hf2 & Ht2).
    { intros e' _. now apply guard_under_plus. }
    { eapply uniform_sub; [exact Hu| |]; simpl; lia. }
    { lia. }
    { intros i Hi. unfold ltr1. rewrite lookup_insert_ne by lia.
      apply (vacant_at _ o (esize (Plus l (Plus a b)))); [exact Hv|simpl; lia]. }
    destruct (IHr r (S (q + esize (step l))) (d + dl)%Z ltr2 sh2 Hplr)
      as (ltr3 & sh3 & Hs3 & He3 & Hf3 & Ht3).
    { intros e' He. discriminate. }
    { eapply uniform_tail; [|exact Ht2|unfold r; lia].
      eapply uniform_sub; [exact Hu| |]; unfold r; simpl; lia. }
    { unfold r, dl. lia. }
    { eapply (vacant_frame ltr1 ltr2 _ _ (S o) (esize l));
        [|exact Hf2|unfold r; lia].
      eapply (vacant_frame ltr ltr1 _ _ o 1);
        [|apply same_outside_insert; lia|unfold r; lia].
      eapply vacant_sub; [exact Hv| |]; unfold r; simpl; lia. }
    exists ltr3, sh3. split; [|split; [|split]].
    + rewrite seq_esize_plus.
      rewrite (walk_step _ _ _ _
                 (visit_align_plus_plus _ _ _ o _ r ltr sh d Hnd Ha Hr Hvo Hd)).
      fold ltr1. rewrite walk_app, Hs2. cbn [mbind res_bind].
      replace (S o + esize l) with r by (unfold r; lia).
      exact Hs3.
    + rewrite ltr_of_plus_plus.
      apply entries_at_cons. split.
      * rewrite Hf3, Hf2 by (unfold r; lia). unfold ltr1.
        rewrite lookup_insert_eq. now rewrite Hq.
      * apply entries_at_app. split.
        -- eapply (entries_at_frame ltr2 _ _ _ r (esize (Plus a b)));
             [exact He2|exact Hf3|].
           rewrite ltr_of_length. unfold r. lia.
        -- rewrite ltr_of_length. exact He3.
    + apply (same_outside_trans ltr ltr2 ltr3 o (S (esize l)) r (esize (Plus a b)));
        [|exact Hf3|unfold r; cbn [esize]; lia..].
      apply (same_outside_trans ltr ltr1 ltr2 o 1 (S o) (esize l));
        [apply same_outside_insert; lia|exact Hf2|lia..].
    + rewrite step_plus_plus.
      apply (tail_shift_compose sh sh2 sh3 (S o + esize l) (r + esize (Plus a b)) _
               dl
               (Z.of_nat (esize (step (Plus a b))) - Z.of_nat (esize (Plus a b))));
        [exact Ht2|exact Ht3|unfold r, dl; cbn [esize]; lia..].
Qed.
End AlignSubtree.

Lemma visit_align_root nodes adj pi ltr sh d :
  nodes !! 0 = Some "root" -> ltr !! 0 = None -> sh !! 0 = Some d ->
  visit_align nodes adj pi 0 (ltr, sh) = Ok (<[0 := (0 + d)%Z]> ltr, sh).
Proof.
  intros H Hl Hd. unfold visit_align, lookup_err. rewrite H. simpl.
  rewrite Hl, Hd. reflexivity.
Qed.

Lemma tree_of_expr_size e : length (tree_of_expr e).1 = S (esize e).
Proof.
  unfold tree_of_expr, flat. cbn [fst]. rewrite labels_length.
  simpl. rewrite fsize_tin. simpl. lia.
Qed.

(** On an encoded expression the first loop builds the entries of [ltr_of]
    behind the root, which keeps its place. *)
Lemma left_to_right_encoded e :
  exists ltr,
    left_to_right (tree_of_expr e) = Ok ltr /\
    entries_at ltr 0 (0%Z :: ltr_of e 1).
Proof.
  unfold left_to_right, tree_of_expr, flat.
  set (F := FCons "root" (tin e FNil) FNil).
  cbn [fst snd]. rewrite labels_length.
  assert (fsize F = S (esize e)) as Hsz.
  { unfold F. simpl. rewrite fsize_tin. simpl. lia. }
  destruct (parents_forest (fsize F) (adjs 0 F) F 0 (replicate (fsize F) 0))
    as (pi & Hpi & Hlen & Hframe & Hpf).
  { intros i r Hi. exact Hi. }
  { lia. }
  { apply length_replicate. }
  unfold parents. rewrite Hpi. cbn [mbind res_bind].
  assert (at_forest (labels F) (adjs 0 F) 0 F) as Hat.
  { split; intros i x Hi; exact Hi. }
  unfold F in Hat, Hpf.
  apply at_forest_cons in Hat as (Hn0 & Ha0 & Hat & _).
  destruct Hpf as (Hroot & Hpf & _).
  destruct (placed_tin _ _ _ e 1 FNil Hat Hpf) as (Hpl & _).
  fold F in Hn0, Ha0, Hpl.
  set (sh := replicate (fsize F) 0%Z).
  assert (forall k, k < fsize F -> sh !! k = Some 0%Z) as Hsh.
  { intros k Hk. apply lookup_replicate. split; [reflexivity|exact Hk]. }
  destruct (align_subtree (labels F) (adjs 0 F) pi e 1 1 0%Z
              (<[0 := (0 + 0)%Z]> ∅) sh Hpl) as (ltr' & sh' & Hs & He & Hf & _).
  { intros e' _. exists 0, "root". repeat split; auto.
    apply Hroot. rewrite roots_tin. left. }
  { intros i Hi. apply Hsh. lia. }
  { reflexivity. }
  { intros i Hi. rewrite lookup_insert_ne by lia. apply lookup_empty. }
  exists ltr'. split.
  - rewrite Hsz. cbn [seq].
    change (foldM ?f (0 :: ?l) ?st) with (b' ← f st 0; foldM f l b').
    cbv beta.
    rewrite (visit_align_root _ _ _ ∅ sh 0%Z Hn0 (lookup_empty _)
               (Hsh 0 ltac:(lia))).
    cbn [mbind res_bind]. rewrite Hs. reflexivity.
  - apply entries_at_cons. split; [|exact He].
    rewrite Hf by lia. apply lookup_insert_eq.
Qed.

Lemma peano_alignment_encoded e next :
  peano_alignment (tree_of_expr e) next
  = Ok (merge_vals 0 (0%Z :: ltr_of e 1) 0).
Proof.
  destruct (left_to_right_encoded e) as (ltr & Hl & He).
  unfold peano_alignment. rewrite Hl. cbn [mbind res_bind].
  rewrite tree_of_expr_size.
  replace (S (esize e)) with (length (0%Z :: ltr_of e 1))
    by (cbn [length]; now rewrite ltr_of_length).
  now apply merge_pass_vals.
Qed.

(** The alignment of an encoded expression with the encoding of its
    successor lists the indices of both trees in order. *)
Lemma alignment_encoded e :
  let al := merge_vals 0 (0%Z :: ltr_of e 1) 0 in
  filter (fun x => x <> (-1)%Z) al.*1
    = seqZ 0 (Z.of_nat (length (tree_of_expr e).1)) /\
  filter (fun x => x <> (-1)%Z) al.*2
    = seqZ 0 (Z.of_nat (length (tree_of_expr (step e)).1)) /\
  (-1, -1)%Z ∉ al.
Proof.
  intros al. split; [|split].
  - unfold al. rewrite merge_vals_firsts, tree_of_expr_size.
    cbn [length]. now rewrite ltr_of_length.
  - unfold al. rewrite merge_vals_seconds by lia.
    rewrite tree_of_expr_size. f_equal.
    change (0%Z :: ltr_of e 1) with ([0%Z] ++ ltr_of e 1).
    rewrite cursor_after_app.
    change (cursor_after [0%Z] 0) with 1%Z.
    rewrite cursor_ltr_of by lia. lia.
  - apply merge_vals_no_sentinel. lia.
Qed.

(** the executable check accepts it *)
Lemma alignment_ok_encoded e :
  alignment_ok (tree_of_expr e) (tree_of_expr (step e))
    (merge_vals 0 (0%Z :: ltr_of e 1) 0) = true.
Proof.
  destruct (alignment_encoded e) as (H1 & H2 & H3).
  unfold alignment_ok, covers.
  rewrite !andb_true_iff, !bool_decide_eq_true. auto.
Qed.

(** consecutive trees of a series encode an expression and its successor *)
Lemma series_chain fuel : forall e series out,
  simplify_loop fuel (tree_of_expr e) series = Ok out ->
  last series = Some (tree_of_expr e) ->
  (forall i t t', series !! i = Some t -> series !! S i = Some t' ->
     exists e', t = tree_of_expr e' /\ t' = tree_of_expr (step e')) ->
  forall i t t', out !! i = Some t -> out !! S i = Some t' ->
    exists e', t = tree_of_expr e' /\ t' = tree_of_expr (step e').
Proof.
  induction fuel as [|fuel IH]; intros e series out H Hlast Hs; [discriminate|].
  destruct (is_num e) eqn:He.
  - destruct e as [n| |]; try discriminate.
    rewrite simplify_loop_num in H. injection H as <-. exact Hs.
  - rewrite simplify_loop_pass in H by exact He.
    apply (IH _ _ _ H).
    + apply last_snoc.
    + intros i t t' Hi Hi'.
      assert (S i < length (series ++ [tree_of_expr (step e)])) as Hlt
        by (apply lookup_lt_Some in Hi'; exact Hi').
      rewrite length_app in Hlt. cbn [length] in Hlt.
      destruct (Nat.eq_dec (S i) (length series)) as [E|E].
      * rewrite lookup_app_l in Hi by lia.
        rewrite lookup_app_r in Hi' by lia.
        rewrite E, Nat.sub_diag in Hi'. injection Hi' as <-.
        rewrite last_lookup in Hlast.
        replace (pred (length series)) with i in Hlast by lia.
        rewrite Hi in Hlast. injection Hlast as ->. eauto.
      * rewrite lookup_app_l in Hi, Hi' by lia. eauto.
Qed.

Local Open Scope Z_scope.

(** a list that is [0, 1, ..., n-1] once its sentinels are dropped holds
    every index below [n] exactly once, and in strictly increasing order *)
Remark in_order_reading (l : list Z) (n : Z) :
  filter (fun x => x <> -1) l = seqZ 0 n ->
  NoDup (filter (fun x => x <> -1) l) /\
  (forall (i j : nat) x y, (i < j)%nat ->
     filter (fun x => x <> -1) l !! i = Some x ->
     filter (fun x => x <> -1) l !! j = Some y -> x < y) /\
  forall k, 0 <= k < n <-> k ∈ l /\ k <> -1.
Proof.
  intros H. split; [|split].
  - rewrite H. apply NoDup_seqZ.
  - rewrite H. intros i j x y Hij [-> _]%lookup_seqZ [-> _]%lookup_seqZ. lia.
  - intros k.
    pose proof (list_elem_of_filter (fun x => x <> -1) l k) as Hk.
    rewrite H, elem_of_seqZ in Hk. cbv beta in Hk.
    rewrite Z.add_0_l in Hk. tauto.
Qed.

(** C5: for every consecutive pair (tree, successor) of a trace that
    [_simplify] returns on the tree of an expression, [peano_alignment]
    returns an alignment whose first coordinates, sentinels dropped, are
    exactly the source indices 0, 1, ..., in this order (each once, strictly
    increasing), whose second coordinates, sentinels dropped, are exactly the
    successor indices 0, 1, ..., in this order, and in which the pair
    (-1, -1) does not occur. *)
Theorem alignment_of_trace e fuel series (i : nat) t t' :
  _simplify fuel (tree_of_expr e) = Ok series ->
  series !! i = Some t -> series !! S i = Some t' ->
  exists al,
    peano_alignment t t' = Ok al /\
    filter (fun x => x <> -1) al.*1 = seqZ 0 (Z.of_nat (length t.1)) /\
    filter (fun x => x <> -1) al.*2 = seqZ 0 (Z.of_nat (length t'.1)) /\
    (-1, -1) ∉ al.
Proof.
  intros H Hi Hi'.
  destruct (series_chain fuel e [tree_of_expr e] series H eq_refl) with i t t'
    as (e' & -> & ->); [|exact Hi|exact Hi'|].
  { intros [|[|k]] x y Hx Hy; discriminate. }
  exists (merge_vals 0 (0 :: ltr_of e' 1) 0).
  split; [apply peano_alignment_encoded|apply alignment_encoded].
Qed.

Lemma alignment_of_trace_witness :
  exists al,
    peano_alignment t_plus_1_s0 t_plus_s1_0 = Ok al /\
    filter (fun x => x <> -1) al.*1 = seqZ 0 5 /\
    filter (fun x => x <> -1) al.*2 = seqZ 0 5 /\
    (-1, -1) ∉ al.
Proof.
  apply (alignment_of_trace (Plus (Num 1) (Succ (Num 0))) 5
           [t_plus_1_s0; t_plus_s1_0; t_2] 0 t_plus_1_s0 t_plus_s1_0);
    vm_compute; reflexivity.
Defined.

(** ** The result of [_simplify] *)

Local Open Scope Z_scope.

Lemma value_step e : value (step e) mod 10 = value e mod 10.
Proof.
  induction e as [n|n|e Hne IH|l IHl|l n Hn IHl|l r IHl IHr|l a b IHl IHr]
    using expr_rule_ind.
  - reflexivity.
  - cbn [step value]. apply Z.mod_mod. lia.
  - rewrite step_succ by exact Hne. cbn [value].
    rewrite Z.add_mod, IH, <- Z.add_mod by lia. reflexivity.
  - cbn [step value Z.eqb]. now rewrite Z.add_0_r.
  - rewrite step_plus_num by exact Hn. cbn [value].
    rewrite Z.add_mod, IHl, <- Z.add_mod by lia. f_equal. lia.
  - change (step (Plus l (Succ r))) with (Plus (Succ (step l)) (step r)).
    cbn [value].
    replace (value (step l) + 1 + value (step r))
      with (value (step l) + (value (step r) + 1)) by lia.
    rewrite Z.add_mod, IHl by lia.
    rewrite (Z.add_mod (value (step r)) 1), IHr, <- (Z.add_mod (value r) 1) by lia.
    rewrite <- Z.add_mod by lia. reflexivity.
  - rewrite step_plus_plus. cbn [value] in *.
    rewrite Z.add_mod, IHl, IHr, <- Z.add_mod by lia. reflexivity.
Qed.

Lemma value_steps k : forall e, value (steps k e) mod 10 = value e mod 10.
Proof.
  induction k as [|k IH]; intros e; [reflexivity|].
  cbn [steps]. now rewrite IH, value_step.
Qed.

(** the loop returns only from a tree on which the pass emits no edit, and
    keeps what the series held *)
Lemma simplify_loop_end fuel : forall t series out,
  simplify_loop fuel t series = Ok out ->
  last series = Some t ->
  (exists rest, out = series ++ rest) /\
  exists t', last out = Some t' /\ match_pass t' = Ok [].
Proof.
  induction fuel as [|fuel IH]; intros t series out H Hl; [discriminate|].
  cbn [simplify_loop] in H.
  destruct (match_pass t) as [s| |] eqn:Em; try discriminate.
  cbn [mbind res_bind] in H. destruct s as [|ed s].
  - injection H as <-. split; [exists []; now rewrite app_nil_r|eauto].
  - destruct (apply_script (ed :: s) t) as [t1| |] eqn:Ea; try discriminate.
    cbn [mbind res_bind] in H.
    destruct (IH _ _ _ H (last_snoc _ _)) as ((rest & ->) & Hend).
    split; [|exact Hend].
    exists (t1 :: rest). now rewrite <- app_assoc.
Qed.

Local Open Scope nat_scope.

(** X1: on the tree of an expression over the digits, [_simplify] returns,
    for every fuel above the measure, a trace whose last tree is the root
    over the single numeral [value e mod 10]: the sum of the numerals plus
    the number of "succ" nodes, modulo 10. *)
Theorem simplify_computes_sum e fuel :
  digits e = true -> mu e < fuel ->
  exists series,
    _simplify fuel (tree_of_expr e) = Ok series /\
    last series = Some (["root"; py_str (value e mod 10)], [[1]; []]).
Proof.
  intros Hd Hf.
  destruct (simplify_loop_run e [tree_of_expr e] Hd)
    as (k & v & Hk & Hv & Hs & Hrun).
  assert (k < fuel) as Hkf by lia.
  destruct (Hrun fuel Hkf) as (rest & Hr & _ & Hlast).
  exists ([tree_of_expr e] ++ rest). split; [exact Hr|].
  assert (v = value e mod 10)%Z as <-.
  { pose proof (value_steps k e) as Hval. rewrite Hs in Hval. cbn [value] in Hval.
    rewrite <- Hval. symmetry. apply Z.mod_small. lia. }
  rewrite Hlast. destruct (Nat.eqb_spec k 0) as [->|_]; [|reflexivity].
  cbn [steps] in Hs. subst e. reflexivity.
Qed.

Lemma simplify_computes_sum_witness :
  exists series,
    _simplify 60 (tree_of_expr (Plus (Num 7) (Plus (Succ (Num 5)) (Num 2)))) = Ok series /\
    last series = Some (["root"; "5"], [[1]; []]).
Proof.
  apply (simplify_computes_sum (Plus (Num 7) (Plus (Succ (Num 5)) (Num 2))) 60);
    [reflexivity|vm_compute; lia].
Defined.

(** X2: whenever [_simplify] returns, on any input tree, the trace starts
    with the input tree and ends with a tree on which a further run changes
    nothing: [_simplify] on the last tree returns the trace of that tree
    alone. *)
Theorem simplify_ends_irreducible fuel (t : tree) series :
  _simplify fuel t = Ok series ->
  series !! 0 = Some t /\
  exists t', last series = Some t' /\
    forall fuel', _simplify (S fuel') t' = Ok [t'].
Proof.
  intros H. unfold _simplify in H.
  destruct (simplify_loop_end fuel t [t] series H eq_refl)
    as ((rest & ->) & t' & Hl & Hm).
  split; [reflexivity|]. exists t'. split; [exact Hl|].
  intros fuel'. unfold _simplify. cbn [simplify_loop]. now rewrite Hm.
Qed.

Lemma simplify_ends_irreducible_witness :
  [t_plus_2_0; t_2] !! 0 = Some t_plus_2_0 /\
  exists t', last [t_plus_2_0; t_2] = Some t' /\
    forall fuel', _simplify (S fuel') t' = Ok [t'].
Proof.
  apply (simplify_ends_irreducible 3 t_plus_2_0 [t_plus_2_0; t_2]).
  vm_compute. reflexivity.
Defined.

(** X3: on the tree of an expression the pass emits no edit exactly when
    the expression is a single numeral: the loop of [_simplify] stops at
    numerals and nowhere else. *)
Theorem pass_empty_iff_numeral e :
  match_pass (tree_of_expr e) = Ok [] <-> exists n, e = Num n.
Proof.
  rewrite match_pass_encoded. split.
  - intros H. injection H as H. now apply emit_nil in H.
  - intros [n ->]. reflexivity.
Qed.

(** ** Generated trees are preorder encodings *)

Local Open Scope nat_scope.

Lemma tin_fapp e s : tin e s = fapp (tin e FNil) s.
Proof. now rewrite fapp_tin. Qed.

Lemma labels_tin e s : labels (tin e s) = labels (tin e FNil) ++ labels s.
Proof. now rewrite tin_fapp, labels_fapp. Qed.

Lemma adjs_tin o e s :
  adjs o (tin e s) = adjs o (tin e FNil) ++ adjs (o + esize e) s.
Proof.
  rewrite tin_fapp, adjs_fapp, fsize_tin. simpl. now rewrite Nat.add_0_r.
Qed.

Lemma labels_tin_length e : length (labels (tin e FNil)) = esize e.
Proof. rewrite labels_length, fsize_tin. simpl. lia. Qed.

Lemma adjs_tin_length o e : length (adjs o (tin e FNil)) = esize e.
Proof. rewrite adjs_length, fsize_tin. simpl. lia. Qed.

(** a numeral answers a request *)
Lemma attach_num nodes adj p row n :
  p < length adj -> adj !! p = Some row ->
  attach (nodes, adj) p (Num n)
  = (nodes ++ [py_str n], <[p := row ++ [length nodes]]> (adj ++ [[]])).
Proof.
  intros Hp Hrow. unfold attach. cbn [fst snd tin labels adjs roots app].
  rewrite Hrow. cbn [default]. now rewrite insert_app_l.
Qed.

Lemma lookup_middle {A} (l1 l2 : list A) y i :
  length l1 = i -> (l1 ++ y :: l2) !! i = Some y.
Proof. intros <-. apply list_lookup_middle. reflexivity. Qed.

Lemma insert_middle {A} (l1 l2 : list A) x y i :
  length l1 = i -> <[i := x]> (l1 ++ y :: l2) = l1 ++ x :: l2.
Proof.
  intros <-. rewrite <- (Nat.add_0_r (length l1)). now rewrite insert_app_r.
Qed.

(** a "+" answers a request with two requests of its own *)
Lemma attach_plus nodes adj p row l r :
  length adj = length nodes -> p < length nodes -> adj !! p = Some row ->
  attach (attach (nodes ++ ["+"], <[p := row ++ [length nodes]]> (adj ++ [[]]))
            (length nodes) l) (length nodes) r
  = attach (nodes, adj) p (Plus l r).
Proof.
  intros Hlen Hp Hrow. set (i := length nodes).
  assert (length (<[p := row ++ [i]]> adj) = i) as Hl
    by (now rewrite length_insert).
  rewrite (insert_app_l adj [[]]) by lia.
  set (A := <[p := row ++ [i]]> adj) in *.
  unfold attach at 2. cbn [fst snd].
  rewrite (lookup_middle A [] [] i Hl). cbn [default app].
  rewrite (insert_middle A [] _ [] i Hl).
  rewrite length_app. cbn [length]. fold i.
  unfold attach. cbn [fst snd].
  rewrite <- !app_assoc. cbn [app].
  rewrite (lookup_middle A _ _ i Hl). cbn [default app].
  rewrite (insert_middle A _ _ _ i Hl).
  rewrite Hrow. cbn [default]. fold i A.
  unfold id. cbn [app].
  rewrite !length_app. cbn [length]. rewrite labels_tin_length. fold i.
  f_equal.
  - cbn [tin labels]. rewrite (labels_tin l (tin r FNil)). cbn [labels].
    rewrite !app_nil_r. reflexivity.
  - rewrite <- app_assoc. f_equal. cbn [tin adjs app].
    rewrite (roots_tin _ l (tin r FNil)), (roots_tin _ r FNil).
    rewrite (adjs_tin _ l (tin r FNil)). cbn [roots adjs].
    rewrite !app_nil_r.
    replace (i + 1) with (S i) by lia.
    replace (i + S (esize l)) with (S (i + esize l)) by lia.
    replace (S i + esize l) with (S (i + esize l)) by lia.
    reflexivity.
Qed.

Lemma support_cases plus max_input r :
  (max_input <= 9)%Z ->
  in_support plus max_input r = true ->
  (plus = true /\ r = 0) \/
  ((1 <= Z.of_nat r - 1 <= max_input)%Z /\
   lookup_err alphabet r = Ok (py_str (Z.of_nat r - 1)) /\
   String.eqb (py_str (Z.of_nat r - 1)) "+" = false).
Proof.
  intros Hmax Hs. unfold in_support in Hs.
  apply orb_true_iff in Hs as [Hs|Hs].
  - apply andb_true_iff in Hs as [-> Hr]. apply Nat.eqb_eq in Hr. now left.
  - apply andb_true_iff in Hs as [H2 Hr].
    apply Z.leb_le in H2, Hr. right. split; [lia|].
    do 11 (destruct r as [|r]; [first [lia | split; reflexivity]|]).
    lia.
Qed.

(** the loop answers every request of the stack by an expression *)
Lemma generate_loop_encoded draws max_input : forall max_additions nodes adj stk t,
  (max_input <= 9)%Z ->
  length adj = length nodes ->
  (forall p, p ∈ stk -> p < length nodes) ->
  generate_loop draws max_input max_additions nodes adj stk = Ok t ->
  exists es,
    length es = length stk /\
    t = attach_all (nodes, adj) stk es /\
    Forall (fun e => plain max_input e = true) es /\
    (Z.of_nat (plus_total es) <= Z.max 0 max_additions)%Z.
Proof.
  induction draws as [|r draws IH]; intros ma nodes adj stk t Hmax Hlen Hstk H.
  - destruct stk; [|discriminate]. injection H as <-.
    exists []. repeat split; [constructor|simpl; lia].
  - destruct stk as [|p stk].
    { injection H as <-. exists []. repeat split; [constructor|simpl; lia]. }
    rewrite generate_loop_cons in H.
    destruct (in_support (0 <? ma)%Z max_input r) eqn:Hs; [|discriminate].
    cbn [negb] in H.
    assert (p < length nodes) as Hp by (apply Hstk; left).
    destruct (adj !! p) as [row|] eqn:Hrow;
      [|apply lookup_ge_None in Hrow; lia].
    assert (lookup_err adj p = Ok row) as Hrow'
      by (unfold lookup_err; now rewrite Hrow).
    destruct (support_cases _ _ _ Hmax Hs) as [[Hplus ->]|(Hr & El & Hne)].
    + (* a "+" *)
      apply Z.ltb_lt in Hplus.
      change (lookup_err alphabet 0) with (Ok (A := string) "+") in H.
      cbn [mbind res_bind] in H. rewrite Hrow' in H.
      cbn [mbind res_bind] in H.
      change (String.eqb "+" "+") with true in H. cbv iota in H.
      apply IH in H as (es & Hl & -> & Hall & Hcount); [|exact Hmax| |].
      * destruct es as [|l [|r es]]; try discriminate.
        exists (Plus l r :: es). split; [simpl in *; lia|]. split.
        -- cbn [attach_all].
           now rewrite (attach_plus nodes adj p row l r Hlen Hp Hrow).
        -- inversion Hall as [|? ? Hpl Hall']; subst.
           inversion Hall' as [|? ? Hpr Hall'']; subst.
           split.
           ++ constructor; [|exact Hall'']. cbn [plain]. now rewrite Hpl, Hpr.
           ++ cbn [plus_total plus_count] in *. lia.
      * rewrite length_insert, !length_app. simpl. lia.
      * intros q Hq. rewrite length_app. simpl.
        apply elem_of_cons in Hq as [->|Hq]; [lia|].
        apply elem_of_cons in Hq as [->|Hq]; [lia|].
        assert (q < length nodes) by (apply Hstk; now right). lia.
    + (* a numeral *)
      rewrite El in H. cbn [mbind res_bind] in H. rewrite Hrow' in H.
      cbn [mbind res_bind] in H. rewrite Hne in H.
      apply IH in H as (es & Hl & -> & Hall & Hcount); [|exact Hmax| |].
      * exists (Num (Z.of_nat r - 1) :: es). split; [simpl; lia|]. split.
        -- cbn [attach_all].
           rewrite (attach_num nodes adj p row _ ltac:(lia) Hrow). reflexivity.
        -- split; [|exact Hcount].
           constructor; [|exact Hall]. cbn [plain].
           apply andb_true_iff. rewrite !Z.leb_le. lia.
      * rewrite length_insert, !length_app. simpl. lia.
      * intros q Hq. rewrite length_app. simpl.
        assert (q < length nodes) by (apply Hstk; now right). lia.
Qed.

Lemma effective_max_range max_input :
  (1 <= max_input)%Z -> (effective_max max_input =? 0)%Z = false ->
  (1 <= effective_max max_input <= 9)%Z.
Proof.
  unfold effective_max. intros H1 H0. apply Z.eqb_neq in H0.
  destruct (Z.ltb_spec 9 max_input); [|lia].
  pose proof (Z.mod_pos_bound max_input 10 ltac:(lia)). lia.
Qed.

Lemma generate_tree_unfold draws max_additions max_input :
  _generate_tree draws max_additions max_input
  = if (max_input <? 1)%Z then Err ValueError
    else if (effective_max max_input =? 0)%Z then Err ZeroDivisionError
    else generate_loop draws (effective_max max_input) max_additions
           ["root"] [[]] [0].
Proof. reflexivity. Qed.

(** a returned tree is the preorder encoding of an expression *)
Lemma generate_tree_encoded draws max_additions max_input t :
  _generate_tree draws max_additions max_input = Ok t ->
  (1 <= effective_max max_input <= 9)%Z /\
  exists e,
    t = tree_of_expr e /\
    plain (effective_max max_input) e = true /\
    (Z.of_nat (plus_count e) <= Z.max 0 max_additions)%Z.
Proof.
  rewrite generate_tree_unfold. intros H.
  destruct (Z.ltb_spec max_input 1); [discriminate|].
  destruct (effective_max max_input =? 0)%Z eqn:E0; [discriminate|].
  pose proof (effective_max_range max_input ltac:(lia) E0) as Hr.
  split; [exact Hr|].
  apply generate_loop_encoded in H as (es & Hl & -> & Hall & Hc);
    [|lia|reflexivity|].
  - destruct es as [|e [|]]; try discriminate.
    exists e. inversion Hall; subst. split; [|split; [assumption|]].
    + cbn [attach_all]. unfold attach, tree_of_expr, flat.
      cbn [fst snd length lookup list_lookup default app insert list_insert
           labels adjs].
      rewrite roots_tin. cbn [roots]. rewrite !app_nil_r. reflexivity.
    + cbn [plus_total] in Hc. lia.
  - intros p Hp. apply list_elem_of_singleton in Hp as ->. simpl. lia.
Qed.

Lemma plain_digits m e : (m <= 9)%Z -> plain m e = true -> digits e = true.
Proof.
  intros Hm. induction e as [n|e IH|l IHl r IHr]; cbn [plain digits]; intros H.
  - apply andb_true_iff in H as [H1 H2]. apply Z.leb_le in H1, H2.
    apply andb_true_iff. rewrite !Z.leb_le. lia.
  - discriminate.
  - apply andb_true_iff in H as [H1 H2]. now rewrite IHl, IHr.
Qed.

Lemma plain_size m e : plain m e = true -> esize e = 2 * plus_count e + 1.
Proof.
  induction e as [n|e IH|l IHl r IHr]; cbn [plain esize plus_count]; intros H.
  - reflexivity.
  - discriminate.
  - apply andb_true_iff in H as [H1 H2]. rewrite IHl, IHr by assumption. lia.
Qed.

Lemma plain_ops m e : plain m e = true -> op_count e = plus_count e.
Proof.
  induction e as [n|e IH|l IHl r IHr]; cbn [plain op_count plus_count]; intros H.
  - reflexivity.
  - discriminate.
  - apply andb_true_iff in H as [H1 H2]. rewrite IHl, IHr by assumption. lia.
Qed.

Lemma plain_upper m e :
  (0 <= m)%Z -> plain m e = true -> upper e <= Z.to_nat m * (plus_count e + 1).
Proof.
  intros Hm.
  induction e as [n|e IH|l IHl r IHr]; cbn [plain upper plus_count]; intros H.
  - apply andb_true_iff in H as [H1 H2]. apply Z.leb_le in H1, H2. lia.
  - discriminate.
  - apply andb_true_iff in H as [H1 H2].
    specialize (IHl H1). specialize (IHr H2). nia.
Qed.

(** the sum of the numerals of a generated expression *)
Lemma plain_value m e : plain m e = true -> (1 <= value e)%Z.
Proof.
  induction e as [n|e IH|l IHl r IHr]; cbn [plain value]; intros H.
  - apply andb_true_iff in H as [H1 _]. now apply Z.leb_le in H1.
  - discriminate.
  - apply andb_true_iff in H as [H1 H2].
    specialize (IHl H1). specialize (IHr H2). lia.
Qed.

Lemma plus_labels e :
  length (filter (fun x => x = "+") (labels (tin e FNil))) = plus_count e.
Proof.
  induction e as [n|e IH|l IHl r IHr]; cbn [tin labels plus_count].
  - rewrite filter_cons_False; [reflexivity|].
    intros H. pose proof (py_str_plus n) as Hp.
    apply String.eqb_neq in Hp. contradiction.
  - rewrite filter_cons_False by discriminate. rewrite app_nil_r. exact IH.
  - rewrite filter_cons_True by reflexivity.
    rewrite app_nil_r, labels_tin, filter_app, length_cons, length_app.
    now rewrite IHl, IHr.
Qed.

(** the loop raises no error *)
Lemma generate_loop_no_error draws max_input : forall max_additions nodes adj stk err,
  (max_input <= 9)%Z ->
  gen_inv nodes adj stk ->
  generate_loop draws max_input max_additions nodes adj stk <> Err err.
Proof.
  induction draws as [|r draws IH]; intros ma nodes adj stk err Hmax Hinv H.
  - destruct stk; discriminate.
  - destruct stk as [|p stk]; [discriminate|].
    rewrite generate_loop_cons in H.
    destruct (in_support (0 <? ma)%Z max_input r) eqn:Hs; [|discriminate].
    cbn [negb] in H.
    destruct (support_label _ _ _ Hmax Hs) as (lab & El & Hlab).
    rewrite El in H. cbn [mbind res_bind] in H.
    assert (p < length nodes) as Hp by (apply (gi_stack _ _ _ Hinv); left).
    destruct (adj !! p) as [row|] eqn:Hrow.
    + unfold lookup_err in H. rewrite Hrow in H. cbn [mbind res_bind] in H.
      pose proof (gen_step_inv nodes adj p stk lab row Hinv Hrow Hlab) as Hinv'.
      destruct (String.eqb lab "+"); eapply IH; eauto.
    + apply lookup_ge_None in Hrow.
      pose proof (gi_len _ _ _ Hinv). lia.
Qed.

(** X4: every tree [_generate_tree] returns is the preorder encoding, under
    the root, of an expression built from "+" and numerals only, every
    numeral between 1 and [max_input] (taken modulo 10 when above 9). *)
Theorem generated_is_expression draws max_additions max_input t :
  _generate_tree draws max_additions max_input = Ok t ->
  exists e, t = tree_of_expr e /\ plain (effective_max max_input) e = true.
Proof.
  intros H. apply generate_tree_encoded in H as (_ & e & -> & Hp & _). eauto.
Qed.

Lemma generated_is_expression_witness :
  exists e,
    (["root"; "+"; "1"; "+"; "3"; "2"], [[1]; [2; 3]; []; [4; 5]; []; []])
    = tree_of_expr e /\
    plain (effective_max 3) e = true.
Proof.
  apply (generated_is_expression [0; 2; 0; 4; 3] 2 3). reflexivity.
Defined.

(** X5: a tree returned by [_generate_tree] has at most [max_additions]
    nodes labelled "+", and with k such nodes it has 2k + 2 nodes, each
    with a row in the adjacency list. *)
Theorem generated_size draws max_additions max_input t :
  _generate_tree draws max_additions max_input = Ok t ->
  let k := length (filter (fun x => x = "+") t.1) in
  (Z.of_nat k <= Z.max 0 max_additions)%Z /\
  length t.1 = 2 * k + 2 /\
  length t.2 = length t.1.
Proof.
  intros H. apply generate_tree_encoded in H as (_ & e & -> & Hp & Hc).
  unfold tree_of_expr, flat. cbn [fst snd labels].
  rewrite filter_cons_False by discriminate.
  rewrite app_nil_r, plus_labels. cbn zeta. split; [exact Hc|].
  cbn [length]. rewrite labels_tin_length.
  change (adjs 0 (FCons "root" (tin e FNil) FNil))
    with (roots 1 (tin e FNil) :: adjs 1 (tin e FNil) ++ []).
  rewrite app_nil_r. cbn [length]. rewrite adjs_tin_length.
  rewrite (plain_size _ _ Hp). split; lia.
Qed.

Lemma generated_size_witness :
  let t : tree :=
    (["root"; "+"; "1"; "+"; "3"; "2"], [[1]; [2; 3]; []; [4; 5]; []; []]) in
  let k := length (filter (fun x => x = "+") t.1) in
  (Z.of_nat k <= Z.max 0 2)%Z /\
  length t.1 = 2 * k + 2 /\
  length t.2 = length t.1.
Proof.
  apply (generated_size [0; 2; 0; 4; 3] 2 3). reflexivity.
Defined.

(** X6: [_generate_tree] raises ValueError exactly when [max_input] is
    below 1, ZeroDivisionError exactly when [max_input] is a multiple of 10
    (its residue modulo 10 divides 1.0), and no other error. *)
Theorem generate_tree_errors draws max_additions max_input err :
  _generate_tree draws max_additions max_input = Err err <->
  ((max_input < 1)%Z /\ err = ValueError) \/
  ((10 <= max_input)%Z /\ (max_input mod 10 = 0)%Z /\ err = ZeroDivisionError).
Proof.
  rewrite generate_tree_unfold.
  destruct (Z.ltb_spec max_input 1) as [Hlt|Hge].
  - split.
    + intros H. injection H as <-. left. split; [exact Hlt|reflexivity].
    + intros [[_ ->]|(H10 & _)]; [reflexivity|lia].
  - destruct (effective_max max_input =? 0)%Z eqn:E0.
    + apply Z.eqb_eq in E0. unfold effective_max in E0.
      destruct (Z.ltb_spec 9 max_input) as [H9|H9]; [|lia].
      split.
      * intros H. injection H as <-. right. repeat split; [lia|exact E0].
      * intros [[Hlt _]|(_ & _ & ->)]; [lia|reflexivity].
    + pose proof (effective_max_range max_input Hge E0) as Hr.
      split.
      * intros H. exfalso.
        eapply (generate_loop_no_error draws (effective_max max_input));
          [|exact gen_inv_init|exact H]. lia.
      * apply Z.eqb_neq in E0. unfold effective_max in E0.
        intros [[Hlt _]|(H10 & Hm & _)]; [lia|].
        destruct (Z.ltb_spec 9 max_input) as [H9|H9]; lia.
Qed.

(** ** The generated time series *)

Lemma plain_mu_bound m e a :
  (0 <= m <= 9)%Z -> plain m e = true -> plus_count e <= a ->
  mu e <= a * (37 + 36 * a).
Proof.
  intros Hm Hp Ha.
  pose proof (mu_bound e) as Hmu.
  pose proof (plain_upper m e ltac:(lia) Hp) as Hu.
  rewrite (plain_ops _ _ Hp) in Hmu.
  assert (upper e <= 9 * (a + 1)) as Hu' by nia.
  assert (plus_count e * (1 + 4 * upper e) <= a * (1 + 4 * (9 * (a + 1)))) as Hb.
  { apply Nat.mul_le_mono; lia. }
  lia.
Qed.

(** X7: when the generator returns a tree (the draws suffice), every fuel
    above a (37 + 36 a), a the maximal number of additions, lets
    [generate_time_series] return: the trace starts with the generated
    tree, has at most a (37 + 36 a) + 1 trees, and ends with the root over
    the single numeral that is the sum of the generated numerals modulo
    10. *)
Theorem generate_time_series_result draws max_additions max_input t fuel :
  _generate_tree draws max_additions max_input = Ok t ->
  let a := Z.to_nat max_additions in
  a * (37 + 36 * a) < fuel ->
  exists e series,
    t = tree_of_expr e /\
    generate_time_series fuel draws max_additions max_input = Ok series /\
    series !! 0 = Some t /\
    length series <= a * (37 + 36 * a) + 1 /\
    last series = Some (["root"; py_str (value e mod 10)], [[1]; []]).
Proof.
  intros H a Hf. unfold generate_time_series. rewrite H. cbn [mbind res_bind].
  apply generate_tree_encoded in H as (Hr & e & -> & Hp & Hc).
  assert (digits e = true) as Hd by (apply (plain_digits _ _ (proj2 Hr) Hp)).
  assert (mu e <= a * (37 + 36 * a)) as Hmu.
  { apply (plain_mu_bound (effective_max max_input)); [lia|exact Hp|].
    unfold a. lia. }
  destruct (simplify_loop_run e [tree_of_expr e] Hd)
    as (k & v & Hk & Hv & Hs & Hrun).
  assert (k < fuel) as Hkf by lia.
  destruct (Hrun fuel Hkf) as (rest & Hrest & Hlen & Hlast).
  exists e, ([tree_of_expr e] ++ rest).
  split; [reflexivity|]. split; [exact Hrest|]. split; [reflexivity|].
  split; [rewrite length_app; simpl; lia|].
  assert (v = value e mod 10)%Z as <-.
  { pose proof (value_steps k e) as Hval. rewrite Hs in Hval. cbn [value] in Hval.
    rewrite <- Hval. symmetry. apply Z.mod_small. lia. }
  rewrite Hlast. destruct (Nat.eqb_spec k 0) as [->|_]; [|reflexivity].
  cbn [steps] in Hs. subst e. reflexivity.
Qed.

Lemma generate_time_series_result_witness :
  exists e series,
    (["root"; "+"; "1"; "+"; "3"; "2"], [[1]; [2; 3]; []; [4; 5]; []; []])
    = tree_of_expr e /\
    generate_time_series 300 [0; 2; 0; 4; 3] 2 3 = Ok series /\
    series !! 0
    = Some (["root"; "+"; "1"; "+"; "3"; "2"], [[1]; [2; 3]; []; [4; 5]; []; []]) /\
    length series <= 2 * (37 + 36 * 2) + 1 /\
    last series = Some (["root"; py_str (value e mod 10)], [[1]; []]).
Proof.
  apply (generate_time_series_result [0; 2; 0; 4; 3] 2 3 _ 300);
    [reflexivity|vm_compute; lia].
Defined.

(** ** The alignment of an arbitrary tree *)

Local Open Scope Z_scope.

Lemma merge_pass_shape ltr n : forall i j al,
  merge_pass ltr (seq i n) j = Ok al ->
  exists vals, length vals = n /\ al = merge_vals i vals j.
Proof.
  induction n as [|n IH]; intros i j al H.
  - injection H as <-. exists []. split; reflexivity.
  - cbn [seq merge_pass] in H.
    destruct (ltr !! i) as [v|] eqn:Ev; [|discriminate].
    destruct (v <? 0) eqn:Hv.
    + apply bind_Ok in H as (al' & H & Hal). injection Hal as <-.
      apply IH in H as (vals & Hl & ->).
      exists (v :: vals). split; [simpl; lia|]. cbn [merge_vals]. now rewrite Hv.
    + apply bind_Ok in H as (al' & H & Hal). injection Hal as <-.
      apply IH in H as (vals & Hl & ->).
      exists (v :: vals). split; [simpl; lia|]. cbn [merge_vals]. now rewrite Hv.
Qed.

Lemma cursor_after_ge vals : forall j, j <= cursor_after vals j.
Proof.
  induction vals as [|v vals IH]; intros j; cbn [cursor_after]; [lia|].
  destruct (v <? 0); [apply IH|]. specialize (IH (Z.max j v + 1)). lia.
Qed.

(** X8: whenever [peano_alignment] returns, on any input tree, well-formed
    or not, the first coordinates of the alignment, sentinels dropped, are
    0, 1, ..., n-1 in this order for the n nodes of the source tree; the
    second coordinates, sentinels dropped, are 0, 1, ..., m-1 in this order
    for some m; and the pair (-1, -1) does not occur. *)
Theorem alignment_invariants (t next : tree) al :
  peano_alignment t next = Ok al ->
  filter (fun x => x <> -1) al.*1 = seqZ 0 (Z.of_nat (length t.1)) /\
  (exists m, 0 <= m /\ filter (fun x => x <> -1) al.*2 = seqZ 0 m) /\
  (-1, -1) ∉ al.
Proof.
  unfold peano_alignment. intros H.
  apply bind_Ok in H as (ltr & _ & H).
  apply merge_pass_shape in H as (vals & Hl & ->).
  split; [|split].
  - now rewrite merge_vals_firsts, Hl.
  - exists (cursor_after vals 0 - 0). split.
    + pose proof (cursor_after_ge vals 0). lia.
    + apply merge_vals_seconds. lia.
  - apply merge_vals_no_sentinel. lia.
Qed.

Lemma alignment_invariants_witness :
  let al := [(0, 0); (1, -1); (-1, 1); (2, 2); (3, -1); (4, 3)] in
  filter (fun x => x <> -1) al.*1 = seqZ 0 5 /\
  (exists m, 0 <= m /\ filter (fun x => x <> -1) al.*2 = seqZ 0 m) /\
  (-1, -1) ∉ al.
Proof.
  apply (alignment_invariants t_shared t_2). vm_compute. reflexivity.
Defined.

(** ** The parent array *)

Local Open Scope nat_scope.

Lemma set_parent_fold n i row : forall pi pi',
  foldM (set_parent n i) row pi = Ok pi' ->
  length pi' = length pi /\
  (forall j, j ∈ row -> j < n) /\
  (forall x, x < length pi -> x ∈ row -> pi' !! x = Some i) /\
  (forall x, x ∉ row -> pi' !! x = pi !! x).
Proof.
  induction row as [|j row IH]; intros pi pi' H; cbn [foldM] in H.
  - injection H as <-. split; [reflexivity|]. split; [|split].
    + intros j Hj. inversion Hj.
    + intros x _ Hx. inversion Hx.
    + reflexivity.
  - apply bind_Ok in H as (pi1 & H1 & H).
    unfold set_parent in H1.
    destruct (Nat.ltb_spec j n) as [Hj|]; [|discriminate].
    injection H1 as <-.
    apply IH in H as (Hlen & Hb & Hin & Hout).
    rewrite length_insert in Hlen, Hin.
    split; [exact Hlen|]. split; [|split].
    + intros x Hx. apply elem_of_cons in Hx as [->|Hx]; auto.
    + intros x Hx Hxr. destruct (decide (x ∈ row)) as [Hr|Hr]; [auto|].
      apply elem_of_cons in Hxr as [->|Hxr]; [|contradiction].
      rewrite Hout by exact Hr. now apply list_lookup_insert_eq.
    + intros x Hx. apply not_elem_of_cons in Hx as [Hne Hx].
      rewrite Hout by exact Hx. now apply list_lookup_insert_ne.
Qed.

Section ParentLoop.
Variables (n : nat) (adj : list (list nat)).

Local Abbreviation pass :=
  (fun pi i => row ← lookup_err adj i; foldM (set_parent n i) row pi).

Lemma last_filter_snoc (P : nat -> Prop) `{!forall x, Decision (P x)} l k :
  last (filter P (l ++ [k]))
  = if decide (P k) then Some k else last (filter P l).
Proof.
  rewrite filter_app, filter_cons, filter_nil.
  destruct (decide (P k)); [apply last_snoc|now rewrite app_nil_r].
Qed.

Lemma parents_prefix k : forall pi,
  foldM pass (seq 0 k) (replicate n 0) = Ok pi ->
  length pi = n /\
  (forall i, i < k -> exists row, adj !! i = Some row /\ forall j, j ∈ row -> j < n) /\
  (forall j, j < n -> pi !! j = Some (last_parent k adj j)).
Proof.
  induction k as [|k IH]; intros pi H.
  - injection H as <-. split; [apply length_replicate|]. split; [intros; lia|].
    intros j Hj. unfold last_parent. simpl.
    apply lookup_replicate. split; [reflexivity|exact Hj].
  - rewrite seq_S, foldM_app in H. cbn [Nat.add] in H.
    apply bind_Ok in H as (pi1 & H1 & H).
    destruct (IH pi1 H1) as (Hlen & Hrows & Hpi).
    cbn [foldM] in H.
    apply bind_Ok in H as (pi2 & H & Hret). injection Hret as <-.
    apply bind_Ok in H as (row & Hrow%lookup_err_Ok & H).
    apply set_parent_fold in H as (Hlen2 & Hb & Hin & Hout).
    split; [congruence|]. split.
    + intros i Hi. destruct (decide (i = k)) as [->|Hne]; [eauto|].
      apply Hrows. lia.
    + intros j Hj. unfold last_parent. rewrite seq_S. cbn [Nat.add].
      rewrite last_filter_snoc, Hrow.
      change (default [] (Some row)) with row.
      destruct (decide (j ∈ row)) as [Hr|Hr].
      * apply Hin; [lia|exact Hr].
      * rewrite Hout by exact Hr. now apply Hpi.
Qed.

Lemma parents_total k : forall pi,
  (forall i, i < k -> exists row, adj !! i = Some row /\ forall j, j ∈ row -> j < n) ->
  exists pi', foldM pass (seq 0 k) pi = Ok pi'.
Proof.
  induction k as [|k IH]; intros pi Hrows; [simpl; eauto|].
  rewrite seq_S, foldM_app. cbn [Nat.add].
  destruct (IH pi) as (pi1 & ->); [intros; apply Hrows; lia|].
  cbn [mbind res_bind foldM].
  destruct (Hrows k ltac:(lia)) as (row & Hrow & Hb).
  rewrite (proj2 (lookup_err_Ok adj k row) Hrow). cbn [mbind res_bind].
  destruct (set_parent_row n k row pi1 Hb) as (pi2 & -> & _). simpl. eauto.
Qed.

Lemma set_parent_fold_raises i row : forall pi,
  (exists pi', foldM (set_parent n i) row pi = Ok pi') \/
  foldM (set_parent n i) row pi = Err IndexError.
Proof.
  induction row as [|j row IH]; intros pi; cbn [foldM]; [left; eauto|].
  assert (set_parent n i pi j = Ok (<[j := i]> pi) \/
          set_parent n i pi j = Err IndexError) as [-> | ->]
    by (unfold set_parent; destruct (Nat.ltb j n); auto).
  - cbn [mbind res_bind]. apply IH.
  - now right.
Qed.

Lemma pass_fold_raises l : forall pi,
  (exists pi', foldM pass l pi = Ok pi') \/ foldM pass l pi = Err IndexError.
Proof.
  induction l as [|i l IH]; intros pi; cbn [foldM]; [left; eauto|].
  unfold lookup_err. destruct (adj !! i) as [row|]; [|now right].
  cbn [mbind res_bind].
  destruct (set_parent_fold_raises i row pi) as [[pi' ->]| ->]; [|now right].
  cbn [mbind res_bind]. apply IH.
Qed.

End ParentLoop.

(** X9: when the parent pass that opens [_simplify], [compute_loss] and
    [peano_alignment] returns, the array has one entry per node, and the
    entry of node j is the last node that lists j as a child, or 0 when no
    node does. *)
Theorem parents_last_writer n adj pi :
  parents n adj = Ok pi ->
  length pi = n /\ forall j, j < n -> pi !! j = Some (last_parent n adj j).
Proof.
  intros H. apply parents_prefix in H as (Hl & _ & Hp). auto.
Qed.

Lemma parents_last_writer_witness :
  length [0; 3; 0; 0; 3] = 5 /\
  forall j, j < 5 -> [0; 3; 0; 0; 3] !! j = Some (last_parent 5 t_shared.2 j).
Proof.
  apply (parents_last_writer 5 t_shared.2). reflexivity.
Defined.

(** X10: the parent pass returns exactly when the adjacency list has a row
    for every node and names no child beyond the node list; otherwise it
    raises IndexError. *)
Theorem parents_defined n adj :
  (children_in_range n adj <-> exists pi, parents n adj = Ok pi) /\
  ((exists pi, parents n adj = Ok pi) \/ parents n adj = Err IndexError).
Proof.
  split; [split|].
  - intros H. now apply (parents_total n adj n).
  - intros [pi H]. apply parents_prefix in H as (_ & Hr & _). exact Hr.
  - apply pass_fold_raises.
Qed.

(** ** One edit per node in [predict_step] *)

Local Open Scope nat_scope.

Lemma half_pos : (- half < half)%Q.
Proof. reflexivity. Qed.







(** ** The targets of [compute_loss] on an encoded expression *)

Local Open Scope nat_scope.

Lemma index_aux_lookup x l : forall k j,
  index_aux x l k = Ok j -> k <= j /\ l !! (j - k) = Some x.
Proof.
  induction l as [|y l IH]; intros k j H; cbn [index_aux] in H; [discriminate|].
  destruct (String.eqb_spec y x) as [->|Hne].
  - injection H as <-. rewrite Nat.sub_diag. split; [lia|reflexivity].
  - apply IH in H as [Hle H]. split; [lia|].
    replace (j - k) with (S (j - S k)) by lia. exact H.
Qed.

Lemma index_of_lookup x l j : index_of x l = Ok j -> l !! j = Some x.
Proof.
  intros H. apply index_aux_lookup in H as [_ H]. now rewrite Nat.sub_0_r in H.
Qed.

Lemma index_of_digit n :
  (0 <= n <= 9)%Z -> index_of (py_str n) alphabet = Ok (S (Z.to_nat n)).
Proof.
  intros H.
  assert (exists k, (k < 10)%nat /\ n = Z.of_nat k) as (k & Hk & ->)
    by (exists (Z.to_nat n); lia).
  rewrite Nat2Z.id. do 10 (destruct k as [|k]; [reflexivity|]). lia.
Qed.

Lemma py_str_inj a b : py_str a = py_str b -> a = b.
Proof.
  intros H. pose proof (py_int_str a) as Ha. rewrite H, py_int_str in Ha.
  congruence.
Qed.

(** *** Rows of the target tensors *)

Lemma insert_lookup_case {A} (l : list A) a v i x :
  l !! i = Some x ->
  <[a := v]> l !! i = Some (if decide (i = a) then v else x).
Proof.
  intros H. destruct (decide (i = a)) as [->|Hne].
  - apply list_lookup_insert_eq. now apply lookup_lt_Some in H.
  - now rewrite list_lookup_insert_ne by congruence.
Qed.

Lemma insert_lookup_none {A} (l : list A) a v i :
  l !! i = None -> <[a := v]> l !! i = None.
Proof.
  intros H. apply lookup_ge_None. rewrite length_insert.
  now apply lookup_ge_None.
Qed.

Lemma row_of_Some tg i d k c C :
  row_of tg i = Some (d, k, c, C) <->
  t_delta tg !! i = Some d /\ t_types tg !! i = Some k /\
  t_Cidx tg !! i = Some c /\ t_Cnum tg !! i = Some C.
Proof.
  unfold row_of.
  destruct (t_delta tg !! i), (t_types tg !! i), (t_Cidx tg !! i),
    (t_Cnum tg !! i); cbn; split;
    try (intros (? & ? & ? & ?)); try discriminate; intros; simplify_eq; auto.
Qed.

Lemma row_of_None tg i :
  row_of tg i = None <->
  t_delta tg !! i = None \/ t_types tg !! i = None \/
  t_Cidx tg !! i = None \/ t_Cnum tg !! i = None.
Proof.
  unfold row_of.
  destruct (t_delta tg !! i), (t_types tg !! i), (t_Cidx tg !! i),
    (t_Cnum tg !! i); cbn; split; intros H; try discriminate; auto;
    destruct H as [H|[H|[H|H]]]; discriminate.
Qed.

Lemma row_set_delta_eq a v tg d k c C :
  row_of tg a = Some (d, k, c, C) ->
  row_of (set_delta a v tg) a = Some (v, k, c, C).
Proof.
  rewrite !row_of_Some. cbn [set_delta t_delta t_types t_Cidx t_Cnum].
  intros (Hd & Hk & Hc & HC). repeat split; try assumption.
  apply list_lookup_insert_eq. now apply lookup_lt_Some in Hd.
Qed.

Lemma row_set_delta_ne a v tg i :
  i <> a -> row_of (set_delta a v tg) i = row_of tg i.
Proof.
  intros H. unfold row_of. cbn [set_delta t_delta t_types t_Cidx t_Cnum].
  now rewrite list_lookup_insert_ne by congruence.
Qed.

Lemma row_set_type_eq a v tg d k c C :
  row_of tg a = Some (d, k, c, C) ->
  row_of (set_type a v tg) a = Some (d, v, c, C).
Proof.
  rewrite !row_of_Some. cbn [set_type t_delta t_types t_Cidx t_Cnum].
  intros (Hd & Hk & Hc & HC). repeat split; try assumption.
  apply list_lookup_insert_eq. now apply lookup_lt_Some in Hk.
Qed.

Lemma row_set_type_ne a v tg i :
  i <> a -> row_of (set_type a v tg) i = row_of tg i.
Proof.
  intros H. unfold row_of. cbn [set_type t_delta t_types t_Cidx t_Cnum].
  now rewrite list_lookup_insert_ne by congruence.
Qed.

Lemma row_set_slot_eq a v tg d k c C :
  row_of tg a = Some (d, k, c, C) ->
  row_of (set_slot a v tg) a = Some (d, k, v, C).
Proof.
  rewrite !row_of_Some. cbn [set_slot t_delta t_types t_Cidx t_Cnum].
  intros (Hd & Hk & Hc & HC). repeat split; try assumption.
  apply list_lookup_insert_eq. now apply lookup_lt_Some in Hc.
Qed.

Lemma row_set_slot_ne a v tg i :
  i <> a -> row_of (set_slot a v tg) i = row_of tg i.
Proof.
  intros H. unfold row_of. cbn [set_slot t_delta t_types t_Cidx t_Cnum].
  now rewrite list_lookup_insert_ne by congruence.
Qed.

Lemma row_set_span_eq a v tg d k c C :
  row_of tg a = Some (d, k, c, C) ->
  row_of (set_span a v tg) a = Some (d, k, c, v).
Proof.
  rewrite !row_of_Some. cbn [set_span t_delta t_types t_Cidx t_Cnum].
  intros (Hd & Hk & Hc & HC). repeat split; try assumption.
  apply list_lookup_insert_eq. now apply lookup_lt_Some in HC.
Qed.

Lemma row_set_span_ne a v tg i :
  i <> a -> row_of (set_span a v tg) i = row_of tg i.
Proof.
  intros H. unfold row_of. cbn [set_span t_delta t_types t_Cidx t_Cnum].
  now rewrite list_lookup_insert_ne by congruence.
Qed.

(** the rows of a record after a chain of single writes *)
Ltac rows_ne :=
  repeat first
    [ rewrite row_set_delta_ne by lia
    | rewrite row_set_type_ne by lia
    | rewrite row_set_slot_ne by lia
    | rewrite row_set_span_ne by lia ].

Lemma rows_at_cons tg o d ds :
  rows_at tg o (d :: ds) <->
  (exists k, index_of (d_label d) alphabet = Ok k /\
     row_of tg o = Some (d_delta d, k, d_slot d, d_span d)) /\
  rows_at tg (S o) ds.
Proof.
  split.
  - intros H. split.
    + specialize (H 0 d eq_refl). now rewrite Nat.add_0_r in H.
    + intros i x Hi. replace (S o + i) with (o + S i) by lia. now apply H.
  - intros [H0 H] [|i] x Hi.
    + rewrite Nat.add_0_r. simpl in Hi. injection Hi as <-. exact H0.
    + replace (o + S i) with (S o + i) by lia. now apply H.
Qed.

Lemma rows_at_nil tg o : rows_at tg o [].
Proof. intros i d H. discriminate. Qed.

Lemma rows_at_app tg o a b :
  rows_at tg o (a ++ b) <-> rows_at tg o a /\ rows_at tg (o + length a) b.
Proof.
  revert o. induction a as [|d a IH]; intros o.
  - cbn [app length]. rewrite Nat.add_0_r. split; [|tauto].
    intros H. split; [apply rows_at_nil|exact H].
  - cbn [app length]. rewrite !rows_at_cons, (IH (S o)).
    replace (S o + length a) with (o + S (length a)) by lia. tauto.
Qed.

Lemma rows_at_frame tg tg' o ds o' m :
  rows_at tg o ds -> same_rows tg tg' o' m ->
  o + length ds <= o' \/ o' + m <= o ->
  rows_at tg' o ds.
Proof.
  intros H Hs Hd i d Hi. destruct (H i d Hi) as (k & Hk & Hr).
  exists k. split; [exact Hk|]. rewrite Hs; [exact Hr|].
  apply lookup_lt_Some in Hi. lia.
Qed.

Lemma same_rows_trans tg tg1 tg2 o1 m1 o2 m2 o m :
  same_rows tg tg1 o1 m1 -> same_rows tg1 tg2 o2 m2 ->
  o <= o1 -> o1 + m1 <= o + m -> o <= o2 -> o2 + m2 <= o + m ->
  same_rows tg tg2 o m.
Proof.
  intros H1 H2 Ha Hb Hc Hd k Hk. rewrite H2 by lia. apply H1. lia.
Qed.

Lemma same_rows_refl tg o m : same_rows tg tg o m.
Proof. intros k _. reflexivity. Qed.

Section VisitTarget.
Variables (nodes : list string) (adj : list (list nat)) (pi : list nat).

Lemma visit_target_leaf o n tg :
  nodes !! o = Some (py_str n) -> visit_target nodes adj pi tg o = Ok tg.
Proof.
  intros H. unfold visit_target, lookup_err. rewrite H. simpl.
  now rewrite py_str_plus, py_str_succ.
Qed.

Lemma visit_target_root tg :
  nodes !! 0 = Some "root" -> visit_target nodes adj pi tg 0 = Ok tg.
Proof. intros H. unfold visit_target, lookup_err. now rewrite H. Qed.

Lemma visit_target_succ_fire o n ks tg :
  nodes !! o = Some "succ" -> guard_ok nodes pi o ->
  adj !! o = Some [S o] -> nodes !! S o = Some (py_str n) ->
  index_of (py_str ((n + 1) mod 10)) alphabet = Ok ks ->
  visit_target nodes adj pi tg o
  = Ok (set_delta o (-1)%Q (set_type (S o) ks tg)).
Proof.
  intros Hn (p & pl & Hp & Hpl & Hg) Ha Hc Hk.
  unfold visit_target, lookup_err. rewrite Hn. simpl. rewrite Hp. simpl.
  rewrite Hpl. simpl. rewrite Hg, Ha. simpl. rewrite Hc. simpl.
  rewrite py_str_succ, py_str_plus. simpl.
  rewrite py_int_str. simpl. rewrite Hk. reflexivity.
Qed.

Lemma visit_target_succ_skip o c cl tg :
  nodes !! o = Some "succ" -> guard_ok nodes pi o ->
  adj !! o = Some [c] -> nodes !! c = Some cl -> cl = "succ" \/ cl = "+" ->
  visit_target nodes adj pi tg o = Ok tg.
Proof.
  intros Hn (p & pl & Hp & Hpl & Hg) Ha Hc Hcl.
  unfold visit_target, lookup_err. rewrite Hn. simpl. rewrite Hp. simpl.
  rewrite Hpl. simpl. rewrite Hg, Ha. simpl. rewrite Hc. simpl.
  destruct Hcl as [-> | ->]; reflexivity.
Qed.

Lemma visit_target_succ_blocked o p tg :
  nodes !! o = Some "succ" -> pi !! o = Some p -> nodes !! p = Some "+" ->
  S p < o -> visit_target nodes adj pi tg o = Ok tg.
Proof.
  intros Hn Hp Hpl Hlt.
  unfold visit_target, lookup_err. rewrite Hn. simpl. rewrite Hp. simpl.
  rewrite Hpl. simpl.
  destruct (Z.eqb_spec (Z.of_nat p) (Z.of_nat o - 1)); [lia|reflexivity].
Qed.

Lemma visit_target_plus_zero o l r tg :
  nodes !! o = Some "+" -> adj !! o = Some [l; r] -> nodes !! r = Some "0" ->
  visit_target nodes adj pi tg o
  = Ok (set_delta r (-1)%Q (set_delta o (-1)%Q tg)).
Proof.
  intros Hn Ha Hr.
  unfold visit_target, lookup_err. rewrite Hn. simpl. rewrite Ha. simpl.
  rewrite Hr. reflexivity.
Qed.

Lemma visit_target_plus_succ o l r tg :
  nodes !! o = Some "+" -> adj !! o = Some [l; r] -> nodes !! r = Some "succ" ->
  visit_target nodes adj pi tg o
  = Ok (set_delta r (-1)%Q
          (set_delta o 1%Q (set_type o 11 (set_slot o 0 (set_span o 1 tg))))).
Proof.
  intros Hn Ha Hr.
  unfold visit_target, lookup_err. rewrite Hn. simpl. rewrite Ha. simpl.
  rewrite Hr. reflexivity.
Qed.

Lemma visit_target_plus_num o l r n kp tg :
  nodes !! o = Some "+" -> adj !! o = Some [l; r] ->
  nodes !! r = Some (py_str n) -> n <> 0%Z ->
  index_of (py_str (n - 1)) alphabet = Ok kp ->
  visit_target nodes adj pi tg o
  = Ok (set_delta o 1%Q
          (set_type r kp (set_type o 11 (set_slot o 1 (set_span o 1 tg))))).
Proof.
  intros Hn Ha Hr Hne Hk.
  unfold visit_target, lookup_err. rewrite Hn. simpl. rewrite Ha. simpl.
  rewrite Hr. simpl. rewrite py_str_zero, py_str_succ, py_str_plus.
  apply Z.eqb_neq in Hne. rewrite Hne. simpl.
  rewrite py_int_str. simpl. rewrite Hk. reflexivity.
Qed.

Lemma visit_target_plus_plus o l r tg :
  nodes !! o = Some "+" -> adj !! o = Some [l; r] -> nodes !! r = Some "+" ->
  visit_target nodes adj pi tg o = Ok tg.
Proof.
  intros Hn Ha Hr.
  unfold visit_target, lookup_err. rewrite Hn. simpl. rewrite Ha. simpl.
  rewrite Hr. reflexivity.
Qed.

End VisitTarget.

Lemma init_of_num n : init_of (Num n) = [keep (py_str n)].
Proof. reflexivity. Qed.

Lemma init_of_succ e : init_of (Succ e) = keep "succ" :: init_of e.
Proof. unfold init_of. cbn [tin labels]. now rewrite app_nil_r. Qed.

Lemma init_of_plus l r : init_of (Plus l r) = keep "+" :: init_of l ++ init_of r.
Proof.
  unfold init_of. cbn [tin labels].
  now rewrite app_nil_r, labels_tin, fmap_cons, fmap_app.
Qed.

Lemma init_of_length e : length (init_of e) = esize e.
Proof. unfold init_of. now rewrite length_fmap, labels_tin_length. Qed.

Lemma dec_of_succ e : (forall n, e <> Num n) -> dec_of (Succ e) = keep "succ" :: dec_of e.
Proof. destruct e; [intros H; now destruct (H n)|reflexivity..]. Qed.

Lemma dec_of_plus_num l n :
  n <> 0%Z ->
  dec_of (Plus l (Num n)) = [wrap 1] ++ dec_of l ++ [keep (py_str (n - 1))].
Proof. intros H%Z.eqb_neq. cbn [dec_of]. now rewrite H. Qed.

Lemma dec_of_plus_plus l a b :
  dec_of (Plus l (Plus a b)) = [keep "+"] ++ dec_of l ++ dec_of (Plus a b).
Proof. reflexivity. Qed.

Lemma dec_of_length e : length (dec_of e) = esize e.
Proof.
  induction e as [n|n|e Hne IH|l IHl|l n Hn IHl|l r IHl IHr|l a b IHl IHr]
    using expr_rule_ind.
  - reflexivity.
  - reflexivity.
  - rewrite dec_of_succ by exact Hne. cbn [length esize]. now rewrite IH.
  - change (dec_of (Plus l (Num 0))) with ([drop_node "+"] ++ dec_of l ++ [drop_node "0"]).
    rewrite !length_app, IHl. cbn [length esize]. lia.
  - rewrite dec_of_plus_num by exact Hn.
    rewrite !length_app, IHl. cbn [length esize]. lia.
  - change (dec_of (Plus l (Succ r)))
      with ([wrap 0] ++ dec_of l ++ [drop_node "succ"] ++ dec_of r).
    rewrite !length_app, IHl, IHr. cbn [length esize]. lia.
  - rewrite dec_of_plus_plus. rewrite !length_app, IHl, IHr. cbn [length esize]. lia.
Qed.

Lemma same_rows_set_delta tg a v o m :
  o <= a < o + m -> same_rows tg (set_delta a v tg) o m.
Proof. intros H k Hk. apply row_set_delta_ne. lia. Qed.

Lemma same_rows_set_type tg a v o m :
  o <= a < o + m -> same_rows tg (set_type a v tg) o m.
Proof. intros H k Hk. apply row_set_type_ne. lia. Qed.

Lemma same_rows_set_slot tg a v o m :
  o <= a < o + m -> same_rows tg (set_slot a v tg) o m.
Proof. intros H k Hk. apply row_set_slot_ne. lia. Qed.

Lemma same_rows_set_span tg a v o m :
  o <= a < o + m -> same_rows tg (set_span a v tg) o m.
Proof. intros H k Hk. apply row_set_span_ne. lia. Qed.

Section TargetsSubtree.
Variables (nodes : list string) (adj : list (list nat)) (pi : list nat).

Local Abbreviation sweep := (foldM (visit_target nodes adj pi)).

Lemma sweep_step i ixs tg tg1 :
  visit_target nodes adj pi tg i = Ok tg1 -> sweep (i :: ixs) tg = sweep ixs tg1.
Proof. intros H. simpl. now rewrite H. Qed.

Lemma sweep_one i tg : sweep [i] tg = visit_target nodes adj pi tg i.
Proof. simpl. destruct (visit_target nodes adj pi tg i); reflexivity. Qed.

(** the loop over the nodes of a placed expression turns the initial
    targets of these nodes into the decisions of the rules *)
Lemma targets_subtree e : forall o tg,
  digits e = true ->
  placed nodes adj pi o e ->
  (forall e', e = Succ e' -> guard_ok nodes pi o) ->
  rows_at tg o (init_of e) ->
  exists tg',
    sweep (seq o (esize e)) tg = Ok tg' /\
    rows_at tg' o (dec_of e) /\
    same_rows tg tg' o (esize e).
Proof.
  induction e as [n|n|e Hne IH|l IHl|l n Hn IHl|l r0 IHl IHr|l a b IHl IHr]
    using expr_rule_ind; intros o tg Hdig Hpl Hg Hinit.
  - (* a numeral *)
    destruct Hpl as (Hn & _). exists tg. split; [|split].
    + cbn [esize seq]. rewrite sweep_one. now apply (visit_target_leaf _ _ _ o n).
    + exact Hinit.
    + apply same_rows_refl.
  - (* succ(n) *)
    destruct Hpl as (Hn & Ha & Hp & Hc & _).
    cbn [digits] in Hdig. apply digits_num in Hdig.
    rewrite init_of_succ, init_of_num in Hinit.
    apply rows_at_cons in Hinit as ((k1 & Hk1 & Hr1) & Hinit).
    apply rows_at_cons in Hinit as ((k2 & Hk2 & Hr2) & _).
    cbn [keep d_delta d_label d_slot d_span] in *.
    assert (0 <= (n + 1) mod 10 <= 9)%Z as Hm
      by (pose proof (Z.mod_pos_bound (n + 1) 10); lia).
    pose proof (index_of_digit _ Hm) as Hks.
    set (ks := S (Z.to_nat ((n + 1) mod 10))) in *.
    exists (set_delta o (-1)%Q (set_type (S o) ks tg)). split; [|split].
    + cbn [esize seq].
      rewrite (sweep_step _ _ _ _
                 (visit_target_succ_fire _ _ _ o n ks tg Hn (Hg _ eq_refl) Ha Hc Hks)).
      rewrite sweep_one. now apply (visit_target_leaf _ _ _ (S o) n).
    + change (dec_of (Succ (Num n)))
        with [drop_node "succ"; keep (py_str ((n + 1) mod 10))].
      apply rows_at_cons. split.
      * exists k1. split; [exact Hk1|].
        eapply row_set_delta_eq. rewrite row_set_type_ne by lia. exact Hr1.
      * apply rows_at_cons. split; [|apply rows_at_nil].
        exists ks. split; [exact Hks|].
        rewrite row_set_delta_ne by lia. eapply row_set_type_eq. exact Hr2.
    + intros k Hk. cbn [esize] in Hk. now rows_ne.
  - (* succ over an operator *)
    destruct Hpl as (Hn & Ha & Hp & Hpe).
    rewrite init_of_succ in Hinit.
    apply rows_at_cons in Hinit as (Hr1 & Hinit).
    assert (digits e = true) as Hde by exact Hdig.
    destruct (IH (S o) tg Hde Hpe) as (tg' & Hs & He & Hf); [|exact Hinit|].
    { intros e' _. now apply guard_under_succ. }
    exists tg'. split; [|split].
    + cbn [esize seq]. rewrite (sweep_step _ _ _ tg); [exact Hs|].
      pose proof (placed_head _ _ _ _ _ Hpe) as Hh.
      destruct e as [m| |]; [now destruct (Hne m)| |];
        eapply visit_target_succ_skip; eauto.
    + rewrite dec_of_succ by exact Hne. apply rows_at_cons. split; [|exact He].
      destruct Hr1 as (k & Hk & Hr1). exists k. split; [exact Hk|].
      rewrite Hf by lia. exact Hr1.
    + intros k Hk. cbn [esize] in Hk. apply Hf. lia.
  - (* rule 1 *)
    destruct Hpl as (Hn & Ha & Hp1 & Hp2 & Hpl & Hr & _).
    change (py_str 0) with "0" in Hr.
    apply digits_plus in Hdig as [Hdl _].
    set (r := S (o + esize l)) in *.
    rewrite init_of_plus, init_of_num in Hinit.
    apply rows_at_cons in Hinit as ((k1 & Hk1 & Hr1) & Hinit).
    apply rows_at_app in Hinit as (Hil & Hir).
    rewrite init_of_length in Hir. fold r in Hir.
    apply rows_at_cons in Hir as ((k2 & Hk2 & Hr2) & _).
    cbn [keep d_delta d_label d_slot d_span] in *.
    set (tg1 := set_delta r (-1)%Q (set_delta o (-1)%Q tg)).
    assert (same_rows tg tg1 o (esize (Plus l (Num 0)))) as Hf1.
    { intros k Hk. cbn [esize] in Hk. unfold tg1, r. now rows_ne. }
    destruct (IHl (S o) tg1 Hdl Hpl) as (tg2 & Hs & He & Hf).
    { intros e' _. now apply guard_under_plus. }
    { intros i d Hi. destruct (Hil i d Hi) as (k & Hk & Hrow).
      exists k. split; [exact Hk|]. apply lookup_lt_Some in Hi.
      rewrite init_of_length in Hi. unfold tg1, r. now rows_ne. }
    exists tg2. split; [|split].
    + cbn [esize seq]. rewrite seq_app. cbn [seq].
      rewrite (sweep_step _ _ _ _
                 (visit_target_plus_zero _ _ _ o _ r tg Hn Ha Hr)).
      fold tg1. rewrite foldM_app, Hs. cbn [mbind res_bind].
      rewrite sweep_one. now apply (visit_target_leaf _ _ _ _ 0).
    + change (dec_of (Plus l (Num 0)))
        with ([drop_node "+"] ++ dec_of l ++ [drop_node "0"]).
      apply rows_at_cons. split.
      * exists k1. split; [exact Hk1|]. rewrite Hf by lia. unfold tg1.
        rewrite row_set_delta_ne by (unfold r; lia).
        eapply row_set_delta_eq. exact Hr1.
      * apply rows_at_app. split; [exact He|].
        rewrite dec_of_length. fold r. apply rows_at_cons.
        split; [|apply rows_at_nil].
        exists k2. split; [exact Hk2|]. rewrite Hf by (unfold r; lia).
        unfold tg1. eapply row_set_delta_eq.
        rewrite row_set_delta_ne by (unfold r; lia). exact Hr2.
    + apply (same_rows_trans tg tg1 tg2 o (esize (Plus l (Num 0))) (S o) (esize l));
        [exact Hf1|exact Hf|simpl; lia..].
  - (* rule 3 *)
    destruct Hpl as (Hnd & Ha & Hp1 & Hp2 & Hpl & Hr & _).
    apply digits_plus in Hdig as [Hdl Hdn]. apply digits_num in Hdn.
    set (r := S (o + esize l)) in *.
    rewrite init_of_plus, init_of_num in Hinit.
    apply rows_at_cons in Hinit as ((k1 & Hk1 & Hr1) & Hinit).
    apply rows_at_app in Hinit as (Hil & Hir).
    rewrite init_of_length in Hir. fold r in Hir.
    apply rows_at_cons in Hir as ((k2 & Hk2 & Hr2) & _).
    cbn [keep d_delta d_label d_slot d_span] in *.
    pose proof (index_of_digit (n - 1) ltac:(lia)) as Hkp.
    set (kp := S (Z.to_nat (n - 1))) in *.
    set (tg1 := set_delta o 1%Q
                  (set_type r kp (set_type o 11 (set_slot o 1 (set_span o 1 tg))))).
    assert (same_rows tg tg1 o (esize (Plus l (Num n)))) as Hf1.
    { intros k Hk. cbn [esize] in Hk. unfold tg1, r. now rows_ne. }
    destruct (IHl (S o) tg1 Hdl Hpl) as (tg2 & Hs & He & Hf).
    { intros e' _. now apply guard_under_plus. }
    { intros i d Hi. destruct (Hil i d Hi) as (k & Hk & Hrow).
      exists k. split; [exact Hk|]. apply lookup_lt_Some in Hi.
      rewrite init_of_length in Hi. unfold tg1, r. now rows_ne. }
    exists tg2. split; [|split].
    + cbn [esize seq]. rewrite seq_app. cbn [seq].
      rewrite (sweep_step _ _ _ _
                 (visit_target_plus_num _ _ _ o _ r n kp tg Hnd Ha Hr Hn Hkp)).
      fold tg1. rewrite foldM_app, Hs. cbn [mbind res_bind].
      rewrite sweep_one. now apply (visit_target_leaf _ _ _ _ n).
    + rewrite dec_of_plus_num by exact Hn.
      apply rows_at_cons. split.
      * exists 11. split; [reflexivity|]. rewrite Hf by lia. unfold tg1.
        eapply row_set_delta_eq. rewrite row_set_type_ne by (unfold r; lia).
        eapply row_set_type_eq. eapply row_set_slot_eq.
        eapply row_set_span_eq. exact Hr1.
      * apply rows_at_app. split; [exact He|].
        rewrite dec_of_length. fold r. apply rows_at_cons.
        split; [|apply rows_at_nil].
        exists kp. split; [exact Hkp|]. rewrite Hf by (unfold r; lia).
        unfold tg1. rewrite row_set_delta_ne by (unfold r; lia).
        eapply row_set_type_eq. unfold r. rows_ne. exact Hr2.
    + apply (same_rows_trans tg tg1 tg2 o (esize (Plus l (Num n))) (S o) (esize l));
        [exact Hf1|exact Hf|simpl; lia..].
  - (* rule 2 *)
    destruct Hpl as (Hnd & Ha & Hp1 & Hp2 & Hpl & Hr & Har & Hpr & Hplr).
    apply digits_plus in Hdig as [Hdl Hdr]. cbn [digits] in Hdr.
    set (r := S (o + esize l)) in *.
    rewrite init_of_plus, init_of_succ in Hinit.
    apply rows_at_cons in Hinit as ((k1 & Hk1 & Hr1) & Hinit).
    apply rows_at_app in Hinit as (Hil & Hir).
    rewrite init_of_length in Hir. fold r in Hir.
    apply rows_at_cons in Hir as ((k2 & Hk2 & Hr2) & Hir).
    cbn [keep d_delta d_label d_slot d_span] in *.
    set (tg1 := set_delta r (-1)%Q
                  (set_delta o 1%Q (set_type o 11 (set_slot o 0 (set_span o 1 tg))))).
    assert (same_rows tg tg1 o (S (S (esize l)))) as Hf1.
    { intros k Hk. unfold tg1, r. now rows_ne. }
    destruct (IHl (S o) tg1 Hdl Hpl) as (tg2 & Hs2 & He2 & Hf2).
    { intros e' _. now apply guard_under_plus. }
    { intros i d Hi. destruct (Hil i d Hi) as (k & Hk & Hrow).
      exists k. split; [exact Hk|]. apply lookup_lt_Some in Hi.
      rewrite init_of_length in Hi. unfold tg1, r. now rows_ne. }
    destruct (IHr (S r) tg2 Hdr Hplr) as (tg3 & Hs3 & He3 & Hf3).
    { intros e' _. now apply guard_under_succ. }
    { intros i d Hi. destruct (Hir i d Hi) as (k & Hk & Hrow).
      exists k. split; [exact Hk|]. apply lookup_lt_Some in Hi.
      rewrite Hf2 by (unfold r; lia). unfold tg1, r. now rows_ne. }
    exists tg3. split; [|split].
    + cbn [esize seq]. rewrite seq_app. cbn [seq].
      rewrite (sweep_step _ _ _ _
                 (visit_target_plus_succ _ _ _ o _ r tg Hnd Ha Hr)).
      fold tg1. rewrite foldM_app, Hs2. cbn [mbind res_bind].
      replace (S o + esize l) with r by (unfold r; lia).
      rewrite (sweep_step _ _ _ tg2); [exact Hs3|].
      apply (visit_target_succ_blocked _ _ _ r o); auto. unfold r.
      pose proof (esize_pos l). lia.
    + change (dec_of (Plus l (Succ r0)))
        with ([wrap 0] ++ dec_of l ++ [drop_node "succ"] ++ dec_of r0).
      apply rows_at_cons. split.
      * exists 11. split; [reflexivity|].
        rewrite Hf3, Hf2 by (unfold r; lia). unfold tg1.
        rewrite row_set_delta_ne by (unfold r; lia).
        eapply row_set_delta_eq. eapply row_set_type_eq. eapply row_set_slot_eq.
        eapply row_set_span_eq. exact Hr1.
      * apply rows_at_app. split.
        -- eapply (rows_at_frame tg2 _ _ _ (S r) (esize r0));
             [exact He2|exact Hf3|].
           rewrite dec_of_length. unfold r. lia.
        -- rewrite dec_of_length. fold r. apply rows_at_cons. split; [|exact He3].
           exists k2. split; [exact Hk2|].
           rewrite Hf3, Hf2 by (unfold r; lia). unfold tg1.
           eapply row_set_delta_eq. unfold r. rows_ne. exact Hr2.
    + apply (same_rows_trans tg tg2 tg3 o (S (S (esize l))) (S r) (esize r0));
        [|exact Hf3|unfold r; simpl; lia..].
      apply (same_rows_trans tg tg1 tg2 o (S (S (esize l))) (S o) (esize l));
        [exact Hf1|exact Hf2|lia..].
  - (* an operator to the right *)
    destruct Hpl as (Hnd & Ha & Hp1 & Hp2 & Hpl & Hplr).
    apply digits_plus in Hdig as [Hdl Hdr].
    set (r := S (o + esize l)) in *.
    pose proof (placed_head _ _ _ _ _ Hplr) as Hr. simpl in Hr.
    rewrite init_of_plus in Hinit.
    apply rows_at_cons in Hinit as (Hr1 & Hinit).
    apply rows_at_app in Hinit as (Hil & Hir).
    rewrite init_of_length in Hir. fold r in Hir.
    destruct (IHl (S o) tg Hdl Hpl) as (tg2 & Hs2 & He2 & Hf2);
      [|exact Hil|].
    { intros e' _. now apply guard_under_plus. }
    destruct (IHr r tg2 Hdr Hplr) as (tg3 & Hs3 & He3 & Hf3).
    { intros e' He. discriminate. }
    { eapply (rows_at_frame tg _ _ _ (S o) (esize l)); [exact Hir|exact Hf2|].
      unfold r. lia. }
    exists tg3. split; [|split].
    + rewrite seq_esize_plus.
      rewrite (sweep_step _ _ _ _
                 (visit_target_plus_plus _ _ _ o _ r tg Hnd Ha Hr)).
      rewrite foldM_app, Hs2. cbn [mbind res_bind].
      replace (S o + esize l) with r by (unfold r; lia).
      exact Hs3.
    + rewrite dec_of_plus_plus.
      apply rows_at_cons. split.
      * destruct Hr1 as (k & Hk & Hr1). exists k. split; [exact Hk|].
        rewrite Hf3, Hf2 by (unfold r; lia). exact Hr1.
      * apply rows_at_app. split.
        -- eapply (rows_at_frame tg2 _ _ _ r (esize (Plus a b)));
             [exact He2|exact Hf3|].
           rewrite dec_of_length. unfold r. lia.
        -- rewrite dec_of_length. exact He3.
    + apply (same_rows_trans tg tg2 tg3 o (S (esize l)) r (esize (Plus a b)));
        [|exact Hf3|unfold r; cbn [esize]; lia..].
      intros k Hk. apply Hf2. lia.
Qed.
End TargetsSubtree.

Lemma mapM_Forall2 {A B} (f : A -> res B) l : forall bs,
  mapM f l = Ok bs -> Forall2 (fun a b => f a = Ok b) l bs.
Proof.
  induction l as [|a l IH]; intros bs H; cbn [mapM] in H.
  - injection H as <-. constructor.
  - apply bind_Ok in H as (b & Hb & H).
    apply bind_Ok in H as (bs' & Hbs & H). injection H as <-.
    constructor; auto.
Qed.

Lemma mapM_total {A B} (f : A -> res B) l :
  Forall (fun a => exists b, f a = Ok b) l -> exists bs, mapM f l = Ok bs.
Proof.
  induction 1 as [|a l [b Hb] _ [bs Hbs]]; cbn [mapM]; [eauto|].
  rewrite Hb. cbn [mbind res_bind]. rewrite Hbs. cbn [mbind res_bind]. eauto.
Qed.

Lemma labels_indexed e :
  digits e = true ->
  Forall (fun lab => exists k, index_of lab alphabet = Ok k) (labels (tin e FNil)).
Proof.
  induction e as [n|e IH|l IHl r IHr]; intros H; cbn [tin labels].
  - apply digits_num in H. repeat constructor.
    eexists. now apply index_of_digit.
  - rewrite app_nil_r. constructor; [now exists 11|]. now apply IH.
  - apply digits_plus in H as [Hl Hr].
    rewrite app_nil_r, labels_tin. constructor; [now exists 0|].
    apply Forall_app. auto.
Qed.

(** On an encoded expression over the digits the targets are built without
    error: behind the root, which is kept, they are the decisions of the
    rules. *)
Lemma targets_encoded e :
  digits e = true ->
  exists tg,
    loss_targets (tree_of_expr e) = Ok tg /\
    rows_at tg 0 (keep "root" :: dec_of e).
Proof.
  intros Hdig. unfold loss_targets, tree_of_expr, flat.
  set (F := FCons "root" (tin e FNil) FNil).
  cbn [fst snd]. rewrite labels_length.
  assert (fsize F = S (esize e)) as Hsz.
  { unfold F. simpl. rewrite fsize_tin. simpl. lia. }
  destruct (parents_forest (fsize F) (adjs 0 F) F 0 (replicate (fsize F) 0))
    as (pi & Hpi & Hlen & Hframe & Hpf).
  { intros i r Hi. exact Hi. }
  { lia. }
  { apply length_replicate. }
  unfold parents. rewrite Hpi. cbn [mbind res_bind].
  assert (at_forest (labels F) (adjs 0 F) 0 F) as Hat.
  { split; intros i x Hi; exact Hi. }
  unfold F in Hat, Hpf.
  apply at_forest_cons in Hat as (Hn0 & Ha0 & Hat & _).
  destruct Hpf as (Hroot & Hpf & _).
  destruct (placed_tin _ _ _ e 1 FNil Hat Hpf) as (Hpl & _).
  fold F in Hn0, Ha0, Hpl.
  assert (labels F = "root" :: labels (tin e FNil)) as HF
    by (unfold F; cbn [labels]; now rewrite app_nil_r).
  destruct (mapM_total (fun lab => index_of lab alphabet) (labels F)) as (ty & Hty).
  { rewrite HF. constructor; [now exists 12|]. now apply labels_indexed. }
  rewrite Hty. cbn [mbind res_bind].
  apply mapM_Forall2 in Hty.
  set (tg0 := {| t_delta := replicate (fsize F) 0%Q; t_types := ty;
                 t_Cidx := replicate (fsize F) 0; t_Cnum := replicate (fsize F) 0 |}).
  assert (rows_at tg0 0 (keep <$> labels F)) as Hinit.
  { intros i d Hi. apply list_lookup_fmap_Some in Hi as (lab & -> & Hlab).
    destruct (Forall2_lookup_l _ _ _ _ _ Hty Hlab) as (k & Hk & Hidx).
    exists k. split; [exact Hidx|].
    assert (i < fsize F) as Hlt
      by (apply lookup_lt_Some in Hlab; now rewrite labels_length in Hlab).
    apply row_of_Some. cbn [tg0 t_delta t_types t_Cidx t_Cnum keep
                            d_delta d_slot d_span Nat.add].
    repeat split; try exact Hk; apply lookup_replicate; auto. }
  rewrite HF, fmap_cons in Hinit.
  apply rows_at_cons in Hinit as (Hr0 & Hinit).
  destruct (targets_subtree (labels F) (adjs 0 F) pi e 1 tg0 Hdig Hpl)
    as (tg' & Hs & He & Hf); [|exact Hinit|].
  { intros e' _. exists 0, "root". repeat split; auto.
    apply Hroot. rewrite roots_tin. left. }
  exists tg'. split.
  - rewrite Hsz. cbn [seq foldM].
    rewrite (visit_target_root _ _ _ _ Hn0). cbn [mbind res_bind]. exact Hs.
  - apply rows_at_cons. split; [|exact He].
    destruct Hr0 as (k & Hk & Hr0). exists k. split; [exact Hk|].
    rewrite Hf by lia. exact Hr0.
Qed.

(** ** The three phases of a taught script on the forest of an expression *)

Local Open Scope nat_scope.

Lemma reps_succ e o : (forall n, e <> Num n) -> reps (Succ e) o = reps e (S o).
Proof. destruct e; [intros H; now destruct (H n)|reflexivity..]. Qed.

Lemma inss_succ e q : (forall n, e <> Num n) -> inss (Succ e) q = inss e (S q).
Proof. destruct e; [intros H; now destruct (H n)|reflexivity..]. Qed.

Lemma dels_succ e q : (forall n, e <> Num n) -> dels (Succ e) q = dels e (S q).
Proof. destruct e; [intros H; now destruct (H n)|reflexivity..]. Qed.

Lemma nins_succ e : (forall n, e <> Num n) -> nins (Succ e) = nins e.
Proof. destruct e; [intros H; now destruct (H n)|reflexivity..]. Qed.

Lemma rel_succ e : (forall n, e <> Num n) -> rel (Succ e) = Succ (rel e).
Proof. destruct e; [intros H; now destruct (H n)|reflexivity..]. Qed.

Lemma mid_succ e : (forall n, e <> Num n) -> mid (Succ e) = Succ (mid e).
Proof. destruct e; [intros H; now destruct (H n)|reflexivity..]. Qed.

Lemma fsh_of_succ e d : (forall n, e <> Num n) -> fsh_of (Succ e) d = d :: fsh_of e d.
Proof. destruct e; [intros H; now destruct (H n)|reflexivity..]. Qed.

Lemma reps_plus_num l n o :
  n <> 0%Z ->
  reps (Plus l (Num n)) o
  = reps l (S o) ++ [Replacement (Z.of_nat (S (o + esize l))) (py_str (n - 1))].
Proof. intros H%Z.eqb_neq. cbn [reps]. now rewrite H. Qed.

Lemma inss_plus_num l n q :
  n <> 0%Z ->
  inss (Plus l (Num n)) q = Insertion (Z.of_nat q) 1 "succ" 1 :: inss l (S q).
Proof. intros H%Z.eqb_neq. cbn [inss]. now rewrite H. Qed.

Lemma dels_plus_num l n q : n <> 0%Z -> dels (Plus l (Num n)) q = dels l (S q).
Proof. intros H%Z.eqb_neq. cbn [dels]. now rewrite H. Qed.

Lemma nins_plus_num l n : n <> 0%Z -> nins (Plus l (Num n)) = S (nins l).
Proof. intros H%Z.eqb_neq. cbn [nins]. now rewrite H. Qed.

Lemma rel_plus_num l n : n <> 0%Z -> rel (Plus l (Num n)) = Plus (rel l) (Num (n - 1)).
Proof. intros H%Z.eqb_neq. cbn [rel]. now rewrite H. Qed.

Lemma mid_plus_num l n :
  n <> 0%Z -> mid (Plus l (Num n)) = Plus (mid l) (Succ (Num (n - 1))).
Proof. intros H%Z.eqb_neq. cbn [mid]. now rewrite H. Qed.

Lemma fsh_of_plus_num l n d :
  n <> 0%Z ->
  fsh_of (Plus l (Num n)) d = d :: fsh_of l d ++ [(d + Z.of_nat (nins l) + 1)%Z].
Proof. intros H%Z.eqb_neq. cbn [fsh_of]. now rewrite H. Qed.

Lemma rel_size e : esize (rel e) = esize e.
Proof.
  induction e as [n|n|e Hne IH|l IHl|l n Hn IHl|l r IHl IHr|l a b IHl IHr]
    using expr_rule_ind.
  - reflexivity.
  - reflexivity.
  - rewrite rel_succ by exact Hne. cbn [esize]. now rewrite IH.
  - cbn [rel Z.eqb esize]. now rewrite IHl.
  - rewrite rel_plus_num by exact Hn. cbn [esize]. now rewrite IHl.
  - change (rel (Plus l (Succ r))) with (Plus (rel l) (Succ (rel r))).
    cbn [esize]. now rewrite IHl, IHr.
  - change (rel (Plus l (Plus a b))) with (Plus (rel l) (rel (Plus a b))).
    cbn [esize] in *. now rewrite IHl, IHr.
Qed.

Lemma mid_size e : esize (mid e) = esize e + nins e.
Proof.
  induction e as [n|n|e Hne IH|l IHl|l n Hn IHl|l r IHl IHr|l a b IHl IHr]
    using expr_rule_ind.
  - reflexivity.
  - reflexivity.
  - rewrite mid_succ, nins_succ by exact Hne. cbn [esize]. rewrite IH. lia.
  - cbn [mid nins Z.eqb esize]. rewrite IHl. lia.
  - rewrite mid_plus_num, nins_plus_num by exact Hn. cbn [esize]. rewrite IHl. lia.
  - change (mid (Plus l (Succ r))) with (Plus (Succ (mid l)) (Succ (mid r))).
    change (nins (Plus l (Succ r))) with (S (nins l + nins r)).
    cbn [esize]. rewrite IHl, IHr. lia.
  - change (mid (Plus l (Plus a b))) with (Plus (mid l) (mid (Plus a b))).
    change (nins (Plus l (Plus a b))) with (nins l + nins (Plus a b)).
    cbn [esize] in *. rewrite IHl, IHr. lia.
Qed.

Lemma fsh_of_length e : forall d, length (fsh_of e d) = esize e.
Proof.
  induction e as [n|n|e Hne IH|l IHl|l n Hn IHl|l r IHl IHr|l a b IHl IHr]
    using expr_rule_ind; intros d.
  - reflexivity.
  - reflexivity.
  - rewrite fsh_of_succ by exact Hne. cbn [length esize]. now rewrite IH.
  - cbn [fsh_of Z.eqb length esize]. rewrite length_app, IHl. simpl. lia.
  - rewrite fsh_of_plus_num by exact Hn. cbn [length esize].
    rewrite length_app, IHl. simpl. lia.
  - change (fsh_of (Plus l (Succ r)) d)
      with (d :: fsh_of l (d + 1) ++ [(d + 1 + Z.of_nat (nins l))%Z]
              ++ fsh_of r (d + 1 + Z.of_nat (nins l))).
    cbn [length esize]. rewrite !length_app, IHl, IHr. simpl. lia.
  - change (fsh_of (Plus l (Plus a b)) d)
      with (d :: fsh_of l d ++ fsh_of (Plus a b) (d + Z.of_nat (nins l))).
    cbn [length esize] in *. rewrite length_app, IHl, IHr. simpl. lia.
Qed.

Lemma reps_shift e : forall o k, reps e (o + k) = shift_edit k <$> reps e o.
Proof.
  induction e as [n|n|e Hne IH|l IHl|l n Hn IHl|l r IHl IHr|l a b IHl IHr]
    using expr_rule_ind; intros o k.
  - reflexivity.
  - simpl. do 2 f_equal. lia.
  - rewrite !reps_succ by exact Hne. apply (IH (S o) k).
  - cbn [reps Z.eqb]. apply (IHl (S o) k).
  - rewrite !reps_plus_num by exact Hn. rewrite fmap_app.
    change (S (o + k)) with (S o + k). rewrite (IHl (S o) k). simpl.
    do 3 f_equal. lia.
  - change (reps (Plus l (Succ r)) (o + k))
      with (reps l (S (o + k)) ++ reps r (S (S (o + k + esize l)))).
    change (reps (Plus l (Succ r)) o)
      with (reps l (S o) ++ reps r (S (S (o + esize l)))).
    rewrite fmap_app. change (S (o + k)) with (S o + k). rewrite (IHl (S o) k).
    replace (S (S (o + k + esize l))) with (S (S (o + esize l)) + k) by lia.
    now rewrite (IHr (S (S (o + esize l))) k).
  - change (reps (Plus l (Plus a b)) (o + k))
      with (reps l (S (o + k)) ++ reps (Plus a b) (S (o + k + esize l))).
    change (reps (Plus l (Plus a b)) o)
      with (reps l (S o) ++ reps (Plus a b) (S (o + esize l))).
    rewrite fmap_app. change (S (o + k)) with (S o + k). rewrite (IHl (S o) k).
    replace (S (o + k + esize l)) with (S (o + esize l) + k) by lia.
    now rewrite (IHr (S (o + esize l)) k).
Qed.

Lemma inss_shift e : forall q k, inss e (q + k) = shift_edit k <$> inss e q.
Proof.
  induction e as [n|n|e Hne IH|l IHl|l n Hn IHl|l r IHl IHr|l a b IHl IHr]
    using expr_rule_ind; intros q k.
  - reflexivity.
  - reflexivity.
  - rewrite !inss_succ by exact Hne. apply (IH (S q) k).
  - cbn [inss Z.eqb]. apply (IHl (S q) k).
  - rewrite !inss_plus_num by exact Hn. rewrite fmap_cons.
    change (S (q + k)) with (S q + k). rewrite (IHl (S q) k). simpl.
    do 2 f_equal. lia.
  - change (inss (Plus l (Succ r)) (q + k))
      with (Insertion (Z.of_nat (q + k)) 0 "succ" 1
            :: inss l (q + k + 2) ++ inss r (q + k + 3 + esize l + nins l)).
    change (inss (Plus l (Succ r)) q)
      with (Insertion (Z.of_nat q) 0 "succ" 1
            :: inss l (q + 2) ++ inss r (q + 3 + esize l + nins l)).
    rewrite fmap_cons, fmap_app.
    replace (q + k + 2) with (q + 2 + k) by lia. rewrite (IHl (q + 2) k).
    replace (q + k + 3 + esize l + nins l)
      with (q + 3 + esize l + nins l + k) by lia.
    rewrite (IHr (q + 3 + esize l + nins l) k). simpl.
    do 2 f_equal. lia.
  - change (inss (Plus l (Plus a b)) (q + k))
      with (inss l (S (q + k)) ++ inss (Plus a b) (S (q + k) + esize l + nins l)).
    change (inss (Plus l (Plus a b)) q)
      with (inss l (S q) ++ inss (Plus a b) (S q + esize l + nins l)).
    rewrite fmap_app. change (S (q + k)) with (S q + k). rewrite (IHl (S q) k).
    replace (S q + k + esize l + nins l) with (S q + esize l + nins l + k) by lia.
    now rewrite (IHr (S q + esize l + nins l) k).
Qed.

Lemma dels_shift e : forall q k, dels e (q + k) = shift_edit k <$> dels e q.
Proof.
  induction e as [n|n|e Hne IH|l IHl|l n Hn IHl|l r IHl IHr|l a b IHl IHr]
    using expr_rule_ind; intros q k.
  - reflexivity.
  - simpl. do 2 f_equal. lia.
  - rewrite !dels_succ by exact Hne. apply (IH (S q) k).
  - cbn [dels Z.eqb]. rewrite !fmap_app.
    change (S (q + k)) with (S q + k). rewrite (IHl (S q) k). simpl.
    do 2 f_equal; [lia|]. do 2 f_equal. lia.
  - rewrite !dels_plus_num by exact Hn. apply (IHl (S q) k).
  - change (dels (Plus l (Succ r)) (q + k))
      with (dels r (q + k + 3 + esize l + nins l)
            ++ [Deletion (Z.of_nat (q + k + 2 + esize l + nins l))]
            ++ dels l (q + k + 2)).
    change (dels (Plus l (Succ r)) q)
      with (dels r (q + 3 + esize l + nins l)
            ++ [Deletion (Z.of_nat (q + 2 + esize l + nins l))]
            ++ dels l (q + 2)).
    rewrite !fmap_app.
    replace (q + k + 2) with (q + 2 + k) by lia. rewrite (IHl (q + 2) k).
    replace (q + k + 3 + esize l + nins l)
      with (q + 3 + esize l + nins l + k) by lia.
    rewrite (IHr (q + 3 + esize l + nins l) k). simpl.
    do 3 f_equal. lia.
  - change (dels (Plus l (Plus a b)) (q + k))
      with (dels (Plus a b) (S (q + k) + esize l + nins l) ++ dels l (S (q + k))).
    change (dels (Plus l (Plus a b)) q)
      with (dels (Plus a b) (S q + esize l + nins l) ++ dels l (S q)).
    rewrite fmap_app. change (S (q + k)) with (S q + k). rewrite (IHl (S q) k).
    replace (S q + k + esize l + nins l) with (S q + esize l + nins l + k) by lia.
    now rewrite (IHr (S q + esize l + nins l) k).
Qed.

(** the replacements relabel the forest *)
Lemma fapply_reps e : forall sib,
  fapply (reps e 0) (tin e sib) = Some (tin (rel e) sib).
Proof.
  induction e as [n|n|e Hne IH|l IHl|l n Hn IHl|l r IHl IHr|l a b IHl IHr]
    using expr_rule_ind; intros sib.
  - reflexivity.
  - reflexivity.
  - rewrite reps_succ, rel_succ by exact Hne.
    rewrite (reps_shift e 0 1 : reps e 1 = _). apply fapply_under, IH.
  - cbn [reps rel Z.eqb]. rewrite (reps_shift l 0 1 : reps l 1 = _).
    cbn [tin]. apply fapply_under, IHl.
  - rewrite reps_plus_num, rel_plus_num by exact Hn.
    rewrite (reps_shift l 0 1 : reps l 1 = _).
    erewrite fapply_app; [|cbn [tin]; apply fapply_under, IHl].
    cbn [fapply]. rewrite fop_replacement.
    rewrite frep_under by (rewrite fsize_tin, rel_size; simpl; lia).
    replace (0 + esize l) with (esize (rel l) + 0) by (rewrite rel_size; lia).
    rewrite frep_tin_after. reflexivity.
  - change (reps (Plus l (Succ r)) 0)
      with (reps l 1 ++ reps r (S (S (0 + esize l)))).
    change (rel (Plus l (Succ r))) with (Plus (rel l) (Succ (rel r))).
    rewrite (reps_shift l 0 1 : reps l 1 = _).
    rewrite (reps_shift r 0 (S (S (esize l))) : reps r (S (S (0 + esize l))) = _).
    erewrite fapply_app; [|cbn [tin]; apply fapply_under, IHl].
    cbn [tin].
    replace (S (S (esize l))) with (1 + esize (rel l) + 1) by (rewrite rel_size; lia).
    rewrite <- (shift_script_add 1 (1 + esize (rel l))).
    apply fapply_under.
    rewrite <- (shift_script_add (esize (rel l)) 1).
    apply fapply_tin_after. apply fapply_under, IHr.
  - change (reps (Plus l (Plus a b)) 0)
      with (reps l 1 ++ reps (Plus a b) (S (0 + esize l))).
    change (rel (Plus l (Plus a b))) with (Plus (rel l) (rel (Plus a b))).
    rewrite (reps_shift l 0 1 : reps l 1 = _).
    rewrite (reps_shift (Plus a b) 0 (S (esize l))
             : reps (Plus a b) (S (0 + esize l)) = _).
    erewrite fapply_app; [|cbn [tin]; apply fapply_under, IHl].
    cbn [tin].
    replace (S (esize l)) with (esize (rel l) + 1) by (rewrite rel_size; lia).
    rewrite <- (shift_script_add 1 (esize (rel l))).
    apply fapply_under, fapply_tin_after, IHr.
Qed.

(** the insertions put a "succ" above the operands the rules name *)
Lemma fapply_inss e : forall sib,
  fapply (inss e 0) (tin (rel e) sib) = Some (tin (mid e) sib).
Proof.
  induction e as [n|n|e Hne IH|l IHl|l n Hn IHl|l r IHl IHr|l a b IHl IHr]
    using expr_rule_ind; intros sib.
  - reflexivity.
  - reflexivity.
  - rewrite inss_succ, rel_succ, mid_succ by exact Hne.
    rewrite (inss_shift e 0 1 : inss e 1 = _). apply fapply_under, IH.
  - cbn [inss rel mid Z.eqb]. rewrite (inss_shift l 0 1 : inss l 1 = _).
    cbn [tin]. apply fapply_under, IHl.
  - rewrite inss_plus_num, rel_plus_num, mid_plus_num by exact Hn.
    rewrite (inss_shift l 0 1 : inss l 1 = _).
    cbn [fapply]. rewrite fop_insertion.
    destruct (tin_shape (rel l)) as (lab & kids & Hl & Hs).
    cbn [tin]. rewrite Hl. cbn [fins fwrap fsplit mbind option_bind fst snd].
    rewrite <- Hl. apply fapply_under.
    apply (IHl (tin (Succ (Num (n - 1))) FNil)).
  - change (inss (Plus l (Succ r)) 0)
      with (Insertion (Z.of_nat 0) 0 "succ" 1
            :: inss l (0 + 2) ++ inss r (0 + 3 + esize l + nins l)).
    change (rel (Plus l (Succ r))) with (Plus (rel l) (Succ (rel r))).
    change (mid (Plus l (Succ r))) with (Plus (Succ (mid l)) (Succ (mid r))).
    rewrite (inss_shift l 0 2 : inss l (0 + 2) = _).
    rewrite (inss_shift r 0 (3 + esize l + nins l)
             : inss r (0 + 3 + esize l + nins l) = _).
    cbn [fapply]. rewrite fop_insertion.
    destruct (tin_shape (rel l)) as (lab & kids & Hl & Hs).
    cbn [tin]. rewrite Hl. cbn [fins fwrap fsplit mbind option_bind fst snd].
    rewrite <- Hl.
    erewrite fapply_app.
    2:{ rewrite <- (shift_script_add 1 1).
        apply fapply_under, fapply_under, IHl. }
    replace (3 + esize l + nins l) with (1 + S (fsize (tin (mid l) FNil)) + 1)
      by (rewrite fsize_tin, mid_size; simpl; lia).
    rewrite <- (shift_script_add 1 (1 + S (fsize (tin (mid l) FNil)))).
    apply fapply_under.
    rewrite <- (shift_script_add (S (fsize (tin (mid l) FNil))) 1).
    apply fapply_after. apply fapply_under, IHr.
  - change (inss (Plus l (Plus a b)) 0)
      with (inss l 1 ++ inss (Plus a b) (0 + (1 + esize l + nins l))).
    change (rel (Plus l (Plus a b))) with (Plus (rel l) (rel (Plus a b))).
    change (mid (Plus l (Plus a b))) with (Plus (mid l) (mid (Plus a b))).
    rewrite (inss_shift l 0 1 : inss l 1 = _).
    rewrite (inss_shift (Plus a b) 0 (1 + esize l + nins l)).
    erewrite fapply_app; [|cbn [tin]; apply fapply_under, IHl].
    cbn [tin].
    replace (1 + esize l + nins l) with (esize (mid l) + 1)
      by (rewrite mid_size; lia).
    rewrite <- (shift_script_add 1 (esize (mid l))).
    apply fapply_under, fapply_tin_after, IHr.
Qed.

(** the deletions, from the right, leave the forest of the successor *)
Lemma fapply_dels e : forall sib,
  fapply (dels e 0) (tin (mid e) sib) = Some (tin (step e) sib).
Proof.
  induction e as [n|n|e Hne IH|l IHl|l n Hn IHl|l r IHl IHr|l a b IHl IHr]
    using expr_rule_ind; intros sib.
  - reflexivity.
  - reflexivity.
  - rewrite dels_succ, mid_succ, step_succ by exact Hne.
    rewrite (dels_shift e 0 1 : dels e 1 = _). apply fapply_under, IH.
  - change (dels (Plus l (Num 0)) 0)
      with ([Deletion (Z.of_nat (0 + 1 + esize l + nins l))]
            ++ dels l 1 ++ [Deletion (Z.of_nat 0)]).
    change (mid (Plus l (Num 0))) with (Plus (mid l) (Num 0)).
    change (step (Plus l (Num 0))) with (step l).
    rewrite (dels_shift l 0 1 : dels l 1 = _).
    cbn [app fapply tin]. rewrite fop_deletion.
    replace (0 + 1 + esize l + nins l) with (S (esize (mid l) + 0))
      by (rewrite mid_size; lia).
    rewrite fdel_under by (rewrite fsize_tin; simpl; lia).
    rewrite fdel_tin_after. cbn [fdel fapp mbind option_bind].
    erewrite fapply_app; [|apply fapply_under, IHl].
    cbn [fapply]. rewrite fop_deletion. cbn [fdel mbind option_bind].
    now rewrite fapp_tin.
  - rewrite dels_plus_num, mid_plus_num, step_plus_num by exact Hn.
    rewrite (dels_shift l 0 1 : dels l 1 = _).
    cbn [tin]. apply fapply_under. apply (IHl (tin (Succ (Num (n - 1))) FNil)).
  - change (dels (Plus l (Succ r)) 0)
      with (dels r (0 + (3 + esize l + nins l))
            ++ [Deletion (Z.of_nat (0 + 2 + esize l + nins l))]
            ++ dels l (0 + 2)).
    change (mid (Plus l (Succ r))) with (Plus (Succ (mid l)) (Succ (mid r))).
    change (step (Plus l (Succ r))) with (Plus (Succ (step l)) (step r)).
    rewrite (dels_shift l 0 2), (dels_shift r 0 (3 + esize l + nins l)).
    cbn [tin].
    erewrite fapply_app.
    2:{ replace (3 + esize l + nins l) with (1 + S (fsize (tin (mid l) FNil)) + 1)
          by (rewrite fsize_tin, mid_size; simpl; lia).
        rewrite <- (shift_script_add 1 (1 + S (fsize (tin (mid l) FNil)))).
        apply fapply_under.
        rewrite <- (shift_script_add (S (fsize (tin (mid l) FNil))) 1).
        apply fapply_after. apply fapply_under, IHr. }
    cbn [app fapply]. rewrite fop_deletion.
    replace (0 + 2 + esize l + nins l)
      with (S (S (fsize (tin (mid l) FNil) + 0)))
      by (rewrite fsize_tin, mid_size; simpl; lia).
    rewrite fdel_under by (cbn [fsize]; lia).
    rewrite fdel_after. cbn [fdel mbind option_bind]. rewrite fapp_nil.
    rewrite <- (shift_script_add 1 1).
    apply fapply_under, fapply_under, IHl.
  - change (dels (Plus l (Plus a b)) 0)
      with (dels (Plus a b) (0 + (1 + esize l + nins l)) ++ dels l 1).
    change (mid (Plus l (Plus a b))) with (Plus (mid l) (mid (Plus a b))).
    change (step (Plus l (Plus a b))) with (Plus (step l) (step (Plus a b))).
    rewrite (dels_shift l 0 1 : dels l 1 = _).
    rewrite (dels_shift (Plus a b) 0 (1 + esize l + nins l)).
    cbn [tin].
    erewrite fapply_app.
    2:{ replace (1 + esize l + nins l) with (esize (mid l) + 1)
          by (rewrite mid_size; lia).
        rewrite <- (shift_script_add 1 (esize (mid l))).
        apply fapply_under, fapply_tin_after, IHr. }
    apply fapply_under, IHl.
Qed.

(** The three phases together take the tree of an expression to the tree
    of its successor. *)
Lemma apply_phases_encoded e :
  apply_script (reps e 1 ++ inss e 1 ++ dels e 1) (tree_of_expr e)
  = Ok (tree_of_expr (step e)).
Proof.
  unfold tree_of_expr. apply apply_script_flat.
  rewrite (reps_shift e 0 1 : reps e 1 = _).
  rewrite (inss_shift e 0 1 : inss e 1 = _).
  rewrite (dels_shift e 0 1 : dels e 1 = _).
  erewrite fapply_app; [|apply fapply_under, fapply_reps].
  erewrite fapply_app; [|apply fapply_under, fapply_inss].
  apply fapply_under, fapply_dels.
Qed.

(** ** From the targets to the decisions of [predict_step] *)

Local Open Scope nat_scope.

Lemma below_half x :
  negb (Qle_bool (- half) x) = true ->
  gt_half (Qabs x) = true /\ Qle_bool x half = true /\ Qle_bool (- half) x = false.
Proof.
  intros H. apply negb_true_iff in H.
  assert (~ (- half <= x)%Q) as Hx by (rewrite <- Qle_bool_iff; congruence).
  apply Qnot_le_lt in Hx.
  split; [|split; [|exact H]].
  - unfold gt_half. apply negb_true_iff.
    destruct (Qle_bool (Qabs x) half) eqn:E; [|reflexivity].
    apply Qle_bool_iff, Qabs_Qle_condition in E as [E _].
    exfalso. apply (Qlt_irrefl x). eapply Qlt_le_trans; eauto.
  - apply Qle_bool_iff. apply Qlt_le_weak.
    eapply Qlt_trans; [exact Hx|]. exact half_pos.
Qed.

Lemma above_half x :
  gt_half x = true ->
  gt_half (Qabs x) = true /\ Qle_bool x half = false /\ Qle_bool (- half) x = true.
Proof.
  unfold gt_half. intros H. apply negb_true_iff in H.
  assert (~ (x <= half)%Q) as Hx by (rewrite <- Qle_bool_iff; congruence).
  apply Qnot_le_lt in Hx.
  split; [|split; [exact H|]].
  - apply negb_true_iff.
    destruct (Qle_bool (Qabs x) half) eqn:E; [|reflexivity].
    apply Qle_bool_iff, Qabs_Qle_condition in E as [_ E].
    exfalso. apply (Qlt_irrefl x). eapply Qle_lt_trans; eauto.
  - apply Qle_bool_iff. apply Qlt_le_weak.
    eapply Qlt_trans; [exact half_pos|exact Hx].
Qed.

Lemma within_half x :
  Qle_bool (Qabs x) half = true ->
  gt_half (Qabs x) = false /\ Qle_bool x half = true /\ Qle_bool (- half) x = true.
Proof.
  intros H. split; [unfold gt_half; now rewrite H|].
  apply Qle_bool_iff, Qabs_Qle_condition in H as [H1 H2].
  split; now apply Qle_bool_iff.
Qed.

Lemma argmax_is_Some row k :
  argmax_is row (Some k) = true -> exists r, row = Some r /\ argmax r = Ok k.
Proof.
  unfold argmax_is. destruct row as [r|]; [|discriminate].
  destruct (argmax r) as [a| |] eqn:E; try discriminate.
  intros H%Nat.eqb_eq. subst. exists r. split; [reflexivity|exact E].
Qed.

Lemma type_pred_index p i rowk k lab :
  argmax_is (types p !! i) rowk = true -> rowk = Some k ->
  index_of lab alphabet = Ok k ->
  type_pred alphabet p i = Ok lab.
Proof.
  intros H -> Hk. apply argmax_is_Some in H as (r & Hr & Ha).
  unfold type_pred, lookup_err. rewrite Hr. cbn [mbind res_bind].
  rewrite Ha. cbn [mbind res_bind]. now rewrite (index_of_lookup _ _ _ Hk).
Qed.

Lemma span_loop_fits scores deg c C :
  c + C <= deg ->
  (forall j, j < C -> score_above scores (c + j) = true) ->
  (c + C < deg -> score_not_above scores (c + C) = true) ->
  forall fuel C0, C0 <= C -> C - C0 <= fuel ->
    span_loop fuel scores deg c C0 = Ok C.
Proof.
  intros Hb Hin Hout.
  induction fuel as [|fuel IH]; intros C0 H0 Hf; cbn [span_loop].
  - f_equal. lia.
  - destruct (Nat.ltb_spec (c + C0) deg) as [Hlt|Hge]; [|f_equal; lia].
    destruct (decide (C0 = C)) as [->|Hne].
    + specialize (Hout Hlt). unfold score_not_above in Hout.
      destruct (scores !! (c + C)) as [y|] eqn:Ey; [|discriminate].
      unfold lookup_err. rewrite Ey. cbn [mbind res_bind].
      unfold gt_half. now rewrite Hout.
    + specialize (Hin C0 ltac:(lia)). unfold score_above in Hin.
      destruct (scores !! (c + C0)) as [y|] eqn:Ey; [|discriminate].
      unfold lookup_err. rewrite Ey. cbn [mbind res_bind]. rewrite Hin.
      apply IH; lia.
Qed.

Lemma span_fits_loop scores row c C :
  span_fits scores row (Some c) (Some C) = true ->
  exists sc r, scores = Some sc /\ row = Some r /\
    span_loop (length r) sc (length r) c 0 = Ok C.
Proof.
  unfold span_fits. destruct scores as [sc|]; [|discriminate].
  destruct row as [r|]; [|discriminate].
  intros H. apply andb_true_iff in H as [H Hout].
  apply andb_true_iff in H as [Hb Hin]. apply Nat.leb_le in Hb.
  exists sc, r. repeat split.
  apply span_loop_fits; [exact Hb| | |lia|lia].
  - intros j Hj. rewrite forallb_forall in Hin. apply Hin.
    apply in_seq. lia.
  - intros Hlt. apply Nat.ltb_lt in Hlt. now rewrite Hlt in Hout.
Qed.

Lemma fits_node_decided p tg adj i d k :
  index_of (d_label d) alphabet = Ok k ->
  row_of tg i = Some (d_delta d, k, d_slot d, d_span d) ->
  fits_node p tg adj i = true ->
  node_decided p adj i d.
Proof.
  intros Hk Hrow H. apply row_of_Some in Hrow as (Hd & Hty & Hc & HC).
  unfold fits_node in H. rewrite Hd in H.
  destruct (delta p !! i) as [[x|]|] eqn:Ex; [|discriminate..].
  exists x. split; [exact Ex|].
  destruct (del_target (d_delta d)).
  - now apply below_half.
  - destruct (ins_target (d_delta d)).
    + apply andb_true_iff in H as [H Hspan].
      apply andb_true_iff in H as [H Hslot].
      apply andb_true_iff in H as [Hx Htype].
      destruct (above_half x Hx) as (H1 & H2 & H3).
      split; [exact H1|]. split; [exact H2|]. split; [exact H3|].
      split; [now apply (type_pred_index p i _ k _ Htype Hty)|].
      rewrite Hc in Hslot, Hspan. rewrite HC in Hspan.
      apply argmax_is_Some in Hslot as (crow & Hcrow & Hargmax).
      apply span_fits_loop in Hspan as (sc & r & Hsc & Hr & Hloop).
      exists crow, sc, r. auto.
    + apply andb_true_iff in H as [Hx Htype].
      destruct (within_half x Hx) as (H1 & H2 & H3).
      split; [exact H1|]. split; [exact H2|]. split; [exact H3|].
      now apply (type_pred_index p i _ k _ Htype Hty).
Qed.

Lemma fits_decided p tg (t : tree) ds :
  rows_at tg 0 ds -> length ds = length t.1 ->
  fits p tg t = true ->
  decided p t.2 0 ds.
Proof.
  intros Hrows Hlen H i d Hi.
  destruct (Hrows i d Hi) as (k & Hk & Hrow).
  apply (fits_node_decided p tg t.2 _ d k Hk Hrow).
  unfold fits in H. rewrite forallb_forall in H. apply H.
  apply in_seq. apply lookup_lt_Some in Hi. cbn [Nat.add]. lia.
Qed.

Lemma decided_cons p adj o d ds :
  decided p adj o (d :: ds) <-> node_decided p adj o d /\ decided p adj (S o) ds.
Proof.
  split.
  - intros H. split.
    + specialize (H 0 d eq_refl). now rewrite Nat.add_0_r in H.
    + intros i x Hi. replace (S o + i) with (o + S i) by lia. now apply H.
  - intros [H0 H] [|i] x Hi.
    + rewrite Nat.add_0_r. simpl in Hi. injection Hi as <-. exact H0.
    + replace (o + S i) with (S o + i) by lia. now apply H.
Qed.

Lemma decided_app p adj o a b :
  decided p adj o (a ++ b)
  <-> decided p adj o a /\ decided p adj (o + length a) b.
Proof.
  revert o. induction a as [|d a IH]; intros o.
  - cbn [app length]. rewrite Nat.add_0_r. split; [|tauto].
    intros H. split; [|exact H]. intros i d Hi. discriminate.
  - cbn [app length]. rewrite !decided_cons, (IH (S o)).
    replace (S o + length a) with (o + S (length a)) by lia. tauto.
Qed.

(** the three classes of a decision *)
Lemma decided_drop p adj i lab :
  node_decided p adj i (drop_node lab) ->
  exists x, delta p !! i = Some (Fin x) /\
    gt_half (Qabs x) = true /\ Qle_bool x half = true /\ Qle_bool (- half) x = false.
Proof. intros (x & Hx & H). exists x. split; [exact Hx|exact H]. Qed.

Lemma decided_keep p adj i lab :
  node_decided p adj i (keep lab) ->
  exists x, delta p !! i = Some (Fin x) /\
    gt_half (Qabs x) = false /\ Qle_bool x half = true /\ Qle_bool (- half) x = true /\
    type_pred alphabet p i = Ok lab.
Proof. intros (x & Hx & H). exists x. split; [exact Hx|exact H]. Qed.

Lemma decided_wrap p adj i c :
  node_decided p adj i (wrap c) ->
  exists x, delta p !! i = Some (Fin x) /\
    gt_half (Qabs x) = true /\ Qle_bool x half = false /\ Qle_bool (- half) x = true /\
    type_pred alphabet p i = Ok "succ" /\
    exists crow scores row,
      Cidx p !! i = Some crow /\ argmax crow = Ok c /\
      adj !! i = Some row /\ Cnum p !! i = Some scores /\
      span_loop (length row) scores (length row) c 0 = Ok 1.
Proof. intros (x & Hx & H). exists x. split; [exact Hx|exact H]. Qed.

(** ** The first loop of [predict_step] on a taught expression *)

Section ReplaceLoop.
Variables (p : prediction) (nodes : list string) (adj : list (list nat))
  (pi : list nat).

Local Abbreviation relabel := (foldM (visit_replace alphabet p nodes)).

Lemma relabel_step i ixs s s1 :
  visit_replace alphabet p nodes s i = Ok s1 -> relabel (i :: ixs) s = relabel ixs s1.
Proof. intros H. simpl. now rewrite H. Qed.

Lemma relabel_one i s : relabel [i] s = visit_replace alphabet p nodes s i.
Proof. simpl. destruct (visit_replace alphabet p nodes s i); reflexivity. Qed.

Lemma replace_skip i x s :
  delta p !! i = Some (Fin x) -> gt_half (Qabs x) = true ->
  visit_replace alphabet p nodes s i = Ok s.
Proof.
  intros Hx Hg. unfold visit_replace, lookup_err. rewrite Hx.
  cbn [mbind res_bind abs_above_half]. now rewrite Hg.
Qed.

Lemma replace_same i x lab s :
  delta p !! i = Some (Fin x) -> gt_half (Qabs x) = false ->
  type_pred alphabet p i = Ok lab -> nodes !! i = Some lab ->
  visit_replace alphabet p nodes s i = Ok s.
Proof.
  intros Hx Hg Hl Hn. unfold visit_replace, lookup_err. rewrite Hx.
  cbn [mbind res_bind abs_above_half]. rewrite Hg, Hl. cbn [mbind res_bind]. rewrite Hn.
  cbn [mbind res_bind]. now rewrite String.eqb_refl.
Qed.

Lemma replace_change i x lab cur s :
  delta p !! i = Some (Fin x) -> gt_half (Qabs x) = false ->
  type_pred alphabet p i = Ok lab -> nodes !! i = Some cur -> lab <> cur ->
  visit_replace alphabet p nodes s i = Ok (s ++ [Replacement (Z.of_nat i) lab]).
Proof.
  intros Hx Hg Hl Hn Hne. unfold visit_replace, lookup_err. rewrite Hx.
  cbn [mbind res_bind abs_above_half]. rewrite Hg, Hl. cbn [mbind res_bind]. rewrite Hn.
  cbn [mbind res_bind]. apply String.eqb_neq in Hne. now rewrite Hne.
Qed.

Lemma skip_drop i lab s :
  node_decided p adj i (drop_node lab) ->
  visit_replace alphabet p nodes s i = Ok s.
Proof.
  intros (x & Hx & Hg & _)%decided_drop. now apply (replace_skip i x).
Qed.

Lemma skip_wrap i c s :
  node_decided p adj i (wrap c) ->
  visit_replace alphabet p nodes s i = Ok s.
Proof.
  intros (x & Hx & Hg & _)%decided_wrap. now apply (replace_skip i x).
Qed.

Lemma same_keep i lab s :
  node_decided p adj i (keep lab) -> nodes !! i = Some lab ->
  visit_replace alphabet p nodes s i = Ok s.
Proof.
  intros (x & Hx & Hg & _ & _ & Hl)%decided_keep Hn.
  now apply (replace_same i x lab).
Qed.

Lemma change_keep i lab cur s :
  node_decided p adj i (keep lab) -> nodes !! i = Some cur -> lab <> cur ->
  visit_replace alphabet p nodes s i = Ok (s ++ [Replacement (Z.of_nat i) lab]).
Proof.
  intros (x & Hx & Hg & _ & _ & Hl)%decided_keep Hn Hne.
  now apply (replace_change i x lab cur).
Qed.

Lemma succ_mod_differs n : ((n + 1) mod 10 <> n)%Z.
Proof.
  intros H. pose proof (Z.mod_pos_bound (n + 1) 10 ltac:(lia)) as Hb.
  destruct (Z.eq_dec n 9%Z) as [->|Hn9]; [discriminate|].
  assert ((n + 1) mod 10 = n + 1)%Z as E by (apply Z.mod_small; lia). lia.
Qed.

(** the first loop over the nodes of a placed expression appends its
    replacements *)
Lemma replace_subtree e : forall o s,
  placed nodes adj pi o e ->
  decided p adj o (dec_of e) ->
  relabel (seq o (esize e)) s = Ok (s ++ reps e o).
Proof.
  induction e as [n|n|e Hne IH|l IHl|l n Hn IHl|l r0 IHl IHr|l a b IHl IHr]
    using expr_rule_ind; intros o s Hpl Hdec.
  - (* a numeral *)
    destruct Hpl as (Hn & _).
    cbn [dec_of] in Hdec. apply decided_cons in Hdec as (H0 & _).
    cbn [esize seq reps]. rewrite relabel_one, app_nil_r.
    now apply (same_keep o (py_str n)).
  - (* succ(n) *)
    destruct Hpl as (Hn & Ha & Hp & Hc & _).
    change (dec_of (Succ (Num n)))
      with [drop_node "succ"; keep (py_str ((n + 1) mod 10))] in Hdec.
    apply decided_cons in Hdec as (H0 & Hdec).
    apply decided_cons in Hdec as (H1 & _).
    cbn [esize seq].
    rewrite (relabel_step _ _ _ _ (skip_drop o _ s H0)).
    rewrite relabel_one.
    apply (change_keep (S o) _ (py_str n)); [exact H1|exact Hc|].
    intros E%py_str_inj. now apply (succ_mod_differs n).
  - (* succ over an operator *)
    destruct Hpl as (Hn & Ha & Hp & Hpe).
    rewrite dec_of_succ in Hdec by exact Hne.
    apply decided_cons in Hdec as (H0 & Hdec).
    cbn [esize seq]. rewrite reps_succ by exact Hne.
    rewrite (relabel_step _ _ _ _ (same_keep o _ s H0 Hn)).
    now apply IH.
  - (* rule 1 *)
    destruct Hpl as (Hn & Ha & Hp1 & Hp2 & Hpl & Hr & _).
    change (dec_of (Plus l (Num 0)))
      with ([drop_node "+"] ++ dec_of l ++ [drop_node "0"]) in Hdec.
    apply decided_cons in Hdec as (H0 & Hdec).
    apply decided_app in Hdec as (Hl & Hdec).
    apply decided_cons in Hdec as (H1 & _).
    rewrite dec_of_length in H1.
    cbn [esize seq reps Z.eqb]. rewrite seq_app. cbn [seq].
    rewrite (relabel_step _ _ _ _ (skip_drop o _ s H0)).
    rewrite foldM_app, (IHl (S o) s Hpl Hl). cbn [mbind res_bind].
    rewrite relabel_one. now apply (skip_drop _ "0").
  - (* rule 3 *)
    destruct Hpl as (Hnd & Ha & Hp1 & Hp2 & Hpl & Hr & _).
    rewrite dec_of_plus_num in Hdec by exact Hn.
    apply decided_cons in Hdec as (H0 & Hdec).
    apply decided_app in Hdec as (Hl & Hdec).
    apply decided_cons in Hdec as (H1 & _).
    rewrite dec_of_length in H1.
    cbn [esize seq]. rewrite seq_app. cbn [seq].
    rewrite reps_plus_num by exact Hn.
    rewrite (relabel_step _ _ _ _ (skip_wrap o _ s H0)).
    rewrite foldM_app, (IHl (S o) s Hpl Hl). cbn [mbind res_bind].
    rewrite relabel_one, app_assoc.
    apply (change_keep (S o + esize l) _ (py_str n)); [exact H1|exact Hr|].
    intros E%py_str_inj. lia.
  - (* rule 2 *)
    destruct Hpl as (Hnd & Ha & Hp1 & Hp2 & Hpl & Hr & Har & Hpr & Hplr).
    change (dec_of (Plus l (Succ r0)))
      with ([wrap 0] ++ dec_of l ++ [drop_node "succ"] ++ dec_of r0) in Hdec.
    apply decided_cons in Hdec as (H0 & Hdec).
    apply decided_app in Hdec as (Hl & Hdec).
    apply decided_cons in Hdec as (H1 & Hr0).
    rewrite dec_of_length in H1, Hr0.
    cbn [esize seq]. rewrite seq_app. cbn [seq].
    change (reps (Plus l (Succ r0)) o)
      with (reps l (S o) ++ reps r0 (S (S (o + esize l)))).
    rewrite (relabel_step _ _ _ _ (skip_wrap o _ s H0)).
    rewrite foldM_app, (IHl (S o) s Hpl Hl). cbn [mbind res_bind].
    rewrite (relabel_step _ _ _ _ (skip_drop _ _ _ H1)).
    rewrite (IHr (S (S o + esize l)) _ Hplr Hr0).
    now rewrite <- app_assoc.
  - (* an operator to the right *)
    destruct Hpl as (Hnd & Ha & Hp1 & Hp2 & Hpl & Hplr).
    rewrite dec_of_plus_plus in Hdec.
    apply decided_cons in Hdec as (H0 & Hdec).
    apply decided_app in Hdec as (Hl & Hr0).
    rewrite dec_of_length in Hr0.
    rewrite seq_esize_plus.
    change (reps (Plus l (Plus a b)) o)
      with (reps l (S o) ++ reps (Plus a b) (S (o + esize l))).
    rewrite (relabel_step _ _ _ _ (same_keep o _ s H0 Hnd)).
    rewrite foldM_app, (IHl (S o) s Hpl Hl). cbn [mbind res_bind].
    rewrite (IHr (S o + esize l) _ Hplr Hr0).
    now rewrite <- app_assoc.
Qed.

End ReplaceLoop.

(** ** The second loop of [predict_step] on a taught expression *)

Lemma vals_at_cons sh o v vs :
  vals_at sh o (v :: vs) <-> sh !! o = Some v /\ vals_at sh (S o) vs.
Proof.
  split.
  - intros H. split.
    + rewrite <- (Nat.add_0_r o). now apply H.
    + intros i x Hi. replace (S o + i) with (o + S i) by lia. now apply H.
  - intros [H0 H] [|i] x Hi.
    + rewrite Nat.add_0_r. simpl in Hi. congruence.
    + replace (o + S i) with (S o + i) by lia. now apply H.
Qed.

Lemma vals_at_nil sh o : vals_at sh o [].
Proof. intros i v H. discriminate. Qed.

Lemma vals_at_app sh o a b :
  vals_at sh o (a ++ b) <-> vals_at sh o a /\ vals_at sh (o + length a) b.
Proof.
  revert o. induction a as [|v a IH]; intros o.
  - cbn [app length]. rewrite Nat.add_0_r. split; [|tauto].
    intros H. split; [apply vals_at_nil|exact H].
  - cbn [app length]. rewrite !vals_at_cons, (IH (S o)).
    replace (S o + length a) with (o + S (length a)) by lia. tauto.
Qed.

Lemma vals_at_low sh sh' o vs o' :
  vals_at sh o vs -> (forall k, k < o' -> sh' !! k = sh !! k) ->
  o + length vs <= o' -> vals_at sh' o vs.
Proof.
  intros H Hf Hb i v Hi. rewrite Hf; [now apply H|].
  apply lookup_lt_Some in Hi. lia.
Qed.

Lemma slice_from_low lo d sh k : k < lo -> slice_add_from lo d sh !! k = sh !! k.
Proof.
  intros H. rewrite slice_add_from_lookup.
  destruct (sh !! k); [|reflexivity]. simpl.
  destruct (Nat.leb_spec lo k); [lia|reflexivity].
Qed.

Section InsertLoop.
Variables (fuel : nat) (p : prediction) (nodes : list string)
  (adj : list (list nat)) (pi : list nat).

Local Abbreviation grow := (foldM (visit_insert fuel alphabet p adj)).

Lemma grow_step i ixs st st1 :
  visit_insert fuel alphabet p adj st i = Ok st1 -> grow (i :: ixs) st = grow ixs st1.
Proof. intros H. simpl. now rewrite H. Qed.

Lemma grow_one i st : grow [i] st = visit_insert fuel alphabet p adj st i.
Proof. simpl. destruct (visit_insert fuel alphabet p adj st i); reflexivity. Qed.

Lemma insert_skip i x st :
  delta p !! i = Some (Fin x) -> Qle_bool x half = true ->
  visit_insert fuel alphabet p adj st i = Ok st.
Proof.
  intros Hx Hg. unfold visit_insert, lookup_err. rewrite Hx.
  cbn [mbind res_bind at_most_half]. now rewrite Hg.
Qed.

Lemma insert_skip_drop i lab st :
  node_decided p adj i (drop_node lab) ->
  visit_insert fuel alphabet p adj st i = Ok st.
Proof.
  intros (x & Hx & _ & Hg & _)%decided_drop. now apply (insert_skip i x).
Qed.

Lemma insert_skip_keep i lab st :
  node_decided p adj i (keep lab) ->
  visit_insert fuel alphabet p adj st i = Ok st.
Proof.
  intros (x & Hx & _ & Hg & _)%decided_keep. now apply (insert_skip i x).
Qed.

Lemma insert_fire i c row j si s sh :
  node_decided p adj i (wrap c) ->
  adj !! i = Some row -> row !! c = Some j -> sh !! i = Some si ->
  visit_insert fuel alphabet p adj (s, sh) i
  = Ok (s ++ [Insertion (Z.of_nat i + si) c "succ" 1], slice_add_from j 1 sh).
Proof.
  intros (x & Hx & _ & Hg & _ & Hl & crow & scores & row' & Hc & Ha & Hrow' & Hs & Hspan)
    %decided_wrap Hrow Hj Hsi.
  assert (row' = row) as -> by congruence.
  unfold visit_insert, lookup_err, shift_start, lookup_err.
  rewrite Hx. cbn [mbind res_bind at_most_half]. rewrite Hg, Hl. cbn [mbind res_bind].
  rewrite Hc. cbn [mbind res_bind]. rewrite Ha. cbn [mbind res_bind].
  rewrite Hrow. cbn [mbind res_bind]. rewrite Hs. cbn [mbind res_bind].
  rewrite Hspan. cbn [mbind res_bind fst snd]. rewrite Hsi.
  cbn [mbind res_bind]. rewrite Hj. reflexivity.
Qed.

(** the second loop over the nodes of a placed expression appends its
    insertions; it shifts the indices behind the expression by their
    number, and leaves each node of the expression with its final shift *)
Lemma insert_subtree e : forall o q d sh s,
  placed nodes adj pi o e ->
  decided p adj o (dec_of e) ->
  uniform sh o (esize e) d ->
  Z.of_nat q = (Z.of_nat o + d)%Z ->
  exists sh',
    grow (seq o (esize e)) (s, sh) = Ok (s ++ inss e q, sh') /\
    tail_shift sh sh' (o + esize e) (Z.of_nat (nins e)) /\
    vals_at sh' o (fsh_of e d) /\
    (forall k, k < o -> sh' !! k = sh !! k).
Proof.
  induction e as [n|n|e Hne IH|l IHl|l n Hn IHl|l r0 IHl IHr|l a b IHl IHr]
    using expr_rule_ind; intros o q d sh s Hpl Hdec Hu Hq.
  all: assert (sh !! o = Some d) as Hd
    by (rewrite <- (Nat.add_0_r o); apply Hu, esize_pos).
  - (* a numeral *)
    cbn [dec_of] in Hdec. apply decided_cons in Hdec as (H0 & _).
    exists sh. split; [|split; [|split]].
    + cbn [esize seq inss]. rewrite grow_one, app_nil_r.
      now apply (insert_skip_keep o (py_str n)).
    + apply tail_shift_refl.
    + apply vals_at_cons. split; [exact Hd|apply vals_at_nil].
    + reflexivity.
  - (* succ(n) *)
    change (dec_of (Succ (Num n)))
      with [drop_node "succ"; keep (py_str ((n + 1) mod 10))] in Hdec.
    apply decided_cons in Hdec as (H0 & Hdec).
    apply decided_cons in Hdec as (H1 & _).
    assert (sh !! S o = Some d) as Hd'.
    { rewrite <- (Nat.add_1_r o). apply Hu. simpl. lia. }
    exists sh. split; [|split; [|split]].
    + cbn [esize seq].
      rewrite (grow_step _ _ _ _ (insert_skip_drop o "succ" (s, sh) H0)).
      rewrite grow_one. change (inss (Succ (Num n)) q) with (@nil edit).
      rewrite app_nil_r. now apply (insert_skip_keep (S o) (py_str ((n + 1) mod 10)) (s, sh)).
    + apply tail_shift_refl.
    + apply vals_at_cons. split; [exact Hd|].
      apply vals_at_cons. split; [exact Hd'|apply vals_at_nil].
    + reflexivity.
  - (* succ over an operator *)
    destruct Hpl as (Hn & Ha & Hp & Hpe).
    rewrite dec_of_succ in Hdec by exact Hne.
    apply decided_cons in Hdec as (H0 & Hdec).
    destruct (IH (S o) (S q) d sh s Hpe Hdec) as (sh' & Hs & Ht & Hv & Hf).
    { eapply uniform_sub; [exact Hu| |]; simpl; lia. }
    { lia. }
    exists sh'. split; [|split; [|split]].
    + cbn [esize seq]. rewrite inss_succ by exact Hne.
      rewrite (grow_step _ _ _ _ (insert_skip_keep o "succ" (s, sh) H0)).
      exact Hs.
    + rewrite nins_succ by exact Hne. cbn [esize].
      eapply tail_shift_weaken; [| |exact Ht]; lia.
    + rewrite fsh_of_succ by exact Hne.
      apply vals_at_cons. split; [|exact Hv].
      rewrite Hf by lia. exact Hd.
    + intros k Hk. apply Hf. lia.
  - (* rule 1 *)
    destruct Hpl as (Hn & Ha & Hp1 & Hp2 & Hpl & Hr & _).
    change (dec_of (Plus l (Num 0)))
      with ([drop_node "+"] ++ dec_of l ++ [drop_node "0"]) in Hdec.
    apply decided_cons in Hdec as (H0 & Hdec).
    apply decided_app in Hdec as (Hl & Hdec).
    apply decided_cons in Hdec as (H1 & _).
    rewrite dec_of_length in H1.
    set (r := S (o + esize l)) in *.
    assert (sh !! r = Some d) as Hdr.
    { replace r with (o + S (esize l)) by (unfold r; lia). apply Hu. simpl. lia. }
    destruct (IHl (S o) (S q) d sh s Hpl Hl) as (sh1 & Hs & Ht & Hv & Hf).
    { eapply uniform_sub; [exact Hu| |]; simpl; lia. }
    { lia. }
    exists sh1. split; [|split; [|split]].
    + cbn [esize seq inss Z.eqb]. rewrite seq_app. cbn [seq].
      rewrite (grow_step _ _ _ _ (insert_skip_drop o "+" (s, sh) H0)).
      rewrite foldM_app, Hs. cbn [mbind res_bind].
      rewrite grow_one. now apply (insert_skip_drop _ "0").
    + cbn [nins Z.eqb esize].
      eapply tail_shift_weaken; [| |exact Ht]; lia.
    + cbn [fsh_of Z.eqb].
      apply vals_at_cons. split; [rewrite Hf by lia; exact Hd|].
      apply vals_at_app. split; [exact Hv|].
      rewrite fsh_of_length. fold r.
      apply vals_at_cons. split; [|apply vals_at_nil].
      destruct Ht as [_ Ht]. apply Ht; [unfold r; lia|exact Hdr].
    + intros k Hk. apply Hf. lia.
  - (* rule 3 *)
    destruct Hpl as (Hnd & Ha & Hp1 & Hp2 & Hpl & Hr & _).
    rewrite dec_of_plus_num in Hdec by exact Hn.
    apply decided_cons in Hdec as (H0 & Hdec).
    apply decided_app in Hdec as (Hl & Hdec).
    apply decided_cons in Hdec as (H1 & _).
    rewrite dec_of_length in H1.
    set (r := S (o + esize l)) in *.
    assert (sh !! r = Some d) as Hdr.
    { replace r with (o + S (esize l)) by (unfold r; lia). apply Hu. simpl. lia. }
    set (sh0 := slice_add_from r 1 sh).
    pose proof (insert_fire o 1 _ r d s sh H0 Ha eq_refl Hd) as Hfire.
    fold sh0 in Hfire. rewrite <- Hq in Hfire.
    destruct (IHl (S o) (S q) d sh0 (s ++ [Insertion (Z.of_nat q) 1 "succ" 1])
                Hpl Hl) as (sh1 & Hs & Ht & Hv & Hf).
    { apply uniform_slice_from_out; [|unfold r; lia].
      eapply uniform_sub; [exact Hu| |]; simpl; lia. }
    { lia. }
    exists sh1. split; [|split; [|split]].
    + cbn [esize seq]. rewrite seq_app. cbn [seq].
      rewrite inss_plus_num by exact Hn.
      rewrite (grow_step _ _ _ _ Hfire).
      rewrite foldM_app, Hs. cbn [mbind res_bind].
      rewrite grow_one, <- app_assoc. cbn [app].
      now apply (insert_skip_keep _ (py_str (n - 1))).
    + rewrite nins_plus_num by exact Hn.
      apply (tail_shift_compose sh sh0 sh1 r (S o + esize l) _ 1
               (Z.of_nat (nins l)));
        [apply tail_shift_slice_from; lia|exact Ht|unfold r; simpl; lia..].
    + rewrite fsh_of_plus_num by exact Hn.
      apply vals_at_cons. split.
      * rewrite Hf by lia. unfold sh0.
        rewrite slice_from_low by (unfold r; lia). exact Hd.
      * apply vals_at_app. split; [exact Hv|].
        rewrite fsh_of_length. fold r.
        apply vals_at_cons. split; [|apply vals_at_nil].
        destruct Ht as [_ Ht].
        replace (d + Z.of_nat (nins l) + 1)%Z
          with (d + 1 + Z.of_nat (nins l))%Z by lia.
        apply Ht; [unfold r; lia|]. unfold sh0.
        rewrite (slice_add_from_at _ _ _ _ _ Hdr).
        destruct (Nat.leb_spec r r); [reflexivity|lia].
    + intros k Hk. rewrite Hf by lia. unfold sh0.
      apply slice_from_low. unfold r. lia.
  - (* rule 2 *)
    destruct Hpl as (Hnd & Ha & Hp1 & Hp2 & Hpl & Hr & Har & Hpr & Hplr).
    change (dec_of (Plus l (Succ r0)))
      with ([wrap 0] ++ dec_of l ++ [drop_node "succ"] ++ dec_of r0) in Hdec.
    apply decided_cons in Hdec as (H0 & Hdec).
    apply decided_app in Hdec as (Hl & Hdec).
    apply decided_cons in Hdec as (H1 & Hr0).
    rewrite dec_of_length in H1, Hr0.
    set (r := S (o + esize l)) in *.
    assert (sh !! r = Some d) as Hdr.
    { replace r with (o + S (esize l)) by (unfold r; lia). apply Hu. simpl. lia. }
    set (sh0 := slice_add_from (S o) 1 sh).
    pose proof (insert_fire o 0 _ (S o) d s sh H0 Ha eq_refl Hd) as Hfire.
    fold sh0 in Hfire. rewrite <- Hq in Hfire.
    destruct (IHl (S o) (q + 2) (d + 1)%Z sh0
                (s ++ [Insertion (Z.of_nat q) 0 "succ" 1]) Hpl Hl)
      as (sh1 & Hs1 & Ht1 & Hv1 & Hf1).
    { apply uniform_slice_from_in; [|lia].
      eapply uniform_sub; [exact Hu| |]; simpl; lia. }
    { lia. }
    assert (uniform sh0 (S r) (esize r0) (d + 1)) as Hu0.
    { apply uniform_slice_from_in; [|unfold r; lia].
      eapply uniform_sub; [exact Hu| |]; unfold r; simpl; lia. }
    destruct (IHr (S r) (q + 3 + esize l + nins l)
                (d + 1 + Z.of_nat (nins l))%Z sh1
                ((s ++ [Insertion (Z.of_nat q) 0 "succ" 1]) ++ inss l (q + 2))
                Hplr Hr0) as (sh2 & Hs2 & Ht2 & Hv2 & Hf2).
    { eapply uniform_tail; [exact Hu0|exact Ht1|unfold r; lia]. }
    { unfold r. lia. }
    exists sh2. split; [|split; [|split]].
    + cbn [esize seq]. rewrite seq_app. cbn [seq].
      change (inss (Plus l (Succ r0)) q)
        with (Insertion (Z.of_nat q) 0 "succ" 1
              :: inss l (q + 2) ++ inss r0 (q + 3 + esize l + nins l)).
      rewrite (grow_step _ _ _ _ Hfire).
      rewrite foldM_app, Hs1. cbn [mbind res_bind].
      replace (S o + esize l) with r by (unfold r; lia).
      rewrite (grow_step _ _ _ _ (insert_skip_drop r "succ" _ H1)).
      rewrite Hs2. rewrite <- !app_assoc. reflexivity.
    + change (nins (Plus l (Succ r0))) with (S (nins l + nins r0)).
      apply (tail_shift_compose sh sh1 sh2 (S r) (S r + esize r0) _
               (1 + Z.of_nat (nins l)) (Z.of_nat (nins r0)));
        [|exact Ht2|unfold r; cbn [esize]; lia..].
      apply (tail_shift_compose sh sh0 sh1 (S o) (S o + esize l) _ 1
               (Z.of_nat (nins l)));
        [apply tail_shift_slice_from; lia|exact Ht1|unfold r; lia..].
    + change (fsh_of (Plus l (Succ r0)) d)
        with (d :: fsh_of l (d + 1) ++ [(d + 1 + Z.of_nat (nins l))%Z]
                ++ fsh_of r0 (d + 1 + Z.of_nat (nins l))).
      apply vals_at_cons. split.
      * rewrite Hf2, Hf1 by (unfold r; lia). unfold sh0.
        rewrite slice_from_low by lia. exact Hd.
      * apply vals_at_app. split.
        -- eapply (vals_at_low sh1); [exact Hv1|exact Hf2|].
           rewrite fsh_of_length. unfold r. lia.
        -- rewrite fsh_of_length. fold r.
           apply vals_at_cons. split; [|exact Hv2].
           rewrite Hf2 by lia. destruct Ht1 as [_ Ht1].
           apply Ht1; [unfold r; lia|]. unfold sh0.
           rewrite (slice_add_from_at _ _ _ _ _ Hdr).
           destruct (Nat.leb_spec (S o) r); [reflexivity|unfold r in *; lia].
    + intros k Hk. rewrite Hf2, Hf1 by (unfold r; lia). unfold sh0.
      apply slice_from_low. lia.
  - (* an operator to the right *)
    destruct Hpl as (Hnd & Ha & Hp1 & Hp2 & Hpl & Hplr).
    rewrite dec_of_plus_plus in Hdec.
    apply decided_cons in Hdec as (H0 & Hdec).
    apply decided_app in Hdec as (Hl & Hr0).
    rewrite dec_of_length in Hr0.
    set (r := S (o + esize l)) in *.
    destruct (IHl (S o) (S q) d sh s Hpl Hl) as (sh1 & Hs1 & Ht1 & Hv1 & Hf1).
    { eapply uniform_sub; [exact Hu| |]; simpl; lia. }
    { lia. }
    destruct (IHr r (S q + esize l + nins l) (d + Z.of_nat (nins l))%Z sh1
                (s ++ inss l (S q)) Hplr Hr0) as (sh2 & Hs2 & Ht2 & Hv2 & Hf2).
    { eapply uniform_tail; [|exact Ht1|unfold r; lia].
      eapply uniform_sub; [exact Hu| |]; unfold r; simpl; lia. }
    { unfold r. lia. }
    exists sh2. split; [|split; [|split]].
    + rewrite seq_esize_plus.
      change (inss (Plus l (Plus a b)) q)
        with (inss l (S q) ++ inss (Plus a b) (S q + esize l + nins l)).
      rewrite (grow_step _ _ _ _ (insert_skip_keep o "+" (s, sh) H0)).
      rewrite foldM_app, Hs1. cbn [mbind res_bind].
      replace (S o + esize l) with r by (unfold r; lia).
      rewrite Hs2, <- app_assoc. reflexivity.
    + change (nins (Plus l (Plus a b))) with (nins l + nins (Plus a b)).
      apply (tail_shift_compose sh sh1 sh2 (S o + esize l) (r + esize (Plus a b)) _
               (Z.of_nat (nins l)) (Z.of_nat (nins (Plus a b))));
        [exact Ht1|exact Ht2|unfold r; cbn [esize]; lia..].
    + change (fsh_of (Plus l (Plus a b)) d)
        with (d :: fsh_of l d ++ fsh_of (Plus a b) (d + Z.of_nat (nins l))).
      apply vals_at_cons. split.
      * rewrite Hf2, Hf1 by (unfold r; lia). exact Hd.
      * apply vals_at_app. split.
        -- eapply (vals_at_low sh1); [exact Hv1|exact Hf2|].
           rewrite fsh_of_length. unfold r. lia.
        -- rewrite fsh_of_length. exact Hv2.
    + intros k Hk. rewrite Hf2, Hf1 by (unfold r; lia). reflexivity.
Qed.

End InsertLoop.

(** ** The third loop of [predict_step] on a taught expression *)

Section DeleteLoop.
Variables (p : prediction) (adj : list (list nat)) (shf : list Z).

Local Abbreviation prune := (foldM (visit_delete p shf)).

Lemma prune_one i s : prune [i] s = visit_delete p shf s i.
Proof. simpl. destruct (visit_delete p shf s i); reflexivity. Qed.

Lemma delete_skip i x s :
  delta p !! i = Some (Fin x) -> Qle_bool (- half) x = true ->
  visit_delete p shf s i = Ok s.
Proof.
  intros Hx Hg. unfold visit_delete, lookup_err. rewrite Hx.
  cbn [mbind res_bind at_least_minus_half]. now rewrite Hg.
Qed.

Lemma delete_skip_keep i lab s :
  node_decided p adj i (keep lab) -> visit_delete p shf s i = Ok s.
Proof.
  intros (x & Hx & _ & _ & Hg & _)%decided_keep. now apply (delete_skip i x).
Qed.

Lemma delete_skip_wrap i c s :
  node_decided p adj i (wrap c) -> visit_delete p shf s i = Ok s.
Proof.
  intros (x & Hx & _ & _ & Hg & _)%decided_wrap. now apply (delete_skip i x).
Qed.

Lemma delete_fire i lab si s :
  node_decided p adj i (drop_node lab) -> shf !! i = Some si ->
  visit_delete p shf s i = Ok (s ++ [Deletion (Z.of_nat i + si)]).
Proof.
  intros (x & Hx & _ & _ & Hg)%decided_drop Hsi.
  unfold visit_delete, lookup_err. rewrite Hx.
  cbn [mbind res_bind at_least_minus_half]. rewrite Hg, Hsi. reflexivity.
Qed.

Lemma rev_seq_cons o m : rev (seq o (S m)) = rev (seq (S o) m) ++ [o].
Proof. reflexivity. Qed.

(** the third loop over the nodes of an expression, from the last to the
    first, appends its deletions *)
Lemma delete_subtree e : forall o q d s,
  decided p adj o (dec_of e) ->
  vals_at shf o (fsh_of e d) ->
  Z.of_nat q = (Z.of_nat o + d)%Z ->
  prune (rev (seq o (esize e))) s = Ok (s ++ dels e q).
Proof.
  induction e as [n|n|e Hne IH|l IHl|l n Hn IHl|l r0 IHl IHr|l a b IHl IHr]
    using expr_rule_ind; intros o q d s Hdec Hv Hq.
  - (* a numeral *)
    cbn [dec_of] in Hdec. apply decided_cons in Hdec as (H0 & _).
    cbn [esize seq rev app dels]. rewrite prune_one, app_nil_r.
    now apply (delete_skip_keep o (py_str n)).
  - (* succ(n) *)
    change (dec_of (Succ (Num n)))
      with [drop_node "succ"; keep (py_str ((n + 1) mod 10))] in Hdec.
    apply decided_cons in Hdec as (H0 & Hdec).
    apply decided_cons in Hdec as (H1 & _).
    change (fsh_of (Succ (Num n)) d) with [d; d] in Hv.
    apply vals_at_cons in Hv as (Hd & _).
    change (rev (seq o (esize (Succ (Num n))))) with [S o; o].
    change (dels (Succ (Num n)) q) with [Deletion (Z.of_nat q)].
    cbn [foldM].
    rewrite (delete_skip_keep (S o) (py_str ((n + 1) mod 10)) s H1).
    cbn [mbind res_bind]. rewrite (delete_fire o "succ" d s H0 Hd).
    cbn [mbind res_bind]. now rewrite Hq.
  - (* succ over an operator *)
    rewrite dec_of_succ in Hdec by exact Hne.
    apply decided_cons in Hdec as (H0 & Hdec).
    rewrite fsh_of_succ in Hv by exact Hne.
    apply vals_at_cons in Hv as (Hd & Hv).
    cbn [esize]. rewrite rev_seq_cons, foldM_app.
    rewrite (IH (S o) (S q) d s Hdec Hv) by lia.
    cbn [mbind res_bind]. rewrite prune_one, dels_succ by exact Hne.
    now apply (delete_skip_keep o "succ").
  - (* rule 1 *)
    change (dec_of (Plus l (Num 0)))
      with ([drop_node "+"] ++ dec_of l ++ [drop_node "0"]) in Hdec.
    apply decided_cons in Hdec as (H0 & Hdec).
    apply decided_app in Hdec as (Hl & Hdec).
    apply decided_cons in Hdec as (H1 & _).
    rewrite dec_of_length in H1.
    change (fsh_of (Plus l (Num 0)) d)
      with (d :: fsh_of l d ++ [(d + Z.of_nat (nins l))%Z]) in Hv.
    apply vals_at_cons in Hv as (Hd & Hv).
    apply vals_at_app in Hv as (Hvl & Hv).
    rewrite fsh_of_length in Hv. apply vals_at_cons in Hv as (Hdr & _).
    cbn [esize]. rewrite rev_seq_cons, seq_app, rev_app_distr.
    cbn [seq rev app].
    change (dels (Plus l (Num 0)) q)
      with ([Deletion (Z.of_nat (q + 1 + esize l + nins l))] ++ dels l (S q)
            ++ [Deletion (Z.of_nat q)]).
    cbn [foldM].
    rewrite (delete_fire _ "0" _ s H1 Hdr). cbn [mbind res_bind].
    rewrite foldM_app, (IHl (S o) (S q) d _ Hl Hvl) by lia.
    cbn [mbind res_bind]. rewrite prune_one.
    rewrite (delete_fire o "+" d _ H0 Hd).
    rewrite <- !app_assoc, <- Hq.
    replace (Z.of_nat (S o + esize l) + (d + Z.of_nat (nins l)))%Z
      with (Z.of_nat (q + 1 + esize l + nins l)) by lia.
    reflexivity.
  - (* rule 3 *)
    rewrite dec_of_plus_num in Hdec by exact Hn.
    apply decided_cons in Hdec as (H0 & Hdec).
    apply decided_app in Hdec as (Hl & Hdec).
    apply decided_cons in Hdec as (H1 & _).
    rewrite dec_of_length in H1.
    rewrite fsh_of_plus_num in Hv by exact Hn.
    apply vals_at_cons in Hv as (Hd & Hv).
    apply vals_at_app in Hv as (Hvl & _).
    cbn [esize]. rewrite rev_seq_cons, seq_app, rev_app_distr.
    cbn [seq rev app].
    rewrite dels_plus_num by exact Hn.
    cbn [foldM].
    rewrite (delete_skip_keep _ (py_str (n - 1)) s H1). cbn [mbind res_bind].
    rewrite foldM_app, (IHl (S o) (S q) d _ Hl Hvl) by lia.
    cbn [mbind res_bind]. rewrite prune_one.
    now apply (delete_skip_wrap o 1).
  - (* rule 2 *)
    change (dec_of (Plus l (Succ r0)))
      with ([wrap 0] ++ dec_of l ++ [drop_node "succ"] ++ dec_of r0) in Hdec.
    apply decided_cons in Hdec as (H0 & Hdec).
    apply decided_app in Hdec as (Hl & Hdec).
    apply decided_cons in Hdec as (H1 & Hr0).
    rewrite dec_of_length in H1, Hr0.
    change (fsh_of (Plus l (Succ r0)) d)
      with (d :: fsh_of l (d + 1) ++ [(d + 1 + Z.of_nat (nins l))%Z]
              ++ fsh_of r0 (d + 1 + Z.of_nat (nins l))) in Hv.
    apply vals_at_cons in Hv as (Hd & Hv).
    apply vals_at_app in Hv as (Hvl & Hv).
    rewrite fsh_of_length in Hv. apply vals_at_cons in Hv as (Hdr & Hvr).
    change (esize (Plus l (Succ r0))) with (S (esize l + S (esize r0))).
    rewrite rev_seq_cons, seq_app, rev_app_distr, rev_seq_cons.
    change (dels (Plus l (Succ r0)) q)
      with (dels r0 (q + 3 + esize l + nins l)
            ++ [Deletion (Z.of_nat (q + 2 + esize l + nins l))] ++ dels l (q + 2)).
    rewrite !foldM_app.
    rewrite (IHr _ (q + 3 + esize l + nins l) _ s Hr0 Hvr) by lia.
    cbn [mbind res_bind]. rewrite prune_one.
    rewrite (delete_fire _ "succ" _ _ H1 Hdr). cbn [mbind res_bind].
    rewrite (IHl (S o) (q + 2) _ _ Hl Hvl) by lia.
    cbn [mbind res_bind]. rewrite prune_one.
    rewrite (delete_skip_wrap o 0 _ H0).
    rewrite <- !app_assoc.
    replace (Z.of_nat (S o + esize l) + (d + 1 + Z.of_nat (nins l)))%Z
      with (Z.of_nat (q + 2 + esize l + nins l)) by lia.
    reflexivity.
  - (* an operator to the right *)
    rewrite dec_of_plus_plus in Hdec.
    apply decided_cons in Hdec as (H0 & Hdec).
    apply decided_app in Hdec as (Hl & Hr0).
    rewrite dec_of_length in Hr0.
    change (fsh_of (Plus l (Plus a b)) d)
      with (d :: fsh_of l d ++ fsh_of (Plus a b) (d + Z.of_nat (nins l))) in Hv.
    apply vals_at_cons in Hv as (Hd & Hv).
    apply vals_at_app in Hv as (Hvl & Hvr).
    rewrite fsh_of_length in Hvr.
    change (esize (Plus l (Plus a b))) with (S (esize l + esize (Plus a b))).
    rewrite rev_seq_cons, seq_app, rev_app_distr.
    change (dels (Plus l (Plus a b)) q)
      with (dels (Plus a b) (S q + esize l + nins l) ++ dels l (S q)).
    rewrite !foldM_app.
    rewrite (IHr _ (S q + esize l + nins l) _ s Hr0 Hvr) by lia.
    cbn [mbind res_bind].
    rewrite (IHl (S o) (S q) d _ Hl Hvl) by lia.
    cbn [mbind res_bind]. rewrite prune_one, app_assoc.
    now apply (delete_skip_keep o "+").
Qed.

End DeleteLoop.

(** ** The script of [predict_step] on a taught expression *)

(** the tree of an expression holds the expression at index 1, below the
    root *)
Lemma tree_placed e :
  exists pi,
    placed (tree_of_expr e).1 (tree_of_expr e).2 pi 1 e /\
    (tree_of_expr e).1 !! 0 = Some "root" /\
    length (tree_of_expr e).1 = S (esize e).
Proof.
  unfold tree_of_expr, flat.
  set (F := FCons "root" (tin e FNil) FNil).
  cbn [fst snd]. rewrite labels_length.
  assert (fsize F = S (esize e)) as Hsz.
  { unfold F. simpl. rewrite fsize_tin. simpl. lia. }
  destruct (parents_forest (fsize F) (adjs 0 F) F 0 (replicate (fsize F) 0))
    as (pi & Hpi & Hlen & Hframe & Hpf).
  { intros i r Hi. exact Hi. }
  { lia. }
  { apply length_replicate. }
  assert (at_forest (labels F) (adjs 0 F) 0 F) as Hat.
  { split; intros i x Hi; exact Hi. }
  unfold F in Hat, Hpf.
  apply at_forest_cons in Hat as (Hn0 & Ha0 & Hat & _).
  destruct Hpf as (Hroot & Hpf & _).
  destruct (placed_tin _ _ _ e 1 FNil Hat Hpf) as (Hpl & _).
  fold F in Hn0, Ha0, Hpl.
  exists pi. split; [exact Hpl|]. split; [exact Hn0|exact Hsz].
Qed.

Lemma uniform_replicate n o m : o + m <= n -> uniform (replicate n 0%Z) o m 0.
Proof. intros H i Hi. apply lookup_replicate. split; [reflexivity|lia]. Qed.

Lemma predict_script_encoded e p fuel :
  decided p (tree_of_expr e).2 0 (keep "root" :: dec_of e) ->
  predict_script fuel alphabet p (tree_of_expr e)
  = Ok (reps e 1 ++ inss e 1 ++ dels e 1).
Proof.
  intros Hdec. destruct (tree_placed e) as (pi & Hpl & Hroot & Hlen).
  apply decided_cons in Hdec as (H0 & Hdec).
  unfold predict_script. rewrite Hlen.
  set (nodes := (tree_of_expr e).1) in *.
  set (adj := (tree_of_expr e).2) in *.
  cbn [seq]. cbn [foldM].
  rewrite (same_keep p nodes adj 0 "root" [] H0 Hroot). cbn [mbind res_bind].
  rewrite (replace_subtree p nodes adj pi e 1 [] Hpl Hdec). cbn [mbind res_bind app].
  rewrite (insert_skip_keep fuel p adj 0 "root" _ H0). cbn [mbind res_bind].
  destruct (insert_subtree fuel p nodes adj pi e 1 1 0%Z
              (replicate (S (esize e)) 0%Z) (reps e 1) Hpl Hdec)
    as (sh' & Hs & _ & Hv & _).
  { apply uniform_replicate. lia. }
  { reflexivity. }
  rewrite Hs. cbn [mbind res_bind fst snd].
  change (0 :: seq 1 (esize e)) with (seq 0 (S (esize e))).
  rewrite rev_seq_cons, foldM_app.
  rewrite (delete_subtree p adj sh' e 1 1 0%Z _ Hdec Hv eq_refl).
  cbn [mbind res_bind]. rewrite prune_one, <- app_assoc.
  now apply (delete_skip_keep p adj sh' 0 "root").
Qed.

(** consecutive trees of a series encode an expression and its successor,
    and a property of the first expression that [step] keeps holds of each *)
Lemma series_chain_inv (I : expr -> Prop) (HI : forall e, I e -> I (step e)) fuel :
  forall e series out,
  I e ->
  simplify_loop fuel (tree_of_expr e) series = Ok out ->
  last series = Some (tree_of_expr e) ->
  (forall i t t', series !! i = Some t -> series !! S i = Some t' ->
     exists e', I e' /\ t = tree_of_expr e' /\ t' = tree_of_expr (step e')) ->
  forall i t t', out !! i = Some t -> out !! S i = Some t' ->
    exists e', I e' /\ t = tree_of_expr e' /\ t' = tree_of_expr (step e').
Proof.
  induction fuel as [|fuel IH]; intros e series out Ie H Hlast Hs; [discriminate|].
  destruct (is_num e) eqn:He.
  - destruct e as [n| |]; try discriminate.
    rewrite simplify_loop_num in H. injection H as <-. exact Hs.
  - rewrite simplify_loop_pass in H by exact He.
    apply (IH _ _ _ (HI _ Ie) H).
    + apply last_snoc.
    + intros i t t' Hi Hi'.
      assert (S i < length (series ++ [tree_of_expr (step e)])) as Hlt
        by (apply lookup_lt_Some in Hi'; exact Hi').
      rewrite length_app in Hlt. cbn [length] in Hlt.
      destruct (Nat.eq_dec (S i) (length series)) as [E|E].
      * rewrite lookup_app_l in Hi by lia.
        rewrite lookup_app_r in Hi' by lia.
        rewrite E, Nat.sub_diag in Hi'. injection Hi' as <-.
        rewrite last_lookup in Hlast.
        replace (pred (length series)) with i in Hlast by lia.
        rewrite Hi in Hlast. injection Hlast as ->. eauto.
      * rewrite lookup_app_l in Hi, Hi' by lia. eauto.
Qed.

(** X12: teacher forcing is consistent.  For consecutive trees t, t' of a
    series that [_simplify] returns on the tree of a digit expression, the
    targets of [compute_loss] for t exist, and every prediction whose scores
    fall, node by node, on the side of the thresholds of [predict_step] that
    these targets ask for (deletion score below -0.5, above 0.5 or within
    [-0.5, 0.5]; the class, the child slot and the child span of the target)
    makes [predict_step] return a script together with exactly t', the next
    tree of the series. *)
Theorem teacher_step e fuel series (i : nat) t t' :
  digits e = true ->
  _simplify fuel (tree_of_expr e) = Ok series ->
  series !! i = Some t -> series !! S i = Some t' ->
  exists tg,
    loss_targets t = Ok tg /\
    forall p fuel', fits p tg t = true ->
      exists s, predict_step fuel' alphabet p t = Ok (s, t').
Proof.
  intros Hdig H Hi Hi'.
  destruct (series_chain_inv (fun e => digits e = true) digits_step
              fuel e [tree_of_expr e] series Hdig H eq_refl) with i t t'
    as (e' & Hd' & -> & ->); [|exact Hi|exact Hi'|].
  { intros [|[|k]] x y Hx Hy; discriminate. }
  destruct (targets_encoded e' Hd') as (tg & Htg & Hrows).
  exists tg. split; [exact Htg|]. intros p fuel' Hfit.
  assert (decided p (tree_of_expr e').2 0 (keep "root" :: dec_of e')) as Hdec.
  { apply (fits_decided p tg); [exact Hrows| |exact Hfit].
    destruct (tree_placed e') as (pi & _ & _ & ->).
    cbn [length]. now rewrite dec_of_length. }
  exists (reps e' 1 ++ inss e' 1 ++ dels e' 1).
  unfold predict_step. rewrite (predict_script_encoded e' p fuel' Hdec).
  cbn [mbind res_bind]. rewrite apply_phases_encoded. reflexivity.
Qed.

Lemma teacher_step_witness :
  exists tg s,
    loss_targets t_plus_1_s0 = Ok tg /\
    fits (teacher tg) tg t_plus_1_s0 = true /\
    predict_step 0 alphabet (teacher tg) t_plus_1_s0 = Ok (s, t_plus_s1_0).
Proof.
  destruct (teacher_step (Plus (Num 1) (Succ (Num 0))) 5
              [t_plus_1_s0; t_plus_s1_0; t_2] 0 t_plus_1_s0 t_plus_s1_0)
    as (tg & Htg & Hp); [vm_compute; reflexivity..|].
  assert (fits (teacher tg) tg t_plus_1_s0 = true) as Hfit.
  { vm_compute in Htg. injection Htg as <-. vm_compute. reflexivity. }
  destruct (Hp (teacher tg) 0 Hfit) as (s & Hs).
  exists tg, s. split; [exact Htg|]. split; [exact Hfit|exact Hs].
Defined.

Local Open Scope nat_scope.

(** ** The check before the child-score terms of [compute_loss] *)

Section LossCheck.
Variables (nodes : list string) (adj : list (list nat)) (pi : list nat)
  (tg : targets) (width : nat).
Hypothesis wide : 2 <= width.

Local Abbreviation checks := (foldM (check_node adj tg width)).

Lemma checks_one i u : checks [i] u = check_node adj tg width u i.
Proof. simpl. destruct (check_node adj tg width u i); reflexivity. Qed.

Lemma check_other i x k c C u :
  row_of tg i = Some (x, k, c, C) -> ins_target x = false ->
  check_node adj tg width u i = Ok u.
Proof.
  intros (Hx & _)%row_of_Some Hg. unfold check_node, lookup_err.
  rewrite Hx. cbn [mbind res_bind]. now rewrite Hg.
Qed.

Lemma check_keep i lab u :
  rows_at tg i [keep lab] -> check_node adj tg width u i = Ok u.
Proof.
  intros ((k & _ & H) & _)%rows_at_cons.
  now apply (check_other i _ _ _ _ u H).
Qed.

Lemma check_drop i lab u :
  rows_at tg i [drop_node lab] -> check_node adj tg width u i = Ok u.
Proof.
  intros ((k & _ & H) & _)%rows_at_cons.
  now apply (check_other i _ _ _ _ u H).
Qed.

Lemma check_wrap i c a b u :
  rows_at tg i [wrap c] -> c < 2 -> adj !! i = Some [a; b] ->
  check_node adj tg width u i = Ok u.
Proof.
  intros ((k & _ & (Hx & _ & Hc & HC)%row_of_Some) & _)%rows_at_cons Hlt Ha.
  cbn [wrap d_delta d_slot d_span] in Hx, Hc, HC.
  unfold check_node, lookup_err. rewrite Hx. cbn [mbind res_bind].
  change (ins_target 1) with true. cbn match.
  rewrite Hc. cbn [mbind res_bind]. rewrite HC. cbn [mbind res_bind].
  rewrite Ha. cbn [mbind res_bind length].
  destruct (Nat.leb_spec 2 c); [lia|].
  destruct (Nat.ltb_spec width (c + 1)); [lia|].
  destruct (Nat.ltb_spec 2 (c + 1)); [lia|]. reflexivity.
Qed.

Lemma rows_at_one o d ds : rows_at tg o (d :: ds) -> rows_at tg o [d].
Proof.
  intros (H & _)%rows_at_cons. apply rows_at_cons. split; [exact H|apply rows_at_nil].
Qed.

(** no node of a placed expression fails the check *)
Lemma check_subtree e : forall o u,
  placed nodes adj pi o e -> rows_at tg o (dec_of e) ->
  checks (seq o (esize e)) u = Ok u.
Proof.
  induction e as [n|n|e Hne IH|l IHl|l n Hn IHl|l r0 IHl IHr|l a b IHl IHr]
    using expr_rule_ind; intros o u Hpl Hrows.
  - cbn [dec_of] in Hrows. cbn [esize seq]. rewrite checks_one.
    now apply (check_keep o (py_str n)).
  - change (dec_of (Succ (Num n)))
      with [drop_node "succ"; keep (py_str ((n + 1) mod 10))] in Hrows.
    pose proof (rows_at_one _ _ _ Hrows) as H0.
    apply rows_at_cons in Hrows as (_ & H1).
    cbn [esize seq foldM].
    rewrite (check_drop o "succ" u H0). cbn [mbind res_bind].
    rewrite (check_keep (S o) _ u H1). reflexivity.
  - destruct Hpl as (_ & _ & _ & Hpe).
    rewrite dec_of_succ in Hrows by exact Hne.
    pose proof (rows_at_one _ _ _ Hrows) as H0.
    apply rows_at_cons in Hrows as (_ & Hrows).
    cbn [esize seq foldM].
    rewrite (check_keep o "succ" u H0). cbn [mbind res_bind].
    now apply IH.
  - destruct Hpl as (_ & _ & _ & _ & Hpl & _).
    change (dec_of (Plus l (Num 0)))
      with ([drop_node "+"] ++ dec_of l ++ [drop_node "0"]) in Hrows.
    cbn [app] in Hrows.
    pose proof (rows_at_one _ _ _ Hrows) as H0.
    apply rows_at_cons in Hrows as (_ & Hrows).
    apply rows_at_app in Hrows as (Hl & H1).
    cbn [esize seq]. rewrite seq_app. cbn [seq foldM].
    rewrite (check_drop o "+" u H0). cbn [mbind res_bind].
    rewrite foldM_app, (IHl (S o) u Hpl Hl). cbn [mbind res_bind].
    rewrite checks_one. rewrite dec_of_length in H1.
    now apply (check_drop _ "0").
  - destruct Hpl as (_ & Ha & _ & _ & Hpl & _).
    rewrite dec_of_plus_num in Hrows by exact Hn.
    cbn [app] in Hrows.
    pose proof (rows_at_one _ _ _ Hrows) as H0.
    apply rows_at_cons in Hrows as (_ & Hrows).
    apply rows_at_app in Hrows as (Hl & H1).
    cbn [esize seq]. rewrite seq_app. cbn [seq foldM].
    rewrite (check_wrap o 1 _ _ u H0 ltac:(lia) Ha). cbn [mbind res_bind].
    rewrite foldM_app, (IHl (S o) u Hpl Hl). cbn [mbind res_bind].
    rewrite checks_one. rewrite dec_of_length in H1.
    now apply (check_keep _ (py_str (n - 1))).
  - destruct Hpl as (_ & Ha & _ & _ & Hpl & _ & _ & _ & Hplr).
    change (dec_of (Plus l (Succ r0)))
      with ([wrap 0] ++ dec_of l ++ [drop_node "succ"] ++ dec_of r0) in Hrows.
    cbn [app] in Hrows.
    pose proof (rows_at_one _ _ _ Hrows) as H0.
    apply rows_at_cons in Hrows as (_ & Hrows).
    apply rows_at_app in Hrows as (Hl & Hrows).
    pose proof (rows_at_one _ _ _ Hrows) as H1.
    apply rows_at_cons in Hrows as (_ & Hr0).
    rewrite dec_of_length in H1, Hr0.
    change (esize (Plus l (Succ r0))) with (S (esize l + S (esize r0))).
    cbn [seq]. rewrite seq_app. cbn [seq foldM].
    rewrite (check_wrap o 0 _ _ u H0 ltac:(lia) Ha). cbn [mbind res_bind].
    rewrite foldM_app, (IHl (S o) u Hpl Hl). cbn [mbind res_bind foldM].
    rewrite (check_drop _ "succ" u H1). cbn [mbind res_bind].
    now apply IHr.
  - destruct Hpl as (_ & _ & _ & _ & Hpl & Hplr).
    rewrite dec_of_plus_plus in Hrows. cbn [app] in Hrows.
    pose proof (rows_at_one _ _ _ Hrows) as H0.
    apply rows_at_cons in Hrows as (_ & Hrows).
    apply rows_at_app in Hrows as (Hl & Hr0).
    rewrite dec_of_length in Hr0.
    change (esize (Plus l (Plus a b))) with (S (esize l + esize (Plus a b))).
    cbn [seq]. rewrite seq_app. cbn [foldM].
    rewrite (check_keep o "+" u H0). cbn [mbind res_bind].
    rewrite foldM_app, (IHl (S o) u Hpl Hl). cbn [mbind res_bind].
    now apply IHr.
Qed.

End LossCheck.

(** X13: [compute_loss] gets past its targets and its internal check.  On
    the tree of a digit expression the loop that sets the targets raises
    nothing, and when a row of the predicted child scores has at least two
    entries the check before the child-score terms (the ValueError
    'Internal error: child index was larger than expected') fires at no
    node. *)
Theorem loss_check_passes e width :
  digits e = true -> 2 <= width ->
  exists tg,
    loss_targets (tree_of_expr e) = Ok tg /\
    loss_check (tree_of_expr e) tg width = Ok tt.
Proof.
  intros Hdig Hw. destruct (targets_encoded e Hdig) as (tg & Htg & Hrows).
  exists tg. split; [exact Htg|].
  destruct (tree_placed e) as (pi & Hpl & _ & Hlen).
  unfold loss_check. rewrite Hlen. cbn [seq foldM].
  rewrite (check_keep _ tg width 0 "root" tt (rows_at_one _ _ _ _ Hrows)).
  cbn [mbind res_bind].
  apply rows_at_cons in Hrows as (_ & Hrows).
  exact (check_subtree _ _ pi tg width Hw e 1 tt Hpl Hrows).
Qed.

Lemma loss_check_passes_witness :
  exists tg,
    loss_targets t_plus_1_s0 = Ok tg /\ loss_check t_plus_1_s0 tg 2 = Ok tt.
Proof.
  apply (loss_check_passes (Plus (Num 1) (Succ (Num 0))) 2);
    [vm_compute; reflexivity|lia].
Defined.

Local Open Scope nat_scope.

(** ** [predict_step] under scores that keep every node *)

Lemma foldM_skip {A B} (f : B -> A -> res B) l b :
  (forall a, a ∈ l -> f b a = Ok b) -> foldM f l b = Ok b.
Proof.
  induction l as [|a l IH]; intros H; [reflexivity|].
  simpl. rewrite (H a) by left. simpl. apply IH. intros a' Ha'. apply H. now right.
Qed.

Lemma apply_script_snoc s ed t t1 :
  apply_script s t = Ok t1 -> apply_script (s ++ [ed]) t = apply_edit ed t1.
Proof.
  revert t. induction s as [|e0 s IH]; intros t H; simpl in *.
  - injection H as ->. now destruct (apply_edit ed t1).
  - destruct (apply_edit e0 t) as [t0| |]; simpl in *; try discriminate.
    now apply IH.
Qed.

Section KeepScores.
Variables (fuel : nat) (alpha : list string) (p : prediction)
  (nodes : list string) (adj : list (list nat)).
Hypothesis kept : forall i, i < length nodes ->
  exists x lab, delta p !! i = Some (Fin x) /\ Qle_bool (Qabs x) half = true /\
    type_pred alpha p i = Ok lab.

Lemma keep_replace m : forall a s cur,
  a + m <= length nodes ->
  apply_script s (nodes, adj) = Ok (cur, adj) ->
  relabelled_to p alpha nodes a cur -> only_replacements s ->
  exists s' cur',
    foldM (visit_replace alpha p nodes) (seq a m) s = Ok s' /\
    apply_script s' (nodes, adj) = Ok (cur', adj) /\
    relabelled_to p alpha nodes (a + m) cur' /\ only_replacements s'.
Proof.
  unfold relabelled_to, only_replacements.
  induction m as [|m IH]; intros a s cur Hb Hs Hinv Hrep.
  - exists s, cur. rewrite Nat.add_0_r. auto.
  - destruct (kept a) as (x & lab & Hx & Hg & Hl); [lia|].
    destruct (lookup_lt_is_Some_2 nodes a) as (c & Hc); [lia|].
    destruct Hinv as (Hlen & Hlow & Hhigh).
    assert (visit_replace alpha p nodes s a
            = Ok (if negb (String.eqb lab c)
                  then s ++ [Replacement (Z.of_nat a) lab] else s)) as Hv.
    { unfold visit_replace, lookup_err. rewrite Hx. cbn [mbind res_bind abs_above_half].
      unfold gt_half. rewrite Hg. cbn [negb]. rewrite Hl. cbn [mbind res_bind].
      rewrite Hc. cbn [mbind res_bind]. now destruct (negb _). }
    cbn [seq foldM]. rewrite Hv. cbn [mbind res_bind].
    replace (a + S m) with (S a + m) by lia.
    destruct (String.eqb_spec lab c) as [->|Hne]; cbn [negb].
    + apply (IH (S a) s cur); [lia|exact Hs| |exact Hrep].
      split; [exact Hlen|]. split; [|intros i Hi; apply Hhigh; lia].
      intros i l Hi Hcur. destruct (Nat.eq_dec i a) as [->|Hia].
      * rewrite Hhigh, Hc in Hcur by lia. injection Hcur as <-. exact Hl.
      * apply Hlow; [lia|exact Hcur].
    + apply (IH (S a) _ (<[a := lab]> cur)); [lia| | |].
      * rewrite (apply_script_snoc _ _ _ _ Hs). cbn [apply_edit].
        unfold apply_replacement. cbn [fst snd].
        rewrite valid_pos_of_nat by lia. reflexivity.
      * split; [now rewrite length_insert|]. split.
        -- intros i l Hi Hcur. destruct (Nat.eq_dec i a) as [->|Hia].
           ++ rewrite list_lookup_insert_eq in Hcur by lia.
              injection Hcur as <-. exact Hl.
           ++ rewrite list_lookup_insert_ne in Hcur by lia.
              apply Hlow; [lia|exact Hcur].
        -- intros i Hi. rewrite list_lookup_insert_ne by lia. apply Hhigh. lia.
      * apply Forall_app. split; [exact Hrep|].
        constructor; [|constructor]. eauto.
Qed.

Lemma keep_insert st i :
  i < length nodes -> visit_insert fuel alpha p adj st i = Ok st.
Proof.
  intros Hi. destruct (kept i Hi) as (x & lab & Hx & Hg & _).
  apply within_half in Hg as (_ & Hg & _).
  unfold visit_insert, lookup_err. rewrite Hx. cbn [mbind res_bind at_most_half].
  now rewrite Hg.
Qed.

Lemma keep_delete sh s i :
  i < length nodes -> visit_delete p sh s i = Ok s.
Proof.
  intros Hi. destruct (kept i Hi) as (x & lab & Hx & Hg & _).
  apply within_half in Hg as (_ & _ & Hg).
  now apply (delete_skip p sh i x).
Qed.

End KeepScores.

(** X14: scores that keep every node only relabel.  When every deletion
    score of the prediction lies within [-0.5, 0.5] and every node has a
    predicted class in the alphabet, [predict_step] returns a script of
    replacements only, and a tree with the adjacency list of its input, as
    many nodes, and at each node the class predicted for it (Script.apply as
    the edit semantics of the verified model). *)
Theorem keep_scores_relabel fuel alpha p (t : tree) :
  (forall i, i < length t.1 ->
     exists x lab, delta p !! i = Some (Fin x) /\ Qle_bool (Qabs x) half = true /\
       type_pred alpha p i = Ok lab) ->
  exists s nodes',
    predict_step fuel alpha p t = Ok (s, (nodes', t.2)) /\
    length nodes' = length t.1 /\
    (forall i lab, nodes' !! i = Some lab -> type_pred alpha p i = Ok lab) /\
    Forall (fun ed => exists i lab, ed = Replacement i lab) s.
Proof.
  destruct t as [nodes adj]. cbn [fst snd]. intros Hk.
  destruct (keep_replace alpha p nodes adj Hk (length nodes) 0 [] nodes)
    as (s & cur & Hs & Hap & (Hlen & Hlow & _) & Hrep).
  - lia.
  - reflexivity.
  - split; [reflexivity|]. split; [intros i lab Hi; lia|reflexivity].
  - constructor.
  - exists s, cur. split; [|split; [exact Hlen|split; [|exact Hrep]]].
    + unfold predict_step, predict_script. cbn [fst snd]. rewrite Hs.
      cbn [mbind res_bind].
      rewrite foldM_skip.
      2:{ intros i Hi%elem_of_seq. apply (keep_insert fuel alpha p nodes adj Hk). lia. }
      cbn [mbind res_bind fst snd].
      rewrite foldM_skip.
      2:{ intros i Hi%list_elem_of_In%in_rev%list_elem_of_In%elem_of_seq.
          apply (keep_delete alpha p nodes Hk). lia. }
      cbn [mbind res_bind]. rewrite Hap. reflexivity.
    + intros i lab Hi. apply Hlow; [|exact Hi].
      apply lookup_lt_Some in Hi. lia.
Qed.

Lemma keep_scores_relabel_witness :
  exists s nodes',
    predict_step 0 alphabet
      {| delta := [Fin 0; Fin 0]; types := [[0; 1]; [1; 0]]%Q; Cidx := []; Cnum := [] |}
      t_2 = Ok (s, (nodes', t_2.2)) /\
    length nodes' = length t_2.1 /\
    (forall i lab, nodes' !! i = Some lab ->
       type_pred alphabet
         {| delta := [Fin 0; Fin 0]; types := [[0; 1]; [1; 0]]%Q; Cidx := []; Cnum := [] |}
         i = Ok lab) /\
    Forall (fun ed => exists i lab, ed = Replacement i lab) s.
Proof.
  apply (keep_scores_relabel 0 alphabet
           {| delta := [Fin 0; Fin 0]; types := [[0; 1]; [1; 0]]%Q; Cidx := []; Cnum := [] |}
           t_2).
  intros [|[|i]] Hi; [eexists _, _; repeat split; reflexivity..|simpl in Hi; lia].
Defined.

Local Open Scope nat_scope.

(** ** The script of [predict_step] under Script.apply *)





Section Tracking.
Variable adj : list (list nat).
Hypothesis ordered : forall m row x,
  adj !! m = Some row -> x ∈ row -> m < x < length adj.











End Tracking.

Section SlotCheck.
Variables (fuel : nat) (alpha : list string) (p : prediction) (t : tree).
Hypothesis shaped : length t.2 = length t.1.
Hypothesis ordered : forall m row x,
  t.2 !! m = Some row -> x ∈ row -> m < x < length t.2.







End SlotCheck.



